(** * Hylio/Cache: a shallow embedding of the four eviction policies
      (SIMPLE, LRU, LFU, ARC) and of the single-flight coordinator.

    Conventions of the embedding.
    - Keys are an arbitrary countable type [K], values an arbitrary type [V],
      loader errors an arbitrary type [E] (Go's [interface{}] and [error]).
    - Go's [int] and [uint]/[uint64] are [Z] with the wrap-around written out
      ([wrap_int], [wrap_uint]).  Sums of list lengths are not wrapped: a list
      cell occupies memory, so such a sum stays far below [2^63].
    - [time.Time] is a [Z] (an instant), [time.Duration] a [Z].
    - Every operation is a computation in the monad [M S], a state monad over
      the cache object with a [Panic] outcome that keeps the state reached so
      far (a Go panic does not undo earlier writes, and [recover] sees them).
    - An operation is modelled from a quiescent point, where it runs alone
      from its first to its last line and finds every mutex free.  The
      RWMutex and Mutex calls that pair ([Lock] with [Unlock], [RLock] with
      [RUnlock]) are left out; where a function releases a lock that it does
      not hold, the mutex is written out (see [RWMutex]).
    - Callbacks ([addedFunc], [evictedFunc]) are opaque user functions that
      may not re-enter the cache; their calls are recorded in [events]. *)

From stdpp Require Import gmap list sorting strings.
From Stdlib Require Import ZArith Lia.

Local Open Scope Z_scope.
Set Warnings "-clear-no-such-hyp".

(** ** Machine integers *)

Definition wrap_int (z : Z) : Z := (z + 2 ^ 63) mod 2 ^ 64 - 2 ^ 63.
Definition wrap_uint (z : Z) : Z := z mod 2 ^ 64.

(** ** The state-and-panic monad *)

Inductive Res (S A : Type) : Type :=
  | Ok (a : A) (s : S)
  | Panic (s : S).
Arguments Ok {S A} a s.
Arguments Panic {S A} s.

Definition M (S A : Type) : Type := S → Res S A.

Definition stateOf {S A} (r : Res S A) : S :=
  match r with Ok _ s => s | Panic s => s end.

#[export] Instance M_ret {S} : MRet (M S) := λ A a s, Ok a s.
#[export] Instance M_bind {S} : MBind (M S) := λ A B f m s,
  match m s with
  | Ok a s' => f a s'
  | Panic s' => Panic s'
  end.

Definition getS {S} : M S S := λ s, Ok s s.
Definition gets {S A} (f : S → A) : M S A := λ s, Ok (f s) s.
Definition modify {S} (f : S → S) : M S unit := λ s, Ok tt (f s).
Definition panic {S A} : M S A := λ s, Panic s.
Definition when {S} (b : bool) (m : M S unit) : M S unit :=
  if b then m else mret tt.

(** [recover m h]: run [m]; a panic of [m] is caught and [h] continues from
    the state reached at the panic (Go's [defer func() { recover() }()]). *)
Definition recover {S A} (m : M S A) (h : M S A) : M S A := λ s,
  match m s with
  | Ok a s' => Ok a s'
  | Panic s' => h s'
  end.

(** [for k, x := range mp { b = f b k x }]: Go leaves the order of a map
    range unspecified; the embedding ranges in the order of [map_to_list],
    and what is proved about a range does not depend on that order. *)
Definition rangeMap `{Countable K} {A B : Type}
    (f : B → K → A → B) (mp : gmap K A) (b : B) : B :=
  fold_left (λ acc kx, f acc kx.1 kx.2) (map_to_list mp) b.

(** ** sync.RWMutex

    The state of a mutex: whether a writer holds it, and how many readers
    do.  [RLock] returns at once when no writer holds the mutex, the only
    case that arises for an operation that runs alone.  [Unlock] of a mutex
    that no writer holds is a fatal error of the Go runtime
    ("sync: Unlock of unlocked RWMutex"): it stops the program, and no
    [recover] catches it; [Unlock] gives [None] there. *)
Record RWMutex : Type := { writer : bool; readers : nat }.

Definition freeMutex : RWMutex := {| writer := false; readers := 0 |}.

Definition RLock (mu : RWMutex) : RWMutex :=
  {| writer := writer mu; readers := S (readers mu) |}.

Definition Unlock (mu : RWMutex) : option RWMutex :=
  if writer mu then Some {| writer := false; readers := readers mu |} else None.

(** Total-correctness triples for [M]. *)
Definition hoare {S A} (P : S → Prop) (m : M S A) (Q : A → S → Prop) : Prop :=
  ∀ s, P s → ∃ a s', m s = Ok a s' ∧ Q a s'.

(** ** cache.go: errors, callbacks, statistics, the base state *)

Section base.
Context {K V E : Type} `{Countable K}.

Inductive error : Type :=
  | KeyNotFoundError
  | LoaderError (e : E)      (* an error value returned by the user loader *)
  | LoaderPanic.             (* fmt.Errorf("loader panics: %v", r) *)

(** What a call of [loaderExpireFunc] does: return its triple or panic.
    The returned error is any [error] value. *)
Inductive loaded : Type :=
  | Loaded (v : V) (expiration : option Z) (e : option error)
  | LoaderPanics.

Inductive event : Type :=
  | Added (k : K) (v : V)
  | Evicted (k : K) (v : V).

Record stats : Type := { hitCount : Z; missCount : Z }.

Definition IncrHitCount (s : stats) : stats :=
  {| hitCount := wrap_uint (hitCount s + 1); missCount := missCount s |}.
Definition IncrMissCount (s : stats) : stats :=
  {| hitCount := hitCount s; missCount := wrap_uint (missCount s + 1) |}.
Definition LookupCount (s : stats) : Z :=
  wrap_uint (hitCount s + missCount s).

(** The body shared by the four [IsExpired] methods: [exp] is the item's
    expiration, [clk] the reading of the item's clock, [now] the argument. *)
Definition isExpired (exp : option Z) (clk : Z) (now : option Z) : bool :=
  match exp with
  | None => false
  | Some e =>
      let now := match now with None => clk | Some t => t end in
      bool_decide (e < now)                    (* it.expiration.Before(now) *)
  end.

End base.
Arguments error : clear implicits.
Arguments loaded : clear implicits.
Arguments event : clear implicits.

(** singleflight.go: the registry of in-flight requests. *)
Module Flight.
Section flight.
Context {K V E : Type} `{Countable K}.

(** An in-flight request; [wg] is the WaitGroup counter. *)
Record call : Type := { wg : Z; val : option V; err : option (error E) }.

(** [m] is the descriptor map; [goroutines] lists the keys whose
    [go g.call(c, key, fn)] has been dispatched and has not run yet. *)
Record Group : Type := { m : gmap K call; goroutines : list K }.

Definition setM (m' : gmap K call) (g : Group) : Group :=
  {| m := m'; goroutines := goroutines g |}.
Definition setGoroutines (gs : list K) (g : Group) : Group :=
  {| m := m g; goroutines := gs |}.
End flight.
Arguments call : clear implicits.
Arguments Group K V E {_ _}.
End Flight.

(** The fields of [baseCache]; kept in a module of their own because
    policies have fields of the same names. *)
Module Base.
Section base.
Context {K V E : Type} `{Countable K}.

Record baseCache : Type := {
  clock : Z;                                  (* c.clock.Now() *)
  size : Z;
  loaderExpireFunc : option (K → loaded V E);
  evictedFunc : bool;                         (* evictedFunc != nil *)
  addedFunc : bool;                           (* addedFunc != nil *)
  expiration : option Z;
  group : Flight.Group K V E;
  stats_ : stats;
  events : list (event K V)                         (* callback calls, oldest first *)
}.

Definition setStats (st : stats) (b : baseCache) : baseCache :=
  {| clock := clock b; size := size b; loaderExpireFunc := loaderExpireFunc b;
     evictedFunc := evictedFunc b; addedFunc := addedFunc b;
     expiration := expiration b; group := group b; stats_ := st;
     events := events b |}.
Definition setGroup (g : Flight.Group K V E) (b : baseCache) : baseCache :=
  {| clock := clock b; size := size b; loaderExpireFunc := loaderExpireFunc b;
     evictedFunc := evictedFunc b; addedFunc := addedFunc b;
     expiration := expiration b; group := g; stats_ := stats_ b;
     events := events b |}.
Definition setEvents (ev : list (event K V)) (b : baseCache) : baseCache :=
  {| clock := clock b; size := size b; loaderExpireFunc := loaderExpireFunc b;
     evictedFunc := evictedFunc b; addedFunc := addedFunc b;
     expiration := expiration b; group := group b; stats_ := stats_ b;
     events := ev |}.
Definition setClock (t : Z) (b : baseCache) : baseCache :=
  {| clock := t; size := size b; loaderExpireFunc := loaderExpireFunc b;
     evictedFunc := evictedFunc b; addedFunc := addedFunc b;
     expiration := expiration b; group := group b; stats_ := stats_ b;
     events := events b |}.

(** [if c.evictedFunc != nil { c.evictedFunc(k, v) }] *)
Definition callEvicted (k : K) (v : V) (b : baseCache) : baseCache :=
  if evictedFunc b then setEvents (events b ++ [Evicted k v]) b else b.
(** [if c.addedFunc != nil { c.addedFunc(k, v) }] *)
Definition callAdded (k : K) (v : V) (b : baseCache) : baseCache :=
  if addedFunc b then setEvents (events b ++ [Added k v]) b else b.

(** buildCache on a builder holding these options; [t0] is the reading of
    the configured clock. *)
Definition buildCache (t0 sz : Z) (ld : option (K → loaded V E))
    (ev ad : bool) (ex : option Z) : baseCache :=
  {| clock := t0; size := sz; loaderExpireFunc := ld; evictedFunc := ev;
     addedFunc := ad; expiration := ex;
     group := {| Flight.m := ∅; Flight.goroutines := [] |};
     stats_ := {| hitCount := 0; missCount := 0 |}; events := [] |}.

End base.
Arguments baseCache K V E {_ _}.
End Base.

(** ** arc.go: the ARC policy *)

Module Arc.
Section defs.
Context {K V E : Type} `{Countable K}.

Record arcItem : Type :=
  { key : K; value : V; expiration : option Z }.

Definition setValue (v : V) (it : arcItem) : arcItem :=
  {| key := key it; value := v; expiration := expiration it |}.
Definition setExpiration (t : option Z) (it : arcItem) : arcItem :=
  {| key := key it; value := value it; expiration := t |}.

(** arcList: [l] is the container/list of keys, front first; [keys] is the
    index from a key to its list element.  An element is named by the key
    it holds, so [keys] is modelled by its domain. *)
Record arcList : Type := { l : list K; keys : gset K }.

Definition newArcList : arcList := {| l := []; keys := ∅ |}.

Definition Has (a : arcList) (k : K) : bool := bool_decide (k ∈ keys a).

(** [Get] returns the element for [k], or nil. *)
Definition Get (a : arcList) (k : K) : option K :=
  if bool_decide (k ∈ keys a) then Some k else None.

(** list.MoveToFront: nothing happens when [ele] is not an element of
    the list. *)
Definition listMoveToFront (ele : K) (xs : list K) : list K :=
  if bool_decide (ele ∈ xs) then ele :: filter (λ x, x ≠ ele) xs else xs.

Definition MoveToFront (a : arcList) (ele : K) : arcList :=
  {| l := listMoveToFront ele (l a); keys := keys a |}.

Definition PushFront (a : arcList) (k : K) : arcList :=
  if bool_decide (k ∈ keys a) then MoveToFront a k
  else {| l := k :: l a; keys := {[k]} ∪ keys a |}.

Definition Remove (a : arcList) (k : K) (ele : K) : arcList :=
  {| l := filter (λ x, x ≠ ele) (l a); keys := keys a ∖ {[k]} |}.

(** [RemoveTail] dereferences [a.l.Back()]: on an empty list that is a nil
    pointer dereference, modelled by [None]. *)
Definition RemoveTail (a : arcList) : option (K * arcList) :=
  match last (l a) with
  | None => None
  | Some k => Some (k, {| l := removelast (l a); keys := keys a ∖ {[k]} |})
  end.

Definition Len (a : arcList) : Z := Z.of_nat (length (l a)).

Record ARCCache : Type := {
  base : Base.baseCache K V E;
  items : gmap K arcItem;
  part : Z;
  t1 : arcList; t2 : arcList; b1 : arcList; b2 : arcList
}.

Definition setBase (b : Base.baseCache K V E) (c : ARCCache) : ARCCache :=
  {| base := b; items := items c; part := part c;
     t1 := t1 c; t2 := t2 c; b1 := b1 c; b2 := b2 c |}.
Definition setItems (i : gmap K arcItem) (c : ARCCache) : ARCCache :=
  {| base := base c; items := i; part := part c;
     t1 := t1 c; t2 := t2 c; b1 := b1 c; b2 := b2 c |}.
Definition setPartField (p : Z) (c : ARCCache) : ARCCache :=
  {| base := base c; items := items c; part := p;
     t1 := t1 c; t2 := t2 c; b1 := b1 c; b2 := b2 c |}.

(** The four lists are addressed by name. *)
Inductive lname : Type := T1 | T2 | B1 | B2.

Definition lst (n : lname) (c : ARCCache) : arcList :=
  match n with T1 => t1 c | T2 => t2 c | B1 => b1 c | B2 => b2 c end.

Definition setLst (n : lname) (a : arcList) (c : ARCCache) : ARCCache :=
  match n with
  | T1 => {| base := base c; items := items c; part := part c;
             t1 := a; t2 := t2 c; b1 := b1 c; b2 := b2 c |}
  | T2 => {| base := base c; items := items c; part := part c;
             t1 := t1 c; t2 := a; b1 := b1 c; b2 := b2 c |}
  | B1 => {| base := base c; items := items c; part := part c;
             t1 := t1 c; t2 := t2 c; b1 := a; b2 := b2 c |}
  | B2 => {| base := base c; items := items c; part := part c;
             t1 := t1 c; t2 := t2 c; b1 := b1 c; b2 := a |}
  end.

Definition pushFront (n : lname) (k : K) : M ARCCache unit :=
  modify (λ c, setLst n (PushFront (lst n c) k) c).
Definition removeFrom (n : lname) (k ele : K) : M ARCCache unit :=
  modify (λ c, setLst n (Remove (lst n c) k ele) c).
Definition moveToFront (n : lname) (ele : K) : M ARCCache unit :=
  modify (λ c, setLst n (MoveToFront (lst n c) ele) c).
Definition removeTail (n : lname) : M ARCCache K := λ c,
  match RemoveTail (lst n c) with
  | Some (k, a) => Ok k (setLst n a c)
  | None => Panic c
  end.

Definition init (b : Base.baseCache K V E) : ARCCache :=
  {| base := b; items := ∅; part := 0;
     t1 := newArcList; t2 := newArcList; b1 := newArcList; b2 := newArcList |}.

Definition IsExpired (it : arcItem) (clk : Z) (now : option Z) : bool :=
  isExpired (expiration it) clk now.

Definition isCacheFull (c : ARCCache) : bool :=
  bool_decide (Len (t1 c) + Len (t2 c) = Base.size (base c)).

Definition setPart (p : Z) : M ARCCache unit :=
  c ← getS;
  when (isCacheFull c) (modify (setPartField p)).

(** [item, ok := c.items[k]; if ok { delete(c.items, k); evictedFunc(...) }] *)
Definition dropItem (k : K) : M ARCCache unit :=
  c ← getS;
  match items c !! k with
  | Some item =>
      modify (setItems (delete k (items c)));;
      modify (λ c, setBase (Base.callEvicted (key item) (value item) (base c)) c)
  | None => mret tt
  end.

Definition replace (k : K) : M ARCCache unit :=
  c ← getS;
  if negb (isCacheFull c) then mret tt else
  old ← (if bool_decide (0 < Len (t1 c)) &&
            ((Has (b2 c) k && bool_decide (Len (t1 c) = part c))
             || bool_decide (part c < Len (t1 c)))
         then old ← removeTail T1; pushFront B1 old;; mret old
         else if bool_decide (0 < Len (t2 c))
         then old ← removeTail T2; pushFront B2 old;; mret old
         else old ← removeTail T1; pushFront B1 old;; mret old);
  dropItem old.

(** Go's integer division panics on a zero divisor. *)
Definition idiv (a b : Z) : M ARCCache Z :=
  if bool_decide (b = 0) then panic else mret (Z.quot a b).

Definition set (k : K) (v : V) : M ARCCache unit :=
  c ← getS;
  let item := match items c !! k with
              | Some it => setValue v it
              | None => {| key := k; value := v; expiration := None |}
              end in
  let item := match Base.expiration (base c) with
              | Some d => setExpiration (Some (Base.clock (base c) + d)) item
              | None => item
              end in
  modify (setItems (<[k := item]> (items c)));;
  if Has (t1 c) k && Has (t2 c) k then mret tt else
  match Get (b1 c) k with
  | Some ele =>
      q ← idiv (Len (b2 c)) (Len (b1 c));
      setPart (Z.min (Base.size (base c)) (wrap_int (part c + Z.max q 1)));;
      replace k;;
      removeFrom B1 k ele;;
      pushFront T2 k
  | None =>
  match Get (b2 c) k with
  | Some ele =>
      q ← idiv (Len (b1 c)) (Len (b2 c));
      setPart (Z.max 0 (wrap_int (part c - Z.max q 1)));;
      replace k;;
      removeFrom B2 k ele;;
      pushFront T2 k
  | None =>
      (if isCacheFull c && bool_decide (Len (t1 c) + Len (b1 c) = Base.size (base c))
       then
         if bool_decide (Len (t1 c) < Base.size (base c))
         then removeTail B1;; replace k
         else pop ← removeTail T1; dropItem pop
       else
         let total := Len (t1 c) + Len (t2 c) + Len (b1 c) + Len (b2 c) in
         if bool_decide (Base.size (base c) ≤ total)
         then
           (if bool_decide (total = wrap_int (2 * Base.size (base c)))
            then
              if bool_decide (0 < Len (b2 c))
              then removeTail B2;; mret tt
              else removeTail B1;; mret tt
            else mret tt);;
           replace k
         else mret tt);;
      modify (λ c, setBase (Base.callAdded k v (base c)) c);;
      pushFront T1 k
  end
  end.

(** [item.expiration = &t] on the item that [set] returned: the
    write is visible through [c.items] when the item is still stored. *)
Definition setItemExpiration (k : K) (t : Z) : M ARCCache unit :=
  modify (λ c, setItems (alter (setExpiration (Some t)) k (items c)) c).

Definition Set_ (k : K) (v : V) : M ARCCache unit := set k v.

Definition SetWithExpire (k : K) (v : V) (d : Z) : M ARCCache unit :=
  set k v;;
  c ← getS;
  setItemExpiration k (Base.clock (base c) + d).

Definition incrHit (onLoad : bool) : M ARCCache unit :=
  when (negb onLoad)
    (modify (λ c, setBase (Base.setStats (IncrHitCount (Base.stats_ (base c))) (base c)) c)).
Definition incrMiss (onLoad : bool) : M ARCCache unit :=
  when (negb onLoad)
    (modify (λ c, setBase (Base.setStats (IncrMissCount (Base.stats_ (base c))) (base c)) c)).

(** [getValue]: [Some v] is [(v, nil)], [None] is [(nil, KeyNotFoundError)].
    [c.items[key]] of an absent key is a nil item pointer, and
    [item.IsExpired] dereferences it. *)
Definition getValue (k : K) (onLoad : bool) : M ARCCache (option V) :=
  c ← getS;
  r ← match Get (t1 c) k with
      | Some ele =>
          removeFrom T1 k ele;;
          match items c !! k with
          | None => panic
          | Some item =>
              if negb (IsExpired item (Base.clock (base c)) None)
              then pushFront T2 k;; incrHit onLoad;; mret (Some (value item))
              else
                modify (setItems (delete k (items c)));;
                pushFront B1 k;;
                modify (λ c, setBase (Base.callEvicted (key item) (value item) (base c)) c);;
                mret None
          end
      | None => mret None
      end;
  match r with
  | Some v => mret (Some v)
  | None =>
  c ← getS;
  r ← match Get (t2 c) k with
      | Some ele =>
          match items c !! k with
          | None => panic
          | Some item =>
              if negb (IsExpired item (Base.clock (base c)) None)
              then moveToFront T2 ele;; incrHit onLoad;; mret (Some (value item))
              else
                modify (setItems (delete k (items c)));;
                removeFrom T2 k ele;;
                pushFront B2 k;;
                modify (λ c, setBase (Base.callEvicted (key item) (value item) (base c)) c);;
                mret None
          end
      | None => mret None
      end;
  match r with
  | Some v => mret (Some v)
  | None => incrMiss onLoad;; mret None
  end
  end.

Definition get (k : K) (onLoad : bool) : M ARCCache (option V) :=
  getValue k onLoad.

(** [remove]: [item.value] is read only when an evicted callback is set. *)
Definition removeVia (n ghost : lname) (k ele : K) : M ARCCache bool :=
  removeFrom n k ele;;
  c ← getS;
  modify (setItems (delete k (items c)));;
  pushFront ghost k;;
  (if Base.evictedFunc (base c)
   then match items c !! k with
        | Some item => modify (λ c, setBase (Base.callEvicted k (value item) (base c)) c)
        | None => panic
        end
   else mret tt);;
  mret true.

Definition remove (k : K) : M ARCCache bool :=
  c ← getS;
  match Get (t1 c) k with
  | Some elt => removeVia T1 B1 k elt
  | None =>
  match Get (t2 c) k with
  | Some elt => removeVia T2 B2 k elt
  | None => mret false
  end
  end.

Definition Remove_ (k : K) : M ARCCache bool := remove k.

Definition has (c : ARCCache) (k : K) (now : Z) : bool :=
  match items c !! k with
  | None => false
  | Some it => negb (IsExpired it (Base.clock (base c)) (Some now))
  end.

(** The read-only operations; [now] is the reading of [time.Now()].
    The loops range over the map in an unspecified order. *)
Definition GetALL (now : Z) (checkExpired : bool) : M ARCCache (gmap K V) :=
  c ← getS;
  mret (rangeMap (λ items_ k item,
                    if negb checkExpired || has c k now
                    then <[k := value item]> items_ else items_)
                 (items c) ∅).

Definition Keys (now : Z) (checkExpired : bool) : M ARCCache (list K) :=
  c ← getS;
  mret (rangeMap (λ keys_ k _,
                    if negb checkExpired || has c k now
                    then keys_ ++ [k] else keys_)
                 (items c) []).

Definition Len_ (now : Z) (checkExpired : bool) : M ARCCache Z :=
  c ← getS;
  if negb checkExpired then mret (Z.of_nat (size (items c)))
  else mret (rangeMap (λ length k _,
                         if has c k now then length + 1 else length)
                      (items c) 0).

(** [Has] takes the read lock with [c.mu.RLock()] and defers
    [c.mu.Unlock()], where [Keys] and [Len] defer [c.mu.RUnlock()]: the
    deferred call runs once the result is computed, on a mutex that this
    reader holds and no writer does.  The fatal error ends the program; it is
    the [Panic] outcome here, and [Has_] is called under no [recover]. *)
Definition Has_ (now : Z) (k : K) : M ARCCache bool :=
  c ← getS;
  let mu := RLock freeMutex in                 (* c.mu.RLock() *)
  let r := has c k now in
  match Unlock mu with                         (* defer c.mu.Unlock() *)
  | Some _ => mret r
  | None => panic       (* fatal error: sync: Unlock of unlocked RWMutex *)
  end.
End defs.
Arguments arcItem : clear implicits.
Arguments arcList K {_ _}.
Arguments ARCCache K V E {_ _}.
End Arc.

(** ** simple.go: the SIMPLE policy *)

Module Simple.
Section defs.
Context {K V E : Type} `{Countable K}.

Record simpleItem : Type := { value : V; expiration : option Z }.

Definition setValue (v : V) (it : simpleItem) : simpleItem :=
  {| value := v; expiration := expiration it |}.
Definition setExpiration (t : option Z) (it : simpleItem) : simpleItem :=
  {| value := value it; expiration := t |}.

Record SimpleCache : Type :=
  { base : Base.baseCache K V E; items : gmap K simpleItem }.

Definition setBase (b : Base.baseCache K V E) (c : SimpleCache) : SimpleCache :=
  {| base := b; items := items c |}.
Definition setItems (i : gmap K simpleItem) (c : SimpleCache) : SimpleCache :=
  {| base := base c; items := i |}.

Definition init (b : Base.baseCache K V E) : SimpleCache :=
  {| base := b; items := ∅ |}.

Definition IsExpired (it : simpleItem) (clk : Z) (now : option Z) : bool :=
  isExpired (expiration it) clk now.

Definition remove (k : K) : M SimpleCache bool :=
  sc ← getS;
  match items sc !! k with
  | Some item =>
      modify (setItems (delete k (items sc)));;
      modify (λ sc, setBase (Base.callEvicted k (value item) (base sc)) sc);;
      mret true
  | None => mret false
  end.

(** The loop of [evict]: the keys for which [defer sc.remove(key)] is
    executed, in the order of the loop. *)
Fixpoint evictScan (now : Z) (count : Z) (kvs : list (K * simpleItem)) : list K :=
  match kvs with
  | [] => []
  | (k, item) :: rest =>
      if bool_decide (count ≤ 0) then []
      else
        if match expiration item with
           | None => true
           | Some e => bool_decide (e < now)          (* now.After(e) *)
           end
        then k :: evictScan now (count - 1) rest
        else evictScan now count rest
  end.

Fixpoint removeAll (ks : list K) : M SimpleCache unit :=
  match ks with
  | [] => mret tt
  | k :: ks => remove k;; removeAll ks
  end.

(** Deferred calls run last-in first-out when [evict] returns. *)
Definition evict (count : Z) : M SimpleCache unit :=
  sc ← getS;
  removeAll (reverse (evictScan (Base.clock (base sc)) count
                        (map_to_list (items sc)))).

Definition set (k : K) (v : V) : M SimpleCache unit :=
  sc ← getS;
  match items sc !! k with
  | Some item => modify (setItems (<[k := setValue v item]> (items sc)))
  | None =>
      when (bool_decide (Base.size (base sc) ≤ Z.of_nat (size (items sc)))
            && bool_decide (0 < Base.size (base sc)))
        (evict 1);;
      modify (λ sc, setItems (<[k := {| value := v; expiration := None |}]>
                                (items sc)) sc)
  end;;
  match Base.expiration (base sc) with
  | Some d =>
      modify (λ sc, setItems (alter (setExpiration
                                       (Some (Base.clock (base sc) + d)))
                                    k (items sc)) sc)
  | None => mret tt
  end;;
  modify (λ sc, setBase (Base.callAdded k v (base sc)) sc).

Definition setItemExpiration (k : K) (t : Z) : M SimpleCache unit :=
  modify (λ sc, setItems (alter (setExpiration (Some t)) k (items sc)) sc).

Definition Set_ (k : K) (v : V) : M SimpleCache unit := set k v.

Definition SetWithExpire (k : K) (v : V) (d : Z) : M SimpleCache unit :=
  set k v;;
  sc ← getS;
  setItemExpiration k (Base.clock (base sc) + d).

Definition incrHit (onLoad : bool) : M SimpleCache unit :=
  when (negb onLoad)
    (modify (λ c, setBase (Base.setStats (IncrHitCount (Base.stats_ (base c)))
                                         (base c)) c)).
Definition incrMiss (onLoad : bool) : M SimpleCache unit :=
  when (negb onLoad)
    (modify (λ c, setBase (Base.setStats (IncrMissCount (Base.stats_ (base c)))
                                         (base c)) c)).

Definition getValue (k : K) (onload : bool) : M SimpleCache (option V) :=
  sc ← getS;
  match items sc !! k with
  | Some item =>
      if negb (IsExpired item (Base.clock (base sc)) None)
      then incrHit onload;; mret (Some (value item))
      else remove k;; incrMiss onload;; mret None
  | None => incrMiss onload;; mret None
  end.

Definition get (k : K) (onLoad : bool) : M SimpleCache (option V) :=
  getValue k onLoad.

Definition Remove (k : K) : M SimpleCache bool := remove k.

Definition has (sc : SimpleCache) (k : K) (now : Z) : bool :=
  match items sc !! k with
  | None => false
  | Some item => negb (IsExpired item (Base.clock (base sc)) (Some now))
  end.

Definition GetALL (now : Z) (checkExpired : bool) : M SimpleCache (gmap K V) :=
  sc ← getS;
  mret (rangeMap (λ items_ k item,
                    if negb checkExpired || has sc k now
                    then <[k := value item]> items_ else items_)
                 (items sc) ∅).

Definition Keys (now : Z) (checkExpired : bool) : M SimpleCache (list K) :=
  sc ← getS;
  mret (rangeMap (λ keys_ k _,
                    if negb checkExpired || has sc k now
                    then keys_ ++ [k] else keys_)
                 (items sc) []).

Definition Len (now : Z) (checkExpired : bool) : M SimpleCache Z :=
  sc ← getS;
  if negb checkExpired then mret (Z.of_nat (size (items sc)))
  else mret (rangeMap (λ length k _,
                         if has sc k now then length + 1 else length)
                      (items sc) 0).

Definition Has (now : Z) (k : K) : M SimpleCache bool :=
  sc ← getS; mret (has sc k now).
End defs.
Arguments simpleItem : clear implicits.
Arguments SimpleCache K V E {_ _}.
End Simple.

(** ** lru.go: the LRU policy *)

Module Lru.
Section defs.
Context {K V E : Type} `{Countable K}.

Record lruItem : Type := { key : K; value : V; expiration : option Z }.

Definition setValue (v : V) (it : lruItem) : lruItem :=
  {| key := key it; value := v; expiration := expiration it |}.
Definition setExpiration (t : option Z) (it : lruItem) : lruItem :=
  {| key := key it; value := value it; expiration := t |}.

(** [evictList] is the list of elements, front first, each named by the
    key of the item it holds; [items] maps a key to its element, read
    through to the item stored there. *)
Record LRUCache : Type := {
  base : Base.baseCache K V E;
  items : gmap K lruItem;
  evictList : list K
}.

Definition setBase (b : Base.baseCache K V E) (c : LRUCache) : LRUCache :=
  {| base := b; items := items c; evictList := evictList c |}.
Definition setItems (i : gmap K lruItem) (c : LRUCache) : LRUCache :=
  {| base := base c; items := i; evictList := evictList c |}.
Definition setEvictList (xs : list K) (c : LRUCache) : LRUCache :=
  {| base := base c; items := items c; evictList := xs |}.

Definition init (b : Base.baseCache K V E) : LRUCache :=
  {| base := b; items := ∅; evictList := [] |}.

Definition IsExpired (it : lruItem) (clk : Z) (now : option Z) : bool :=
  isExpired (expiration it) clk now.

Definition listMoveToFront (e : K) (xs : list K) : list K :=
  if bool_decide (e ∈ xs) then e :: filter (λ x, x ≠ e) xs else xs.

(** [removeElement e]: the item of an element that is not indexed by
    [items] cannot be read in this representation; no reachable state has
    such an element. *)
Definition removeElement (e : K) : M LRUCache unit :=
  c ← getS;
  match items c !! e with
  | None => panic
  | Some entry =>
      modify (setEvictList (filter (λ x, x ≠ e) (evictList c)));;
      modify (λ c, setItems (delete (key entry) (items c)) c);;
      modify (λ c, setBase (Base.callEvicted (key entry) (value entry) (base c)) c)
  end.

Fixpoint evictLoop (n : nat) : M LRUCache unit :=
  match n with
  | O => mret tt
  | S n =>
      c ← getS;
      match last (evictList c) with
      | None => mret tt
      | Some tail => removeElement tail;; evictLoop n
      end
  end.

Definition evict (count : Z) : M LRUCache unit := evictLoop (Z.to_nat count).

Definition set (k : K) (v : V) : M LRUCache unit :=
  c ← getS;
  match items c !! k with
  | Some it =>
      modify (setEvictList (listMoveToFront k (evictList c)));;
      modify (setItems (<[k := setValue v it]> (items c)))
  | None =>
      when (bool_decide (Base.size (base c) ≤ Z.of_nat (length (evictList c))))
        (evict 1);;
      modify (λ c, setEvictList (k :: evictList c) c);;
      modify (λ c, setItems (<[k := {| key := k; value := v;
                                       expiration := None |}]> (items c)) c)
  end;;
  match Base.expiration (base c) with
  | Some d =>
      modify (λ c, setItems (alter (setExpiration
                                      (Some (Base.clock (base c) + d)))
                                   k (items c)) c)
  | None => mret tt
  end;;
  modify (λ c, setBase (Base.callAdded k v (base c)) c).

Definition setItemExpiration (k : K) (t : Z) : M LRUCache unit :=
  modify (λ c, setItems (alter (setExpiration (Some t)) k (items c)) c).

Definition Set_ (k : K) (v : V) : M LRUCache unit := set k v.

Definition SetWithExpire (k : K) (v : V) (d : Z) : M LRUCache unit :=
  set k v;;
  c ← getS;
  setItemExpiration k (Base.clock (base c) + d).

Definition incrHit (onLoad : bool) : M LRUCache unit :=
  when (negb onLoad)
    (modify (λ c, setBase (Base.setStats (IncrHitCount (Base.stats_ (base c)))
                                         (base c)) c)).
Definition incrMiss (onLoad : bool) : M LRUCache unit :=
  when (negb onLoad)
    (modify (λ c, setBase (Base.setStats (IncrMissCount (Base.stats_ (base c)))
                                         (base c)) c)).

Definition getValue (k : K) (onLoad : bool) : M LRUCache (option V) :=
  c ← getS;
  match items c !! k with
  | Some it =>
      if negb (IsExpired it (Base.clock (base c)) None)
      then
        modify (setEvictList (listMoveToFront k (evictList c)));;
        incrHit onLoad;; mret (Some (value it))
      else removeElement k;; incrMiss onLoad;; mret None
  | None => incrMiss onLoad;; mret None
  end.

Definition get (k : K) (onLoad : bool) : M LRUCache (option V) :=
  getValue k onLoad.

Definition remove (k : K) : M LRUCache bool :=
  c ← getS;
  match items c !! k with
  | Some _ => removeElement k;; mret true
  | None => mret false
  end.

Definition Remove (k : K) : M LRUCache bool := remove k.

Definition has (c : LRUCache) (k : K) (now : Z) : bool :=
  match items c !! k with
  | None => false
  | Some item => negb (IsExpired item (Base.clock (base c)) (Some now))
  end.

Definition GetALL (now : Z) (checkExpired : bool) : M LRUCache (gmap K V) :=
  c ← getS;
  mret (rangeMap (λ items_ k item,
                    if negb checkExpired || has c k now
                    then <[k := value item]> items_ else items_)
                 (items c) ∅).

Definition Keys (now : Z) (checkExpired : bool) : M LRUCache (list K) :=
  c ← getS;
  mret (rangeMap (λ keys_ k _,
                    if negb checkExpired || has c k now
                    then keys_ ++ [k] else keys_)
                 (items c) []).

Definition Len (now : Z) (checkExpired : bool) : M LRUCache Z :=
  c ← getS;
  if negb checkExpired then mret (Z.of_nat (size (items c)))
  else mret (rangeMap (λ length k _,
                         if has c k now then length + 1 else length)
                      (items c) 0).

Definition Has (now : Z) (k : K) : M LRUCache bool :=
  c ← getS; mret (has c k now).
End defs.
Arguments lruItem : clear implicits.
Arguments LRUCache K V E {_ _}.
End Lru.

(** ** lfu.go: the LFU policy *)

Module Lfu.
Section defs.
Context {K V E : Type} `{Countable K}.

(** A frequency bucket.  The Go set [map[*lfuItem]struct{}] is keyed by item
    pointers; [L.items] holds one item per key and an item leaves its bucket
    when it leaves [L.items], so an item is named by its key. *)
Record freqEntry : Type := { freq : Z; items_ : gset K }.

Definition setFreq (f : Z) (e : freqEntry) : freqEntry :=
  {| freq := f; items_ := items_ e |}.
Definition setEntryItems (i : gset K) (e : freqEntry) : freqEntry :=
  {| freq := freq e; items_ := i |}.

(** [freqElement] is the address of a [list.Element] of [freqList]. *)
Record lfuItem : Type :=
  { key : K; value : V; freqElement : nat; expiration : option Z }.

Definition setValue (v : V) (it : lfuItem) : lfuItem :=
  {| key := key it; value := v; freqElement := freqElement it;
     expiration := expiration it |}.
Definition setFreqElement (e : nat) (it : lfuItem) : lfuItem :=
  {| key := key it; value := value it; freqElement := e;
     expiration := expiration it |}.
Definition setExpiration (t : option Z) (it : lfuItem) : lfuItem :=
  {| key := key it; value := value it; freqElement := freqElement it;
     expiration := t |}.

(** [elems] holds every [list.Element] ever allocated, by address, with
    the bucket it points to; [freqList] is the order of the elements that
    are linked in the list; [nextElem] is the first unused address.  An
    element unlinked by [list.Remove] stays in [elems]. *)
Record LFUCache : Type := {
  base : Base.baseCache K V E;
  items : gmap K lfuItem;
  freqList : list nat;
  elems : gmap nat freqEntry;
  nextElem : nat
}.

Definition setBase (b : Base.baseCache K V E) (L : LFUCache) : LFUCache :=
  {| base := b; items := items L; freqList := freqList L;
     elems := elems L; nextElem := nextElem L |}.
Definition setItems (i : gmap K lfuItem) (L : LFUCache) : LFUCache :=
  {| base := base L; items := i; freqList := freqList L;
     elems := elems L; nextElem := nextElem L |}.
Definition setFreqList (fl : list nat) (L : LFUCache) : LFUCache :=
  {| base := base L; items := items L; freqList := fl;
     elems := elems L; nextElem := nextElem L |}.
Definition setElems (es : gmap nat freqEntry) (L : LFUCache) : LFUCache :=
  {| base := base L; items := items L; freqList := freqList L;
     elems := es; nextElem := nextElem L |}.
Definition setNextElem (n : nat) (L : LFUCache) : LFUCache :=
  {| base := base L; items := items L; freqList := freqList L;
     elems := elems L; nextElem := n |}.

Definition init (b : Base.baseCache K V E) : LFUCache :=
  {| base := b; items := ∅; freqList := [0%nat];
     elems := {[ 0%nat := {| freq := 0; items_ := ∅ |} ]};
     nextElem := 1 |}.

Definition IsExpired (it : lfuItem) (clk : Z) (now : option Z) : bool :=
  isExpired (expiration it) clk now.

Definition isRemovableFreqEntry (entry : freqEntry) : bool :=
  negb (bool_decide (freq entry = 0)) && bool_decide (size (items_ entry) = 0%nat).

(** [e.Next()]: the successor of a linked element, nil at the back and
    for an element that is not linked. *)
Fixpoint Next (e : nat) (fl : list nat) : option nat :=
  match fl with
  | [] => None
  | x :: rest => if bool_decide (x = e) then head rest else Next e rest
  end.

(** [l.InsertAfter(v, mark)] for a linked [mark]; for a [mark] that is not
    linked Go's [InsertAfter] inserts nothing and returns nil, which
    [increment] tests before it calls this. *)
Fixpoint InsertAfter (new mark : nat) (fl : list nat) : list nat :=
  match fl with
  | [] => []
  | x :: rest =>
      if bool_decide (x = mark) then x :: new :: rest
      else x :: InsertAfter new mark rest
  end.

Definition listRemove (e : nat) (fl : list nat) : list nat :=
  filter (λ x, x ≠ e) fl.

(** Reading the bucket [x.Value] of a nil element panics. *)
Definition entryOf (e : nat) : M LFUCache freqEntry :=
  L ← getS;
  match elems L !! e with
  | Some entry => mret entry
  | None => panic
  end.

Definition removeItem (k : K) : M LFUCache unit :=
  L ← getS;
  match items L !! k with
  | None => panic
  | Some item =>
      entry ← entryOf (freqElement item);
      modify (setItems (delete (key item) (items L)));;
      let entry := setEntryItems (items_ entry ∖ {[k]}) entry in
      modify (λ L, setElems (<[freqElement item := entry]> (elems L)) L);;
      when (isRemovableFreqEntry entry)
        (modify (λ L, setFreqList (listRemove (freqElement item) (freqList L)) L));;
      modify (λ L, setBase (Base.callEvicted (key item) (value item) (base L)) L)
  end.

(** The inner loop of [evict] over the items of one bucket: the result
    is the counter [i], and whether the loop left [evict] by [return]. *)
Fixpoint evictItems (ks : list K) (count i : Z) : M LFUCache (Z * bool) :=
  match ks with
  | [] => mret (i, false)
  | k :: ks =>
      if bool_decide (count ≤ i) then mret (i, true)
      else removeItem k;; evictItems ks count (i + 1)
  end.

(** The outer loop of [evict]; it follows [entry.Next()] and takes at
    most one step per linked element. *)
Fixpoint evictLoop (fuel : nat) (entry : option nat) (count i : Z)
    : M LFUCache unit :=
  match fuel with
  | O => mret tt
  | S fuel =>
      if negb (bool_decide (i < count)) then mret tt else
      match entry with
      | None => mret tt
      | Some e =>
          fe ← entryOf e;
          '(i, returned) ← evictItems (elements (items_ fe)) count i;
          if returned : bool then mret tt
          else L ← getS; evictLoop fuel (Next e (freqList L)) count i
      end
  end.

Definition evict (count : Z) : M LFUCache unit :=
  L ← getS;
  evictLoop (S (length (freqList L))) (head (freqList L)) count 0.

Definition set (k : K) (v : V) : M LFUCache unit :=
  L ← getS;
  match items L !! k with
  | Some item => modify (setItems (<[k := setValue v item]> (items L)))
  | None =>
      when (bool_decide (Base.size (base L) ≤ Z.of_nat (size (items L))))
        (evict 1);;
      L ← getS;
      match head (freqList L) with
      | None => panic
      | Some hd =>
          entry ← entryOf hd;
          modify (λ L, setElems
                         (<[hd := setEntryItems ({[k]} ∪ items_ entry) entry]>
                            (elems L)) L);;
          modify (λ L, setItems
                         (<[k := {| key := k; value := v; freqElement := hd;
                                    expiration := None |}]> (items L)) L)
      end
  end;;
  match Base.expiration (base L) with
  | Some d =>
      modify (λ L, setItems (alter (setExpiration
                                      (Some (Base.clock (base L) + d)))
                                   k (items L)) L)
  | None => mret tt
  end;;
  modify (λ L, setBase (Base.callAdded k v (base L)) L).

Definition setItemExpiration (k : K) (t : Z) : M LFUCache unit :=
  modify (λ L, setItems (alter (setExpiration (Some t)) k (items L)) L).

Definition Set_ (k : K) (v : V) : M LFUCache unit := set k v.

Definition SetWithExpire (k : K) (v : V) (d : Z) : M LFUCache unit :=
  set k v;;
  L ← getS;
  setItemExpiration k (Base.clock (base L) + d).

(** [nextFreqElement.Value.items[item] = struct{}{}] and
    [item.freqElement = nextFreqElement]. *)
Definition attach (k : K) (e : nat) : M LFUCache unit :=
  entry ← entryOf e;
  modify (λ L, setElems (<[e := setEntryItems ({[k]} ∪ items_ entry) entry]>
                           (elems L)) L);;
  modify (λ L, setItems (alter (setFreqElement e) k (items L)) L).

Definition increment (k : K) : M LFUCache unit :=
  L ← getS;
  match items L !! k with
  | None => panic
  | Some item =>
      let currentFreqElement := freqElement item in
      currentFreqEntry ← entryOf currentFreqElement;
      let nextFreq := wrap_uint (freq currentFreqEntry + 1) in
      let currentFreqEntry :=
        setEntryItems (items_ currentFreqEntry ∖ {[k]}) currentFreqEntry in
      modify (λ L, setElems (<[currentFreqElement := currentFreqEntry]> (elems L)) L);;
      let removable := isRemovableFreqEntry currentFreqEntry in
      let nextFreqElement := Next currentFreqElement (freqList L) in
      nextEntry ← match nextFreqElement with
                  | None => mret None
                  | Some n => e ← entryOf n; mret (Some e)
                  end;
      if match nextEntry with
         | None => true
         | Some e => bool_decide (nextFreq < freq e)
         end
      then
        if removable
        then
          modify (λ L, setElems (<[currentFreqElement :=
                                     setFreq nextFreq currentFreqEntry]>
                                   (elems L)) L);;
          attach k currentFreqElement
        else
          L ← getS;
          (* [InsertAfter] returns nil for a mark that is not an element of
             the list, and [nextFreqElement.Value] below dereferences it *)
          if bool_decide (currentFreqElement ∈ freqList L)
          then
            let new := nextElem L in
            modify (setNextElem (S new));;
            modify (λ L, setElems (<[new := {| freq := nextFreq; items_ := ∅ |}]>
                                     (elems L)) L);;
            modify (λ L, setFreqList (InsertAfter new currentFreqElement
                                                  (freqList L)) L);;
            attach k new
          else panic
      else
        match nextFreqElement, nextEntry with
        | Some n, Some e =>
            if bool_decide (freq e = nextFreq)
            then
              when removable
                (modify (λ L, setFreqList (listRemove currentFreqElement
                                                      (freqList L)) L));;
              attach k n
            else panic                 (* "LFU freq element unreachable" *)
        | _, _ => panic
        end
  end.

Definition incrHit (onLoad : bool) : M LFUCache unit :=
  when (negb onLoad)
    (modify (λ c, setBase (Base.setStats (IncrHitCount (Base.stats_ (base c)))
                                         (base c)) c)).
Definition incrMiss (onLoad : bool) : M LFUCache unit :=
  when (negb onLoad)
    (modify (λ c, setBase (Base.setStats (IncrMissCount (Base.stats_ (base c)))
                                         (base c)) c)).

Definition getValue (k : K) (onLoad : bool) : M LFUCache (option V) :=
  L ← getS;
  match items L !! k with
  | Some item =>
      if negb (IsExpired item (Base.clock (base L)) None)
      then increment k;; incrHit onLoad;; mret (Some (value item))
      else removeItem k;; incrMiss onLoad;; mret None
  | None => incrMiss onLoad;; mret None
  end.

Definition get (k : K) (onLoad : bool) : M LFUCache (option V) :=
  getValue k onLoad.

Definition remove (k : K) : M LFUCache bool :=
  L ← getS;
  match items L !! k with
  | Some _ => removeItem k;; mret true
  | None => mret false
  end.

Definition Remove (k : K) : M LFUCache bool := remove k.

Definition has (L : LFUCache) (k : K) (now : Z) : bool :=
  match items L !! k with
  | None => false
  | Some item => negb (IsExpired item (Base.clock (base L)) (Some now))
  end.

Definition GetALL (now : Z) (checkExpired : bool) : M LFUCache (gmap K V) :=
  L ← getS;
  mret (rangeMap (λ items_ k item,
                    if negb checkExpired || has L k now
                    then <[k := value item]> items_ else items_)
                 (items L) ∅).

Definition Keys (now : Z) (checkExpired : bool) : M LFUCache (list K) :=
  L ← getS;
  mret (rangeMap (λ keys_ k _,
                    if negb checkExpired || has L k now
                    then keys_ ++ [k] else keys_)
                 (items L) []).

Definition Len (now : Z) (checkExpired : bool) : M LFUCache Z :=
  L ← getS;
  if negb checkExpired then mret (Z.of_nat (size (items L)))
  else mret (rangeMap (λ length _ item,
                         if negb (IsExpired item (Base.clock (base L)) (Some now))
                         then length + 1 else length)
                      (items L) 0).

Definition Has (now : Z) (k : K) : M LFUCache bool :=
  L ← getS; mret (has L k now).
End defs.
Arguments freqEntry K {_ _}.
Arguments lfuItem : clear implicits.
Arguments LFUCache K V E {_ _}.
End Lfu.

(** ** The [Cache] interface, the loader path and singleflight *)

(** The part of the Go interface [Cache] that the loader path uses, with
    access to the embedded [baseCache] (reading back a written [baseCache]
    gives what was written).  [c_get] returns [Some v] for
    [(v, nil)] and [None] for [(nil, KeyNotFoundError)], the only two
    results of the four [get] methods. *)
Class Cache (K V E : Type) `{Countable K} (C : Type) : Type := {
  c_base : C → Base.baseCache K V E;
  c_setBase : Base.baseCache K V E → C → C;
  c_get : K → bool → M C (option V);
  c_set : K → V → M C unit;
  c_setItemExpiration : K → Z → M C unit;
  c_base_setBase : ∀ b c, c_base (c_setBase b c) = b
}.
Arguments Cache K V E {_ _} C.

(** The code that is the same in the four policies ([Get], [GetIfPresent],
    [getWithLoader]), [baseCache.load] and the singleflight [Group]. *)
Module Common.
Section loader.
Context {K V E : Type} `{Countable K} {C : Type} `{!Cache K V E C}.

(** What [Group.Do] does for its caller: return a triple, or block in
    [c.wg.Wait()] on the descriptor of [key] and then return
    [(c.val, false, c.err)]. *)
Inductive DoResult : Type :=
  | DoReturn (v : option V) (called : bool) (e : option (error E))
  | DoWait (key : K).

(** What a top-level [Get]/[GetIfPresent] does for its caller. *)
Inductive GetResult : Type :=
  | GetReturn (v : option V) (e : option (error E))
  | GetWait (key : K).

Definition modifyGroup (f : Flight.Group K V E → Flight.Group K V E) : M C unit :=
  modify (λ c, c_setBase (Base.setGroup (f (Base.group (c_base c))) (c_base c)) c).

(** [Group.call]: run [fn], publish the result in the descriptor, signal
    the WaitGroup, delete the descriptor. *)
Definition call (key : K) (fn : M C (option V * option (error E)))
    : M C (option V * option (error E)) :=
  r ← fn;
  modifyGroup (λ g, Flight.setM
    (alter (λ c, {| Flight.wg := Flight.wg c - 1;
                    Flight.val := r.1; Flight.err := r.2 |}) key (Flight.m g)) g);;
  modifyGroup (λ g, Flight.setM (delete key (Flight.m g)) g);;
  mret r.

Definition Do (key : K) (fn : M C (option V * option (error E)))
    (isWait : bool) : M C DoResult :=
  r ← c_get key true;
  match r with
  | Some v => mret (DoReturn (Some v) false None)
  | None =>
      c ← getS;
      match Flight.m (Base.group (c_base c)) !! key with
      | Some _ =>
          if negb isWait
          then mret (DoReturn None false (Some KeyNotFoundError))
          else mret (DoWait key)
      | None =>
          modifyGroup (λ g, Flight.setM
            (<[key := {| Flight.wg := 1; Flight.val := None;
                         Flight.err := None |}]> (Flight.m g)) g);;
          if negb isWait
          then
            modifyGroup (λ g, Flight.setGoroutines (Flight.goroutines g ++ [key]) g);;
            mret (DoReturn None false (Some KeyNotFoundError))
          else
            r ← call key fn;
            mret (DoReturn r.1 true r.2)
      end
  end.

(** The closure that [load] hands to [Do]: the loader and the callback
    under a deferred [recover]. *)
Definition loadFn (ld : K → loaded V E) (key : K)
    (cb : V → option Z → option (error E) → M C (option V * option (error E)))
    : M C (option V * option (error E)) :=
  recover
    (match ld key with
     | Loaded v expiration e => cb v expiration e
     | LoaderPanics => panic
     end)
    (mret (None, Some LoaderPanic)).

(** [baseCache.load]; calling a nil [loaderExpireFunc] would panic inside
    the closure, under its [recover]. *)
Definition load (key : K)
    (cb : V → option Z → option (error E) → M C (option V * option (error E)))
    (isWait : bool) : M C DoResult :=
  c ← getS;
  let fn := match Base.loaderExpireFunc (c_base c) with
            | Some ld => loadFn ld key cb
            | None => mret (None, Some LoaderPanic)
            end in
  r ← Do key fn isWait;
  match r with
  | DoReturn v called (Some e) => mret (DoReturn None called (Some e))
  | DoReturn v called None => mret (DoReturn v called None)
  | DoWait k => mret (DoWait k)
  end.

(** The callback of [getWithLoader], the same in the four policies. *)
Definition loaderCallback (key : K) (v : V) (expiration : option Z)
    (e : option (error E)) : M C (option V * option (error E)) :=
  match e with
  | Some e => mret (None, Some e)
  | None =>
      c_set key v;;
      match expiration with
      | Some d => c ← getS; c_setItemExpiration key (Base.clock (c_base c) + d)
      | None => mret tt
      end;;
      mret (Some v, None)
  end.

(** [getWithLoader], the same in the four policies.  A caller woken up
    from [c.wg.Wait()] returns [(c.val, c.err)], or [(nil, c.err)] when
    [c.err] is not nil. *)
Definition getWithLoader (key : K) (isWait : bool) : M C GetResult :=
  c ← getS;
  match Base.loaderExpireFunc (c_base c) with
  | None => mret (GetReturn None (Some KeyNotFoundError))
  | Some _ =>
      r ← load key (loaderCallback key) isWait;
      match r with
      | DoReturn v _ (Some e) => mret (GetReturn None (Some e))
      | DoReturn v _ None => mret (GetReturn v None)
      | DoWait k => mret (GetWait k)
      end
  end.

(** [Get] and [GetIfPresent], the same in the four policies up to the
    spelling of the hit branch ([return v, err] or [return v, nil], with
    [err] nil there). *)
Definition Get (key : K) : M C GetResult :=
  r ← c_get key false;
  match r with
  | None => getWithLoader key true
  | Some v => mret (GetReturn (Some v) None)
  end.

Definition GetIfPresent (key : K) : M C GetResult :=
  r ← c_get key false;
  match r with
  | None => getWithLoader key false
  | Some v => mret (GetReturn (Some v) None)
  end.

(** The body of the goroutine started by [go g.call(c, key, fn)] for the
    oldest dispatched key; its results are dropped. *)
Definition runGoroutine : M C unit :=
  c ← getS;
  match Flight.goroutines (Base.group (c_base c)) with
  | [] => mret tt
  | key :: rest =>
      modifyGroup (Flight.setGoroutines rest);;
      let fn := match Base.loaderExpireFunc (c_base c) with
                | Some ld => loadFn ld key (loaderCallback key)
                | None => mret (None, Some LoaderPanic)
                end in
      call key fn;; mret tt
  end.
End loader.
Arguments DoResult : clear implicits.
Arguments GetResult : clear implicits.
End Common.

#[export] Instance SimpleCache_Cache {K V E} `{Countable K}
    : Cache K V E (Simple.SimpleCache K V E) :=
  {| c_base := Simple.base; c_setBase := Simple.setBase; c_get := Simple.get;
     c_set := Simple.set; c_setItemExpiration := Simple.setItemExpiration;
     c_base_setBase := λ _ _, eq_refl |}.

#[export] Instance LRUCache_Cache {K V E} `{Countable K}
    : Cache K V E (Lru.LRUCache K V E) :=
  {| c_base := Lru.base; c_setBase := Lru.setBase; c_get := Lru.get;
     c_set := Lru.set; c_setItemExpiration := Lru.setItemExpiration;
     c_base_setBase := λ _ _, eq_refl |}.

#[export] Instance LFUCache_Cache {K V E} `{Countable K}
    : Cache K V E (Lfu.LFUCache K V E) :=
  {| c_base := Lfu.base; c_setBase := Lfu.setBase; c_get := Lfu.get;
     c_set := Lfu.set; c_setItemExpiration := Lfu.setItemExpiration;
     c_base_setBase := λ _ _, eq_refl |}.

#[export] Instance ARCCache_Cache {K V E} `{Countable K}
    : Cache K V E (Arc.ARCCache K V E) :=
  {| c_base := Arc.base; c_setBase := Arc.setBase; c_get := Arc.get;
     c_set := Arc.set; c_setItemExpiration := Arc.setItemExpiration;
     c_base_setBase := λ _ _, eq_refl |}.

(** ** clock.go: the fake clock

    [Advance] on the fake clock that the cache was built with: the cache
    holds the clock by reference, so [c.clock.Now()] reads the advanced
    time. *)
Module Clock.
Section clock.
Context {K V E : Type} `{Countable K} {C : Type} `{!Cache K V E C}.

Definition Advance (d : Z) : M C unit :=
  modify (λ c, c_setBase (Base.setClock (Base.clock (c_base c) + d) (c_base c)) c).
End clock.
End Clock.

(** ** cache.go: the builder

    A clock is modelled by its reading, as in [Base.baseCache]: [New] takes
    the reading of the real clock and [Clock] the reading of the clock it
    is given.  A callback is modelled by whether it is set, and a loader
    by what a call of it does.  [Build] and [build] return a cache of one
    of the four policies or panic with a message. *)

Module Builder.
Section builder.
Context {K V E : Type} `{Countable K}.

Definition TypeSimple : string := "simple".
Definition TypeLru : string := "lru".
Definition TypeLfu : string := "lfu".
Definition TypeArc : string := "arc".

Record CacheBuilder : Type := {
  clock : Z;
  tp : string;
  size : Z;
  loaderExpireFunc : option (K → loaded V E);
  evictedFunc : bool;
  addedFunc : bool;
  expiration : option Z
}.

Definition New (now : Z) (size : Z) : CacheBuilder :=
  {| clock := now; tp := TypeSimple; size := size; loaderExpireFunc := None;
     evictedFunc := false; addedFunc := false; expiration := None |}.

Definition Clock (t : Z) (c : CacheBuilder) : CacheBuilder :=
  {| clock := t; tp := tp c; size := size c;
     loaderExpireFunc := loaderExpireFunc c; evictedFunc := evictedFunc c;
     addedFunc := addedFunc c; expiration := expiration c |}.

Definition EvictType (t : string) (c : CacheBuilder) : CacheBuilder :=
  {| clock := clock c; tp := t; size := size c;
     loaderExpireFunc := loaderExpireFunc c; evictedFunc := evictedFunc c;
     addedFunc := addedFunc c; expiration := expiration c |}.

Definition Simple (c : CacheBuilder) : CacheBuilder := EvictType TypeSimple c.
Definition LRU (c : CacheBuilder) : CacheBuilder := EvictType TypeLru c.
Definition LFU (c : CacheBuilder) : CacheBuilder := EvictType TypeLfu c.
Definition ARC (c : CacheBuilder) : CacheBuilder := EvictType TypeArc c.

Definition LoaderExpireFunc (expireFunc : option (K → loaded V E))
    (c : CacheBuilder) : CacheBuilder :=
  {| clock := clock c; tp := tp c; size := size c;
     loaderExpireFunc := expireFunc; evictedFunc := evictedFunc c;
     addedFunc := addedFunc c; expiration := expiration c |}.

(** [LoaderFunc] wraps the loader: the wrapper returns the loader's value
    and error with a nil expiration; a call of a nil loader panics when the
    wrapper runs.  [None] stands for a call that panics. *)
Definition LoaderFunc (loaderFunc : option (K → option (V * option (error E))))
    (c : CacheBuilder) : CacheBuilder :=
  LoaderExpireFunc
    (Some (λ k, match loaderFunc with
                | Some f =>
                    match f k with
                    | Some (v, err) => Loaded v None err
                    | None => LoaderPanics
                    end
                | None => LoaderPanics
                end)) c.

Definition EvictedFunc (evictedFunc : bool) (c : CacheBuilder) : CacheBuilder :=
  {| clock := clock c; tp := tp c; size := size c;
     loaderExpireFunc := loaderExpireFunc c; evictedFunc := evictedFunc;
     addedFunc := addedFunc c; expiration := expiration c |}.

Definition AddedFunc (addedFunc : bool) (c : CacheBuilder) : CacheBuilder :=
  {| clock := clock c; tp := tp c; size := size c;
     loaderExpireFunc := loaderExpireFunc c; evictedFunc := evictedFunc c;
     addedFunc := addedFunc; expiration := expiration c |}.

Definition Expiration (d : Z) (c : CacheBuilder) : CacheBuilder :=
  {| clock := clock c; tp := tp c; size := size c;
     loaderExpireFunc := loaderExpireFunc c; evictedFunc := evictedFunc c;
     addedFunc := addedFunc c; expiration := Some d |}.

(** [buildCache(&c.baseCache, cb)] on a zero [baseCache]. *)
Definition buildCache (cb : CacheBuilder) : Base.baseCache K V E :=
  Base.buildCache (clock cb) (size cb) (loaderExpireFunc cb)
    (evictedFunc cb) (addedFunc cb) (expiration cb).

Definition newSimpleCache (cb : CacheBuilder) : Simple.SimpleCache K V E :=
  Simple.init (buildCache cb).
Definition newLRUCache (cb : CacheBuilder) : Lru.LRUCache K V E :=
  Lru.init (buildCache cb).
Definition newLFUCache (cb : CacheBuilder) : Lfu.LFUCache K V E :=
  Lfu.init (buildCache cb).
Definition newARCCache (cb : CacheBuilder) : Arc.ARCCache K V E :=
  Arc.init (buildCache cb).

(** The [Cache] that [Build] returns. *)
Inductive Cache_ : Type :=
  | OfSimple (c : Simple.SimpleCache K V E)
  | OfLRU (c : Lru.LRUCache K V E)
  | OfLFU (c : Lfu.LFUCache K V E)
  | OfARC (c : Arc.ARCCache K V E).

Inductive built : Type :=
  | Built (c : Cache_)
  | Panics (msg : string).

Definition build (c : CacheBuilder) : built :=
  if bool_decide (tp c = TypeSimple) then Built (OfSimple (newSimpleCache c))
  else if bool_decide (tp c = TypeLfu) then Built (OfLFU (newLFUCache c))
  else if bool_decide (tp c = TypeLru) then Built (OfLRU (newLRUCache c))
  else if bool_decide (tp c = TypeArc) then Built (OfARC (newARCCache c))
  else Panics "Unknown type".

Definition Build (c : CacheBuilder) : built :=
  if bool_decide (size c ≤ 0) && negb (bool_decide (tp c = TypeSimple))
  then Panics "cache size <= 0"
  else build c.
End builder.
Arguments CacheBuilder : clear implicits.
Arguments Cache_ K V E {_ _}.
Arguments built K V E {_ _}.
End Builder.

(** * Theorems *)

(** ** Reasoning in the monad *)

Lemma bind_Ok {S A B} (m : M S A) (f : A → M S B) s a s' :
  m s = Ok a s' → (m ≫= f) s = f a s'.
Proof. unfold mbind, M_bind. by intros ->. Qed.

Lemma bind_Panic {S A B} (m : M S A) (f : A → M S B) s s' :
  m s = Panic s' → (m ≫= f) s = Panic s'.
Proof. unfold mbind, M_bind. by intros ->. Qed.

Lemma hoare_bind {S A B} (P : S → Prop) (Q : A → S → Prop) (R : B → S → Prop)
    (m : M S A) (f : A → M S B) :
  hoare P m Q → (∀ a, hoare (Q a) (f a) R) → hoare P (m ≫= f) R.
Proof.
  intros Hm Hf s HP. destruct (Hm s HP) as (a & s' & Hr & HQ).
  destruct (Hf a s' HQ) as (b & s'' & Hr' & HR).
  exists b, s''. split; [|done]. by rewrite (bind_Ok _ _ _ _ _ Hr).
Qed.

Ltac munfold :=
  unfold mbind, M_bind, mret, M_ret, getS, gets, modify, panic, when, recover in *.

Module ArcFacts.
Import Arc.
Section facts.
Context {K V E : Type} `{HeqK : EqDecision K, HcntK : !Countable K}.
Implicit Types (a : arcList K) (c : ARCCache K V E) (k : K).

(** The representation invariant of an [arcList]: no key is linked twice
    and the index holds exactly the linked keys. *)
Definition wf a : Prop := NoDup (l a) ∧ keys a = list_to_set (l a).

Lemma wf_new : wf (newArcList (K:=K)).
Proof. split; [constructor | done]. Qed.

Lemma wf_elem a k : wf a → k ∈ keys a ↔ k ∈ l a.
Proof. intros [_ ->]. set_solver. Qed.

Lemma wf_Len a : wf a → Len a = Z.of_nat (size (keys a)).
Proof.
  intros [Hnd ->]. unfold Len. by rewrite size_list_to_set.
Qed.


Lemma wf_PushFront_fresh a k :
  wf a → k ∉ keys a →
  wf (PushFront a k) ∧ keys (PushFront a k) = {[k]} ∪ keys a
  ∧ Len (PushFront a k) = Len a + 1.
Proof.
  intros [Hnd Hk] Hnin. unfold PushFront. rewrite bool_decide_eq_false_2 by done.
  unfold wf, Len. simpl. split_and!; [|by rewrite Hk|done|lia].
  apply NoDup_cons. split; [|done]. rewrite Hk in Hnin. set_solver.
Qed.

Lemma wf_MoveToFront a k :
  wf a →
  wf (MoveToFront a k) ∧ keys (MoveToFront a k) = keys a
  ∧ Len (MoveToFront a k) = Len a.
Proof.
  intros Hwf. assert (Hwf' : wf (MoveToFront a k) ∧ keys (MoveToFront a k) = keys a).
  { destruct Hwf as [Hnd Hk]. unfold MoveToFront, listMoveToFront, wf. simpl.
    case_bool_decide as Hin; [|done]. split_and!; [| |done].
    - apply NoDup_cons. split; [|by apply NoDup_filter].
      rewrite list_elem_of_filter. naive_solver.
    - rewrite Hk. apply set_eq. intros x.
      rewrite elem_of_list_to_set, elem_of_list_to_set, elem_of_cons,
        list_elem_of_filter.
      destruct (decide (x = k)); naive_solver. }
  destruct Hwf' as [Hw Hk]. split_and!; [done..|].
  rewrite !wf_Len by done. by rewrite Hk.
Qed.

Lemma wf_PushFront_old a k :
  wf a → k ∈ keys a →
  wf (PushFront a k) ∧ keys (PushFront a k) = keys a
  ∧ Len (PushFront a k) = Len a.
Proof.
  intros Hwf Hin. unfold PushFront. rewrite bool_decide_eq_true_2 by done.
  by apply wf_MoveToFront.
Qed.

Lemma size_remove_one (X : gset K) k :
  k ∈ X → Z.of_nat (size (X ∖ {[k]})) = Z.of_nat (size X) - 1.
Proof.
  intros Hin. rewrite size_difference by set_solver. rewrite size_singleton.
  assert (size X ≠ 0%nat); [|lia].
  intros H0. apply size_empty_inv in H0. set_solver.
Qed.

Lemma wf_Remove a k :
  wf a → k ∈ keys a →
  wf (Remove a k k) ∧ keys (Remove a k k) = keys a ∖ {[k]}
  ∧ Len (Remove a k k) = Len a - 1.
Proof.
  intros Hwf Hin.
  assert (Hwf' : wf (Remove a k k)).
  { destruct Hwf as [Hnd Hk]. unfold Remove, wf. simpl.
    split; [by apply NoDup_filter|]. rewrite Hk. apply set_eq. intros x.
    rewrite elem_of_difference, !elem_of_list_to_set, list_elem_of_filter.
    set_solver. }
  split_and!; [done..|]. rewrite !wf_Len by done. simpl.
  by apply size_remove_one.
Qed.

Lemma wf_RemoveTail a :
  wf a → 0 < Len a →
  ∃ k a', RemoveTail a = Some (k, a') ∧ k ∈ keys a ∧ wf a'
          ∧ keys a' = keys a ∖ {[k]} ∧ Len a' = Len a - 1.
Proof.
  intros [Hnd Hk] Hlen. unfold RemoveTail.
  destruct (last (l a)) as [k|] eqn:Hlast.
  - apply last_Some in Hlast as [l' Hl]. eexists _, _. split; [done|].
    unfold wf, Len in *. simpl. rewrite Hl in *. rewrite removelast_last.
    apply NoDup_app in Hnd as (Hnd' & Hdisj & _).
    rewrite length_app in *. simpl in *.
    split_and!; [set_solver|done| |done|lia].
    rewrite Hk. apply set_eq. intros x.
    rewrite elem_of_difference, !elem_of_list_to_set, elem_of_app.
    specialize (Hdisj x). set_solver.
  - apply last_None in Hlast. unfold Len in Hlen. rewrite Hlast in Hlen.
    simpl in Hlen. lia.
Qed.

(** [RemoveTail] succeeds exactly on a non-empty list. *)
Lemma RemoveTail_is_Some a : is_Some (RemoveTail a) ↔ 0 < Len a.
Proof.
  unfold RemoveTail, Len. destruct (last (l a)) eqn:Hl.
  - split; [|by eauto]. intros _. apply last_Some in Hl as [l' ->].
    rewrite length_app. simpl. lia.
  - apply last_None in Hl. rewrite Hl. simpl. split; [by intros [? ?]|lia].
Qed.

(** *** The invariants of the four lists *)

Definition Resident c : Z := Len (t1 c) + Len (t2 c).
Definition L1 c : Z := Len (t1 c) + Len (b1 c).
Definition Total c : Z := Len (t1 c) + Len (t2 c) + Len (b1 c) + Len (b2 c).

Definition lists_wf c : Prop :=
  wf (t1 c) ∧ wf (t2 c) ∧ wf (b1 c) ∧ wf (b2 c).

(** (i) the four lists are pairwise key-disjoint *)
Definition inv_disjoint c : Prop :=
  keys (t1 c) ## keys (t2 c) ∧ keys (t1 c) ## keys (b1 c)
  ∧ keys (t1 c) ## keys (b2 c) ∧ keys (t2 c) ## keys (b1 c)
  ∧ keys (t2 c) ## keys (b2 c) ∧ keys (b1 c) ## keys (b2 c).
(** (ii) |T1| + |T2| ≤ capacity *)
Definition inv_resident c : Prop := Resident c ≤ Base.size (base c).
(** (iv) |T1| + |T2| + |B1| + |B2| ≤ 2·capacity *)
Definition inv_total c : Prop := Total c ≤ 2 * Base.size (base c).
(** (v) the value map's key set equals T1 ∪ T2 *)
Definition inv_items c : Prop := dom (items c) = keys (t1 c) ∪ keys (t2 c).

(** The structural part, generalised to the points inside [set] where the
    keys in [X] already have an item and are not yet in T1 ∪ T2. *)
Record sinv (X : gset K) c : Prop := {
  s_wf : lists_wf c;
  s_disj : inv_disjoint c;
  s_dom : dom (items c) = keys (t1 c) ∪ keys (t2 c) ∪ X;
  s_X : X ## keys (t1 c) ∪ keys (t2 c)
}.

Definition allKeys c : gset K :=
  keys (t1 c) ∪ keys (t2 c) ∪ keys (b1 c) ∪ keys (b2 c).

(** One eviction of [replace]: pop the tail of T1 (T2), push it on B1
    (B2), drop its item. *)
Lemma pop_spec n g X c :
  (n = T1 ∧ g = B1) ∨ (n = T2 ∧ g = B2) →
  sinv X c → 0 < Len (lst n c) →
  ∃ c', ((old ← removeTail n; pushFront g old;; mret old) ≫= dropItem) c
          = Ok tt c'
        ∧ sinv X c' ∧ Resident c' = Resident c - 1 ∧ Total c' = Total c
        ∧ L1 c' = L1 c
        ∧ keys (b1 c) ⊆ keys (b1 c') ∧ keys (b2 c) ⊆ keys (b2 c')
        ∧ allKeys c' ⊆ allKeys c
        ∧ Base.size (base c') = Base.size (base c).
Proof.
  intros Hng [(W1 & W2 & W3 & W4) (D12 & D1b1 & D1b2 & D2b1 & D2b2 & Db) Hdom HX] Hlen.
  destruct Hng as [[-> ->]|[-> ->]]; simpl in Hlen.
  - destruct (wf_RemoveTail _ W1 Hlen) as (old & a' & Hrt & Hin & Wa & Ka & La).
    destruct (wf_PushFront_fresh (b1 c) old W3) as (Wb & Kb & Lb); [set_solver|].
    assert (is_Some (items c !! old)) as [it Hit].
    { apply elem_of_dom. rewrite Hdom. set_solver. }
    eexists. unfold removeTail, pushFront, dropItem. munfold. simpl.
    rewrite Hrt. simpl. rewrite Hit. simpl. split; [done|].
    unfold Resident, Total, L1, allKeys. simpl.
    split_and!; [|lia|lia|lia|set_solver|done|set_solver
                 |by unfold Base.callEvicted; case_match].
    split; [done| |simpl..].
    + unfold inv_disjoint. simpl. set_solver.
    + rewrite dom_delete_L, Hdom, Ka. set_solver.
    + set_solver.
  - destruct (wf_RemoveTail _ W2 Hlen) as (old & a' & Hrt & Hin & Wa & Ka & La).
    destruct (wf_PushFront_fresh (b2 c) old W4) as (Wb & Kb & Lb); [set_solver|].
    assert (is_Some (items c !! old)) as [it Hit].
    { apply elem_of_dom. rewrite Hdom. set_solver. }
    eexists. unfold removeTail, pushFront, dropItem. munfold. simpl.
    rewrite Hrt. simpl. rewrite Hit. simpl. split; [done|].
    unfold Resident, Total, L1, allKeys. simpl.
    split_and!; [|lia|lia|lia|done|set_solver|set_solver
                 |by unfold Base.callEvicted; case_match].
    split; [done| |simpl..].
    + unfold inv_disjoint. simpl. set_solver.
    + rewrite dom_delete_L, Hdom, Ka. set_solver.
    + set_solver.
Qed.

Lemma Len_nonneg a : 0 ≤ Len a.
Proof. unfold Len. lia. Qed.

Lemma isCacheFull_true c : isCacheFull c = true ↔ Resident c = Base.size (base c).
Proof. unfold isCacheFull, Resident. by rewrite bool_decide_eq_true. Qed.

Lemma replace_spec X c k :
  sinv X c → 0 < Base.size (base c) →
  ∃ c', replace k c = Ok tt c' ∧ sinv X c'
        ∧ Resident c' = (if isCacheFull c then Resident c - 1 else Resident c)
        ∧ Total c' = Total c ∧ L1 c' = L1 c
        ∧ keys (b1 c) ⊆ keys (b1 c') ∧ keys (b2 c) ⊆ keys (b2 c')
        ∧ allKeys c' ⊆ allKeys c
        ∧ Base.size (base c') = Base.size (base c).
Proof.
  intros Hinv Hsz. unfold replace.
  rewrite (bind_Ok getS _ c c c) by done.
  destruct (isCacheFull c) eqn:Hfull; simpl.
  2:{ exists c. by split_and!. }
  apply isCacheFull_true in Hfull. unfold Resident in Hfull.
  pose proof (Len_nonneg (t1 c)). pose proof (Len_nonneg (t2 c)).
  match goal with |- context [if ?b then _ else _] => destruct b eqn:Hc1 end.
  - apply andb_true_iff in Hc1 as [Hpos%bool_decide_eq_true _].
    apply pop_spec; auto.
  - destruct (bool_decide (0 < Len (t2 c))) eqn:Hc2.
    + apply bool_decide_eq_true in Hc2. apply pop_spec; auto.
    + apply bool_decide_eq_false in Hc2. apply pop_spec; auto. simpl. lia.
Qed.

Lemma wrap_int_small z : - 2 ^ 63 ≤ z < 2 ^ 63 → wrap_int z = z.
Proof. intros Hz. unfold wrap_int. rewrite Z.mod_small; lia. Qed.

(** Dropping the tail of a ghost list. *)
Lemma dropGhost_spec g X c :
  g = B1 ∨ g = B2 → sinv X c → 0 < Len (lst g c) →
  ∃ old c', removeTail g c = Ok old c' ∧ sinv X c'
        ∧ Resident c' = Resident c ∧ Total c' = Total c - 1
        ∧ L1 c' = (if g is B1 then L1 c - 1 else L1 c)
        ∧ allKeys c' ⊆ allKeys c
        ∧ Base.size (base c') = Base.size (base c).
Proof.
  intros Hg [(W1 & W2 & W3 & W4) (D12 & D1b1 & D1b2 & D2b1 & D2b2 & Db) Hdom HX] Hlen.
  unfold removeTail.
  destruct Hg as [-> | ->]; simpl in *.
  - destruct (wf_RemoveTail _ W3 Hlen) as (old & a' & -> & Hin & Wa & Ka & La).
    eexists _, _. split; [done|]. unfold Resident, Total, L1, allKeys. simpl.
    split_and!; [|lia..|set_solver|done].
    split; [done| |done..]. unfold inv_disjoint. simpl. set_solver.
  - destruct (wf_RemoveTail _ W4 Hlen) as (old & a' & -> & Hin & Wa & Ka & La).
    eexists _, _. split; [done|]. unfold Resident, Total, L1, allKeys. simpl.
    split_and!; [|lia..|set_solver|done].
    split; [done| |done..]. unfold inv_disjoint. simpl. set_solver.
Qed.

(** Dropping the tail of T1 together with its item (the L1-full case with
    T1 alone filling the cache). *)
Lemma dropT1_spec X c :
  sinv X c → 0 < Len (t1 c) →
  ∃ c', (pop ← removeTail T1; dropItem pop) c = Ok tt c' ∧ sinv X c'
        ∧ Resident c' = Resident c - 1 ∧ Total c' = Total c - 1
        ∧ L1 c' = L1 c - 1
        ∧ allKeys c' ⊆ allKeys c
        ∧ Base.size (base c') = Base.size (base c).
Proof.
  intros [(W1 & W2 & W3 & W4) (D12 & D1b1 & D1b2 & D2b1 & D2b2 & Db) Hdom HX] Hlen.
  destruct (wf_RemoveTail _ W1 Hlen) as (old & a' & Hrt & Hin & Wa & Ka & La).
  assert (is_Some (items c !! old)) as [it Hit].
  { apply elem_of_dom. rewrite Hdom. set_solver. }
  eexists. unfold removeTail, dropItem. munfold. simpl.
  rewrite Hrt. simpl. rewrite Hit. simpl. split; [done|].
  unfold Resident, Total, L1, allKeys. simpl.
  split_and!; [|lia..|set_solver|by unfold Base.callEvicted; case_match].
  split; [done| |simpl..].
  - unfold inv_disjoint. simpl. set_solver.
  - rewrite dom_delete_L, Hdom, Ka. set_solver.
  - set_solver.
Qed.

(** The block of [set] that makes room for a key new to the four lists. *)
Lemma room_spec X c k :
  sinv X c → 0 < Base.size (base c) < 2 ^ 62 →
  Resident c ≤ Base.size (base c) → Total c ≤ 2 * Base.size (base c) →
  ∃ c',
    (if isCacheFull c && bool_decide (Len (t1 c) + Len (b1 c) = Base.size (base c))
     then
       if bool_decide (Len (t1 c) < Base.size (base c))
       then removeTail B1;; replace k
       else pop ← removeTail T1; dropItem pop
     else
       let total := Len (t1 c) + Len (t2 c) + Len (b1 c) + Len (b2 c) in
       if bool_decide (Base.size (base c) ≤ total)
       then
         (if bool_decide (total = wrap_int (2 * Base.size (base c)))
          then
            if bool_decide (0 < Len (b2 c))
            then removeTail B2;; mret tt
            else removeTail B1;; mret tt
          else mret tt);;
         replace k
       else mret tt) c = Ok tt c'
    ∧ sinv X c'
    ∧ Resident c' ≤ Base.size (base c) - 1
    ∧ Total c' ≤ 2 * Base.size (base c) - 1
    ∧ (L1 c ≤ Base.size (base c) →
       ¬ (L1 c = Base.size (base c) ∧ Resident c < Base.size (base c)) →
       L1 c' ≤ Base.size (base c) - 1)
    ∧ (L1 c = Base.size (base c) → Resident c < Base.size (base c) →
       L1 c' = Base.size (base c))
    ∧ allKeys c' ⊆ allKeys c
    ∧ Base.size (base c') = Base.size (base c).
Proof.
  intros Hinv Hsz HR HT.
  pose proof (Len_nonneg (t1 c)). pose proof (Len_nonneg (t2 c)).
  pose proof (Len_nonneg (b1 c)). pose proof (Len_nonneg (b2 c)).
  rewrite (wrap_int_small (2 * _)) by lia.
  destruct (isCacheFull c && _) eqn:HA.
  - apply andb_true_iff in HA as [Hfull%isCacheFull_true HL1%bool_decide_eq_true].
    destruct (bool_decide (Len (t1 c) < Base.size (base c))) eqn:Hlt.
    + apply bool_decide_eq_true in Hlt.
      destruct (dropGhost_spec B1 X c) as (old & c1 & Hrt & I1 & R1 & T1' & L1' & A1 & S1);
        [auto|done|simpl; lia|].
      rewrite (bind_Ok _ _ _ _ _ Hrt).
      destruct (replace_spec X c1 k) as (c2 & Hrp & I2 & R2 & T2' & L2' & _ & _ & A2 & S2);
        [done|lia|].
      assert (isCacheFull c1 = true) as Hf1 by (apply isCacheFull_true; lia).
      rewrite Hf1 in R2. unfold L1 in *.
      exists c2. split_and!; [done|done|lia..|set_solver|lia].
    + apply bool_decide_eq_false in Hlt.
      destruct (dropT1_spec X c) as (c1 & Hrt & I1 & R1 & T1' & L1' & A1 & S1);
        [done|lia|].
      unfold L1 in *.
      exists c1. split_and!; [done|done|lia..|set_solver|lia].
  - assert (¬ (Resident c = Base.size (base c) ∧ L1 c = Base.size (base c))) as HnA.
    { intros [Hf%isCacheFull_true Hl]. rewrite Hf in HA. simpl in HA.
      apply bool_decide_eq_false in HA. done. }
    clear HA. cbv zeta.
    destruct (bool_decide (Base.size (base c) ≤ _)) eqn:Htot.
    2:{ apply bool_decide_eq_false in Htot. unfold Resident, Total, L1 in *.
        exists c. split_and!; [done|done|lia..|set_solver|lia]. }
    apply bool_decide_eq_true in Htot.
    (* the optional drop of a ghost tail *)
    assert (∃ c1,
      (if bool_decide (Len (t1 c) + Len (t2 c) + Len (b1 c) + Len (b2 c)
                       = 2 * Base.size (base c))
       then if bool_decide (0 < Len (b2 c))
            then removeTail B2;; mret tt else removeTail B1;; mret tt
       else mret tt) c = Ok tt c1
      ∧ sinv X c1 ∧ Resident c1 = Resident c
      ∧ Total c1 ≤ 2 * Base.size (base c) - 1
      ∧ L1 c1 ≤ L1 c
      ∧ (L1 c = Base.size (base c) → Resident c < Base.size (base c) → L1 c1 = L1 c)
      ∧ allKeys c1 ⊆ allKeys c
      ∧ Base.size (base c1) = Base.size (base c)) as (c1 & Hd & I1 & R1 & T1' & L1' & L1'' & A1 & S1).
    { destruct (bool_decide (_ = 2 * _)) eqn:H2c.
      - apply bool_decide_eq_true in H2c.
        destruct (bool_decide (0 < Len (b2 c))) eqn:Hb2.
        + apply bool_decide_eq_true in Hb2.
          destruct (dropGhost_spec B2 X c) as (old & c1 & Hrt & I1 & R1 & T1' & L1' & A1 & S1);
            [auto|done|simpl; lia|].
          exists c1. rewrite (bind_Ok _ _ _ _ _ Hrt).
          unfold Resident, Total, L1 in *. split_and!; [done|done|lia..|done|done].
        + apply bool_decide_eq_false in Hb2.
          unfold Resident, Total, L1 in *.
          destruct (dropGhost_spec B1 X c) as (old & c1 & Hrt & I1 & R1 & T1' & L1' & A1 & S1);
            [auto|done|simpl; lia|].
          exists c1. rewrite (bind_Ok _ _ _ _ _ Hrt).
          unfold Resident, Total, L1 in *. split_and!; [done|done|lia..|done|done].
      - apply bool_decide_eq_false in H2c. exists c.
        unfold Resident, Total, L1 in *. split_and!; [done|done|lia..|done|done]. }
    rewrite (bind_Ok _ _ _ _ _ Hd).
    destruct (replace_spec X c1 k) as (c2 & Hrp & I2 & R2 & T2' & L2' & _ & _ & A2 & S2);
      [done|lia|].
    exists c2. split_and!; [done|done| |lia| | |set_solver|lia].
    + destruct (isCacheFull c1) eqn:Hf1; [lia|].
      assert (Resident c1 ≠ Base.size (base c1)); [|lia].
      intros Hf%isCacheFull_true. congruence.
    + intros. lia.
    + intros. lia.
Qed.

(** The state in which a [set] of a key new to the four lists breaks
    (iii): L1 is full while the cache is not. *)
Definition l1_gap c k : Prop :=
  L1 c = Base.size (base c) ∧ Resident c < Base.size (base c)
  ∧ (k ∉ keys (b1 c)) ∧ (k ∉ keys (b2 c)).

Lemma sinv_frame X c c' :
  t1 c' = t1 c → t2 c' = t2 c → b1 c' = b1 c → b2 c' = b2 c →
  dom (items c') = dom (items c) → sinv X c → sinv X c'.
Proof.
  intros E1 E2 E3 E4 Ed [Hw Hd Hdom HX].
  split; unfold lists_wf, inv_disjoint in *; rewrite ?E1, ?E2, ?E3, ?E4, ?Ed; done.
Qed.

Lemma wf_keys_pos a k : wf a → k ∈ keys a → 0 < Len a.
Proof.
  intros Hwf Hin. rewrite wf_Len by done.
  assert (size (keys a) ≠ 0%nat); [|lia].
  intros H0%size_empty_inv. set_solver.
Qed.

Lemma set_spec c k v :
  sinv ∅ c → 0 < Base.size (base c) < 2 ^ 62 →
  Resident c ≤ Base.size (base c) → Total c ≤ 2 * Base.size (base c) →
  k ∉ keys (t1 c) → k ∉ keys (t2 c) →
  ∃ c', set k v c = Ok tt c' ∧ sinv ∅ c'
        ∧ Resident c' ≤ Base.size (base c) ∧ Total c' ≤ 2 * Base.size (base c)
        ∧ (L1 c ≤ Base.size (base c) → ¬ l1_gap c k → L1 c' ≤ Base.size (base c))
        ∧ (l1_gap c k → L1 c' = Base.size (base c) + 1)
        ∧ k ∈ keys (t1 c') ∪ keys (t2 c')
        ∧ Base.size (base c') = Base.size (base c).
Proof.
  intros Hinv Hsz HR HT Hk1 Hk2. unfold set.
  rewrite (bind_Ok getS _ c c c) by done. cbv zeta.
  erewrite (bind_Ok (modify _)) by reflexivity.
  match goal with |- context [setItems ?i c] => set (c1 := setItems i c) end.
  assert (sinv {[k]} c1) as I1.
  { destruct Hinv as [Hw Hd Hdom HX]. split; [done..| |]; simpl.
    - rewrite dom_insert_L, Hdom. set_solver.
    - set_solver. }
  unfold Has at 1 2. rewrite (bool_decide_eq_false_2 _ Hk1). simpl.
  unfold Get. destruct (decide (k ∈ keys (b1 c))) as [Hb1|Hb1].
  { (* a ghost hit in B1 *)
    rewrite (bool_decide_eq_true_2 _ Hb1).
    assert (0 < Len (b1 c)) as Hpos by (eapply wf_keys_pos; [apply Hinv|done]).
    unfold idiv. rewrite bool_decide_eq_false_2 by lia.
    rewrite (bind_Ok (mret _) _ c1 _ c1) by done.
    match goal with |- context [setPart ?p] =>
      assert (∃ c1', setPart p c1 = Ok tt c1' ∧ t1 c1' = t1 c1 ∧ t2 c1' = t2 c1
                     ∧ b1 c1' = b1 c1 ∧ b2 c1' = b2 c1 ∧ items c1' = items c1
                     ∧ base c1' = base c1) as (c1' & Hsp & E1 & E2 & E3 & E4 & Ei & Eb)
    end.
    { unfold setPart. munfold. destruct (isCacheFull c1); eexists; by split_and!. }
    rewrite (bind_Ok _ _ _ _ _ Hsp).
    assert (sinv {[k]} c1') as I1'.
    { eapply sinv_frame; [..|exact I1]; by rewrite ?Ei. }
    destruct (replace_spec _ c1' k I1') as (c2 & Hrp & I2 & R2 & T2' & L2' & S1' & _ & A2 & S2);
      [rewrite Eb; simpl; lia|].
    rewrite (bind_Ok _ _ _ _ _ Hrp).
    unfold removeFrom, pushFront. munfold. simpl.
    eexists. split; [done|].
    destruct I2 as [(W1 & W2 & W3 & W4) (D12 & D1b1 & D1b2 & D2b1 & D2b2 & Db) Hdom HX].
    assert (k ∈ keys (b1 c2)) as Hin2 by (apply S1'; rewrite E3; done).
    destruct (wf_Remove _ k W3 Hin2) as (Wr & Kr & Lr).
    destruct (wf_PushFront_fresh (t2 c2) k W2) as (Wp & Kp & Lp); [set_solver|].
    assert (Resident c1' = Resident c ∧ Total c1' = Total c ∧ L1 c1' = L1 c)
      as (ER & ET & EL).
    { unfold Resident, Total, L1. rewrite E1, E2, E3, E4. done. }
    assert (Base.size (base c1') = Base.size (base c)) as ES by (by rewrite Eb).
    unfold Resident, Total, L1, l1_gap in *. simpl.
    split_and!.
    - split; [done| |simpl..].
      + unfold inv_disjoint. simpl. set_solver.
      + rewrite Hdom, Kp. set_solver.
      + set_solver.
    - destruct (isCacheFull c1') eqn:Hf; [lia|].
      assert (Len (t1 c1') + Len (t2 c1') ≠ Base.size (base c1')); [|lia].
      intros Hf'. apply (isCacheFull_true c1') in Hf'. congruence.
    - lia.
    - intros. lia.
    - intros (_ & _ & ? & _). done.
    - set_solver.
    - lia. }
  rewrite (bool_decide_eq_false_2 _ Hb1).
  destruct (decide (k ∈ keys (b2 c))) as [Hb2|Hb2].
  { (* a ghost hit in B2 *)
    rewrite (bool_decide_eq_true_2 _ Hb2).
    assert (0 < Len (b2 c)) as Hpos by (eapply wf_keys_pos; [apply Hinv|done]).
    unfold idiv. rewrite bool_decide_eq_false_2 by lia.
    rewrite (bind_Ok (mret _) _ c1 _ c1) by done.
    match goal with |- context [setPart ?p] =>
      assert (∃ c1', setPart p c1 = Ok tt c1' ∧ t1 c1' = t1 c1 ∧ t2 c1' = t2 c1
                     ∧ b1 c1' = b1 c1 ∧ b2 c1' = b2 c1 ∧ items c1' = items c1
                     ∧ base c1' = base c1) as (c1' & Hsp & E1 & E2 & E3 & E4 & Ei & Eb)
    end.
    { unfold setPart. munfold. destruct (isCacheFull c1); eexists; by split_and!. }
    rewrite (bind_Ok _ _ _ _ _ Hsp).
    assert (sinv {[k]} c1') as I1'.
    { eapply sinv_frame; [..|exact I1]; by rewrite ?Ei. }
    destruct (replace_spec _ c1' k I1') as (c2 & Hrp & I2 & R2 & T2' & L2' & _ & S1' & A2 & S2);
      [rewrite Eb; simpl; lia|].
    rewrite (bind_Ok _ _ _ _ _ Hrp).
    unfold removeFrom, pushFront. munfold. simpl.
    eexists. split; [done|].
    destruct I2 as [(W1 & W2 & W3 & W4) (D12 & D1b1 & D1b2 & D2b1 & D2b2 & Db) Hdom HX].
    assert (k ∈ keys (b2 c2)) as Hin2 by (apply S1'; rewrite E4; done).
    destruct (wf_Remove _ k W4 Hin2) as (Wr & Kr & Lr).
    destruct (wf_PushFront_fresh (t2 c2) k W2) as (Wp & Kp & Lp); [set_solver|].
    assert (Resident c1' = Resident c ∧ Total c1' = Total c ∧ L1 c1' = L1 c)
      as (ER & ET & EL).
    { unfold Resident, Total, L1. rewrite E1, E2, E3, E4. done. }
    assert (Base.size (base c1') = Base.size (base c)) as ES by (by rewrite Eb).
    unfold Resident, Total, L1, l1_gap in *. simpl.
    split_and!.
    - split; [done| |simpl..].
      + unfold inv_disjoint. simpl. set_solver.
      + rewrite Hdom, Kp. set_solver.
      + set_solver.
    - destruct (isCacheFull c1') eqn:Hf; [lia|].
      assert (Len (t1 c1') + Len (t2 c1') ≠ Base.size (base c1')); [|lia].
      intros Hf'. apply (isCacheFull_true c1') in Hf'. congruence.
    - lia.
    - intros. lia.
    - intros (_ & _ & _ & ?). done.
    - set_solver.
    - lia. }
  rewrite (bool_decide_eq_false_2 _ Hb2).
  (* a key new to the four lists *)
  destruct (room_spec {[k]} c1 k I1) as (c2 & Hrm & I2 & R2 & T2' & L2a & L2b & A2 & S2);
    [done..|].
  rewrite (bind_Ok _ _ _ _ _ Hrm).
  unfold pushFront. munfold. simpl.
  eexists. split; [done|].
  destruct I2 as [(W1 & W2 & W3 & W4) (D12 & D1b1 & D1b2 & D2b1 & D2b2 & Db) Hdom HX].
  assert (k ∉ allKeys c2) as Hnew.
  { intros Hin. apply A2 in Hin. unfold allKeys in *. simpl in *. set_solver. }
  unfold allKeys in Hnew.
  destruct (wf_PushFront_fresh (t1 c2) k W1) as (Wp & Kp & Lp); [set_solver|].
  change (Resident c1) with (Resident c) in *. change (Total c1) with (Total c) in *.
  change (L1 c1) with (L1 c) in *. simpl in S2, R2, T2', L2a, L2b.
  unfold Resident, Total, L1, l1_gap in *. simpl.
  split_and!.
  - split; [done| |simpl..].
    + unfold inv_disjoint. simpl. set_solver.
    + rewrite Hdom, Kp. set_solver.
    + set_solver.
  - lia.
  - lia.
  - intros Hle Hng. rewrite Lp.
    assert (Len (t1 c2) + Len (b1 c2) ≤ Base.size (base c) - 1); [|lia].
    apply L2a; [done|]. intros [? ?]. apply Hng. done.
  - intros (HL & HRs & _ & _). pose proof (L2b HL HRs). lia.
  - set_solver.
  - unfold Base.callAdded. destruct (Base.addedFunc (base c2)); simpl; congruence.
Qed.

(** Two states with the same lists, the same keys in the value map and
    the same capacity. *)
Definition same_lists c c' : Prop :=
  t1 c' = t1 c ∧ t2 c' = t2 c ∧ b1 c' = b1 c ∧ b2 c' = b2 c
  ∧ dom (items c') = dom (items c)
  ∧ Base.size (base c') = Base.size (base c).

Lemma same_lists_refl c : same_lists c c.
Proof. by unfold same_lists. Qed.


Lemma same_lists_sinv X c c' : same_lists c c' → sinv X c → sinv X c'.
Proof. intros (?&?&?&?&?&?). by apply sinv_frame. Qed.

Lemma same_lists_measures c c' :
  same_lists c c' →
  Resident c' = Resident c ∧ Total c' = Total c ∧ L1 c' = L1 c.
Proof. intros (E1&E2&E3&E4&?&?). unfold Resident, Total, L1. by rewrite E1, E2, E3, E4. Qed.

(** A read of a key outside T1 ∪ T2 is a miss that moves no key. *)
Lemma getValue_absent c k onLoad :
  k ∉ keys (t1 c) → k ∉ keys (t2 c) →
  ∃ c', getValue k onLoad c = Ok None c' ∧ same_lists c c'
        ∧ (onLoad = true → c' = c).
Proof.
  intros H1 H2. unfold getValue, Get. munfold.
  rewrite !bool_decide_eq_false_2 by done. simpl.
  rewrite ?bool_decide_eq_false_2 by done. unfold incrMiss. munfold.
  destruct onLoad; simpl; eexists; (split; [done|]); split; try done;
    apply same_lists_refl.
Qed.

Lemma getValue_spec c k onLoad :
  sinv ∅ c →
  ∃ r c', getValue k onLoad c = Ok r c' ∧ sinv ∅ c'
        ∧ Resident c' ≤ Resident c ∧ Total c' = Total c ∧ L1 c' ≤ L1 c
        ∧ Base.size (base c') = Base.size (base c)
        ∧ (r = None → (k ∉ keys (t1 c')) ∧ (k ∉ keys (t2 c'))
                      ∧ (k ∈ keys (b1 c') ∪ keys (b2 c') ∨ same_lists c c')).
Proof.
  intros Hinv.
  destruct (decide (k ∈ keys (t1 c))) as [Hk1|Hk1].
  { destruct Hinv as [(W1 & W2 & W3 & W4) (D12 & D1b1 & D1b2 & D2b1 & D2b2 & Db) Hdom HX].
    assert (is_Some (items c !! k)) as [it Hit].
    { apply elem_of_dom. rewrite Hdom. set_solver. }
    destruct (wf_Remove _ k W1 Hk1) as (Wr & Kr & Lr).
    unfold getValue, Get. munfold. rewrite (bool_decide_eq_true_2 _ Hk1).
    unfold removeFrom, pushFront. munfold. simpl. rewrite Hit.
    destruct (IsExpired it (Base.clock (base c)) None) eqn:Hexp; simpl.
    - (* expired: the key moves to B1 *)
      destruct (wf_PushFront_fresh (b1 c) k W3) as (Wp & Kp & Lp); [set_solver|].
      assert (k ∉ keys (t2 c)) as Hk2 by set_solver.
      rewrite (bool_decide_eq_false_2 _ Hk2). unfold incrMiss. munfold.
      unfold Resident, Total, L1.
      destruct onLoad; simpl; (eexists _, _; split; [reflexivity|]); simpl;
        (split_and!; [|lia|lia|lia|by unfold Base.callEvicted; case_match
                      |intros _; split_and!; set_solver]);
        (split; [done| |simpl..];
         [unfold inv_disjoint; simpl; set_solver
         |rewrite dom_delete_L, Hdom, ?Kr, ?Kp; set_solver|set_solver]).
    - (* a hit in T1: the key moves to T2 *)
      destruct (wf_PushFront_fresh (t2 c) k W2) as (Wp & Kp & Lp); [set_solver|].
      unfold incrHit. munfold.
      unfold Resident, Total, L1.
      destruct onLoad; simpl; (eexists _, _; split; [reflexivity|]); simpl;
        (split_and!; [|lia|lia|lia|done|done]);
        (split; [done| |simpl..];
         [unfold inv_disjoint; simpl; set_solver
         |rewrite Hdom, ?Kr, ?Kp; apply set_eq; intros x;
          destruct (decide (x = k)); set_solver|set_solver]). }
  destruct (decide (k ∈ keys (t2 c))) as [Hk2|Hk2].
  { destruct Hinv as [(W1 & W2 & W3 & W4) (D12 & D1b1 & D1b2 & D2b1 & D2b2 & Db) Hdom HX].
    assert (is_Some (items c !! k)) as [it Hit].
    { apply elem_of_dom. rewrite Hdom. set_solver. }
    unfold getValue, Get. munfold. rewrite (bool_decide_eq_false_2 _ Hk1).
    simpl. rewrite (bool_decide_eq_true_2 _ Hk2). rewrite Hit.
    unfold removeFrom, pushFront, moveToFront. munfold. simpl.
    destruct (IsExpired it (Base.clock (base c)) None) eqn:Hexp; simpl.
    - (* expired: the key moves to B2 *)
      destruct (wf_Remove _ k W2 Hk2) as (Wr & Kr & Lr).
      destruct (wf_PushFront_fresh (b2 c) k W4) as (Wp & Kp & Lp); [set_solver|].
      unfold incrMiss. munfold.
      unfold Resident, Total, L1.
      destruct onLoad; simpl; (eexists _, _; split; [reflexivity|]); simpl;
        (split_and!; [|lia|lia|lia|by unfold Base.callEvicted; case_match
                      |intros _; split_and!; set_solver]);
        (split; [done| |simpl..];
         [unfold inv_disjoint; simpl; set_solver
         |rewrite dom_delete_L, Hdom, ?Kr, ?Kp; set_solver|set_solver]).
    - (* a hit in T2 *)
      destruct (wf_MoveToFront (t2 c) k W2) as (Wp & Kp & Lp).
      unfold incrHit. munfold.
      unfold Resident, Total, L1.
      destruct onLoad; simpl; (eexists _, _; split; [reflexivity|]); simpl;
        (split_and!; [|lia|lia|lia|done|done]);
        (split; [done| |simpl..];
         [unfold inv_disjoint; simpl; set_solver
         |rewrite Hdom, ?Kp; done|set_solver]). }
  destruct (getValue_absent c k onLoad Hk1 Hk2) as (c' & Hg & Hs & _).
  destruct (same_lists_measures _ _ Hs) as (ER & ET & EL).
  exists None, c'. split_and!; [done|by eapply same_lists_sinv|lia..|apply Hs|].
  intros _. destruct Hs as (E1&E2&E3&E4&?&?). rewrite E1, E2.
  split_and!; [done..|]. right. by unfold same_lists.
Qed.

Lemma remove_spec c k :
  sinv ∅ c →
  ∃ r c', remove k c = Ok r c' ∧ sinv ∅ c'
        ∧ Resident c' ≤ Resident c ∧ Total c' = Total c ∧ L1 c' = L1 c
        ∧ Base.size (base c') = Base.size (base c).
Proof.
  intros [(W1 & W2 & W3 & W4) (D12 & D1b1 & D1b2 & D2b1 & D2b2 & Db) Hdom HX].
  unfold remove, Get. munfold.
  destruct (decide (k ∈ keys (t1 c))) as [Hk1|Hk1].
  { rewrite (bool_decide_eq_true_2 _ Hk1).
    assert (is_Some (items c !! k)) as [it Hit].
    { apply elem_of_dom. rewrite Hdom. set_solver. }
    destruct (wf_Remove _ k W1 Hk1) as (Wr & Kr & Lr).
    destruct (wf_PushFront_fresh (b1 c) k W3) as (Wp & Kp & Lp); [set_solver|].
    unfold removeVia, removeFrom, pushFront. munfold. simpl. rewrite Hit.
    unfold Resident, Total, L1.
    destruct (Base.evictedFunc (base c)) eqn:Hev; simpl;
      (eexists _, _; split; [reflexivity|]); simpl;
      (split_and!; [|lia|lia|lia|by unfold Base.callEvicted; try case_match]);
      (split; [done| |simpl..];
       [unfold inv_disjoint; simpl; set_solver
       |rewrite dom_delete_L, Hdom; set_solver|set_solver]). }
  rewrite (bool_decide_eq_false_2 _ Hk1).
  destruct (decide (k ∈ keys (t2 c))) as [Hk2|Hk2].
  { rewrite (bool_decide_eq_true_2 _ Hk2).
    assert (is_Some (items c !! k)) as [it Hit].
    { apply elem_of_dom. rewrite Hdom. set_solver. }
    destruct (wf_Remove _ k W2 Hk2) as (Wr & Kr & Lr).
    destruct (wf_PushFront_fresh (b2 c) k W4) as (Wp & Kp & Lp); [set_solver|].
    unfold removeVia, removeFrom, pushFront. munfold. simpl. rewrite Hit.
    unfold Resident, Total, L1.
    destruct (Base.evictedFunc (base c)) eqn:Hev; simpl;
      (eexists _, _; split; [reflexivity|]); simpl;
      (split_and!; [|lia|lia|lia|by unfold Base.callEvicted; try case_match]);
      (split; [done| |simpl..];
       [unfold inv_disjoint; simpl; set_solver
       |rewrite dom_delete_L, Hdom; set_solver|set_solver]). }
  rewrite (bool_decide_eq_false_2 _ Hk2).
  eexists _, _. split; [reflexivity|]. split_and!; [|lia..|done].
  by split.
Qed.

(** *** The loader path of [Get] and [GetIfPresent] on an ARC cache *)




Section path.
Context (c0 : ARCCache K V E) (k : K).
Hypothesis Hinv0 : sinv ∅ c0.
Hypothesis Hsz0 : 0 < Base.size (base c0) < 2 ^ 62.
Hypothesis HR0 : Resident c0 ≤ Base.size (base c0).
Hypothesis HT0 : Total c0 ≤ 2 * Base.size (base c0).
Hypothesis Hk1 : k ∉ keys (t1 c0).
Hypothesis Hk2 : k ∉ keys (t2 c0).







End path.

(** *** The invariants at quiescent points *)

(** Invariants (i), (ii), (iv) and (v), over well-formed lists. *)
Definition arc_inv c : Prop :=
  lists_wf c ∧ inv_disjoint c ∧ inv_resident c ∧ inv_total c ∧ inv_items c.

Lemma arc_inv_sinv c :
  arc_inv c ↔ sinv ∅ c ∧ Resident c ≤ Base.size (base c)
              ∧ Total c ≤ 2 * Base.size (base c).
Proof.
  unfold arc_inv, inv_resident, inv_total, inv_items. split.
  - intros (Hw & Hd & HR & HT & Hi). split_and!; [|done..].
    split; [done..| |]; set_solver.
  - intros ([Hw Hd Hdom HX] & HR & HT). split_and!; [done..|].
    rewrite Hdom. set_solver.
Qed.

Lemma arc_inv_init b : 0 ≤ Base.size b → arc_inv (init (V:=V) (E:=E) b).
Proof.
  intros Hb. unfold arc_inv, lists_wf, inv_disjoint, inv_resident, inv_total,
    inv_items, Resident, Total, Len. simpl.
  split_and!; try apply wf_new; try set_solver; lia.
Qed.






(** C10: past the guard of [replace] (the cache is full) and with a
    positive capacity, each of the three branches pops a non-empty list,
    and [replace] returns: no [RemoveTail] dereferences a nil element. *)
Theorem replace_pops_nonempty c k :
  0 < Base.size (base c) → isCacheFull c = true →
  (if bool_decide (0 < Len (t1 c)) &&
        ((Has (b2 c) k && bool_decide (Len (t1 c) = part c))
         || bool_decide (part c < Len (t1 c)))
   then is_Some (RemoveTail (t1 c))
   else if bool_decide (0 < Len (t2 c))
        then is_Some (RemoveTail (t2 c))
        else is_Some (RemoveTail (t1 c)))
  ∧ ∃ c', replace k c = Ok tt c'.
Proof.
  intros Hsz Hfull. pose proof Hfull as Hf%isCacheFull_true. unfold Resident in Hf.
  pose proof (Len_nonneg (t1 c)). pose proof (Len_nonneg (t2 c)).
  unfold replace. rewrite (bind_Ok getS _ c c c) by done. rewrite Hfull. simpl.
  assert (∀ n, 0 < Len (lst n c) →
            is_Some (RemoveTail (lst n c))
            ∧ ∀ g, ∃ c', ((old ← removeTail n; pushFront g old;; mret old)
                            ≫= dropItem) c = Ok tt c') as Hpop.
  { intros n [[old a] Hrt]%RemoveTail_is_Some. split; [by eauto|]. intros g.
    unfold removeTail, pushFront, dropItem. munfold. rewrite Hrt. simpl.
    match goal with |- context [items ?s !! old] => destruct (items s !! old) end;
      eauto. }
  match goal with |- context [if ?b then _ else _] => destruct b eqn:Hc1 end.
  - apply andb_true_iff in Hc1 as [Hpos%bool_decide_eq_true _].
    destruct (Hpop T1 Hpos) as [? ?]. eauto.
  - destruct (bool_decide (0 < Len (t2 c))) eqn:Hc2.
    + apply bool_decide_eq_true in Hc2. destruct (Hpop T2 Hc2) as [? ?]. eauto.
    + apply bool_decide_eq_false in Hc2.
      destruct (Hpop T1) as [? ?]; [simpl; lia|]. eauto.
Qed.
(** The first step of [set]: the item stored under [k], and the cache with
    that item in its value map. *)
Definition stored c k (v : V) : arcItem K V :=
  let item := match items c !! k with
              | Some it => setValue v it
              | None => {| key := k; value := v; expiration := None |}
              end in
  match Base.expiration (base c) with
  | Some d => setExpiration (Some (Base.clock (base c) + d)) item
  | None => item
  end.

Definition upserted c k (v : V) : ARCCache K V E :=
  setItems (<[k := stored c k v]> (items c)) c.

(** The last two steps of [set] for a key new to the four lists. *)
Definition addToT1 k (v : V) : M (ARCCache K V E) unit :=
  modify (λ c, setBase (Base.callAdded k v (base c)) c);; pushFront T1 k.

(** C3, as the code has it.  For a key new to the four lists and with
    |T1| + |B1| = capacity:
    - when the cache is full (|T1| + |T2| = capacity): if |T1| < capacity,
      [set] drops the tail of B1 and calls [replace]; otherwise it drops the
      tail of T1, deletes that key's item from the value map and calls the
      evicted callback on it.  Then the key goes to T1;
    - when |T1| + |T2| < capacity, the general branch runs: [set] drops the
      tail of B2 if the four lists hold 2 * capacity keys, [replace] does
      nothing, the key goes to T1, and B1 is as it was. *)
Theorem set_l1_full c k v :
  0 < Base.size (base c) →
  Has (t1 c) k = false → Has (t2 c) k = false →
  Has (b1 c) k = false → Has (b2 c) k = false →
  Len (t1 c) + Len (b1 c) = Base.size (base c) →
  (isCacheFull c = true →
   if bool_decide (Len (t1 c) < Base.size (base c))
   then
     ∃ tail b1', RemoveTail (b1 c) = Some (tail, b1')
       ∧ set k v c = (replace k;; addToT1 k v) (setLst B1 b1' (upserted c k v))
   else
     ∃ pop t1', RemoveTail (t1 c) = Some (pop, t1')
       ∧ set k v c =
           addToT1 k v
             (match items (upserted c k v) !! pop with
              | Some item =>
                  setBase (Base.callEvicted (key item) (value item) (base c))
                    (setItems (delete pop (items (upserted c k v)))
                       (setLst T1 t1' (upserted c k v)))
              | None => setLst T1 t1' (upserted c k v)
              end))
  ∧ (Len (t1 c) + Len (t2 c) < Base.size (base c) →
     Base.size (base c) < 2 ^ 62 →
     (if bool_decide (Total c = 2 * Base.size (base c))
      then
        ∃ tail b2', RemoveTail (b2 c) = Some (tail, b2')
          ∧ set k v c = addToT1 k v (setLst B2 b2' (upserted c k v))
      else set k v c = addToT1 k v (upserted c k v))
     ∧ ∃ c', set k v c = Ok tt c' ∧ b1 c' = b1 c
             ∧ l (t1 c') = k :: l (t1 c)).
Proof.
  intros Hsz H1 H2 H3 H4 HL1.
  pose proof (Len_nonneg (t1 c)). pose proof (Len_nonneg (b1 c)).
  pose proof (Len_nonneg (t2 c)). pose proof (Len_nonneg (b2 c)).
  split.
  { intros Hfull.
    assert (set k v c =
              ((if bool_decide (Len (t1 c) < Base.size (base c))
                then removeTail B1;; replace k
                else pop ← removeTail T1; dropItem pop);; addToT1 k v)
                (upserted c k v)) as ->.
    { unfold set. rewrite (bind_Ok getS _ c c c) by done. cbv zeta.
      erewrite (bind_Ok (modify _)) by reflexivity.
      rewrite H1. simpl. unfold Has, Get in *.
      rewrite H3, H4, Hfull. rewrite (bool_decide_eq_true_2 _ HL1). simpl.
      reflexivity. }
    destruct (bool_decide (Len (t1 c) < Base.size (base c))) eqn:Hlt.
    - apply bool_decide_eq_true in Hlt.
      destruct (RemoveTail (b1 c)) as [[tail b1']|] eqn:Hrt.
      2:{ assert (is_Some (RemoveTail (b1 c))) as [? ?]; [|congruence].
          apply RemoveTail_is_Some. lia. }
      exists tail, b1'. split; [done|].
      unfold removeTail. munfold. simpl. rewrite Hrt. done.
    - apply bool_decide_eq_false in Hlt.
      destruct (RemoveTail (t1 c)) as [[pop t1']|] eqn:Hrt.
      2:{ assert (is_Some (RemoveTail (t1 c))) as [? ?]; [|congruence].
          apply RemoveTail_is_Some. lia. }
      exists pop, t1'. split; [done|].
      unfold removeTail, dropItem. munfold. simpl. rewrite Hrt. simpl.
      destruct (_ !! pop); done. }
  intros Hroom Hmax.
  assert (isCacheFull c = false) as Hfull.
  { unfold isCacheFull. apply bool_decide_eq_false_2. lia. }
  assert (set k v c =
            (((if bool_decide (Total c = 2 * Base.size (base c))
              then if bool_decide (0 < Len (b2 c))
                   then removeTail B2;; mret tt
                   else removeTail B1;; mret tt
              else mret tt);; replace k);; addToT1 k v)
              (upserted c k v)) as Hset.
  { unfold set. rewrite (bind_Ok getS _ c c c) by done. cbv zeta.
    erewrite (bind_Ok (modify _)) by reflexivity.
    rewrite H1. simpl. unfold Has, Get in *.
    rewrite H3, H4, Hfull. simpl.
    rewrite (wrap_int_small (2 * _)) by lia.
    rewrite (bool_decide_eq_true_2 (Base.size (base c) ≤ _)) by lia.
    unfold Total. reflexivity. }
  assert (∀ c1 : ARCCache K V E,
            t1 c1 = t1 c → t2 c1 = t2 c → base c1 = base c →
            replace k c1 = Ok tt c1) as Hrep.
  { intros c1 E1 E2 Eb. unfold replace. munfold. unfold isCacheFull in *.
    rewrite E1, E2, Eb, Hfull. done. }
  assert (∀ c1 : ARCCache K V E,
            t1 c1 = t1 c → b1 c1 = b1 c →
            ∃ c', addToT1 k v c1 = Ok tt c' ∧ b1 c' = b1 c
                  ∧ l (t1 c') = k :: l (t1 c)) as Hadd.
  { intros c1 E1 Eb. unfold addToT1, pushFront. munfold. simpl.
    eexists. split; [reflexivity|]. simpl. split; [done|].
    rewrite E1. unfold PushFront. unfold Has in H1.
    by rewrite H1. }
  destruct (bool_decide (Total c = 2 * Base.size (base c))) eqn:Htot.
  - apply bool_decide_eq_true in Htot. unfold Total in Htot.
    rewrite (bool_decide_eq_true_2 (0 < Len (b2 c))) in Hset by lia.
    destruct (RemoveTail (b2 c)) as [[tail b2']|] eqn:Hrt.
    2:{ assert (is_Some (RemoveTail (b2 c))) as [? ?]; [|congruence].
        apply RemoveTail_is_Some. lia. }
    assert (set k v c = addToT1 k v (setLst B2 b2' (upserted c k v))) as Hset'.
    { rewrite Hset. unfold mbind, M_bind, removeTail. simpl. rewrite Hrt.
      simpl. change (match replace k (setLst B2 b2' (upserted c k v)) with
                     | Ok _ s' => addToT1 k v s'
                     | Panic s' => Panic s'
                     end = addToT1 k v (setLst B2 b2' (upserted c k v))).
      by rewrite Hrep. }
    split; [by eauto|]. rewrite Hset'. by apply Hadd.
  - assert (set k v c = addToT1 k v (upserted c k v)) as Hset'.
    { rewrite Hset. unfold mbind, M_bind. simpl.
      change (match replace k (upserted c k v) with
              | Ok _ s' => addToT1 k v s'
              | Panic s' => Panic s'
              end = addToT1 k v (upserted c k v)).
      by rewrite Hrep. }
    split; [done|]. rewrite Hset'. by apply Hadd.
Qed.
End facts.

(** *** Concrete runs *)

Definition arc0 : ARCCache nat nat unit :=
  init (Base.buildCache 0 2 None true true None).

(** Capacity 2; [Set(1,10); Remove(1); Set(2,20)]: T1 = [2], B1 = [1]. *)
Definition arc_gap : ARCCache nat nat unit :=
  stateOf ((Set_ 1%nat 10%nat;; Remove_ 1%nat;; Set_ 2%nat 20%nat) arc0).

(** Capacity 2; [Set(1,10); Set(2,20)]: T1 = [2; 1], the cache is full. *)
Definition arc_full : ARCCache nat nat unit :=
  stateOf ((Set_ 1%nat 10%nat;; Set_ 2%nat 20%nat) arc0).

Ltac by_compute := apply (bool_decide_unpack _); vm_compute; exact I.


(** C3 as stated fails: in [arc_gap], |T1| + |B1| = capacity and
    |T1| < capacity, key 3 is new to the four lists, and [Set(3,30)] leaves
    B1 as it was: the tail of B1 is not dropped. *)
Lemma set_l1_full_needs_full_cache :
  Has (t1 arc_gap) 3%nat = false ∧ Has (t2 arc_gap) 3%nat = false
  ∧ Has (b1 arc_gap) 3%nat = false ∧ Has (b2 arc_gap) 3%nat = false
  ∧ Len (t1 arc_gap) + Len (b1 arc_gap) = Base.size (base arc_gap)
  ∧ Len (t1 arc_gap) < Base.size (base arc_gap)
  ∧ l (b1 arc_gap) = [1%nat]
  ∧ ∃ c', set 3%nat 30%nat arc_gap = Ok tt c'
          ∧ l (b1 c') = [1%nat] ∧ l (t1 c') = [3%nat; 2%nat].
Proof.
  split_and!; try (vm_compute; reflexivity).
  eexists. split_and!; vm_compute; reflexivity.
Qed.

Lemma set_l1_full_witness :
  (∃ pop t1', RemoveTail (t1 arc_full) = Some (pop, t1')
     ∧ set 3%nat 30%nat arc_full =
         addToT1 3%nat 30%nat
           (match items (upserted arc_full 3%nat 30%nat) !! pop with
            | Some item =>
                setBase (Base.callEvicted (key item) (value item) (base arc_full))
                  (setItems (delete pop (items (upserted arc_full 3%nat 30%nat)))
                     (setLst T1 t1' (upserted arc_full 3%nat 30%nat)))
            | None => setLst T1 t1' (upserted arc_full 3%nat 30%nat)
            end))
  ∧ set 3%nat 30%nat arc_gap = addToT1 3%nat 30%nat (upserted arc_gap 3%nat 30%nat)
  ∧ ∃ c', set 3%nat 30%nat arc_gap = Ok tt c' ∧ b1 c' = b1 arc_gap
          ∧ l (t1 c') = 3%nat :: l (t1 arc_gap).
Proof.
  split.
  - apply (proj1 (set_l1_full arc_full 3%nat 30%nat eq_refl eq_refl eq_refl
                    eq_refl eq_refl eq_refl) eq_refl).
  - apply (proj2 (set_l1_full arc_gap 3%nat 30%nat eq_refl eq_refl eq_refl
                    eq_refl eq_refl eq_refl) eq_refl eq_refl).
Defined.

Lemma replace_pops_nonempty_witness :
  is_Some (RemoveTail (t1 arc_full))
  ∧ ∃ c', replace 3%nat arc_full = Ok tt c'.
Proof.
  apply (replace_pops_nonempty arc_full 3%nat); vm_compute; reflexivity.
Defined.


End ArcFacts.

(** ** Computations that keep a part of the state *)

(** [keeps f m]: running [m] leaves [f] of the state as it was, also when
    [m] panics. *)
Definition keeps {S A X} (f : S → X) (m : M S A) : Prop :=
  ∀ s, f (stateOf (m s)) = f s.

Lemma keeps_Ok {S A X} (f : S → X) (m : M S A) s a s' :
  keeps f m → m s = Ok a s' → f s' = f s.
Proof. intros Hk Hm. specialize (Hk s). by rewrite Hm in Hk. Qed.

Lemma keeps_ret {S A X} (f : S → X) (a : A) : keeps f (mret a).
Proof. by intros s. Qed.

Lemma keeps_bind {S A B X} (f : S → X) (m : M S A) (k : A → M S B) :
  keeps f m → (∀ a, keeps f (k a)) → keeps f (m ≫= k).
Proof.
  intros Hm Hk s. unfold mbind, M_bind. specialize (Hm s).
  destruct (m s) as [a s'|s']; simpl in *; [|done].
  by rewrite Hk.
Qed.

Lemma keeps_getS {S X} (f : S → X) : keeps f getS.
Proof. by intros s. Qed.

Lemma keeps_modify {S X} (f : S → X) (g : S → S) :
  (∀ s, f (g s) = f s) → keeps f (modify g).
Proof. intros Hg s. apply Hg. Qed.

Lemma keeps_panic {S A X} (f : S → X) : keeps f (panic (A:=A)).
Proof. by intros s. Qed.

Lemma keeps_when {S X} (f : S → X) b (m : M S unit) :
  keeps f m → keeps f (when b m).
Proof. intros Hm. destruct b; [done|apply keeps_ret]. Qed.

Lemma keeps_recover {S A X} (f : S → X) (m h : M S A) :
  keeps f m → keeps f h → keeps f (recover m h).
Proof.
  intros Hm Hh s. unfold recover. specialize (Hm s).
  destruct (m s) as [a s'|s']; simpl in *; [done|]. by rewrite Hh.
Qed.

Create HintDb keeps.

Lemma stats_callEvicted `{Countable K} {V E} (k : K) (v : V) (b : Base.baseCache K V E) :
  Base.stats_ (Base.callEvicted k v b) = Base.stats_ b.
Proof. unfold Base.callEvicted. by destruct (Base.evictedFunc b). Qed.

Lemma stats_callAdded `{Countable K} {V E} (k : K) (v : V) (b : Base.baseCache K V E) :
  Base.stats_ (Base.callAdded k v b) = Base.stats_ b.
Proof. unfold Base.callAdded. by destruct (Base.addedFunc b). Qed.

(** The statistics of a cache of any policy. *)
Definition statsOf {K V E : Type} `{Countable K} {C : Type} `{!Cache K V E C}
    (c : C) : stats :=
  Base.stats_ (c_base c).

Ltac keeps_step :=
  lazymatch goal with
  | |- keeps _ (mret _) => apply keeps_ret
  | |- keeps _ (_ ≫= _) => apply keeps_bind; [|intros ?]
  | |- keeps _ getS => apply keeps_getS
  | |- keeps _ (modify _) =>
      apply keeps_modify; intros ?; unfold statsOf; simpl;
      rewrite ?stats_callEvicted, ?stats_callAdded; reflexivity
  | |- keeps _ panic => apply keeps_panic
  | |- keeps _ (when _ _) => apply keeps_when
  | |- keeps _ (recover _ _) => apply keeps_recover
  | |- keeps _ (match ?x with _ => _ end) => destruct x
  end.

Ltac keeps_auto := repeat first [keeps_step | solve [eauto with keeps]].

(** What a counted read does to the statistics: one increment of the hit
    counter on a value, one of the miss counter otherwise. *)
Definition counted {V} (r : option V) (s s' : stats) : Prop :=
  s' = match r with Some _ => IncrHitCount s | None => IncrMissCount s end.

Module SimpleStats.
Import Simple.
Section facts.
Context {K V E : Type} `{HeqK : EqDecision K, HcntK : !Countable K}.
Implicit Types (c : SimpleCache K V E) (k : K).

Lemma simple_remove_keeps k : keeps statsOf (remove (V:=V) (E:=E) k).
Proof. unfold remove. keeps_auto. Qed.
Hint Resolve simple_remove_keeps : keeps.

Lemma simple_removeAll_keeps (ks : list K) : keeps statsOf (removeAll (V:=V) (E:=E) ks).
Proof. induction ks; simpl; keeps_auto. Qed.
Hint Resolve simple_removeAll_keeps : keeps.

Lemma simple_evict_keeps n : keeps statsOf (evict (K:=K) (V:=V) (E:=E) n).
Proof. unfold evict. keeps_auto. Qed.
Hint Resolve simple_evict_keeps : keeps.

Lemma simple_set_keeps k (v : V) : keeps statsOf (set (E:=E) k v).
Proof. unfold set. keeps_auto. Qed.

Lemma simple_setItemExpiration_keeps k t :
  keeps statsOf (setItemExpiration (V:=V) (E:=E) k t).
Proof. unfold setItemExpiration. keeps_auto. Qed.

Lemma simple_get_onLoad_keeps k : keeps statsOf (get (V:=V) (E:=E) k true).
Proof. unfold get, getValue, incrHit, incrMiss. simpl. keeps_auto. Qed.

Lemma simple_get_counts k c r c' :
  get k false c = Ok r c' → counted r (statsOf c) (statsOf c').
Proof.
  unfold counted, get, getValue, incrHit, incrMiss. munfold. simpl.
  destruct (items c !! k) as [item|]; [|by intros [= <- <-]].
  destruct (IsExpired _ _ _); simpl; [|by intros [= <- <-]].
  destruct (remove k c) as [b c1|c1] eqn:Hr; [|done].
  intros [= <- <-].
  pose proof (keeps_Ok statsOf _ _ _ _ (simple_remove_keeps k) Hr) as Hs.
  unfold statsOf in *. simpl in *. by rewrite Hs.
Qed.
End facts.
End SimpleStats.

Module LruStats.
Import Lru.
Section facts.
Context {K V E : Type} `{HeqK : EqDecision K, HcntK : !Countable K}.
Implicit Types (c : LRUCache K V E) (k : K).

Lemma lru_removeElement_keeps k : keeps statsOf (removeElement (V:=V) (E:=E) k).
Proof. unfold removeElement. keeps_auto. Qed.
Hint Resolve lru_removeElement_keeps : keeps.

Lemma lru_evictLoop_keeps n : keeps statsOf (evictLoop (K:=K) (V:=V) (E:=E) n).
Proof. induction n; simpl; keeps_auto. Qed.
Hint Resolve lru_evictLoop_keeps : keeps.

Lemma lru_set_keeps k (v : V) : keeps statsOf (set (E:=E) k v).
Proof. unfold set, evict. keeps_auto. Qed.

Lemma lru_setItemExpiration_keeps k t :
  keeps statsOf (setItemExpiration (V:=V) (E:=E) k t).
Proof. unfold setItemExpiration. keeps_auto. Qed.

Lemma lru_get_onLoad_keeps k : keeps statsOf (get (V:=V) (E:=E) k true).
Proof. unfold get, getValue, incrHit, incrMiss. simpl. keeps_auto. Qed.

Lemma lru_get_counts k c r c' :
  get k false c = Ok r c' → counted r (statsOf c) (statsOf c').
Proof.
  unfold counted, get, getValue, incrHit, incrMiss. munfold. simpl.
  destruct (items c !! k) as [item|]; [|by intros [= <- <-]].
  destruct (IsExpired _ _ _); simpl; [|by intros [= <- <-]].
  destruct (removeElement k c) as [b c1|c1] eqn:Hr; [|done].
  intros [= <- <-].
  pose proof (keeps_Ok statsOf _ _ _ _ (lru_removeElement_keeps k) Hr) as Hs.
  unfold statsOf in *. simpl in *. by rewrite Hs.
Qed.
End facts.
End LruStats.

Module LfuStats.
Import Lfu.
Section facts.
Context {K V E : Type} `{HeqK : EqDecision K, HcntK : !Countable K}.
Implicit Types (L : LFUCache K V E) (k : K).

Lemma lfu_entryOf_keeps e : keeps statsOf (entryOf (K:=K) (V:=V) (E:=E) e).
Proof. unfold entryOf. keeps_auto. Qed.
Hint Resolve lfu_entryOf_keeps : keeps.

Lemma lfu_removeItem_keeps k : keeps statsOf (removeItem (V:=V) (E:=E) k).
Proof. unfold removeItem. keeps_auto. Qed.
Hint Resolve lfu_removeItem_keeps : keeps.

Lemma lfu_evictItems_keeps (ks : list K) count i :
  keeps statsOf (evictItems (V:=V) (E:=E) ks count i).
Proof. revert i. induction ks; intros i; simpl; keeps_auto. Qed.
Hint Resolve lfu_evictItems_keeps : keeps.

Lemma lfu_evictLoop_keeps fuel entry count i :
  keeps statsOf (evictLoop (K:=K) (V:=V) (E:=E) fuel entry count i).
Proof. revert entry i. induction fuel; intros entry i; simpl; keeps_auto. Qed.
Hint Resolve lfu_evictLoop_keeps : keeps.

Lemma lfu_attach_keeps k e : keeps statsOf (attach (V:=V) (E:=E) k e).
Proof. unfold attach. keeps_auto. Qed.
Hint Resolve lfu_attach_keeps : keeps.

Lemma lfu_increment_keeps k : keeps statsOf (increment (V:=V) (E:=E) k).
Proof. unfold increment. keeps_auto. Qed.
Hint Resolve lfu_increment_keeps : keeps.

Lemma lfu_set_keeps k (v : V) : keeps statsOf (set (E:=E) k v).
Proof. unfold set, evict. keeps_auto. Qed.

Lemma lfu_setItemExpiration_keeps k t :
  keeps statsOf (setItemExpiration (V:=V) (E:=E) k t).
Proof. unfold setItemExpiration. keeps_auto. Qed.

Lemma lfu_get_onLoad_keeps k : keeps statsOf (get (V:=V) (E:=E) k true).
Proof. unfold get, getValue, incrHit, incrMiss. simpl. keeps_auto. Qed.

Lemma lfu_get_counts k L r L' :
  get k false L = Ok r L' → counted r (statsOf L) (statsOf L').
Proof.
  unfold counted, get, getValue, incrHit, incrMiss. munfold. simpl.
  destruct (items L !! k) as [item|]; [|by intros [= <- <-]].
  destruct (IsExpired _ _ _); simpl.
  - destruct (removeItem k L) as [b c1|c1] eqn:Hr; [|done].
    intros [= <- <-].
    pose proof (keeps_Ok statsOf _ _ _ _ (lfu_removeItem_keeps k) Hr) as Hs.
    unfold statsOf in *. simpl in *. by rewrite Hs.
  - destruct (increment k L) as [b c1|c1] eqn:Hr; [|done].
    intros [= <- <-].
    pose proof (keeps_Ok statsOf _ _ _ _ (lfu_increment_keeps k) Hr) as Hs.
    unfold statsOf in *. simpl in *. by rewrite Hs.
Qed.
End facts.
End LfuStats.

Module ArcStats.
Import Arc.
Section facts.
Context {K V E : Type} `{HeqK : EqDecision K, HcntK : !Countable K}.
Implicit Types (c : ARCCache K V E) (k : K).

Lemma arc_pushFront_keeps n k : keeps statsOf (pushFront (V:=V) (E:=E) n k).
Proof. unfold pushFront. apply keeps_modify. by destruct n. Qed.
Hint Resolve arc_pushFront_keeps : keeps.

Lemma arc_removeFrom_keeps n k e : keeps statsOf (removeFrom (V:=V) (E:=E) n k e).
Proof. unfold removeFrom. apply keeps_modify. by destruct n. Qed.
Hint Resolve arc_removeFrom_keeps : keeps.

Lemma arc_moveToFront_keeps n k : keeps statsOf (moveToFront (V:=V) (E:=E) n k).
Proof. unfold moveToFront. apply keeps_modify. by destruct n. Qed.
Hint Resolve arc_moveToFront_keeps : keeps.

Lemma arc_removeTail_keeps n : keeps statsOf (removeTail (K:=K) (V:=V) (E:=E) n).
Proof.
  intros c. unfold removeTail. destruct (RemoveTail _) as [[? ?]|]; [|done].
  by destruct n.
Qed.
Hint Resolve arc_removeTail_keeps : keeps.

Lemma arc_dropItem_keeps k : keeps statsOf (dropItem (V:=V) (E:=E) k).
Proof. unfold dropItem. keeps_auto. Qed.
Hint Resolve arc_dropItem_keeps : keeps.

Lemma arc_replace_keeps k : keeps statsOf (replace (V:=V) (E:=E) k).
Proof. unfold replace. keeps_auto. Qed.
Hint Resolve arc_replace_keeps : keeps.

Lemma arc_setPart_keeps p : keeps statsOf (setPart (K:=K) (V:=V) (E:=E) p).
Proof. unfold setPart. keeps_auto. Qed.
Hint Resolve arc_setPart_keeps : keeps.

Lemma arc_idiv_keeps a b : keeps statsOf (idiv (K:=K) (V:=V) (E:=E) a b).
Proof. unfold idiv. keeps_auto. Qed.
Hint Resolve arc_idiv_keeps : keeps.

Lemma arc_set_keeps k (v : V) : keeps statsOf (set (E:=E) k v).
Proof. unfold set, Get. keeps_auto. Qed.

Lemma arc_setItemExpiration_keeps k t :
  keeps statsOf (setItemExpiration (V:=V) (E:=E) k t).
Proof. unfold setItemExpiration. keeps_auto. Qed.

Lemma arc_get_onLoad_keeps k : keeps statsOf (get (V:=V) (E:=E) k true).
Proof. unfold get, getValue, Get, incrHit, incrMiss. simpl. keeps_auto. Qed.

Lemma arc_get_counts k c r c' :
  get k false c = Ok r c' → counted r (statsOf c) (statsOf c').
Proof.
  unfold counted, get, getValue, Get, incrHit, incrMiss, removeFrom, pushFront,
    moveToFront. munfold. simpl.
  repeat (case_match; simpl in *; simplify_eq; try done);
    intros; simplify_eq; unfold statsOf; simpl;
    rewrite ?stats_callEvicted; done.
Qed.
End facts.
End ArcStats.

(** ** Ranging over a map *)

Section range.
Context `{Countable K} {A : Type}.
Implicit Types (m : gmap K A) (P : K * A → bool).

Lemma rangeMap_ext_in {B} (f g : B → K → A → B) m b :
  (∀ b k x, m !! k = Some x → f b k x = g b k x) →
  rangeMap f m b = rangeMap g m b.
Proof.
  intros Hfg. unfold rangeMap.
  assert (∀ kx, kx ∈ map_to_list m → m !! kx.1 = Some kx.2) as Hin.
  { intros [k x]. apply elem_of_map_to_list. }
  revert b. induction (map_to_list m) as [|[k x] l IH]; intros b; [done|].
  simpl. rewrite Hfg by (apply (Hin (k, x)); left).
  apply IH. intros kx Hkx. apply Hin. by right.
Qed.

Lemma filter_map_to_list P m :
  filter (λ kx, P kx) (map_to_list m) ≡ₚ map_to_list (filter (λ kx, P kx) m).
Proof.
  apply NoDup_Permutation.
  - apply NoDup_filter, NoDup_map_to_list.
  - apply NoDup_map_to_list.
  - intros [k x]. rewrite list_elem_of_filter, !elem_of_map_to_list,
      map_lookup_filter_Some. naive_solver.
Qed.

(** A counting loop counts the entries that pass the test. *)
Lemma rangeMap_count P m :
  rangeMap (λ length k x, if P (k, x) then length + 1 else length) m 0
  = Z.of_nat (size (filter (λ kx, P kx) m)).
Proof.
  unfold rangeMap. rewrite <- length_map_to_list, <- filter_map_to_list.
  assert (∀ l n, fold_left (λ acc (kx : K * A),
                    if P (kx.1, kx.2) then acc + 1 else acc) l n
                 = n + Z.of_nat (length (filter (λ kx, P kx) l))) as Hf.
  { induction l as [|[k x] l IH]; intros n; simpl; [lia|].
    rewrite IH, filter_cons. simpl. destruct (P (k, x)); simpl; lia. }
  rewrite Hf. lia.
Qed.

(** A collecting loop returns the keys of the entries that pass the test,
    each once. *)
Lemma rangeMap_keys P m :
  let ks := rangeMap (λ keys k x, if P (k, x) then keys ++ [k] else keys) m [] in
  NoDup ks ∧ ∀ k, k ∈ ks ↔ ∃ x, m !! k = Some x ∧ P (k, x).
Proof.
  unfold rangeMap.
  assert (∀ l ks0, fold_left (λ acc (kx : K * A),
                     if P (kx.1, kx.2) then acc ++ [kx.1] else acc) l ks0
                   = ks0 ++ (filter (λ kx, P kx) l).*1) as Hf.
  { induction l as [|[k x] l IH]; intros ks0; simpl; [by rewrite app_nil_r|].
    rewrite IH, filter_cons. simpl.
    destruct (P (k, x)); simpl; [|done]. by rewrite <- app_assoc. }
  rewrite Hf. simpl. split.
  - rewrite filter_map_to_list. apply NoDup_fst_map_to_list.
  - intros k. rewrite list_elem_of_fmap. split.
    + intros ([k' x] & -> & Hin). apply list_elem_of_filter in Hin as [HP Hin].
      apply elem_of_map_to_list in Hin. eauto.
    + intros (x & Hx & HP). exists (k, x). split; [done|].
      apply list_elem_of_filter. split; [done|]. by apply elem_of_map_to_list.
Qed.

(** A copying loop returns the entries that pass the test, mapped by [f]. *)
Lemma rangeMap_copy {B} (f : A → B) P m :
  rangeMap (λ (acc : gmap K B) k x, if P (k, x) then <[k := f x]> acc else acc) m ∅
  = f <$> filter (λ kx, P kx) m.
Proof.
  unfold rangeMap.
  assert (∀ l acc, NoDup (l.*1) →
            fold_left (λ (acc : gmap K B) (kx : K * A),
                         if P (kx.1, kx.2) then <[kx.1 := f kx.2]> acc else acc) l acc
            = (f <$> list_to_map (filter (λ kx, P kx) l)) ∪ acc) as Hf.
  { induction l as [|[k x] l IH]; intros acc Hnd; simpl.
    { by rewrite fmap_empty, (left_id_L ∅ (∪)). }
    apply NoDup_cons in Hnd as [Hk Hnd]. rewrite IH by done.
    rewrite filter_cons. simpl. destruct (P (k, x)); simpl; [|done].
    rewrite fmap_insert.
    assert ((f <$> (list_to_map (filter (λ kx, P kx) l) : gmap K A)) !! k = None) as HM.
    { rewrite lookup_fmap, (proj1 (not_elem_of_list_to_map _ _)); [done|].
      intros ([k' x'] & Heq & Hin%list_elem_of_filter)%list_elem_of_fmap.
      simpl in Heq. subst k'. apply Hk. apply list_elem_of_fmap.
      exists (k, x'). naive_solver. }
    apply map_eq. intros j. rewrite !lookup_union, !lookup_insert.
    case_decide as Hj; [|done]. subst j. rewrite HM. simpl.
    by destruct (acc !! k). }
  rewrite Hf by apply NoDup_fst_map_to_list.
  rewrite (right_id_L ∅ (∪)). f_equal.
  apply map_eq. intros k. apply option_eq. intros x.
  rewrite <- elem_of_list_to_map.
  2:{ rewrite filter_map_to_list. apply NoDup_fst_map_to_list. }
  rewrite list_elem_of_filter, elem_of_map_to_list, map_lookup_filter_Some.
  naive_solver.
Qed.
End range.

(** ** The read-only operations *)

(** Not expired at [now]: no expiration, or one that is not before [now]. *)
Definition liveAt (now : Z) (exp : option Z) : bool :=
  match exp with
  | None => true
  | Some e => negb (bool_decide (e < now))
  end.

Lemma isExpired_now exp clk now :
  negb (isExpired exp clk (Some now)) = liveAt now exp.
Proof. by destruct exp. Qed.

(** [m] returns and leaves the whole state as it was. *)
Definition readOnly {S A} (m : M S A) : Prop := ∀ s, ∃ a, m s = Ok a s.

(** What the three snapshot loops compute over a map of items with
    expiration [ex] and value [val], given [has]. *)
Section loops.
Context `{Countable K} {A V : Type}.
Context (items : gmap K A) (ex : A → option Z) (val : A → V) (now : Z).
Context (has : K → bool).
Hypothesis has_spec :
  ∀ k, has k = match items !! k with Some x => liveAt now (ex x) | None => false end.

Lemma len_loop :
  rangeMap (λ length k _, if has k then length + 1 else length) items 0
  = Z.of_nat (size (filter (λ kx, liveAt now (ex kx.2)) items)).
Proof.
  rewrite <- (rangeMap_count (λ kx, liveAt now (ex kx.2))).
  apply rangeMap_ext_in. intros b k x Hk. by rewrite has_spec, Hk.
Qed.

Lemma keys_loop (checkExpired : bool) :
  let ks := rangeMap (λ keys k _, if negb checkExpired || has k
                                  then keys ++ [k] else keys) items [] in
  NoDup ks
  ∧ ∀ k, k ∈ ks ↔ ∃ x, items !! k = Some x
                       ∧ (checkExpired = true → liveAt now (ex x) = true).
Proof.
  pose proof (rangeMap_keys (λ kx, negb checkExpired || liveAt now (ex kx.2)) items)
    as [Hnd Hin].
  simpl in *.
  rewrite (rangeMap_ext_in _
             (λ keys k x, if negb checkExpired || liveAt now (ex x)
                          then keys ++ [k] else keys)).
  2:{ intros b k x Hk. by rewrite has_spec, Hk. }
  split; [done|]. intros k. rewrite Hin.
  split; intros (x & Hx & HP); exists x; (split; [done|]).
  - intros ->. simpl in HP. by apply Is_true_true.
  - destruct checkExpired; simpl; [|done]. apply Is_true_true. auto.
Qed.

Lemma getall_loop (checkExpired : bool) :
  rangeMap (λ (acc : gmap K V) k item,
              if negb checkExpired || has k then <[k := val item]> acc else acc)
           items ∅
  = val <$> (if checkExpired
             then filter (λ kx, liveAt now (ex kx.2)) items else items).
Proof.
  rewrite (rangeMap_ext_in _
             (λ acc k x, if negb checkExpired || liveAt now (ex x)
                         then <[k := val x]> acc else acc)).
  2:{ intros b k x Hk. by rewrite has_spec, Hk. }
  rewrite (rangeMap_copy val (λ kx, negb checkExpired || liveAt now (ex kx.2))).
  destruct checkExpired; simpl; [done|].
  f_equal. apply map_filter_id. done.
Qed.
End loops.

(** What C4 says of one policy, given its operations: [Len], [Keys] and
    [GetALL] return in the state they started from, and what they return
    is determined by the entries held and by [now], the reading of
    [time.Now()]. *)
Definition snapshots `{Countable K} {A V S : Type}
    (items : S → gmap K A) (ex : A → option Z) (val : A → V)
    (GetALL : Z → bool → M S (gmap K V)) (Keys : Z → bool → M S (list K))
    (Len : Z → bool → M S Z) : Prop :=
  ∀ (now : Z) (c : S),
    Len now false c = Ok (Z.of_nat (size (items c))) c
    ∧ Len now true c
      = Ok (Z.of_nat (size (filter (λ kx, liveAt now (ex kx.2)) (items c)))) c
    ∧ (∀ chk, ∃ ks, Keys now chk c = Ok ks c ∧ NoDup ks
         ∧ ∀ k, k ∈ ks ↔ ∃ x, items c !! k = Some x
                              ∧ (chk = true → liveAt now (ex x) = true))
    ∧ (∀ chk, GetALL now chk c
              = Ok (val <$> (if chk then filter (λ kx, liveAt now (ex kx.2)) (items c)
                             else items c)) c).

(** [Has] returns in the state it started from, with [true] for a key that
    has an entry not expired at [now]. *)
Definition reportsLive `{Countable K} {A S : Type}
    (items : S → gmap K A) (ex : A → option Z) (Has : Z → K → M S bool) : Prop :=
  ∀ (now : Z) (k : K) (c : S),
    Has now k c
    = Ok (match items c !! k with
          | Some x => liveAt now (ex x) | None => false end) c.

Module SnapshotFacts.
Section facts.
Context {K V E : Type} `{HeqK : EqDecision K, HcntK : !Countable K}.

Lemma simple_snapshots :
  snapshots (Simple.items (K:=K) (V:=V) (E:=E)) Simple.expiration Simple.value
    Simple.GetALL Simple.Keys Simple.Len.
Proof.
  intros now c.
  assert (∀ k, Simple.has c k now
               = match Simple.items c !! k with
                 | Some x => liveAt now (Simple.expiration x) | None => false end) as Hhas.
  { intros k. unfold Simple.has. destruct (_ !! k); [|done]. apply isExpired_now. }
  unfold Simple.Len, Simple.Keys, Simple.GetALL. munfold. simpl.
  split_and!; [done| | |].
  - f_equal. by apply len_loop.
  - intros chk. eexists. split; [done|]. by apply (keys_loop _ _ now).
  - intros chk. f_equal. by apply (getall_loop _ _ _ now).
Qed.

Lemma lru_snapshots :
  snapshots (Lru.items (K:=K) (V:=V) (E:=E)) Lru.expiration Lru.value
    Lru.GetALL Lru.Keys Lru.Len.
Proof.
  intros now c.
  assert (∀ k, Lru.has c k now
               = match Lru.items c !! k with
                 | Some x => liveAt now (Lru.expiration x) | None => false end) as Hhas.
  { intros k. unfold Lru.has. destruct (_ !! k); [|done]. apply isExpired_now. }
  unfold Lru.Len, Lru.Keys, Lru.GetALL. munfold. simpl.
  split_and!; [done| | |].
  - f_equal. by apply len_loop.
  - intros chk. eexists. split; [done|]. by apply (keys_loop _ _ now).
  - intros chk. f_equal. by apply (getall_loop _ _ _ now).
Qed.

Lemma lfu_snapshots :
  snapshots (Lfu.items (K:=K) (V:=V) (E:=E)) Lfu.expiration Lfu.value
    Lfu.GetALL Lfu.Keys Lfu.Len.
Proof.
  intros now c.
  assert (∀ k, Lfu.has c k now
               = match Lfu.items c !! k with
                 | Some x => liveAt now (Lfu.expiration x) | None => false end) as Hhas.
  { intros k. unfold Lfu.has. destruct (_ !! k); [|done]. apply isExpired_now. }
  unfold Lfu.Len, Lfu.Keys, Lfu.GetALL. munfold. simpl.
  split_and!; [done| | |].
  - f_equal. rewrite <- (rangeMap_count (λ kx, liveAt now (Lfu.expiration kx.2))).
    apply rangeMap_ext_in. intros b k x _. unfold Lfu.IsExpired.
    by rewrite isExpired_now.
  - intros chk. eexists. split; [done|]. by apply (keys_loop _ _ now).
  - intros chk. f_equal. by apply (getall_loop _ _ _ now).
Qed.

Lemma arc_snapshots :
  snapshots (Arc.items (K:=K) (V:=V) (E:=E)) Arc.expiration Arc.value
    Arc.GetALL Arc.Keys Arc.Len_.
Proof.
  intros now c.
  assert (∀ k, Arc.has c k now
               = match Arc.items c !! k with
                 | Some x => liveAt now (Arc.expiration x) | None => false end) as Hhas.
  { intros k. unfold Arc.has. destruct (_ !! k); [|done]. apply isExpired_now. }
  unfold Arc.Len_, Arc.Keys, Arc.GetALL. munfold. simpl.
  split_and!; [done| | |].
  - f_equal. by apply len_loop.
  - intros chk. eexists. split; [done|]. by apply (keys_loop _ _ now).
  - intros chk. f_equal. by apply (getall_loop _ _ _ now).
Qed.

(** [Has] of SIMPLE, LRU and LFU. *)
Lemma simple_reportsLive :
  reportsLive (Simple.items (K:=K) (V:=V) (E:=E)) Simple.expiration Simple.Has.
Proof.
  intros now k c. unfold Simple.Has, Simple.has. munfold.
  destruct (_ !! k); [|done]. unfold Simple.IsExpired. by rewrite isExpired_now.
Qed.

Lemma lru_reportsLive :
  reportsLive (Lru.items (K:=K) (V:=V) (E:=E)) Lru.expiration Lru.Has.
Proof.
  intros now k c. unfold Lru.Has, Lru.has. munfold.
  destruct (_ !! k); [|done]. unfold Lru.IsExpired. by rewrite isExpired_now.
Qed.

Lemma lfu_reportsLive :
  reportsLive (Lfu.items (K:=K) (V:=V) (E:=E)) Lfu.expiration Lfu.Has.
Proof.
  intros now k c. unfold Lfu.Has, Lfu.has. munfold.
  destruct (_ !! k); [|done]. unfold Lfu.IsExpired. by rewrite isExpired_now.
Qed.

(** [Has] of ARC never returns: it releases a write lock that it does not
    hold. *)
Lemma arc_Has_fatal now (k : K) (c : Arc.ARCCache K V E) : Arc.Has_ now k c = Panic c.
Proof. reflexivity. Qed.

(** C4, as the code has it.  In each of the four policies [Len(false)] is
    the number of entries held, and [Len(true)], [Keys(true)] and
    [GetALL(true)] count, list and copy exactly the entries that are not
    expired at [now], the reading of [time.Now()] taken by the operation; the
    reading of the configured clock plays no part. *)
Theorem snapshots_use_wall_clock :
  snapshots (Simple.items (K:=K) (V:=V) (E:=E)) Simple.expiration Simple.value
    Simple.GetALL Simple.Keys Simple.Len
  ∧ snapshots (Lru.items (K:=K) (V:=V) (E:=E)) Lru.expiration Lru.value
      Lru.GetALL Lru.Keys Lru.Len
  ∧ snapshots (Lfu.items (K:=K) (V:=V) (E:=E)) Lfu.expiration Lfu.value
      Lfu.GetALL Lfu.Keys Lfu.Len
  ∧ snapshots (Arc.items (K:=K) (V:=V) (E:=E)) Arc.expiration Arc.value
      Arc.GetALL Arc.Keys Arc.Len_.
Proof.
  split_and!; [apply simple_snapshots|apply lru_snapshots|apply lfu_snapshots
              |apply arc_snapshots].
Qed.
End facts.
End SnapshotFacts.

(** ** Statistics of a top-level read, for any policy *)

(** Exactly one of the two counters was incremented, once: the hit counter
    is one more (modulo 2^64) and the miss counter is as it was, or the other
    way round. *)
Definition oneIncrement (s s' : stats) : Prop :=
  (hitCount s' = wrap_uint (hitCount s + 1) ∧ missCount s' = missCount s)
  ∨ (hitCount s' = hitCount s ∧ missCount s' = wrap_uint (missCount s + 1)).


Module StatsFacts.
Import Common.
Section generic.
Context {K V E : Type} `{HeqK : EqDecision K, HcntK : !Countable K}.
Context {C : Type} `{!Cache K V E C}.
Hypothesis get_onLoad_keeps : ∀ k : K, keeps statsOf (c_get k true).
Hypothesis set_keeps : ∀ (k : K) v, keeps statsOf (c_set k v).
Hypothesis setItemExpiration_keeps : ∀ (k : K) t, keeps statsOf (c_setItemExpiration k t).
Hypothesis get_counts :
  ∀ (k : K) (c : C) r c', c_get k false c = Ok r c' → counted r (statsOf c) (statsOf c').

Lemma modifyGroup_keeps f : keeps statsOf (modifyGroup f).
Proof.
  unfold modifyGroup. apply keeps_modify. intros c. unfold statsOf.
  by rewrite c_base_setBase.
Qed.

Lemma getWithLoader_keeps (k : K) isWait : keeps statsOf (getWithLoader k isWait).
Proof.
  pose proof modifyGroup_keeps.
  unfold getWithLoader, load, Do, call, loadFn, loaderCallback.
  keeps_auto.
Qed.

Lemma top_level_counts (k : K) isWait (c : C) :
  match (r ← c_get k false;
         match r with
         | None => getWithLoader k isWait
         | Some v => mret (GetReturn (Some v) None)
         end) c with
  | Ok _ c' => oneIncrement (statsOf c) (statsOf c')
  | Panic _ => True
  end.
Proof.
  unfold mbind, M_bind. destruct (c_get k false c) as [r c1|c1] eqn:Hg; [|done].
  apply get_counts in Hg. unfold counted in Hg.
  destruct r as [v|]; simpl.
  - left. by rewrite Hg.
  - pose proof (getWithLoader_keeps k isWait c1) as Hk.
    destruct (getWithLoader k isWait c1) as [r c'|c']; [|done].
    simpl in Hk. right. by rewrite Hk, Hg.
Qed.

End generic.

Section policies.
Context {K V E : Type} `{HeqK : EqDecision K, HcntK : !Countable K}.


Lemma snapshots_readOnly {A S : Type}
    (items : S → gmap K A) (ex : A → option Z) (val : A → V)
    GetALL Keys Len :
  snapshots items ex val GetALL Keys Len →
  ∀ now chk,
    readOnly (GetALL now chk) ∧ readOnly (Keys now chk) ∧ readOnly (Len now chk).
Proof.
  intros Hs now chk. split_and!; intros c;
    destruct (Hs now c) as (HL0 & HL1 & HK & HG).
  - eexists. apply HG.
  - destruct (HK chk) as (ks & -> & _). eauto.
  - destruct chk; eauto.
Qed.

Lemma reportsLive_readOnly {A S : Type}
    (items : S → gmap K A) (ex : A → option Z) Has :
  reportsLive items ex Has → ∀ now k, readOnly (Has now k).
Proof. intros Hh now k c. eexists. apply Hh. Qed.

(** C8 on the code.  [GetALL], [Keys] and [Len] of the four
    policies, and [Has] of SIMPLE, LRU and LFU, return in the very state
    they were called in: entries, order, buckets, lists and counters are as
    they were.  [Has] of ARC does not return: it takes the read lock and
    releases the write lock, which is a fatal error of the runtime on every
    call. *)
Theorem read_only_except_arc_Has now chk (k : K) :
  (readOnly (Simple.GetALL (K:=K) (V:=V) (E:=E) now chk)
   ∧ readOnly (Simple.Keys (K:=K) (V:=V) (E:=E) now chk)
   ∧ readOnly (Simple.Len (K:=K) (V:=V) (E:=E) now chk)
   ∧ readOnly (Simple.Has (K:=K) (V:=V) (E:=E) now k))
  ∧ (readOnly (Lru.GetALL (K:=K) (V:=V) (E:=E) now chk)
     ∧ readOnly (Lru.Keys (K:=K) (V:=V) (E:=E) now chk)
     ∧ readOnly (Lru.Len (K:=K) (V:=V) (E:=E) now chk)
     ∧ readOnly (Lru.Has (K:=K) (V:=V) (E:=E) now k))
  ∧ (readOnly (Lfu.GetALL (K:=K) (V:=V) (E:=E) now chk)
     ∧ readOnly (Lfu.Keys (K:=K) (V:=V) (E:=E) now chk)
     ∧ readOnly (Lfu.Len (K:=K) (V:=V) (E:=E) now chk)
     ∧ readOnly (Lfu.Has (K:=K) (V:=V) (E:=E) now k))
  ∧ (readOnly (Arc.GetALL (K:=K) (V:=V) (E:=E) now chk)
     ∧ readOnly (Arc.Keys (K:=K) (V:=V) (E:=E) now chk)
     ∧ readOnly (Arc.Len_ (K:=K) (V:=V) (E:=E) now chk))
  ∧ ∀ c : Arc.ARCCache K V E, Arc.Has_ now k c = Panic c.
Proof.
  pose proof (snapshots_readOnly _ _ _ _ _ _
                (SnapshotFacts.simple_snapshots (K:=K) (V:=V) (E:=E)) now chk)
    as (S1 & S2 & S3).
  pose proof (snapshots_readOnly _ _ _ _ _ _
                (SnapshotFacts.lru_snapshots (K:=K) (V:=V) (E:=E)) now chk)
    as (R1 & R2 & R3).
  pose proof (snapshots_readOnly _ _ _ _ _ _
                (SnapshotFacts.lfu_snapshots (K:=K) (V:=V) (E:=E)) now chk)
    as (F1 & F2 & F3).
  pose proof (snapshots_readOnly _ _ _ _ _ _
                (SnapshotFacts.arc_snapshots (K:=K) (V:=V) (E:=E)) now chk)
    as (A1 & A2 & A3).
  pose proof (reportsLive_readOnly _ _ _
                (SnapshotFacts.simple_reportsLive (K:=K) (V:=V) (E:=E)) now k) as S4.
  pose proof (reportsLive_readOnly _ _ _
                (SnapshotFacts.lru_reportsLive (K:=K) (V:=V) (E:=E)) now k) as R4.
  pose proof (reportsLive_readOnly _ _ _
                (SnapshotFacts.lfu_reportsLive (K:=K) (V:=V) (E:=E)) now k) as F4.
  split_and!; try done.
Qed.
End policies.
End StatsFacts.

(** ** singleflight and the loader path, for any policy *)

Module CommonFacts.
Import Common.
Section facts.
Context {K V E : Type} `{HeqK : EqDecision K, HcntK : !Countable K}.
Context {C : Type} `{!Cache K V E C}.
Implicit Types (c : C) (key : K).

(** [g.m[key] = c] for a fresh descriptor [c] with [c.wg.Add(1)]. *)
Definition installed key c : C :=
  c_setBase
    (Base.setGroup
       (Flight.setM
          (<[key := {| Flight.wg := 1; Flight.val := None; Flight.err := None |}]>
             (Flight.m (Base.group (c_base c))))
          (Base.group (c_base c)))
       (c_base c)) c.

(** The state in which a deferred [Do] leaves the coordinator when it
    installs a fresh descriptor: the descriptor, and the goroutine
    dispatched for it. *)
Definition dispatched key c : C :=
  let c := installed key c in
  c_setBase
    (Base.setGroup
       (Flight.setGoroutines
          (Flight.goroutines (Base.group (c_base c)) ++ [key])
          (Base.group (c_base c)))
       (c_base c)) c.

(** What [Do] does in deferred mode, whatever [fn] is. *)
Definition DoDeferred key : M C (DoResult K V E) := λ c,
  match c_get key true c with
  | Panic c1 => Panic c1
  | Ok (Some v) c1 => Ok (DoReturn (Some v) false None) c1
  | Ok None c1 =>
      match Flight.m (Base.group (c_base c1)) !! key with
      | Some _ => Ok (DoReturn None false (Some KeyNotFoundError)) c1
      | None => Ok (DoReturn None false (Some KeyNotFoundError)) (dispatched key c1)
      end
  end.

(** [Do] in deferred mode never runs [fn] and never waits: it is
    [DoDeferred], in which [fn] does not occur. *)
Lemma Do_deferred key fn c : Do key fn false c = DoDeferred key c.
Proof.
  unfold Do, DoDeferred, mbind, M_bind.
  destruct (c_get key true c) as [[v|] c1|c1]; [done| |done].
  unfold getS. destruct (Flight.m _ !! key) as [d|] eqn:Hd; [done|].
  done.
Qed.

(** C5.  [Do] starts with the coordinator's cache check, [get] with
    [onLoad] set; a value found there is returned as [(value, false, nil)].
    In deferred mode ([isWait] false), once that check has missed:
    - if a descriptor for the key is installed, [Do] returns
      [(nil, false, KeyNotFoundError)] in the state that the cache check
      left;
    - if none is, [Do] installs one, dispatches the goroutine and returns
      [(nil, false, KeyNotFoundError)].
    In neither case is [fn] run by the caller ([Do] is the same computation
    for every [fn]), and in neither case does the caller wait on a
    completion. *)
Theorem Do_deferred_not_found key fn c :
  (∀ v c1, c_get key true c = Ok (Some v) c1 →
     Do key fn false c = Ok (DoReturn (Some v) false None) c1)
  ∧ (∀ c1 d, c_get key true c = Ok None c1 →
       Flight.m (Base.group (c_base c1)) !! key = Some d →
       Do key fn false c = Ok (DoReturn None false (Some KeyNotFoundError)) c1)
  ∧ (∀ c1, c_get key true c = Ok None c1 →
       Flight.m (Base.group (c_base c1)) !! key = None →
       Do key fn false c
       = Ok (DoReturn None false (Some KeyNotFoundError)) (dispatched key c1))
  ∧ (∀ fn', Do key fn' false c = Do key fn false c)
  ∧ (∀ r c', Do key fn false c = Ok r c' → ∀ k, r ≠ DoWait k).
Proof.
  rewrite !Do_deferred. unfold DoDeferred. split_and!.
  - intros v c1 Hg. by rewrite Hg.
  - intros c1 d Hg Hd. by rewrite Hg, Hd.
  - intros c1 Hg Hd. by rewrite Hg, Hd.
  - intros fn'. by rewrite Do_deferred.
  - intros r c'. destruct (c_get key true c) as [[v|] c2|c2]; [| |done].
    + by intros [= <- <-].
    + destruct (_ !! key); by intros [= <- <-].
Qed.

(** What C9 allows [GetIfPresent] to return. *)
Definition presentOrNotFound (r : GetResult K V E) : Prop :=
  match r with
  | GetReturn (Some _) None => True
  | GetReturn None (Some KeyNotFoundError) => True
  | _ => False
  end.

Lemma GetIfPresent_result key c :
  match GetIfPresent key c with
  | Ok r _ => presentOrNotFound r
  | Panic _ => True
  end.
Proof.
  unfold GetIfPresent, getWithLoader, load, mbind, M_bind, getS, mret, M_ret.
  destruct (c_get key false c) as [[v|] c1|c1]; [done| |done].
  destruct (Base.loaderExpireFunc (c_base c1)) as [ld|] eqn:Hld; [|done].
  rewrite Do_deferred. unfold DoDeferred.
  destruct (c_get key true c1) as [[v|] c2|c2]; [done| |done].
  destruct (_ !! key); done.
Qed.

(** The goroutine of a deferred load drops what the loader returned and
    leaves no descriptor for its key behind. *)
Lemma runGoroutine_discards c key rest c' :
  Flight.goroutines (Base.group (c_base c)) = key :: rest →
  runGoroutine c = Ok tt c' →
  Flight.m (Base.group (c_base c')) !! key = None.
Proof.
  intros Hg. unfold runGoroutine, call, modifyGroup, modify, mbind, M_bind, getS, mret, M_ret.
  rewrite Hg.
  match goal with |- context [match ?fn ?s with _ => _ end] => destruct (fn s) as [r s1|s1] end;
    [|done].
  intros [= <-]. rewrite !c_base_setBase. simpl. apply lookup_delete_eq.
Qed.
End facts.

Section policies.
Context {K V E : Type} `{HeqK : EqDecision K, HcntK : !Countable K}.

(** C9: in each of the four policies, a [GetIfPresent] that returns gives
    either a value with a nil error or [KeyNotFoundError] with a nil value;
    no loader error and no wait. *)
Theorem GetIfPresent_never_loader_error (key : K) :
  (∀ c : Simple.SimpleCache K V E,
     match GetIfPresent key c with Ok r _ => presentOrNotFound r | Panic _ => True end)
  ∧ (∀ c : Lru.LRUCache K V E,
     match GetIfPresent key c with Ok r _ => presentOrNotFound r | Panic _ => True end)
  ∧ (∀ c : Lfu.LFUCache K V E,
     match GetIfPresent key c with Ok r _ => presentOrNotFound r | Panic _ => True end)
  ∧ (∀ c : Arc.ARCCache K V E,
     match GetIfPresent key c with Ok r _ => presentOrNotFound r | Panic _ => True end).
Proof. split_and!; intros c; apply GetIfPresent_result. Qed.
End policies.
End CommonFacts.

(** ** LFU: the frequency buckets *)

Module LfuFacts.
Import Lfu.
Section facts.
Context {K V E : Type} `{HeqK : EqDecision K, HcntK : !Countable K}.
Implicit Types (L : LFUCache K V E) (k : K) (e n : nat).

(** The frequency of the bucket of element [e]. *)
Definition freqOf L e : Z := from_option freq 0 (elems L !! e).

(** Bucket frequencies strictly ascend along the list. *)
Definition ascending L : Prop :=
  StronglySorted (λ a b, freqOf L a < freqOf L b) (freqList L).

(** Every linked element has a bucket and an address already handed out. *)
Definition linked L : Prop :=
  ∀ e, e ∈ freqList L → is_Some (elems L !! e) ∧ (e < nextElem L)%nat.

(** The three states in which [increment] of [k] can end, for an item in
    bucket [ce] of element [cur]. *)
Definition leftBucket k (ce : freqEntry K) : freqEntry K :=
  setEntryItems (items_ ce ∖ {[k]}) ce.

Definition relabelled L k cur (ce : freqEntry K) : LFUCache K V E :=
  setItems (alter (setFreqElement cur) k (items L))
    (setElems (<[cur := {| freq := freq ce + 1;
                           items_ := {[k]} ∪ (items_ ce ∖ {[k]}) |}]> (elems L)) L).

Definition spliced L k cur (ce : freqEntry K) : LFUCache K V E :=
  let new := nextElem L in
  setItems (alter (setFreqElement new) k (items L))
    (setFreqList (InsertAfter new cur (freqList L))
       (setElems (<[new := {| freq := freq ce + 1; items_ := {[k]} ∪ ∅ |}]>
                    (<[cur := leftBucket k ce]> (elems L)))
          (setNextElem (S new) L))).

Definition joined L k cur (ce : freqEntry K) n (ne : freqEntry K) : LFUCache K V E :=
  setItems (alter (setFreqElement n) k (items L))
    (setElems (<[n := setEntryItems ({[k]} ∪ items_ ne) ne]>
                 (<[cur := leftBucket k ce]> (elems L)))
       (setFreqList (if isRemovableFreqEntry (leftBucket k ce)
                     then listRemove cur (freqList L) else freqList L) L)).

Lemma wrap_uint_small z : 0 ≤ z < 2 ^ 64 → wrap_uint z = z.
Proof. intros Hz. unfold wrap_uint. by apply Z.mod_small. Qed.

(** Only a linked element has a successor. *)
Lemma Next_Some_elem e fl n : Next e fl = Some n → e ∈ fl.
Proof.
  induction fl as [|x rest IH]; simpl; [done|].
  case_bool_decide as Hx.
  - intros _. subst. apply elem_of_cons. by left.
  - intros Hn. apply elem_of_cons. right. by apply IH.
Qed.

Section cases.
Context (L : LFUCache K V E) (k : K) (item : lfuItem K V) (ce : freqEntry K).
Hypothesis Hitem : items L !! k = Some item.
Hypothesis Hce : elems L !! freqElement item = Some ce.
Hypothesis Hf : 0 ≤ freq ce ∧ freq ce + 1 < 2 ^ 64.

Lemma increment_unfold :
  increment k L =
    let cur := freqElement item in
    let L1 := setElems (<[cur := leftBucket k ce]> (elems L)) L in
    match Next cur (freqList L) with
    | None =>
        if isRemovableFreqEntry (leftBucket k ce)
        then Ok tt (relabelled L k cur ce)
        else if bool_decide (cur ∈ freqList L)
             then Ok tt (spliced L k cur ce) else Panic L1
    | Some n =>
        match elems L1 !! n with
        | None => Panic L1
        | Some ne =>
            if bool_decide (freq ce + 1 < freq ne)
            then
              if isRemovableFreqEntry (leftBucket k ce)
              then Ok tt (relabelled L k cur ce) else Ok tt (spliced L k cur ce)
            else
              if bool_decide (freq ne = freq ce + 1)
              then Ok tt (joined L k cur ce n ne)
              else Panic L1
        end
    end.
Proof.
  unfold increment. munfold. rewrite Hitem. unfold entryOf. munfold. rewrite Hce.
  simpl. rewrite (wrap_uint_small (freq ce + 1)) by lia.
  fold (leftBucket k ce).
  assert (∀ (L' : LFUCache K V E) e be,
             elems L' !! e = Some be →
             attach k e L' =
               Ok tt (setItems (alter (setFreqElement e) k (items L'))
                        (setElems (<[e := setEntryItems ({[k]} ∪ items_ be) be]>
                                     (elems L')) L'))) as Hattach.
  { intros L' e be Hbe. unfold attach, entryOf. munfold. by rewrite Hbe. }
  assert (attach k (freqElement item)
            (setElems (<[freqElement item := setFreq (freq ce + 1) (leftBucket k ce)]>
                         (<[freqElement item := leftBucket k ce]> (elems L)))
               (setElems (<[freqElement item := leftBucket k ce]> (elems L)) L))
          = Ok tt (relabelled L k (freqElement item) ce)) as HA1.
  { erewrite Hattach by apply lookup_insert_eq. simpl.
    unfold relabelled. by rewrite !insert_insert_eq. }
  assert (attach k (nextElem L)
            (setFreqList (InsertAfter (nextElem L) (freqElement item) (freqList L))
               (setElems (<[nextElem L := {| freq := freq ce + 1; items_ := ∅ |}]>
                            (<[freqElement item := leftBucket k ce]> (elems L)))
                  (setNextElem (S (nextElem L))
                     (setElems (<[freqElement item := leftBucket k ce]> (elems L)) L))))
          = Ok tt (spliced L k (freqElement item) ce)) as HA2.
  { erewrite Hattach by apply lookup_insert_eq. simpl.
    unfold spliced. by rewrite !insert_insert_eq. }
  destruct (Next (freqElement item) (freqList L)) as [n|] eqn:Hnext; simpl.
  - pose proof (bool_decide_eq_true_2 _ (Next_Some_elem _ _ _ Hnext)) as Hin.
    destruct (_ !! n) as [ne|] eqn:Hne; simpl; [|done].
    destruct (bool_decide (freq ce + 1 < freq ne)) eqn:Hlt; simpl.
    + destruct (isRemovableFreqEntry (leftBucket k ce)) eqn:Hrm; simpl; [auto|].
      rewrite Hin. auto.
    + destruct (bool_decide (freq ne = freq ce + 1)) eqn:Heq; simpl; [|done].
      unfold joined.
      destruct (isRemovableFreqEntry (leftBucket k ce)) eqn:Hrm; simpl;
        by erewrite Hattach by exact Hne.
  - destruct (isRemovableFreqEntry (leftBucket k ce)) eqn:Hrm; simpl; [auto|].
    destruct (bool_decide (freqElement item ∈ freqList L)); [auto|done].
Qed.
End cases.

(** *** Lists of element addresses *)

Lemma Next_split e (fl : list nat) :
  e ∈ fl → ∃ pre post, fl = pre ++ e :: post ∧ (e ∉ pre) ∧ Next e fl = head post.
Proof.
  induction fl as [|x fl IH]; [by intros ?%elem_of_nil|].
  intros Hin. simpl. case_bool_decide as Hx.
  - subst x. exists [], fl. split_and!; [done|apply not_elem_of_nil|done].
  - apply elem_of_cons in Hin as [->|Hin]; [done|].
    destruct (IH Hin) as (pre & post & -> & Hpre & Hn).
    exists (x :: pre), post. split_and!; [done| |done].
    rewrite not_elem_of_cons. split; [congruence|done].
Qed.

Lemma InsertAfter_split new e (pre post : list nat) :
  e ∉ pre → InsertAfter new e (pre ++ e :: post) = pre ++ e :: new :: post.
Proof.
  induction pre as [|x pre IH]; intros Hpre; simpl.
  - by rewrite bool_decide_eq_true_2.
  - apply not_elem_of_cons in Hpre as [Hx Hpre].
    rewrite bool_decide_eq_false_2 by congruence. by rewrite IH.
Qed.

Lemma filter_ne_id e (l : list nat) : e ∉ l → filter (λ x, x ≠ e) l = l.
Proof.
  induction l as [|x l IH]; [done|]. intros [Hx Hl]%not_elem_of_cons.
  rewrite filter_cons_True by congruence. by rewrite IH.
Qed.

Lemma listRemove_split e (pre post : list nat) :
  e ∉ pre → e ∉ post → listRemove e (pre ++ e :: post) = pre ++ post.
Proof.
  intros Hpre Hpost. unfold listRemove.
  rewrite filter_app, filter_cons_False by naive_solver.
  by rewrite !filter_ne_id.
Qed.

(** Strictly ascending under a measure [g]. *)
Definition asc (g : nat → Z) (l : list nat) : Prop :=
  StronglySorted (λ a b, g a < g b) l.

Lemma asc_ext_in (g g' : nat → Z) l :
  (∀ a, a ∈ l → g' a = g a) → asc g l → asc g' l.
Proof.
  unfold asc. induction l as [|x l IH]; intros Hg Hs; [constructor|].
  apply StronglySorted_cons in Hs as [Hx Hs]. apply StronglySorted_cons. split.
  - rewrite Forall_forall in *. intros b Hb. rewrite !Hg by set_solver. auto.
  - apply IH; [|done]. intros a Ha. apply Hg. set_solver.
Qed.

Lemma asc_split (g : nat → Z) pre c post :
  asc g (pre ++ c :: post) ↔
    asc g pre ∧ asc g post
    ∧ (∀ a, a ∈ pre → g a < g c) ∧ (∀ b, b ∈ post → g c < g b)
    ∧ (∀ a b, a ∈ pre → b ∈ post → g a < g b).
Proof.
  unfold asc. rewrite StronglySorted_app, StronglySorted_cons, Forall_forall.
  split.
  - intros (H1 & H2 & H3 & H4). split_and!; [done|done| | |].
    + intros a Ha. apply H1; [done|]. set_solver.
    + done.
    + intros a b Ha Hb. apply H1; [done|]. set_solver.
  - intros (H1 & H2 & H3 & H4 & H5). split_and!; [|done..].
    intros a b Ha [->|Hb]%elem_of_cons; auto.
Qed.

Lemma asc_app (g : nat → Z) pre post :
  asc g pre → asc g post → (∀ a b, a ∈ pre → b ∈ post → g a < g b) →
  asc g (pre ++ post).
Proof. unfold asc. rewrite StronglySorted_app. auto. Qed.

Lemma asc_head (g : nat → Z) post n z :
  asc g post → head post = Some n → z < g n → ∀ b, b ∈ post → z < g b.
Proof.
  destruct post as [|x post]; [done|]. intros Hs [= ->] Hz b Hb.
  apply StronglySorted_cons in Hs as [Hx _]. rewrite Forall_forall in Hx.
  apply elem_of_cons in Hb as [->|Hb]; [done|]. specialize (Hx b Hb). lia.
Qed.

(** *** The three outcomes keep the list ascending *)

(** Where [k] ends: in a linked bucket of frequency [f], with its handle
    on that bucket. *)
Definition placed L k (f : Z) : Prop :=
  ∃ e be, freqElement <$> items L !! k = Some e ∧ e ∈ freqList L
          ∧ elems L !! e = Some be ∧ freq be = f ∧ k ∈ items_ be.

Section outcomes.
Context (L : LFUCache K V E) (k : K) (item : lfuItem K V) (ce : freqEntry K).
Context (pre post : list nat).
Hypothesis Hitem : items L !! k = Some item.
Hypothesis Hce : elems L !! freqElement item = Some ce.
Hypothesis Hfl : freqList L = pre ++ freqElement item :: post.
Hypothesis Hasc : ascending L.
Hypothesis Hlink : linked L.

Local Lemma cur_freq : freqOf L (freqElement item) = freq ce.
Proof. unfold freqOf. by rewrite Hce. Qed.

Local Lemma sorted_parts :
  asc (freqOf L) pre ∧ asc (freqOf L) post
  ∧ (∀ a, a ∈ pre → freqOf L a < freq ce) ∧ (∀ b, b ∈ post → freq ce < freqOf L b)
  ∧ (∀ a b, a ∈ pre → b ∈ post → freqOf L a < freqOf L b).
Proof.
  unfold ascending in Hasc. rewrite Hfl in Hasc.
  apply asc_split in Hasc. by rewrite cur_freq in Hasc.
Qed.

Local Lemma cur_not_in :
  (freqElement item ∉ pre) ∧ (freqElement item ∉ post).
Proof.
  destruct sorted_parts as (_ & _ & H1 & H2 & _). split; intros Hin.
  - specialize (H1 _ Hin). rewrite cur_freq in H1. lia.
  - specialize (H2 _ Hin). rewrite cur_freq in H2. lia.
Qed.

Lemma relabelled_ok :
  (∀ b, b ∈ post → freq ce + 1 < freqOf L b) →
  ascending (relabelled L k (freqElement item) ce)
  ∧ linked (relabelled L k (freqElement item) ce)
  ∧ placed (relabelled L k (freqElement item) ce) k (freq ce + 1).
Proof.
  intros Hpost. destruct sorted_parts as (S1 & S2 & H1 & H2 & H3).
  destruct cur_not_in as [N1 N2].
  set (L' := relabelled L k (freqElement item) ce).
  assert (freqOf L' (freqElement item) = freq ce + 1) as Fc.
  { unfold freqOf, L', relabelled. simpl. by rewrite lookup_insert_eq. }
  assert (∀ e, e ≠ freqElement item → freqOf L' e = freqOf L e) as Fo.
  { intros e He. unfold freqOf, L', relabelled. simpl. by rewrite lookup_insert_ne. }
  split_and!.
  - unfold ascending. change (freqList L') with (freqList L). rewrite Hfl.
    apply asc_split. rewrite Fc. split_and!.
    + eapply asc_ext_in; [|exact S1]. intros a Ha. apply Fo. by intros ->.
    + eapply asc_ext_in; [|exact S2]. intros a Ha. apply Fo. by intros ->.
    + intros a Ha. rewrite Fo by (by intros ->). specialize (H1 a Ha). lia.
    + intros b Hb. rewrite Fo by (by intros ->). auto.
    + intros a b Ha Hb. rewrite !Fo by (by intros ->). auto.
  - intros e He. change (freqList L') with (freqList L) in He.
    destruct (Hlink e He) as [Hs Hlt]. split; [|done].
    unfold L', relabelled. simpl. rewrite lookup_insert. case_decide; eauto.
  - eexists (freqElement item), _. unfold L', relabelled. simpl.
    rewrite lookup_alter, decide_True, Hitem, lookup_insert_eq, Hfl by done. simpl.
    split_and!; [done|set_solver|done|done|set_solver].
Qed.

Lemma spliced_ok :
  (∀ b, b ∈ post → freq ce + 1 < freqOf L b) →
  ascending (spliced L k (freqElement item) ce)
  ∧ linked (spliced L k (freqElement item) ce)
  ∧ placed (spliced L k (freqElement item) ce) k (freq ce + 1).
Proof.
  intros Hpost. destruct sorted_parts as (S1 & S2 & H1 & H2 & H3).
  destruct cur_not_in as [N1 N2].
  set (L' := spliced L k (freqElement item) ce).
  assert (∀ e, e ∈ freqList L → e ≠ nextElem L) as Hfresh.
  { intros e He ->. destruct (Hlink _ He) as [_ ?]. lia. }
  assert (freqElement item ≠ nextElem L) as Hcn.
  { apply Hfresh. rewrite Hfl. set_solver. }
  assert (freqOf L' (nextElem L) = freq ce + 1) as Fn.
  { unfold freqOf, L', spliced. simpl. by rewrite lookup_insert_eq. }
  assert (freqOf L' (freqElement item) = freq ce) as Fc.
  { unfold freqOf, L', spliced. simpl.
    by rewrite lookup_insert_ne, lookup_insert_eq. }
  assert (∀ e, e ∈ freqList L → e ≠ freqElement item → freqOf L' e = freqOf L e) as Fo.
  { intros e He Hne. unfold freqOf, L', spliced. simpl.
    rewrite !lookup_insert_ne; [done|done|]. intros <-. by apply (Hfresh _ He). }
  assert (freqList L' = pre ++ freqElement item :: nextElem L :: post) as Hfl'.
  { unfold L', spliced. simpl. rewrite Hfl. by apply InsertAfter_split. }
  assert (∀ a, a ∈ pre → freqOf L' a = freqOf L a) as Fpre.
  { intros a Ha. apply Fo; [rewrite Hfl; set_solver|by intros ->]. }
  assert (∀ b, b ∈ post → freqOf L' b = freqOf L b) as Fpost.
  { intros b Hb. apply Fo; [rewrite Hfl; set_solver|by intros ->]. }
  split_and!.
  - unfold ascending. rewrite Hfl'. apply asc_split. rewrite Fc. split_and!.
    + eapply asc_ext_in; [|exact S1]. done.
    + unfold asc. apply StronglySorted_cons. split.
      * rewrite Forall_forall. intros b Hb. rewrite Fn, Fpost by done. auto.
      * eapply asc_ext_in; [|exact S2]. done.
    + intros a Ha. rewrite Fpre by done. auto.
    + intros b [->|Hb]%elem_of_cons; [rewrite Fn; lia|].
      rewrite Fpost by done. auto.
    + intros a b Ha [->|Hb]%elem_of_cons.
      * rewrite Fn, Fpre by done. specialize (H1 a Ha). lia.
      * rewrite Fpre, Fpost by done. auto.
  - intros e He. rewrite Hfl' in He.
    assert (e = nextElem L ∨ e ∈ freqList L) as [->|Hin].
    { rewrite Hfl. set_solver. }
    + unfold L', spliced. simpl. rewrite lookup_insert_eq. split; [eauto|lia].
    + destruct (Hlink e Hin) as [Hs Hlt]. split.
      * unfold L', spliced. simpl. rewrite lookup_insert_ne by (by apply not_eq_sym, Hfresh).
        rewrite lookup_insert. case_decide; eauto.
      * unfold L', spliced. simpl. lia.
  - eexists (nextElem L), _. rewrite Hfl'. unfold L', spliced. simpl.
    rewrite lookup_alter, decide_True, Hitem, lookup_insert_eq by done. simpl.
    split_and!; [done|set_solver|done|done|set_solver].
Qed.

Lemma joined_ok n ne post' :
  post = n :: post' → elems L !! n = Some ne → freq ne = freq ce + 1 →
  ascending (joined L k (freqElement item) ce n ne)
  ∧ linked (joined L k (freqElement item) ce n ne)
  ∧ placed (joined L k (freqElement item) ce n ne) k (freq ce + 1).
Proof.
  intros Hpost Hne Hfreq. destruct sorted_parts as (S1 & S2 & H1 & H2 & H3).
  destruct cur_not_in as [N1 N2].
  set (L' := joined L k (freqElement item) ce n ne).
  assert (n ∈ post) as Hn by (rewrite Hpost; set_solver).
  assert (n ≠ freqElement item) as Hnc by (by intros ->).
  assert (∀ e, freqOf L' e = freqOf L e) as Fo.
  { intros e. unfold freqOf, L', joined. simpl. rewrite !lookup_insert.
    repeat case_decide; subst; rewrite ?Hne, ?Hce; done. }
  assert (∀ e, is_Some (elems L !! e) → is_Some (elems L' !! e)) as Hsome.
  { intros e He. unfold L', joined. simpl. rewrite !lookup_insert.
    repeat case_decide; eauto. }
  assert (n ∈ freqList L' ∧ ∀ e, e ∈ freqList L' → e ∈ freqList L) as [Hn' Hsub].
  { unfold L', joined. simpl. rewrite Hfl.
    destruct (isRemovableFreqEntry _).
    - rewrite listRemove_split by done. set_solver.
    - set_solver. }
  split_and!.
  - unfold ascending. apply (asc_ext_in (freqOf L)); [done|].
    unfold L', joined. simpl. rewrite Hfl.
    destruct (isRemovableFreqEntry _).
    + rewrite listRemove_split by done. by apply asc_app.
    + rewrite <- Hfl. exact Hasc.
  - intros e He. destruct (Hlink e (Hsub e He)) as [Hs Hlt]. split; [auto|done].
  - eexists n, _. unfold L', joined in *. simpl in *.
    rewrite lookup_alter, decide_True, Hitem, lookup_insert_eq by done. simpl.
    split_and!; [done|done|done|done|set_solver].
Qed.
End outcomes.

End facts.
End LfuFacts.

(** ** Concrete runs *)

Module Runs.
Import CommonFacts LfuFacts.

Ltac by_compute := apply (bool_decide_unpack _); vm_compute; exact I.

(** A loader that returns [k + 100], with no expiration and no error. *)
Definition loader100 (k : nat) : loaded nat unit := Loaded (k + 100)%nat None None.

(** A SIMPLE cache with the fake clock at 0, after
    [SetWithExpire(1, 7, 10)]: the entry expires at 10. *)
Definition simple_fake : Simple.SimpleCache nat nat unit :=
  stateOf (Simple.SetWithExpire 1%nat 7%nat 10
             (Simple.init (Base.buildCache 0 0 None false false None))).

(** C4 as stated fails: the configured clock of [simple_fake] reads 0, so its
    one entry is not expired at the configured clock, yet at wall-clock time
    100 [Len(true)] is 0 and [Keys(true)] and [GetALL(true)] are empty. *)
Lemma len_ignores_configured_clock :
  Base.clock (Simple.base simple_fake) = 0
  ∧ size (filter (λ kx, liveAt (Base.clock (Simple.base simple_fake))
                               (Simple.expiration kx.2))
                 (Simple.items simple_fake)) = 1%nat
  ∧ Simple.Len 100 true simple_fake = Ok 0 simple_fake
  ∧ Simple.Keys 100 true simple_fake = Ok [] simple_fake
  ∧ Simple.GetALL 100 true simple_fake = Ok ∅ simple_fake.
Proof. split_and!; vm_compute; reflexivity. Qed.

(** A SIMPLE cache with a loader, after a cold [GetIfPresent(9)]: a
    descriptor for 9 is installed and its goroutine is dispatched. *)
Definition simple_inflight : Simple.SimpleCache nat nat unit :=
  stateOf (Common.GetIfPresent 9%nat
             (Simple.init (Base.buildCache 0 0 (Some loader100) false false None))).

(** The same, after a [Set(9, 5)] made while the load is in flight. *)
Definition simple_inflight_set : Simple.SimpleCache nat nat unit :=
  stateOf (Simple.Set_ 9%nat 5%nat simple_inflight).

(** The cache check comes first: with a descriptor for 9 installed, the
    value 5 cached and [isWait] false, [Do] returns [(5, false, nil)]. *)
Lemma Do_deferred_returns_cached_value :
  is_Some (Flight.m (Base.group (Simple.base simple_inflight_set)) !! 9%nat)
  ∧ Common.Do 9%nat panic false simple_inflight_set
    = Ok (Common.DoReturn (Some 5%nat) false None) simple_inflight_set.
Proof.
  split.
  - eexists. vm_compute. reflexivity.
  - vm_compute. reflexivity.
Qed.

Lemma Do_deferred_not_found_witness :
  Common.Do 9%nat panic false simple_inflight
  = Ok (Common.DoReturn None false (Some KeyNotFoundError)) simple_inflight
  ∧ Common.Do 9%nat panic false simple_inflight_set
    = Ok (Common.DoReturn (Some 5%nat) false None) simple_inflight_set.
Proof.
  split.
  - eapply (proj1 (proj2 (Do_deferred_not_found 9%nat panic simple_inflight))
              simple_inflight).
    + vm_compute. reflexivity.
    + vm_compute. reflexivity.
  - apply (proj1 (Do_deferred_not_found 9%nat panic simple_inflight_set)
             5%nat simple_inflight_set).
    vm_compute. reflexivity.
Defined.

(** An ARC cache of capacity 1 after [Set(7, 1); Set(7, 2)]. *)
Definition arc_set_twice : Arc.ARCCache nat nat unit :=
  stateOf ((Arc.Set_ 7%nat 1%nat;; Arc.Set_ 7%nat 2%nat)
             (Arc.init (Base.buildCache 0 1 None true false None))).

(** C7 fails on the ARC policy: the second [Set] of the resident key 7
    evicts the entry it has just written (the evicted callback is called
    with the new value) and puts the key back in T1, and the [Get] that
    follows dereferences the missing item. *)
Theorem arc_set_get_round_trip_broken :
  (Arc.Set_ 7%nat 1%nat;; Arc.Set_ 7%nat 2%nat)
    (Arc.init (Base.buildCache 0 1 None true false None)) = Ok tt arc_set_twice
  ∧ Arc.l (Arc.t1 arc_set_twice) = [7%nat]
  ∧ Arc.items arc_set_twice !! 7%nat = None
  ∧ Base.events (Arc.base arc_set_twice) = [Evicted 7%nat 2%nat]
  ∧ ∃ c', Common.Get 7%nat arc_set_twice = Panic c'.
Proof.
  split_and!; try (vm_compute; reflexivity).
  eexists. vm_compute. reflexivity.
Qed.

(** The same slip in a background load.  Capacity 1 and a loader:
    [GetIfPresent(7)] queues the load of 7 and [Set(7, 1)] makes 7 resident
    ([arc_overtaken]); the goroutine then sets the resident key 7, evicts the
    entry that it has just written and leaves 7 in T1 without an item
    ([arc_late]): the value map's key set is no longer T1 ∪ T2. *)
Definition arc_overtaken : Arc.ARCCache nat nat unit :=
  stateOf ((Common.GetIfPresent 7%nat;; Arc.Set_ 7%nat 1%nat)
             (Arc.init (Base.buildCache 0 1 (Some loader100) true false None))).

Definition arc_late : Arc.ARCCache nat nat unit :=
  stateOf (Common.runGoroutine arc_overtaken).

Lemma background_load_of_resident_key :
  ArcFacts.arc_inv arc_overtaken
  ∧ Flight.goroutines (Base.group (Arc.base arc_overtaken)) = [7%nat]
  ∧ Arc.l (Arc.t1 arc_overtaken) = [7%nat]
  ∧ Common.runGoroutine arc_overtaken = Ok tt arc_late
  ∧ Arc.l (Arc.t1 arc_late) = [7%nat]
  ∧ Arc.items arc_late !! 7%nat = None
  ∧ Base.events (Arc.base arc_late) = [Evicted 7%nat 107%nat]
  ∧ ¬ ArcFacts.inv_items arc_late.
Proof.
  split_and!; try (vm_compute; reflexivity).
  - unfold ArcFacts.arc_inv, ArcFacts.lists_wf, ArcFacts.wf, ArcFacts.inv_disjoint,
      ArcFacts.inv_resident, ArcFacts.inv_total, ArcFacts.inv_items,
      ArcFacts.Resident, ArcFacts.Total.
    split_and!; by_compute.
  - unfold ArcFacts.inv_items. by_compute.
Qed.



(** A loader that fails with the error [tt]. *)
Definition loaderFails (k : nat) : loaded nat unit := Loaded 0%nat None (Some (LoaderError tt)).

(** An LRU cache of capacity 2 whose loader fails, and the states it goes
    through in [GetIfPresent(9)], the goroutine of that call,
    [GetIfPresent(9)] again, its goroutine, and [Get(9)]. *)
Definition lru_failing : Lru.LRUCache nat nat unit :=
  Lru.init (Base.buildCache 0 2 (Some loaderFails) false false None).
Definition lru_failing1 : Lru.LRUCache nat nat unit :=
  stateOf (Common.GetIfPresent 9%nat lru_failing).
Definition lru_failing2 : Lru.LRUCache nat nat unit :=
  stateOf (Common.runGoroutine lru_failing1).
Definition lru_failing3 : Lru.LRUCache nat nat unit :=
  stateOf (Common.GetIfPresent 9%nat lru_failing2).
Definition lru_failing4 : Lru.LRUCache nat nat unit :=
  stateOf (Common.runGoroutine lru_failing3).
Definition lru_failing5 : Lru.LRUCache nat nat unit :=
  stateOf (Common.Get 9%nat lru_failing4).

(** A cold [GetIfPresent(9)] reports [KeyNotFoundError] and counts one miss;
    the goroutine then runs the failing loader and drops its error; the next
    [GetIfPresent(9)] reports [KeyNotFoundError] again and starts another
    load, dropped in turn; a [Get(9)], which runs the loader itself, is the
    call that sees the loader's error. *)
Example deferred_loader_error_run :
  Common.GetIfPresent 9%nat lru_failing
    = Ok (Common.GetReturn None (Some KeyNotFoundError)) lru_failing1
  ∧ statsOf lru_failing1 = {| hitCount := 0; missCount := 1 |}
  ∧ Common.runGoroutine lru_failing1 = Ok tt lru_failing2
  ∧ Common.GetIfPresent 9%nat lru_failing2
    = Ok (Common.GetReturn None (Some KeyNotFoundError)) lru_failing3
  ∧ Common.runGoroutine lru_failing3 = Ok tt lru_failing4
  ∧ Common.Get 9%nat lru_failing4
    = Ok (Common.GetReturn None (Some (LoaderError tt))) lru_failing5
  ∧ statsOf lru_failing5 = {| hitCount := 0; missCount := 3 |}.
Proof. split_and!; vm_compute; reflexivity. Qed.

(** [simple_inflight] once its goroutine has run, and after a [Get(9)]. *)
Definition simple_loaded : Simple.SimpleCache nat nat unit :=
  stateOf (Common.runGoroutine simple_inflight).
Definition simple_loaded_read : Simple.SimpleCache nat nat unit :=
  stateOf (Common.Get 9%nat simple_loaded).

(** Once the goroutine has run, a [Get(9)] is a hit on the loaded value, and
    the two top-level calls have counted one miss and one hit. *)
Example deferred_load_run :
  Common.runGoroutine simple_inflight = Ok tt simple_loaded
  ∧ Common.Get 9%nat simple_loaded
    = Ok (Common.GetReturn (Some 109%nat) None) simple_loaded_read
  ∧ statsOf simple_loaded_read = {| hitCount := 1; missCount := 1 |}.
Proof. split_and!; vm_compute; reflexivity. Qed.

(** What a computation returns, if it returns. *)
Definition returned {S A} (r : Res S A) : option A :=
  match r with Ok a _ => Some a | Panic _ => None end.

(** [Set(1, 5); Get(1)] on fresh SIMPLE, LRU, LFU and ARC caches of
    capacity 2 returns 5. *)
Example set_get_fresh_key :
  returned ((Simple.Set_ 1%nat 5%nat;; Common.Get 1%nat)
              (Simple.init (K:=nat) (V:=nat) (E:=unit)
                 (Base.buildCache 0 2 None false false None)))
    = Some (Common.GetReturn (Some 5%nat) None)
  ∧ returned ((Lru.Set_ 1%nat 5%nat;; Common.Get 1%nat)
                (Lru.init (K:=nat) (V:=nat) (E:=unit)
                   (Base.buildCache 0 2 None false false None)))
    = Some (Common.GetReturn (Some 5%nat) None)
  ∧ returned ((Lfu.Set_ 1%nat 5%nat;; Common.Get 1%nat)
                (Lfu.init (K:=nat) (V:=nat) (E:=unit)
                   (Base.buildCache 0 2 None false false None)))
    = Some (Common.GetReturn (Some 5%nat) None)
  ∧ returned ((Arc.Set_ 1%nat 5%nat;; Common.Get 1%nat)
                (Arc.init (K:=nat) (V:=nat) (E:=unit)
                   (Base.buildCache 0 2 None false false None)))
    = Some (Common.GetReturn (Some 5%nat) None).
Proof. split_and!; vm_compute; reflexivity. Qed.
End Runs.

(** ** What no operation of a policy touches *)

(** The options that the builder fixes, with the reading of the clock, and
    the coordinator's registry. *)
Definition optionsOf `{Countable K} {V E} (b : Base.baseCache K V E) :=
  (Base.clock b, Base.size b, Base.loaderExpireFunc b, Base.evictedFunc b,
   Base.addedFunc b, Base.expiration b).

Definition settingsOf {K V E : Type} `{Countable K} {C : Type} `{!Cache K V E C}
    (c : C) :=
  (optionsOf (c_base c), Base.group (c_base c)).

Lemma keeps_compose {S A X Y} (f : S → X) (g : X → Y) (m : M S A) :
  keeps f m → keeps (g ∘ f) m.
Proof. intros Hk s. simpl. by rewrite Hk. Qed.

Lemma settings_callEvicted `{Countable K} {V E} (k : K) (v : V) (b : Base.baseCache K V E) :
  optionsOf (Base.callEvicted k v b) = optionsOf b
  ∧ Base.group (Base.callEvicted k v b) = Base.group b.
Proof. unfold Base.callEvicted. by destruct (Base.evictedFunc b). Qed.

Lemma settings_callAdded `{Countable K} {V E} (k : K) (v : V) (b : Base.baseCache K V E) :
  optionsOf (Base.callAdded k v b) = optionsOf b
  ∧ Base.group (Base.callAdded k v b) = Base.group b.
Proof. unfold Base.callAdded. by destruct (Base.addedFunc b). Qed.

Lemma callAdded_fields `{Countable K} {V E} (k : K) (v : V) (b : Base.baseCache K V E) :
  Base.size (Base.callAdded k v b) = Base.size b
  ∧ Base.events (Base.callAdded k v b)
    = Base.events b ++ (if Base.addedFunc b then [Added k v] else []).
Proof. unfold Base.callAdded. destruct (Base.addedFunc b); simpl; by rewrite ?app_nil_r. Qed.

Lemma callEvicted_fields `{Countable K} {V E} (k : K) (v : V) (b : Base.baseCache K V E) :
  Base.size (Base.callEvicted k v b) = Base.size b
  ∧ Base.clock (Base.callEvicted k v b) = Base.clock b
  ∧ Base.addedFunc (Base.callEvicted k v b) = Base.addedFunc b
  ∧ Base.events (Base.callEvicted k v b)
    = Base.events b ++ (if Base.evictedFunc b then [Evicted k v] else []).
Proof. unfold Base.callEvicted. destruct (Base.evictedFunc b); simpl; by rewrite ?app_nil_r. Qed.

Ltac settings_modify :=
  apply keeps_modify; intros ?; unfold settingsOf; simpl;
  rewrite ?(proj1 (settings_callEvicted _ _ _)), ?(proj2 (settings_callEvicted _ _ _)),
    ?(proj1 (settings_callAdded _ _ _)), ?(proj2 (settings_callAdded _ _ _));
  reflexivity.

Ltac settings_step :=
  lazymatch goal with
  | |- keeps _ (mret _) => apply keeps_ret
  | |- keeps _ (_ ≫= _) => apply keeps_bind; [|intros ?]
  | |- keeps _ getS => apply keeps_getS
  | |- keeps _ (modify _) => settings_modify
  | |- keeps _ panic => apply keeps_panic
  | |- keeps _ (when _ _) => apply keeps_when
  | |- keeps _ (recover _ _) => apply keeps_recover
  | |- keeps _ (match ?x with _ => _ end) => destruct x
  end.

Ltac settings_auto := repeat first [settings_step | solve [eauto with keeps]].

Module SimpleFrame.
Import Simple.
Section facts.
Context {K V E : Type} `{HeqK : EqDecision K, HcntK : !Countable K}.

Lemma simple_remove_settings (k : K) : keeps settingsOf (remove (V:=V) (E:=E) k).
Proof. unfold remove. settings_auto. Qed.
Hint Resolve simple_remove_settings : keeps.

Lemma simple_removeAll_settings (ks : list K) :
  keeps settingsOf (removeAll (V:=V) (E:=E) ks).
Proof. induction ks; simpl; settings_auto. Qed.
Hint Resolve simple_removeAll_settings : keeps.

Lemma simple_set_settings (k : K) (v : V) : keeps settingsOf (set (E:=E) k v).
Proof. unfold set, evict. settings_auto. Qed.

Lemma simple_setItemExpiration_settings (k : K) t :
  keeps settingsOf (setItemExpiration (V:=V) (E:=E) k t).
Proof. unfold setItemExpiration. settings_auto. Qed.

Lemma simple_get_settings (k : K) onLoad :
  keeps settingsOf (get (V:=V) (E:=E) k onLoad).
Proof. unfold get, getValue, incrHit, incrMiss. settings_auto. Qed.
End facts.
End SimpleFrame.

Module LruFrame.
Import Lru.
Section facts.
Context {K V E : Type} `{HeqK : EqDecision K, HcntK : !Countable K}.

Lemma lru_removeElement_settings (k : K) :
  keeps settingsOf (removeElement (V:=V) (E:=E) k).
Proof. unfold removeElement. settings_auto. Qed.
Hint Resolve lru_removeElement_settings : keeps.

Lemma lru_evictLoop_settings n : keeps settingsOf (evictLoop (K:=K) (V:=V) (E:=E) n).
Proof. induction n; simpl; settings_auto. Qed.
Hint Resolve lru_evictLoop_settings : keeps.

Lemma lru_set_settings (k : K) (v : V) : keeps settingsOf (set (E:=E) k v).
Proof. unfold set, evict. settings_auto. Qed.

Lemma lru_setItemExpiration_settings (k : K) t :
  keeps settingsOf (setItemExpiration (V:=V) (E:=E) k t).
Proof. unfold setItemExpiration. settings_auto. Qed.

Lemma lru_get_settings (k : K) onLoad :
  keeps settingsOf (get (V:=V) (E:=E) k onLoad).
Proof. unfold get, getValue, incrHit, incrMiss. settings_auto. Qed.

Lemma lru_remove_settings (k : K) : keeps settingsOf (remove (V:=V) (E:=E) k).
Proof. unfold remove. settings_auto. Qed.
End facts.
End LruFrame.

Module LfuFrame.
Import Lfu.
Section facts.
Context {K V E : Type} `{HeqK : EqDecision K, HcntK : !Countable K}.

Lemma lfu_entryOf_settings e : keeps settingsOf (entryOf (K:=K) (V:=V) (E:=E) e).
Proof. unfold entryOf. settings_auto. Qed.
Hint Resolve lfu_entryOf_settings : keeps.

Lemma lfu_removeItem_settings (k : K) : keeps settingsOf (removeItem (V:=V) (E:=E) k).
Proof. unfold removeItem. settings_auto. Qed.
Hint Resolve lfu_removeItem_settings : keeps.

Lemma lfu_evictItems_settings (ks : list K) count i :
  keeps settingsOf (evictItems (V:=V) (E:=E) ks count i).
Proof. revert i. induction ks; intros i; simpl; settings_auto. Qed.
Hint Resolve lfu_evictItems_settings : keeps.

Lemma lfu_evictLoop_settings fuel entry count i :
  keeps settingsOf (evictLoop (K:=K) (V:=V) (E:=E) fuel entry count i).
Proof. revert entry i. induction fuel; intros entry i; simpl; settings_auto. Qed.
Hint Resolve lfu_evictLoop_settings : keeps.

Lemma lfu_attach_settings (k : K) e : keeps settingsOf (attach (V:=V) (E:=E) k e).
Proof. unfold attach. settings_auto. Qed.
Hint Resolve lfu_attach_settings : keeps.

Lemma lfu_increment_settings (k : K) : keeps settingsOf (increment (V:=V) (E:=E) k).
Proof. unfold increment. settings_auto. Qed.
Hint Resolve lfu_increment_settings : keeps.

Lemma lfu_set_settings (k : K) (v : V) : keeps settingsOf (set (E:=E) k v).
Proof. unfold set, evict. settings_auto. Qed.

Lemma lfu_setItemExpiration_settings (k : K) t :
  keeps settingsOf (setItemExpiration (V:=V) (E:=E) k t).
Proof. unfold setItemExpiration. settings_auto. Qed.

Lemma lfu_get_settings (k : K) onLoad :
  keeps settingsOf (get (V:=V) (E:=E) k onLoad).
Proof. unfold get, getValue, incrHit, incrMiss. settings_auto. Qed.

Lemma lfu_remove_settings (k : K) : keeps settingsOf (remove (V:=V) (E:=E) k).
Proof. unfold remove. settings_auto. Qed.
End facts.
End LfuFrame.

Module ArcFrame.
Import Arc.
Section facts.
Context {K V E : Type} `{HeqK : EqDecision K, HcntK : !Countable K}.

Lemma arc_pushFront_settings n (k : K) : keeps settingsOf (pushFront (V:=V) (E:=E) n k).
Proof. unfold pushFront. apply keeps_modify. by destruct n. Qed.
Hint Resolve arc_pushFront_settings : keeps.

Lemma arc_removeFrom_settings n (k e : K) :
  keeps settingsOf (removeFrom (V:=V) (E:=E) n k e).
Proof. unfold removeFrom. apply keeps_modify. by destruct n. Qed.
Hint Resolve arc_removeFrom_settings : keeps.

Lemma arc_moveToFront_settings n (k : K) :
  keeps settingsOf (moveToFront (V:=V) (E:=E) n k).
Proof. unfold moveToFront. apply keeps_modify. by destruct n. Qed.
Hint Resolve arc_moveToFront_settings : keeps.

Lemma arc_removeTail_settings n : keeps settingsOf (removeTail (K:=K) (V:=V) (E:=E) n).
Proof.
  intros c. unfold removeTail. destruct (RemoveTail _) as [[? ?]|]; [|done].
  by destruct n.
Qed.
Hint Resolve arc_removeTail_settings : keeps.

Lemma arc_dropItem_settings (k : K) : keeps settingsOf (dropItem (V:=V) (E:=E) k).
Proof. unfold dropItem. settings_auto. Qed.
Hint Resolve arc_dropItem_settings : keeps.

Lemma arc_replace_settings (k : K) : keeps settingsOf (replace (V:=V) (E:=E) k).
Proof. unfold replace. settings_auto. Qed.
Hint Resolve arc_replace_settings : keeps.

Lemma arc_setPart_settings p : keeps settingsOf (setPart (K:=K) (V:=V) (E:=E) p).
Proof. unfold setPart. settings_auto. Qed.
Hint Resolve arc_setPart_settings : keeps.

Lemma arc_idiv_settings a b : keeps settingsOf (idiv (K:=K) (V:=V) (E:=E) a b).
Proof. unfold idiv. settings_auto. Qed.
Hint Resolve arc_idiv_settings : keeps.

Lemma arc_set_settings (k : K) (v : V) : keeps settingsOf (set (E:=E) k v).
Proof. unfold set, Get. settings_auto. Qed.

Lemma arc_setItemExpiration_settings (k : K) t :
  keeps settingsOf (setItemExpiration (V:=V) (E:=E) k t).
Proof. unfold setItemExpiration. settings_auto. Qed.

Lemma arc_get_settings (k : K) onLoad :
  keeps settingsOf (get (V:=V) (E:=E) k onLoad).
Proof. unfold get, getValue, Get, incrHit, incrMiss. settings_auto. Qed.

Lemma arc_remove_settings (k : K) : keeps settingsOf (remove (V:=V) (E:=E) k).
Proof. unfold remove, removeVia, Get. settings_auto. Qed.
End facts.
End ArcFrame.

(** ** The four policies as stores of entries *)

Module StoreFacts.
Import Common.
Section store.
Context {K V E : Type} `{HeqK : EqDecision K, HcntK : !Countable K}.
Context {C : Type} `{!Cache K V E C}.
Implicit Types (c : C) (k : K) (v : V).

(** The expiration of the entry that [set] leaves for a key whose entry had
    expiration [old] (none for a new key): the default expiration counted
    from the clock when one is configured, the old one otherwise. *)
Definition expiryAfterSet (b : Base.baseCache K V E) (old : option Z) : option Z :=
  match Base.expiration b with
  | Some d => Some (Base.clock b + d)
  | None => old
  end.

(** A policy seen as a store: [view c] maps a key to the value and the
    expiration of its entry, [Inv] is the invariant of the policy's own
    structures, [Safe] is the invariant with room for one more hit (LFU
    counts hits in a [uint]; for the other policies [Safe] is [Inv]), and
    [settable c k] is what [set] of [k] needs. *)
Record Store (Safe Inv : C → Prop) (view : C → gmap K (V * option Z))
    (settable : C → K → Prop) : Prop := {
  store_safe_inv : ∀ c, Safe c → Inv c;
  store_setBase_safe : ∀ b c,
    Safe c → Base.size b = Base.size (c_base c) → Safe (c_setBase b c);
  store_setBase_view : ∀ b c, view (c_setBase b c) = view c;
  store_settable : ∀ c k, view c !! k = None → settable c k;
  store_get_keeps : ∀ k onLoad, keeps settingsOf (c_get k onLoad);
  store_set_keeps : ∀ k v, keeps settingsOf (c_set k v);
  store_sie_keeps : ∀ k t, keeps settingsOf (c_setItemExpiration k t);
  store_get : ∀ k onLoad c, Safe c →
    ∃ r c', c_get k onLoad c = Ok r c' ∧ Inv c' ∧ (r = None → Safe c')
      ∧ match view c !! k with
        | Some (v, e) =>
            if isExpired e (Base.clock (c_base c)) None
            then r = None ∧ view c' = delete k (view c)
            else r = Some v ∧ view c' = view c
        | None => r = None ∧ view c' = view c
        end;
  store_set : ∀ k v c, Safe c → settable c k →
    ∃ c', c_set k v c = Ok tt c' ∧ Safe c'
      ∧ view c' !! k
        = Some (v, expiryAfterSet (c_base c) (view c !! k ≫= snd));
  store_sie : ∀ k t c, Safe c →
    ∃ c', c_setItemExpiration k t c = Ok tt c' ∧ Safe c'
      ∧ view c' = alter (λ p, (p.1, Some t)) k (view c)
}.

(** A policy whose invariant leaves room for a hit by itself. *)
Lemma Store_same (Inv : C → Prop) (view : C → gmap K (V * option Z))
    (settable : C → K → Prop) :
  (∀ b c, Inv c → Base.size b = Base.size (c_base c) → Inv (c_setBase b c)) →
  (∀ b c, view (c_setBase b c) = view c) →
  (∀ c k, view c !! k = None → settable c k) →
  (∀ k onLoad, keeps settingsOf (c_get k onLoad)) →
  (∀ k v, keeps settingsOf (c_set k v)) →
  (∀ k t, keeps settingsOf (c_setItemExpiration k t)) →
  (∀ k onLoad c, Inv c →
    ∃ r c', c_get k onLoad c = Ok r c' ∧ Inv c'
      ∧ match view c !! k with
        | Some (v, e) =>
            if isExpired e (Base.clock (c_base c)) None
            then r = None ∧ view c' = delete k (view c)
            else r = Some v ∧ view c' = view c
        | None => r = None ∧ view c' = view c
        end) →
  (∀ k v c, Inv c → settable c k →
    ∃ c', c_set k v c = Ok tt c' ∧ Inv c'
      ∧ view c' !! k
        = Some (v, expiryAfterSet (c_base c) (view c !! k ≫= snd))) →
  (∀ k t c, Inv c →
    ∃ c', c_setItemExpiration k t c = Ok tt c' ∧ Inv c'
      ∧ view c' = alter (λ p, (p.1, Some t)) k (view c)) →
  Store Inv Inv view settable.
Proof.
  intros H1 H2 H3 H4 H5 H6 H7 H8 H9. split; try done.
  intros k onLoad c HI. destruct (H7 k onLoad c HI) as (r & c' & ? & ? & ?).
  exists r, c'. done.
Qed.

Lemma Store_weaken (Safe Inv Inv' : C → Prop) (view : C → gmap K (V * option Z))
    (settable : C → K → Prop) :
  Store Safe Inv view settable → (∀ c, Inv c → Inv' c) →
  Store Safe Inv' view settable.
Proof.
  intros HS Hw. split; try apply HS.
  - intros c Hc. apply Hw. by apply (store_safe_inv _ _ _ _ HS).
  - intros k onLoad c Hc.
    destruct (store_get _ _ _ _ HS k onLoad c Hc) as (r & c' & ? & ? & ? & ?).
    exists r, c'. split_and!; auto.
Qed.

Lemma settings_fields c c' :
  settingsOf c' = settingsOf c →
  Base.clock (c_base c') = Base.clock (c_base c)
  ∧ Base.size (c_base c') = Base.size (c_base c)
  ∧ Base.loaderExpireFunc (c_base c') = Base.loaderExpireFunc (c_base c)
  ∧ Base.expiration (c_base c') = Base.expiration (c_base c)
  ∧ Base.group (c_base c') = Base.group (c_base c).
Proof. unfold settingsOf, optionsOf. intros [= -> -> -> _ _ -> ->]. done. Qed.

Lemma settings_split c c' :
  settingsOf c' = settingsOf c →
  optionsOf (c_base c') = optionsOf (c_base c)
  ∧ Base.group (c_base c') = Base.group (c_base c).
Proof.
  intros Hs. split; [apply (f_equal fst Hs)|apply (f_equal snd Hs)].
Qed.

Context (Safe Inv : C → Prop) (view : C → gmap K (V * option Z))
        (settable : C → K → Prop) (HS : Store Safe Inv view settable).

Lemma get_step k onLoad c :
  Safe c →
  ∃ r c', c_get k onLoad c = Ok r c' ∧ Inv c' ∧ (r = None → Safe c')
    ∧ settingsOf c' = settingsOf c
    ∧ match view c !! k with
      | Some (v, e) =>
          if isExpired e (Base.clock (c_base c)) None
          then r = None ∧ view c' = delete k (view c)
          else r = Some v ∧ view c' = view c
      | None => r = None ∧ view c' = view c
      end.
Proof.
  intros HI.
  destruct (store_get _ _ _ _ HS k onLoad c HI) as (r & c' & Hg & HI' & Hsafe & Hv).
  exists r, c'. split_and!; try done.
  by apply (keeps_Ok settingsOf _ _ _ _ (store_get_keeps _ _ _ _ HS k onLoad) Hg).
Qed.

Lemma set_step k v c :
  Safe c → settable c k →
  ∃ c', c_set k v c = Ok tt c' ∧ Safe c' ∧ settingsOf c' = settingsOf c
    ∧ view c' !! k = Some (v, expiryAfterSet (c_base c) (view c !! k ≫= snd)).
Proof.
  intros HI Hs. destruct (store_set _ _ _ _ HS k v c HI Hs) as (c' & Hg & HI' & Hv).
  exists c'. split_and!; try done.
  by apply (keeps_Ok settingsOf _ _ _ _ (store_set_keeps _ _ _ _ HS k v) Hg).
Qed.

Lemma sie_step k t c :
  Safe c →
  ∃ c', c_setItemExpiration k t c = Ok tt c' ∧ Safe c' ∧ settingsOf c' = settingsOf c
    ∧ view c' = alter (λ p, (p.1, Some t)) k (view c).
Proof.
  intros HI. destruct (store_sie _ _ _ _ HS k t c HI) as (c' & Hg & HI' & Hv).
  exists c'. split_and!; try done.
  by apply (keeps_Ok settingsOf _ _ _ _ (store_sie_keeps _ _ _ _ HS k t) Hg).
Qed.

(** A key whose lookup misses: no entry, or an expired one. *)
Definition misses c k : Prop :=
  match view c !! k with
  | Some (_, e) => isExpired e (Base.clock (c_base c)) None = true
  | None => True
  end.

Definition hits c k v : Prop :=
  ∃ e, view c !! k = Some (v, e) ∧ isExpired e (Base.clock (c_base c)) None = false.

Lemma get_miss k onLoad c :
  Safe c → misses c k →
  ∃ c', c_get k onLoad c = Ok None c' ∧ Safe c' ∧ settingsOf c' = settingsOf c
        ∧ view c' = delete k (view c).
Proof.
  intros HI Hm.
  destruct (get_step k onLoad c HI) as (r & c' & Hg & HI' & Hsafe & Hs & Hv).
  unfold misses in Hm. destruct (view c !! k) as [[v e]|] eqn:Hk.
  - rewrite Hm in Hv. destruct Hv as [-> Hv]. eauto 10.
  - destruct Hv as [-> Hv]. exists c'. split_and!; try done; [by apply Hsafe|].
    by rewrite delete_id.
Qed.

Lemma get_hit k onLoad c v :
  Safe c → hits c k v →
  ∃ c', c_get k onLoad c = Ok (Some v) c' ∧ Inv c' ∧ settingsOf c' = settingsOf c
        ∧ view c' = view c.
Proof.
  intros HI (e & Hk & He).
  destruct (get_step k onLoad c HI) as (r & c' & Hg & HI' & _ & Hs & Hv).
  rewrite Hk, He in Hv. destruct Hv as [-> Hv]. eauto 10.
Qed.

(** [Get] and [GetIfPresent] on a hit. *)
Lemma Get_hit k c v :
  Safe c → hits c k v →
  ∃ c', Get k c = Ok (GetReturn (Some v) None) c' ∧ GetIfPresent k c = Get k c
        ∧ Inv c' ∧ settingsOf c' = settingsOf c ∧ view c' = view c.
Proof.
  intros HI Hh. destruct (get_hit k false c v HI Hh) as (c' & Hg & HI' & Hs & Hv).
  exists c'. unfold Get, GetIfPresent.
  rewrite !(bind_Ok _ _ _ _ _ Hg). done.
Qed.

(** [Get] and [GetIfPresent] on a miss, without a loader. *)
Lemma Get_miss_no_loader k c :
  Safe c → misses c k → Base.loaderExpireFunc (c_base c) = None →
  ∃ c', Get k c = Ok (GetReturn None (Some KeyNotFoundError)) c'
        ∧ GetIfPresent k c = Get k c
        ∧ Safe c' ∧ settingsOf c' = settingsOf c ∧ view c' = delete k (view c).
Proof.
  intros HI Hm Hld. destruct (get_miss k false c HI Hm) as (c' & Hg & HI' & Hs & Hv).
  exists c'. unfold Get, GetIfPresent.
  rewrite !(bind_Ok _ _ _ _ _ Hg). unfold getWithLoader. munfold.
  destruct (settings_fields _ _ Hs) as (_ & _ & -> & _). rewrite Hld. done.
Qed.

(** Round trip.  [Set(k, v)] leaves an entry for [k] with value [v]; the
    [Get(k)] that follows returns [v] when that entry is not expired at
    the reading of the clock.  It is expired when the default expiration is
    negative, or when there is no default expiration and [Set] overwrote an
    entry that had already expired, whose expiration it keeps: then a
    cache without a loader reports [KeyNotFoundError] and drops the
    entry. *)
Definition roundTrip (Set_ : K → V → M C unit) : Prop :=
  ∀ k v c, Safe c → settable c k →
    ∃ c1, Set_ k v c = Ok tt c1 ∧ Safe c1
      ∧ if isExpired (expiryAfterSet (c_base c) (view c !! k ≫= snd))
             (Base.clock (c_base c)) None
        then Base.loaderExpireFunc (c_base c) = None →
             ∃ c2, Get k c1 = Ok (GetReturn None (Some KeyNotFoundError)) c2
                   ∧ view c2 !! k = None
        else ∃ c2, Get k c1 = Ok (GetReturn (Some v) None) c2
                   ∧ view c2 = view c1.

Lemma roundTrip_holds : roundTrip c_set.
Proof.
  intros k v c HI Hst.
  destruct (set_step k v c HI Hst) as (c1 & Hset & HI1 & Hs1 & Hv1).
  exists c1. split_and!; try done.
  destruct (settings_fields _ _ Hs1) as (Hclk & _ & Hld & _).
  destruct (isExpired _ _ _) eqn:Hex.
  - intros Hnl.
    destruct (Get_miss_no_loader k c1) as (c2 & HG & _ & _ & _ & Hv2); try done.
    { unfold misses. rewrite Hv1, Hclk. done. }
    { by rewrite Hld. }
    exists c2. split; [done|]. rewrite Hv2. apply lookup_delete_eq.
  - destruct (Get_hit k c1 v) as (c2 & HG & _ & _ & _ & Hv2); try done.
    { eexists. rewrite Hclk. eauto. }
    eauto.
Qed.

(** [SetWithExpire], as the four policies write it. *)
Definition setWithExpire k v (d : Z) : M C unit :=
  c_set k v;;
  c ← getS;
  c_setItemExpiration k (Base.clock (c_base c) + d).

Lemma setWithExpire_step k v d c :
  Safe c → settable c k →
  ∃ c', setWithExpire k v d c = Ok tt c' ∧ Safe c' ∧ settingsOf c' = settingsOf c
    ∧ view c' !! k = Some (v, Some (Base.clock (c_base c) + d)).
Proof.
  intros HI Hst.
  destruct (set_step k v c HI Hst) as (c1 & Hset & HI1 & Hs1 & Hv1).
  destruct (sie_step k (Base.clock (c_base c1) + d) c1 HI1) as (c2 & Hsie & HI2 & Hs2 & Hv2).
  exists c2. unfold setWithExpire. rewrite (bind_Ok _ _ _ _ _ Hset). munfold.
  split_and!; try done.
  - congruence.
  - rewrite Hv2, lookup_alter_eq, Hv1. simpl.
    destruct (settings_fields _ _ Hs1) as (-> & _). done.
Qed.

Lemma Advance_step t c :
  Safe c →
  ∃ c', Clock.Advance t c = Ok tt c' ∧ Safe c' ∧ view c' = view c
    ∧ c_base c' = Base.setClock (Base.clock (c_base c) + t) (c_base c).
Proof.
  intros HI. eexists. split; [reflexivity|]. split_and!.
  - by apply (store_setBase_safe _ _ _ _ HS).
  - apply (store_setBase_view _ _ _ _ HS).
  - apply c_base_setBase.
Qed.

(** Expiration on read.  After [SetWithExpire(k, v, d)] and an advance of
    the clock by [t], [Get(k)] returns [v] when [t ≤ d]: the entry is still
    live at the very instant of its expiration.  When [d < t] a cache
    without a loader reports [KeyNotFoundError] and drops the entry. *)
Definition expiresAfter (SetWithExpire : K → V → Z → M C unit) : Prop :=
  ∀ k v d t c, Safe c → settable c k →
    ∃ c1, (SetWithExpire k v d;; Clock.Advance t) c = Ok tt c1 ∧ Safe c1
      ∧ if bool_decide (t ≤ d)
        then ∃ c2, Get k c1 = Ok (GetReturn (Some v) None) c2 ∧ view c2 = view c1
        else Base.loaderExpireFunc (c_base c) = None →
             ∃ c2, Get k c1 = Ok (GetReturn None (Some KeyNotFoundError)) c2
                   ∧ view c2 !! k = None.

Lemma expiresAfter_holds : expiresAfter setWithExpire.
Proof.
  intros k v d t c HI Hst.
  destruct (setWithExpire_step k v d c HI Hst) as (c1 & Hset & HI1 & Hs1 & Hv1).
  destruct (Advance_step t c1 HI1) as (c2 & Hadv & HI2 & Hv2 & Hb2).
  exists c2. rewrite (bind_Ok _ _ _ _ _ Hset). split_and!; try done.
  destruct (settings_fields _ _ Hs1) as (Hclk & _ & Hld & _).
  assert (Base.clock (c_base c2) = Base.clock (c_base c) + t) as Hclk2
    by (by rewrite Hb2, <- Hclk).
  case_bool_decide as Htd.
  - destruct (Get_hit k c2 v) as (c3 & HG & _ & _ & _ & Hv3); try done.
    { eexists. rewrite Hv2, Hv1, Hclk2. split; [done|]. simpl.
      apply bool_decide_eq_false_2. lia. }
    eauto.
  - intros Hnl.
    destruct (Get_miss_no_loader k c2) as (c3 & HG & _ & _ & _ & Hv3); try done.
    { unfold misses. rewrite Hv2, Hv1, Hclk2. simpl.
      apply bool_decide_eq_true_2. lia. }
    { rewrite Hb2. simpl. by rewrite Hld. }
    exists c3. split; [done|]. rewrite Hv3. apply lookup_delete_eq.
Qed.

(** *** The loader path *)

Lemma modifyGroup_step f c :
  Safe c →
  ∃ c', modifyGroup f c = Ok tt c' ∧ Safe c' ∧ view c' = view c
    ∧ c_base c' = Base.setGroup (f (Base.group (c_base c))) (c_base c).
Proof.
  intros HI. eexists. split; [reflexivity|]. split_and!.
  - by apply (store_setBase_safe _ _ _ _ HS).
  - apply (store_setBase_view _ _ _ _ HS).
  - apply c_base_setBase.
Qed.

(** What the loader's triple becomes at the caller of [load]. *)
Definition loadReturn (l : loaded V E) : option V * option (error E) :=
  match l with
  | Loaded v _ None => (Some v, None)
  | Loaded _ _ (Some e) => (None, Some e)
  | LoaderPanics => (None, Some LoaderPanic)
  end.

Definition asGet (r : option V * option (error E)) : GetResult K V E :=
  match r.2 with
  | Some e => GetReturn None (Some e)
  | None => GetReturn r.1 None
  end.

(** The expiration of a loaded entry: the loader's own duration counted
    from the clock, or what [set] gives. *)
Definition loadedExpiry (b : Base.baseCache K V E) (ex : option Z) : option Z :=
  match ex with
  | Some d => Some (Base.clock b + d)
  | None => expiryAfterSet b None
  end.

Lemma loadedExpiry_options (b b' : Base.baseCache K V E) ex :
  optionsOf b = optionsOf b' → loadedExpiry b ex = loadedExpiry b' ex.
Proof.
  unfold optionsOf, loadedExpiry, expiryAfterSet.
  intros [= -> _ _ _ _ ->]. done.
Qed.

(** What the load leaves in the store. *)
Definition loadedInto (l : loaded V E) k (b : Base.baseCache K V E)
    (before after : gmap K (V * option Z)) : Prop :=
  match l with
  | Loaded v ex None => after !! k = Some (v, loadedExpiry b ex)
  | _ => after = before
  end.

Lemma loaderCallback_step k v ex c :
  Safe c → view c !! k = None →
  ∃ c', loaderCallback k v ex None c = Ok (Some v, None) c' ∧ Safe c'
    ∧ settingsOf c' = settingsOf c
    ∧ view c' !! k = Some (v, loadedExpiry (c_base c) ex).
Proof.
  intros HI Hk. unfold loaderCallback.
  destruct (set_step k v c HI) as (c1 & Hset & HI1 & Hs1 & Hv1).
  { by apply (store_settable _ _ _ _ HS). }
  rewrite Hk in Hv1. simpl in Hv1.
  rewrite (bind_Ok _ _ _ _ _ Hset).
  destruct ex as [d|]; simpl.
  - destruct (sie_step k (Base.clock (c_base c1) + d) c1 HI1)
      as (c2 & Hsie & HI2 & Hs2 & Hv2).
    exists c2. munfold. rewrite Hsie. split_and!; try done; [congruence|].
    rewrite Hv2, lookup_alter_eq, Hv1. simpl.
    destruct (settings_fields _ _ Hs1) as (-> & _). done.
  - exists c1. munfold. done.
Qed.

Lemma loadFn_step ld k c :
  Safe c → view c !! k = None →
  ∃ c', loadFn ld k (loaderCallback k) c = Ok (loadReturn (ld k)) c' ∧ Safe c'
    ∧ settingsOf c' = settingsOf c
    ∧ loadedInto (ld k) k (c_base c) (view c) (view c').
Proof.
  intros HI Hk. unfold loadFn, recover, loadReturn, loadedInto.
  destruct (ld k) as [v ex [e|]|].
  - exists c. done.
  - destruct (loaderCallback_step k v ex c HI Hk) as (c' & -> & ?). eauto.
  - exists c. done.
Qed.

Lemma call_load_step ld k c :
  Safe c → view c !! k = None →
  ∃ c', call k (loadFn ld k (loaderCallback k)) c = Ok (loadReturn (ld k)) c'
    ∧ Safe c' ∧ optionsOf (c_base c') = optionsOf (c_base c)
    ∧ Flight.m (Base.group (c_base c')) = delete k (Flight.m (Base.group (c_base c)))
    ∧ Flight.goroutines (Base.group (c_base c'))
      = Flight.goroutines (Base.group (c_base c))
    ∧ loadedInto (ld k) k (c_base c) (view c) (view c').
Proof.
  intros HI Hk.
  destruct (loadFn_step ld k c HI Hk) as (c1 & Hfn & HI1 & Hs1 & Hv1).
  unfold call. rewrite (bind_Ok _ _ _ _ _ Hfn).
  match goal with |- context [modifyGroup ?f ≫= _] =>
    destruct (modifyGroup_step f c1 HI1) as (c2 & Hm2 & HI2 & Hv2 & Hb2) end.
  rewrite (bind_Ok _ _ _ _ _ Hm2).
  match goal with |- context [modifyGroup ?f ≫= _] =>
    destruct (modifyGroup_step f c2 HI2) as (c3 & Hm3 & HI3 & Hv3 & Hb3) end.
  rewrite (bind_Ok _ _ _ _ _ Hm3).
  exists c3. split; [done|].
  destruct (settings_split _ _ Hs1) as [Ho Hg].
  rewrite Hb3, Hb2. simpl. rewrite Hg. split_and!; try done.
  - apply map_eq. intros j. destruct (decide (j = k)) as [->|].
    + by rewrite !lookup_delete_eq.
    + by rewrite !lookup_delete_ne, lookup_alter_ne.
  - unfold loadedInto in *. destruct (ld k) as [? ? [?|]|]; congruence.
Qed.

Lemma getWithLoader_unfold k w c ld :
  Base.loaderExpireFunc (c_base c) = Some ld →
  getWithLoader k w c
  = (r ← Do k (loadFn ld k (loaderCallback k)) w;
     match r with
     | DoReturn v _ (Some e) => mret (GetReturn None (Some e))
     | DoReturn v _ None => mret (GetReturn v None)
     | DoWait k => mret (GetWait k)
     end) c.
Proof.
  intros Hld. unfold getWithLoader, load, mbind, M_bind, getS, mret, M_ret.
  rewrite Hld. cbv beta. rewrite Hld.
  destruct (Do _ _ _ _) as [[v called [e|]|k'] s|s]; done.
Qed.

Lemma Do_wait_unfold k fn c c2 :
  c_get k true c = Ok None c2 →
  Flight.m (Base.group (c_base c2)) !! k = None →
  Do k fn true c
  = (r ← call k fn; mret (DoReturn r.1 true r.2)) (CommonFacts.installed k c2).
Proof.
  intros Hg Hnd. unfold Do, mbind, M_bind at 1. rewrite Hg.
  unfold mbind, M_bind at 1. unfold getS. rewrite Hnd. done.
Qed.

Lemma installed_step k c :
  Safe c →
  Safe (CommonFacts.installed k c) ∧ view (CommonFacts.installed k c) = view c
  ∧ c_base (CommonFacts.installed k c)
    = Base.setGroup
        (Flight.setM
           (<[k := {| Flight.wg := 1; Flight.val := None; Flight.err := None |}]>
              (Flight.m (Base.group (c_base c))))
           (Base.group (c_base c)))
        (c_base c).
Proof.
  intros HI. unfold CommonFacts.installed. split_and!.
  - by apply (store_setBase_safe _ _ _ _ HS).
  - apply (store_setBase_view _ _ _ _ HS).
  - apply c_base_setBase.
Qed.

(** A [Get] that misses, with a loader and no load of the key in flight:
    the loader runs once, its value is stored and returned, its error or
    its panic is returned and nothing is stored; either way the registry
    of in-flight loads is as before. *)
Lemma Get_cold k c ld :
  Safe c → misses c k →
  Flight.m (Base.group (c_base c)) !! k = None →
  Base.loaderExpireFunc (c_base c) = Some ld →
  ∃ c', Get k c = Ok (asGet (loadReturn (ld k))) c' ∧ Safe c'
    ∧ optionsOf (c_base c') = optionsOf (c_base c)
    ∧ Base.group (c_base c') = Base.group (c_base c)
    ∧ loadedInto (ld k) k (c_base c) (delete k (view c)) (view c').
Proof.
  intros HI Hm Hnd Hld.
  destruct (get_miss k false c HI Hm) as (c1 & Hg1 & HI1 & Hs1 & Hv1).
  assert (misses c1 k) as Hm1 by (unfold misses; by rewrite Hv1, lookup_delete_eq).
  destruct (get_miss k true c1 HI1 Hm1) as (c2 & Hg2 & HI2 & Hs2 & Hv2).
  assert (settingsOf c2 = settingsOf c) as Hs by congruence.
  destruct (settings_fields _ _ Hs) as (Hclk & Hsz & Hl & Hex & Hgr).
  destruct (settings_fields _ _ Hs1) as (_ & _ & Hl1 & _).
  destruct (settings_split _ _ Hs) as [Ho _].
  destruct (installed_step k c2 HI2) as (HI3 & Hv3 & Hb3).
  set (c3 := CommonFacts.installed k c2) in *.
  assert (view c3 !! k = None) as Hk3.
  { by rewrite Hv3, Hv2, Hv1, delete_delete_eq, lookup_delete_eq. }
  destruct (call_load_step ld k c3 HI3 Hk3) as (c4 & Hc & HI4 & Ho4 & Hm4 & Hgo4 & Hv4).
  assert (optionsOf (c_base c3) = optionsOf (c_base c)) as Ho3
    by (by rewrite Hb3, <- Ho).
  exists c4. split_and!.
  - unfold Get. rewrite (bind_Ok _ _ _ _ _ Hg1).
    rewrite (getWithLoader_unfold k true c1 ld) by congruence.
    erewrite bind_Ok.
    2:{ rewrite (Do_wait_unfold k _ c1 c2 Hg2) by (by rewrite Hgr).
        fold c3. rewrite (bind_Ok _ _ _ _ _ Hc). reflexivity. }
    unfold asGet, loadReturn. by destruct (ld k) as [? ? [?|]|].
  - done.
  - congruence.
  - rewrite Hb3 in Hm4, Hgo4. simpl in *. rewrite Hgr in Hm4, Hgo4.
    destruct (Base.group (c_base c4)) as [m4 g4], (Base.group (c_base c)) as [m0 g0].
    simpl in *. subst. f_equal. rewrite delete_insert_eq. by apply delete_id.
  - unfold loadedInto in *. rewrite Hv3, Hv2, Hv1, delete_delete_eq in Hv4.
    destruct (ld k) as [v ex [e|]|]; try done.
    rewrite Hv4. f_equal. f_equal. by apply loadedExpiry_options.
Qed.

(** Loading on a miss.  A [Get] of a key whose lookup misses, on a cache
    with a loader and no load of that key in flight, runs the loader; when
    the loader returns a value and no error, [Get] returns that value, the
    value is stored with the loader's expiration (or the default one), no
    descriptor is left in the registry, and as long as the entry is live
    the next [Get] is a hit that leaves the entries as they are. *)
Definition loadsOnMiss : Prop :=
  ∀ k c ld v ex,
    Safe c → misses c k →
    Flight.m (Base.group (c_base c)) !! k = None →
    Base.loaderExpireFunc (c_base c) = Some ld →
    ld k = Loaded v ex None →
    ∃ c', Get k c = Ok (GetReturn (Some v) None) c' ∧ Safe c'
      ∧ view c' !! k = Some (v, loadedExpiry (c_base c) ex)
      ∧ Base.group (c_base c') = Base.group (c_base c)
      ∧ (isExpired (loadedExpiry (c_base c) ex) (Base.clock (c_base c)) None = false →
         ∃ c'', Get k c' = Ok (GetReturn (Some v) None) c'' ∧ view c'' = view c').

Lemma loadsOnMiss_holds : loadsOnMiss.
Proof.
  intros k c ld v ex HI Hm Hnd Hld Hv.
  destruct (Get_cold k c ld HI Hm Hnd Hld) as (c' & HG & HI' & Ho & Hg & Hl).
  rewrite Hv in HG, Hl. simpl in *. exists c'. split_and!; try done.
  intros Hlive. destruct (Get_hit k c' v) as (c'' & HG' & _ & _ & _ & Hv''); try done.
  { eexists. split; [done|]. unfold optionsOf in Ho. injection Ho as -> _. done. }
  eauto.
Qed.

(** A failing loader.  In the same situation, when the loader returns an
    error, or panics, [Get] returns that error, or [LoaderPanic]; nothing
    is stored, and no descriptor is left in the registry. *)
Definition loaderFailure : Prop :=
  ∀ k c ld,
    Safe c → misses c k →
    Flight.m (Base.group (c_base c)) !! k = None →
    Base.loaderExpireFunc (c_base c) = Some ld →
    (∀ v ex e, ld k = Loaded v ex (Some e) →
       ∃ c', Get k c = Ok (GetReturn None (Some e)) c' ∧ Safe c'
         ∧ view c' = delete k (view c)
         ∧ Base.group (c_base c') = Base.group (c_base c))
    ∧ (ld k = LoaderPanics →
       ∃ c', Get k c = Ok (GetReturn None (Some LoaderPanic)) c' ∧ Safe c'
         ∧ view c' = delete k (view c)
         ∧ Base.group (c_base c') = Base.group (c_base c)).

Lemma loaderFailure_holds : loaderFailure.
Proof.
  intros k c ld HI Hm Hnd Hld.
  destruct (Get_cold k c ld HI Hm Hnd Hld) as (c' & HG & HI' & Ho & Hg & Hl).
  split.
  - intros v ex e Hv. rewrite Hv in HG, Hl. simpl in *. eauto 10.
  - intros Hv. rewrite Hv in HG, Hl. simpl in *. eauto 10.
Qed.

Lemma dispatched_step k c :
  Safe c →
  Safe (CommonFacts.dispatched k c) ∧ view (CommonFacts.dispatched k c) = view c
  ∧ c_base (CommonFacts.dispatched k c)
    = Base.setGroup
        {| Flight.m := <[k := {| Flight.wg := 1; Flight.val := None;
                                 Flight.err := None |}]>
                         (Flight.m (Base.group (c_base c)));
           Flight.goroutines := Flight.goroutines (Base.group (c_base c)) ++ [k] |}
        (c_base c).
Proof.
  intros HI. destruct (installed_step k c HI) as (HI1 & Hv1 & Hb1).
  unfold CommonFacts.dispatched. cbv zeta. split_and!.
  - by apply (store_setBase_safe _ _ _ _ HS).
  - by rewrite (store_setBase_view _ _ _ _ HS).
  - rewrite c_base_setBase, Hb1. done.
Qed.

(** [GetIfPresent] on a miss with a loader: what it returns and the state
    it leaves, with or without a load of the key in flight. *)
Lemma GetIfPresent_cold k c ld :
  Safe c → misses c k →
  Base.loaderExpireFunc (c_base c) = Some ld →
  ∃ c2, (∃ c1, c_get k false c = Ok None c1 ∧ c_get k true c1 = Ok None c2)
    ∧ Safe c2 ∧ settingsOf c2 = settingsOf c ∧ view c2 = delete k (view c)
    ∧ GetIfPresent k c
      = Ok (GetReturn None (Some KeyNotFoundError))
           (match Flight.m (Base.group (c_base c)) !! k with
            | Some _ => c2
            | None => CommonFacts.dispatched k c2
            end).
Proof.
  intros HI Hm Hld.
  destruct (get_miss k false c HI Hm) as (c1 & Hg1 & HI1 & Hs1 & Hv1).
  assert (misses c1 k) as Hm1 by (unfold misses; by rewrite Hv1, lookup_delete_eq).
  destruct (get_miss k true c1 HI1 Hm1) as (c2 & Hg2 & HI2 & Hs2 & Hv2).
  assert (settingsOf c2 = settingsOf c) as Hs by congruence.
  destruct (settings_fields _ _ Hs) as (_ & _ & _ & _ & Hgr).
  destruct (settings_fields _ _ Hs1) as (_ & _ & Hl1 & _).
  exists c2. split_and!; eauto.
  { by rewrite Hv2, Hv1, delete_delete_eq. }
  unfold GetIfPresent. rewrite (bind_Ok _ _ _ _ _ Hg1).
  rewrite (getWithLoader_unfold k false c1 ld) by congruence.
  unfold mbind, M_bind at 1.
  rewrite CommonFacts.Do_deferred. unfold CommonFacts.DoDeferred.
  rewrite Hg2, Hgr. by destruct (_ !! k).
Qed.

Lemma runGoroutine_unfold c k rest ld :
  Flight.goroutines (Base.group (c_base c)) = k :: rest →
  Base.loaderExpireFunc (c_base c) = Some ld →
  ∀ c', modifyGroup (Flight.setGoroutines rest) c = Ok tt c' →
  runGoroutine c
  = match call k (loadFn ld k (loaderCallback k)) c' with
    | Ok _ s => Ok tt s
    | Panic s => Panic s
    end.
Proof.
  intros Hg Hld c' Hm. unfold runGoroutine, mbind, M_bind at 1. unfold getS.
  rewrite Hg, Hld. unfold mbind, M_bind at 1. rewrite Hm.
  unfold mbind, M_bind, mret, M_ret. done.
Qed.

(** Deferred loading.  A [GetIfPresent] of a key whose lookup misses, on a
    cache with a loader and no load in flight, reports [KeyNotFoundError]
    at once and stores nothing; asking again while the load is pending
    reports the same and starts no second load.  Once the goroutine of the
    load has run, the loader's value is stored, the registry is as it was
    before, and as long as the entry is live [Get] returns the value. *)
Definition deferredLoad : Prop :=
  ∀ k c ld v ex,
    Safe c → misses c k →
    Flight.m (Base.group (c_base c)) !! k = None →
    Flight.goroutines (Base.group (c_base c)) = [] →
    Base.loaderExpireFunc (c_base c) = Some ld →
    ld k = Loaded v ex None →
    ∃ c1 c2,
      GetIfPresent k c = Ok (GetReturn None (Some KeyNotFoundError)) c1
      ∧ view c1 = delete k (view c)
      ∧ Flight.goroutines (Base.group (c_base c1)) = [k]
      ∧ (∃ c1', GetIfPresent k c1 = Ok (GetReturn None (Some KeyNotFoundError)) c1'
                ∧ view c1' = view c1
                ∧ Base.group (c_base c1') = Base.group (c_base c1))
      ∧ runGoroutine c1 = Ok tt c2 ∧ Safe c2
      ∧ view c2 !! k = Some (v, loadedExpiry (c_base c) ex)
      ∧ Base.group (c_base c2) = Base.group (c_base c)
      ∧ (isExpired (loadedExpiry (c_base c) ex) (Base.clock (c_base c)) None = false →
         ∃ c3, Get k c2 = Ok (GetReturn (Some v) None) c3 ∧ view c3 = view c2).

Lemma deferredLoad_holds : deferredLoad.
Proof.
  intros k c ld v ex HI Hm Hnd Hgo Hld Hv.
  destruct (GetIfPresent_cold k c ld HI Hm Hld) as (c2 & _ & HI2 & Hs2 & Hv2 & HG).
  rewrite Hnd in HG.
  destruct (dispatched_step k c2 HI2) as (HI3 & Hv3 & Hb3).
  set (c3 := CommonFacts.dispatched k c2) in *.
  destruct (settings_fields _ _ Hs2) as (Hclk & Hsz & Hl & Hex & Hgr).
  destruct (settings_split _ _ Hs2) as [Ho _].
  rewrite Hgr, Hgo in Hb3. simpl in Hb3.
  assert (view c3 !! k = None) as Hk3 by (by rewrite Hv3, Hv2, lookup_delete_eq).
  (* the goroutine *)
  destruct (modifyGroup_step (Flight.setGoroutines []) c3 HI3)
    as (c4 & Hm4 & HI4 & Hv4 & Hb4).
  assert (view c4 !! k = None) as Hk4 by (by rewrite Hv4).
  destruct (call_load_step ld k c4 HI4 Hk4) as (c5 & Hc & HI5 & Ho5 & Hm5 & Hgo5 & Hl5).
  rewrite Hv in Hl5. simpl in Hl5.
  assert (optionsOf (c_base c5) = optionsOf (c_base c)) as Ho5'
    by (by rewrite Ho5, Hb4, Hb3, <- Ho).
  assert (optionsOf (c_base c4) = optionsOf (c_base c)) as Ho4
    by (by rewrite Hb4, Hb3, <- Ho).
  rewrite (loadedExpiry_options _ _ ex Ho4) in Hl5.
  rewrite Hb4, Hb3 in Hm5, Hgo5. simpl in *.
  exists c3, c5. split_and!; try done.
  - congruence.
  - by rewrite Hb3.
  - destruct (GetIfPresent_cold k c3 ld) as (c6 & _ & HI6 & Hs6 & Hv6 & HG6).
    { done. } { unfold misses. by rewrite Hk3. }
    { rewrite Hb3. simpl. congruence. }
    rewrite Hb3 in HG6. simpl in HG6. rewrite lookup_insert_eq in HG6.
    exists c6. split_and!; [done| |].
    + rewrite Hv6. by apply delete_id.
    + by destruct (settings_split _ _ Hs6) as [_ ->].
  - rewrite (runGoroutine_unfold c3 k [] ld) with (c' := c4); try done.
    + by rewrite Hc.
    + by rewrite Hb3.
    + rewrite Hb3. simpl. congruence.
  - destruct (Base.group (c_base c5)) as [m5 g5], (Base.group (c_base c)) as [m0 g0].
    simpl in *. subst. f_equal. rewrite delete_insert_eq. by apply delete_id.
  - intros Hlive. destruct (Get_hit k c5 v) as (c6 & HG6 & _ & _ & _ & Hv6); try done.
    { eexists. split; [done|].
      unfold optionsOf in Ho5'. injection Ho5' as -> _. done. }
    eauto.
Qed.

Lemma Do_wait_installed k fn c c2 d :
  c_get k true c = Ok None c2 →
  Flight.m (Base.group (c_base c2)) !! k = Some d →
  Do k fn true c = Ok (DoWait k) c2.
Proof.
  intros Hg Hd. unfold Do, mbind, M_bind at 1. rewrite Hg.
  unfold mbind, M_bind at 1. unfold getS. rewrite Hd. done.
Qed.

(** Waiting.  A [Get] of a key whose lookup misses while a load of that
    key is in flight does not call the loader: it waits for that load, and
    until then it has only dropped the entry if it had expired. *)
Definition waitsInFlight : Prop :=
  ∀ k c ld d,
    Safe c → misses c k →
    Flight.m (Base.group (c_base c)) !! k = Some d →
    Base.loaderExpireFunc (c_base c) = Some ld →
    ∃ c', Get k c = Ok (GetWait k) c' ∧ Safe c'
      ∧ view c' = delete k (view c) ∧ settingsOf c' = settingsOf c.

Lemma waitsInFlight_holds : waitsInFlight.
Proof.
  intros k c ld d HI Hm Hd Hld.
  destruct (get_miss k false c HI Hm) as (c1 & Hg1 & HI1 & Hs1 & Hv1).
  assert (misses c1 k) as Hm1 by (unfold misses; by rewrite Hv1, lookup_delete_eq).
  destruct (get_miss k true c1 HI1 Hm1) as (c2 & Hg2 & HI2 & Hs2 & Hv2).
  assert (settingsOf c2 = settingsOf c) as Hs by congruence.
  destruct (settings_fields _ _ Hs) as (_ & _ & _ & _ & Hgr).
  destruct (settings_fields _ _ Hs1) as (_ & _ & Hl1 & _).
  exists c2. split_and!; try done.
  - unfold Get. rewrite (bind_Ok _ _ _ _ _ Hg1).
    rewrite (getWithLoader_unfold k true c1 ld) by congruence.
    rewrite (bind_Ok _ _ _ _ _ (Do_wait_installed k _ c1 c2 d Hg2 ltac:(by rewrite Hgr))).
    done.
  - by rewrite Hv2, Hv1, delete_delete_eq.
Qed.

(** [Get] and [GetIfPresent] return from every state that satisfies the
    invariant, whatever the loader does and whatever is in flight, and the
    state they leave satisfies it. *)
Lemma read_inv k w c :
  Safe c →
  ∃ r c', (r ← c_get k false;
           match r with
           | None => getWithLoader k w
           | Some v => mret (GetReturn (Some v) None)
           end) c = Ok r c'
    ∧ Inv c' ∧ optionsOf (c_base c') = optionsOf (c_base c).
Proof.
  intros HI.
  destruct (get_step k false c HI) as (r & c1 & Hg1 & HI1' & HI1 & Hs1 & Hr).
  destruct (settings_split _ _ Hs1) as [Ho1 _].
  rewrite (bind_Ok _ _ _ _ _ Hg1).
  destruct r as [v|]; [by eauto 10|]. specialize (HI1 eq_refl).
  pose proof (store_safe_inv _ _ _ _ HS) as Hsi.
  assert (view c1 !! k = None) as Hk1.
  { destruct (view c !! k) as [[v e]|] eqn:Hk.
    - destruct (isExpired _ _ _); [|by destruct Hr].
      destruct Hr as [_ ->]. apply lookup_delete_eq.
    - destruct Hr as [_ ->]. done. }
  destruct (Base.loaderExpireFunc (c_base c1)) as [ld|] eqn:Hld.
  2:{ unfold getWithLoader. munfold. rewrite Hld. eauto 10. }
  rewrite (getWithLoader_unfold k w c1 ld Hld).
  assert (misses c1 k) as Hm1 by (unfold misses; by rewrite Hk1).
  destruct (get_miss k true c1 HI1 Hm1) as (c2 & Hg2 & HI2 & Hs2 & Hv2).
  destruct (settings_split _ _ Hs2) as [Ho2 _].
  destruct (Flight.m (Base.group (c_base c2)) !! k) as [d|] eqn:Hd.
  - destruct w.
    + rewrite (bind_Ok _ _ _ _ _ (Do_wait_installed k _ c1 c2 d Hg2 Hd)).
      exists (GetWait k), c2. split_and!; [done|by apply Hsi|congruence].
    + unfold mbind, M_bind at 1. rewrite CommonFacts.Do_deferred.
      unfold CommonFacts.DoDeferred. rewrite Hg2, Hd.
      eexists _, c2. split_and!; [done|by apply Hsi|congruence].
  - destruct w.
    + destruct (installed_step k c2 HI2) as (HI3 & Hv3 & Hb3).
      assert (view (CommonFacts.installed k c2) !! k = None) as Hk3.
      { by rewrite Hv3, Hv2, lookup_delete_eq. }
      destruct (call_load_step ld k _ HI3 Hk3) as (c4 & Hc & HI4 & Ho4 & _).
      erewrite bind_Ok.
      2:{ rewrite (Do_wait_unfold k _ c1 c2 Hg2 Hd).
          rewrite (bind_Ok _ _ _ _ _ Hc). reflexivity. }
      simpl. exists (asGet (loadReturn (ld k))), c4. split_and!.
      * unfold asGet. by destruct (loadReturn (ld k)) as [? [?|]].
      * by apply Hsi.
      * rewrite Ho4, Hb3. simpl. change (optionsOf (c_base c2) = optionsOf (c_base c)).
        congruence.
    + destruct (dispatched_step k c2 HI2) as (HI3 & Hv3 & Hb3).
      unfold mbind, M_bind at 1. rewrite CommonFacts.Do_deferred.
      unfold CommonFacts.DoDeferred. rewrite Hg2, Hd.
      eexists _, _. split_and!; [done|by apply Hsi|].
      rewrite Hb3. change (optionsOf (c_base c2) = optionsOf (c_base c)).
      congruence.
Qed.

(** Removal.  [Remove] of a stored key deletes its entry, whether expired
    or not, reports it to the eviction callback, returns [true] and keeps
    the invariant; a second [Remove], or the [Remove] of a key that is not
    stored, returns [false] and changes nothing. *)
Definition removes (Remove : K → M C bool) : Prop :=
  ∀ c k, Inv c →
    match view c !! k with
    | Some (v, _) =>
        ∃ c', Remove k c = Ok true c' ∧ Inv c' ∧ view c' = delete k (view c)
          ∧ Base.events (c_base c')
            = Base.events (c_base c)
              ++ (if Base.evictedFunc (c_base c) then [Evicted k v] else [])
          ∧ Remove k c' = Ok false c'
    | None => Remove k c = Ok false c
    end.
End store.
End StoreFacts.

(** ** SIMPLE: what Set and Remove do to the entries *)

Module SimpleFacts.
Import Simple StoreFacts.
Section facts.
Context {K V E : Type} `{HeqK : EqDecision K, HcntK : !Countable K}.
Implicit Types (c : SimpleCache K V E) (k : K) (v : V) (it : simpleItem V).

(** The entries that [evict] may remove at clock reading [now]: those with
    no expiration and those whose expiration is before [now]. *)
Definition evictable (now : Z) it : bool :=
  match expiration it with
  | None => true
  | Some e => bool_decide (e < now)
  end.

Definition written c k v : simpleItem V :=
  {| value := v;
     expiration := expiryAfterSet (base c) (items c !! k ≫= expiration) |}.

(** The cache after [remove] of a stored key. *)
Definition removed c k it : SimpleCache K V E :=
  setBase (Base.callEvicted k (value it) (base c)) (setItems (delete k (items c)) c).

Lemma remove_stored c k it :
  items c !! k = Some it → remove k c = Ok true (removed c k it).
Proof. intros Hk. unfold remove. munfold. by rewrite Hk. Qed.

Lemma remove_absent c k : items c !! k = None → remove k c = Ok false c.
Proof. intros Hk. unfold remove. munfold. by rewrite Hk. Qed.

Lemma evictScan_zero now (kvs : list (K * simpleItem V)) : evictScan now 0 kvs = [].
Proof. by destruct kvs as [|[??]?]. Qed.

Lemma evictScan_one now (kvs : list (K * simpleItem V)) :
  (evictScan now 1 kvs = []
   ∧ ∀ k it, (k, it) ∈ kvs → evictable now it = false)
  ∨ ∃ k it, evictScan now 1 kvs = [k] ∧ (k, it) ∈ kvs ∧ evictable now it = true.
Proof.
  induction kvs as [|[k it] kvs IH]; cbn [evictScan].
  - left. split; [done|]. by intros ?? ?%elem_of_nil.
  - rewrite bool_decide_eq_false_2 by lia.
    fold (evictable now it). destruct (evictable now it) eqn:Hev.
    + right. exists k, it. replace (1 - 1) with 0 by lia.
      rewrite evictScan_zero. split_and!; [done|left|done].
    + destruct IH as [[-> Hall]|(k0 & it0 & -> & Hin & Hev0)].
      * left. split; [done|]. intros k' it' [[= -> ->]|?]%elem_of_cons; eauto.
      * right. exists k0, it0. split_and!; [done|by right|done].
Qed.

(** [evict(1)] removes one evictable entry, or nothing when there is none. *)
Lemma simple_evict_one c :
  (evict 1 c = Ok tt c
   ∧ ∀ k it, items c !! k = Some it → evictable (Base.clock (base c)) it = false)
  ∨ ∃ k it, evict 1 c = Ok tt (removed c k it) ∧ items c !! k = Some it
            ∧ evictable (Base.clock (base c)) it = true.
Proof.
  unfold evict. munfold.
  destruct (evictScan_one (Base.clock (base c)) (map_to_list (items c)))
    as [[-> Hall]|(k & it & -> & Hin & Hev)].
  - left. split; [done|]. intros k it Hk. apply (Hall k it).
    by apply elem_of_map_to_list.
  - right. exists k, it. apply elem_of_map_to_list in Hin.
    simpl. munfold. rewrite (remove_stored c k it Hin). done.
Qed.

(** What [set] does to the entries: it writes the entry of [k], and for a
    new key at capacity ([0 < size ≤ len]) it first removes one evictable
    entry if there is one, the [victim]. *)
Definition setOutcome c k v (victim : option K) (c' : SimpleCache K V E) : Prop :=
  items c' = <[k := written c k v]>
               (match victim with Some k0 => delete k0 (items c) | None => items c end)
  ∧ Base.events (base c')
    = Base.events (base c)
      ++ (match victim with
          | Some k0 =>
              match items c !! k0 with
              | Some it0 => if Base.evictedFunc (base c) then [Evicted k0 (value it0)] else []
              | None => []
              end
          | None => []
          end)
      ++ (if Base.addedFunc (base c) then [Added k v] else [])
  ∧ match victim with
    | Some k0 =>
        items c !! k = None
        ∧ 0 < Base.size (base c) ≤ Z.of_nat (size (items c))
        ∧ ∃ it0, items c !! k0 = Some it0
                 ∧ evictable (Base.clock (base c)) it0 = true
    | None =>
        is_Some (items c !! k)
        ∨ ¬ (0 < Base.size (base c) ≤ Z.of_nat (size (items c)))
        ∨ ∀ k0 it0, items c !! k0 = Some it0 →
                    evictable (Base.clock (base c)) it0 = false
    end.

Local Ltac items_eq k :=
  let j := fresh "j" in
  apply map_eq; intros j; destruct (decide (j = k)) as [->|];
  [rewrite ?lookup_alter_eq, ?lookup_insert_eq
  |rewrite ?lookup_alter_ne, ?lookup_insert_ne by done]; done.

Local Ltac set_cases c :=
  destruct (Base.expiration (base c)) eqn:?; simpl;
  (eexists; split; [reflexivity|]); simpl;
  unfold removed, Base.callAdded, Base.callEvicted; simpl;
  destruct (Base.addedFunc (base c)) eqn:?; simpl;
  destruct (Base.evictedFunc (base c)) eqn:?; simpl;
  repeat (match goal with
          | H : Base.addedFunc _ = _ |- _ => rewrite !H
          | H : Base.evictedFunc _ = _ |- _ => rewrite !H
          end; simpl);
  rewrite ?app_nil_r, <- ?app_assoc; simpl.

Local Ltac fin k :=
  split_and!;
  first [done | lia | items_eq k | by eauto | by left; eauto
        | by right; left | by right; right].

Lemma simple_set_outcome c k v :
  ∃ victim c', set k v c = Ok tt c' ∧ setOutcome c k v victim c'.
Proof.
  unfold set, setOutcome, written, expiryAfterSet. munfold.
  destruct (items c !! k) as [it|] eqn:Hk; simpl.
  - exists None. set_cases c; fin k.
  - destruct (bool_decide (Base.size (base c) ≤ Z.of_nat (size (items c)))
              && bool_decide (0 < Base.size (base c))) eqn:Hfull.
    + apply andb_true_iff in Hfull as [H1%bool_decide_eq_true H2%bool_decide_eq_true].
      destruct (simple_evict_one c) as [[-> Hall]|(k0 & it0 & -> & Hk0 & Hev)].
      * exists None. set_cases c; fin k.
      * exists (Some k0). rewrite Hk0.
        set_cases c; fin k.
    + exists None.
      assert (¬ (0 < Base.size (base c) ≤ Z.of_nat (size (items c)))) as Hnf.
      { apply andb_false_iff in Hfull
          as [H1%bool_decide_eq_false|H1%bool_decide_eq_false]; lia. }
      set_cases c; fin k.
Qed.

(** SIMPLE: [Set] writes the entry of its key and fires the added
    callback; for a new key on a cache at capacity ([0 < size ≤ len]) it
    first removes one entry among those that have no expiration or have
    expired, firing the evicted callback, and none when there is no such
    entry.  An entry whose expiration is not yet passed is never evicted,
    and a cache built with size 0 or less never evicts. *)
Theorem simple_set_evicts_only_evictable c k v :
  ∃ victim c',
    Set_ k v c = Ok tt c' ∧ setOutcome c k v victim c'
    ∧ (∀ k' it', k' ≠ k → items c !! k' = Some it' →
         evictable (Base.clock (base c)) it' = false →
         items c' !! k' = Some it')
    ∧ (Base.size (base c) ≤ 0 → victim = None).
Proof.
  destruct (simple_set_outcome c k v) as (victim & c' & Hset & Hout).
  exists victim, c'. split_and!; try done.
  - intros k' it' Hne Hk' Hev. destruct Hout as (-> & _ & Hvic).
    rewrite lookup_insert_ne by done.
    destruct victim as [k0|]; [|done].
    destruct Hvic as (_ & _ & it0 & Hk0 & Hev0).
    rewrite lookup_delete_ne; [done|]. intros ->. congruence.
  - intros Hsz. destruct victim as [k0|]; [|done].
    destruct Hout as (_ & _ & _ & ? & _). lia.
Qed.

(** The entries of a SIMPLE cache as its user sees them. *)
Definition view c : gmap K (V * option Z) :=
  (λ it, (value it, expiration it)) <$> items c.

Lemma simple_store :
  Store (C:=SimpleCache K V E) (λ _, True) (λ _, True) view (λ _ _, True).
Proof.
  apply Store_same.
  - done.
  - done.
  - done.
  - intros k onLoad. apply SimpleFrame.simple_get_settings.
  - intros k v. apply SimpleFrame.simple_set_settings.
  - intros k t. apply SimpleFrame.simple_setItemExpiration_settings.
  - intros k onLoad c _. unfold view. rewrite lookup_fmap.
    simpl. unfold get, getValue, incrHit, incrMiss. munfold.
    destruct (items c !! k) as [it|] eqn:Hk; simpl; [|by destruct onLoad; eauto 10].
    unfold IsExpired. destruct (isExpired _ _ _); simpl.
    + rewrite (remove_stored c k it Hk). unfold removed.
      destruct onLoad; simpl; do 2 eexists; (split; [reflexivity|]);
        simpl; by rewrite fmap_delete.
    + destruct onLoad; simpl; eauto 10.
  - intros k v c _ _. destruct (simple_set_outcome c k v) as (victim & c' & Hset & Hi & _).
    exists c'. split_and!; try done. unfold view. rewrite Hi, !lookup_fmap.
    rewrite lookup_insert_eq. simpl. unfold written.
    by destruct (items c !! k).
  - intros k t c _. eexists. split; [reflexivity|]. split; [done|].
    unfold view. simpl. apply map_eq. intros j.
    rewrite lookup_fmap. destruct (decide (j = k)) as [->|].
    + rewrite !lookup_alter_eq, lookup_fmap. by destruct (items c !! k).
    + rewrite !lookup_alter_ne, lookup_fmap by done. done.
Qed.

(** What [Remove] does, in terms of the entries. *)
Lemma simple_Remove c k :
  match view c !! k with
  | Some (v, _) =>
      ∃ c', Remove k c = Ok true c' ∧ view c' = delete k (view c)
        ∧ Base.events (base c')
          = Base.events (base c)
            ++ (if Base.evictedFunc (base c) then [Evicted k v] else [])
        ∧ Remove k c' = Ok false c'
  | None => Remove k c = Ok false c
  end.
Proof.
  unfold view. rewrite lookup_fmap. unfold Remove.
  destruct (items c !! k) as [it|] eqn:Hk; simpl.
  - rewrite (remove_stored c k it Hk). eexists. split; [done|]. split_and!.
    + unfold removed. simpl. by rewrite fmap_delete.
    + unfold removed, Base.callEvicted. simpl.
      destruct (Base.evictedFunc (base c)); simpl; by rewrite ?app_nil_r.
    + apply remove_absent. unfold removed. simpl. apply lookup_delete_eq.
  - by apply remove_absent.
Qed.
End facts.
End SimpleFacts.

(** ** LRU: the recency list and the entries *)

Module LruFacts.
Import Lru StoreFacts.
Section facts.
Context {K V E : Type} `{HeqK : EqDecision K, HcntK : !Countable K}.
Implicit Types (c : LRUCache K V E) (k : K) (v : V) (it : lruItem K V).

(** The list holds each stored key once, an item is filed under its own
    key, and the list is never longer than the capacity (than 1 for a
    capacity of 0 or less). *)
Definition lru_inv c : Prop :=
  NoDup (evictList c)
  ∧ dom (items c) = list_to_set (evictList c)
  ∧ (∀ k it, items c !! k = Some it → key it = k)
  ∧ Z.of_nat (length (evictList c)) ≤ Z.max 1 (Base.size (base c)).

Definition view c : gmap K (V * option Z) :=
  (λ it, (value it, expiration it)) <$> items c.

Lemma lru_inv_init (b : Base.baseCache K V E) : lru_inv (init b).
Proof.
  unfold lru_inv, init. simpl. split_and!.
  - constructor.
  - by rewrite dom_empty_L.
  - intros k it. by rewrite lookup_empty.
  - lia.
Qed.

Lemma filter_ne_length (xs : list K) k :
  NoDup xs → k ∈ xs →
  length xs = S (length (filter (λ x, x ≠ k) xs)).
Proof.
  induction 1 as [|x xs Hx Hnd IH]; [by intros ?%elem_of_nil|].
  intros [->|Hin]%elem_of_cons.
  - rewrite filter_cons_False by naive_solver. simpl. f_equal.
    f_equal. symmetry. clear IH Hnd. induction xs as [|y ys IH]; [done|].
    rewrite filter_cons_True.
    + f_equal. apply IH. set_solver.
    + set_solver.
  - rewrite filter_cons_True by (intros ->; done). simpl. f_equal. by apply IH.
Qed.

Lemma filter_ne_notin (xs : list K) k : k ∉ xs → filter (λ x, x ≠ k) xs = xs.
Proof.
  induction xs as [|y ys IH]; [done|]. intros Hk.
  rewrite filter_cons_True by set_solver. f_equal. apply IH. set_solver.
Qed.

Lemma filter_ne_last (xs : list K) t :
  NoDup (xs ++ [t]) → filter (λ x, x ≠ t) (xs ++ [t]) = xs.
Proof.
  intros Hnd. apply NoDup_app in Hnd as (_ & Hd & _).
  rewrite filter_app, filter_cons_False, filter_nil, app_nil_r by naive_solver.
  apply filter_ne_notin. intros Hin. apply (Hd t Hin). left.
Qed.

(** The cache after the element of [k], holding [it], is removed. *)
Definition removed c k it : LRUCache K V E :=
  setBase (Base.callEvicted k (value it) (base c))
    (setItems (delete k (items c))
       (setEvictList (filter (λ x, x ≠ k) (evictList c)) c)).

Lemma removeElement_stored c k it :
  lru_inv c → items c !! k = Some it →
  removeElement k c = Ok tt (removed c k it) ∧ lru_inv (removed c k it)
  ∧ Z.of_nat (length (evictList (removed c k it)))
    = Z.of_nat (length (evictList c)) - 1.
Proof.
  intros (Hnd & Hdom & Hkey & Hlen) Hk.
  assert (k ∈ evictList c) as Hin.
  { apply (elem_of_list_to_set (C:=gset K)). rewrite <- Hdom. by apply elem_of_dom. }
  pose proof (filter_ne_length _ _ Hnd Hin) as Hl.
  split_and!.
  - unfold removeElement, removed. munfold. rewrite Hk. simpl.
    by rewrite (Hkey k it Hk).
  - unfold removed, lru_inv. simpl. split_and!.
    + by apply NoDup_filter.
    + rewrite dom_delete_L, Hdom. apply set_eq. intros x.
      rewrite elem_of_difference, !elem_of_list_to_set, list_elem_of_filter.
      set_solver.
    + intros k' it'. rewrite lookup_delete_Some. intros [_ ?]. eauto.
    + unfold Base.callEvicted. destruct (Base.evictedFunc _); simpl; lia.
  - unfold removed. simpl. lia.
Qed.

(** [evict(1)]: the back of the list leaves, if there is one. *)
Lemma lru_evict_one c :
  lru_inv c →
  match last (evictList c) with
  | Some t =>
      ∃ it, items c !! t = Some it ∧ evict 1 c = Ok tt (removed c t it)
            ∧ evictList (removed c t it) = removelast (evictList c)
  | None => evict 1 c = Ok tt c
  end.
Proof.
  intros HI. unfold evict. simpl. munfold.
  destruct (last (evictList c)) as [t|] eqn:Hlast; [|done].
  destruct HI as (Hnd & Hdom & Hkey & Hlen).
  assert (t ∈ evictList c) as Hin.
  { apply last_Some in Hlast as [xs ->]. set_solver. }
  assert (is_Some (items c !! t)) as [it Hit].
  { apply elem_of_dom. rewrite Hdom. by apply elem_of_list_to_set. }
  exists it. split; [done|].
  destruct (removeElement_stored c t it) as (-> & _ & _); [done..|].
  split; [done|]. unfold removed. simpl.
  apply last_Some in Hlast as [xs Hxs]. rewrite Hxs in *.
  rewrite filter_ne_last by done. by rewrite removelast_last.
Qed.

Definition written c k v : lruItem K V :=
  {| key := k; value := v;
     expiration := expiryAfterSet (base c) (items c !! k ≫= expiration) |}.

(** Whether [set] of a new key evicts: the list is at capacity. *)
Definition atCapacity c : bool :=
  bool_decide (Base.size (base c) ≤ Z.of_nat (length (evictList c))).

(** The key that [set] of a new key evicts: the back of the list when the
    cache is at capacity. *)
Definition victim c : option K :=
  if atCapacity c then last (evictList c) else None.

(** What [set] does to the list, the entries and the callbacks. *)
Definition setOutcome c k v (c' : LRUCache K V E) : Prop :=
  match items c !! k with
  | Some _ =>
      evictList c' = k :: filter (λ x, x ≠ k) (evictList c)
      ∧ items c' = <[k := written c k v]> (items c)
      ∧ Base.events (base c')
        = Base.events (base c)
          ++ (if Base.addedFunc (base c) then [Added k v] else [])
  | None =>
      evictList c'
      = k :: (if atCapacity c then removelast (evictList c) else evictList c)
      ∧ items c'
        = <[k := written c k v]>
            (match victim c with Some t => delete t (items c) | None => items c end)
      ∧ Base.events (base c')
        = Base.events (base c)
          ++ (match victim c ≫= (λ t, items c !! t) with
              | Some it =>
                  if Base.evictedFunc (base c) then [Evicted (key it) (value it)] else []
              | None => []
              end)
          ++ (if Base.addedFunc (base c) then [Added k v] else [])
  end.

Local Ltac items_eq k :=
  let j := fresh "j" in
  apply map_eq; intros j; destruct (decide (j = k)) as [->|];
  [rewrite ?lookup_alter_eq, ?lookup_insert_eq
  |rewrite ?lookup_alter_ne, ?lookup_insert_ne by done]; done.

Lemma lru_inv_frame c c' :
  evictList c' = evictList c → dom (items c') = dom (items c) →
  (∀ k it, items c' !! k = Some it → key it = k) →
  Base.size (base c') = Base.size (base c) →
  lru_inv c → lru_inv c'.
Proof.
  intros Hl Hd Hk Hs (Hnd & Hdom & Hkey & Hlen).
  unfold lru_inv. rewrite Hl, Hd, Hs. done.
Qed.

Lemma lru_set_existing c k v it :
  items c !! k = Some it → key it = k →
  set k v c
  = Ok tt {| base := Base.callAdded k v (base c);
             items := <[k := written c k v]> (items c);
             evictList := listMoveToFront k (evictList c) |}.
Proof.
  intros Hk Hkey. unfold set, written, expiryAfterSet. munfold. rewrite Hk. simpl.
  destruct (Base.expiration (base c)); simpl; f_equal;
    unfold setItems, setBase, setEvictList; simpl; f_equal; try done.
  - apply map_eq; intros j; destruct (decide (j = k)) as [->|].
    + rewrite lookup_alter_eq, !lookup_insert_eq. destruct it; simpl in *. by subst.
    + by rewrite lookup_alter_ne, !lookup_insert_ne.
  - f_equal. destruct it; simpl in *. by subst.
Qed.

Lemma lru_set_new c k v c1 :
  items c !! k = None →
  when (atCapacity c) (evict 1) c = Ok tt c1 →
  Base.clock (base c1) = Base.clock (base c) →
  set k v c
  = Ok tt {| base := Base.callAdded k v (base c1);
             items := <[k := written c k v]> (items c1);
             evictList := k :: evictList c1 |}.
Proof.
  intros Hk Hev Hclk. unfold set, written, expiryAfterSet. unfold atCapacity in Hev.
  unfold mbind, M_bind at 1. unfold getS at 1. rewrite Hk.
  unfold mbind, M_bind at 1. unfold mbind, M_bind at 1.
  unfold mbind, M_bind at 1. unfold mbind, M_bind at 1. rewrite Hev.
  munfold. simpl.
  destruct (Base.expiration (base c)); simpl; f_equal;
    unfold setItems, setBase, setEvictList; simpl; f_equal; try done.
  rewrite Hclk. items_eq k.
Qed.

Lemma lru_inv_moved c k (m : gmap K (lruItem K V)) (b : Base.baseCache K V E) :
  lru_inv c → k ∈ evictList c →
  dom m = dom (items c) →
  (∀ k' it, m !! k' = Some it → key it = k') →
  Base.size b = Base.size (base c) →
  lru_inv {| base := b; items := m;
             evictList := k :: filter (λ x, x ≠ k) (evictList c) |}.
Proof.
  intros (Hnd & Hdom & Hkey & Hlen) Hin Hd Hk' Hs. unfold lru_inv. simpl. split_and!.
  - constructor; [rewrite list_elem_of_filter; naive_solver|by apply NoDup_filter].
  - rewrite Hd, Hdom. apply set_eq. intros x.
    rewrite elem_of_union, elem_of_singleton, !elem_of_list_to_set,
      list_elem_of_filter.
    destruct (decide (x = k)); naive_solver.
  - done.
  - rewrite Hs. pose proof (filter_ne_length _ _ Hnd Hin). lia.
Qed.

Lemma lru_inv_pushed c k it (b : Base.baseCache K V E) :
  lru_inv c → items c !! k = None → key it = k →
  Z.of_nat (length (evictList c)) + 1 ≤ Z.max 1 (Base.size (base c)) →
  Base.size b = Base.size (base c) →
  lru_inv {| base := b; items := <[k := it]> (items c);
             evictList := k :: evictList c |}.
Proof.
  intros (Hnd & Hdom & Hkey & Hlen) Hk Hit Hl Hs. unfold lru_inv. simpl. split_and!.
  - constructor; [|done]. intros Hin.
    apply (elem_of_list_to_set (C:=gset K)) in Hin. rewrite <- Hdom in Hin.
    apply elem_of_dom in Hin as [? ?]. congruence.
  - by rewrite dom_insert_L, Hdom.
  - intros k' it'. rewrite lookup_insert_Some. intros [[<- <-]|[_ ?]]; eauto.
  - rewrite Hs. lia.
Qed.

Lemma lru_set_outcome c k v :
  lru_inv c → ∃ c', set k v c = Ok tt c' ∧ lru_inv c' ∧ setOutcome c k v c'.
Proof.
  intros HI. pose proof HI as (Hnd & Hdom & Hkey & Hlen).
  unfold setOutcome.
  destruct (items c !! k) as [it|] eqn:Hk.
  - assert (k ∈ evictList c) as Hin.
    { apply (elem_of_list_to_set (C:=gset K)). rewrite <- Hdom. by apply elem_of_dom. }
    rewrite (lru_set_existing c k v it Hk (Hkey k it Hk)).
    unfold listMoveToFront. rewrite (bool_decide_eq_true_2 _ Hin).
    eexists. split; [done|]. simpl. split_and!; try done.
    + apply lru_inv_moved; try done.
      * rewrite dom_insert_L. apply elem_of_dom_2 in Hk. set_solver.
      * intros k' it'. rewrite lookup_insert_Some. intros [[<- <-]|[_ ?]]; eauto.
      * apply callAdded_fields.
    + apply callAdded_fields.
  - unfold victim. destruct (atCapacity c) eqn:Hfull.
    + pose proof (lru_evict_one c HI) as Hev.
      destruct (last (evictList c)) as [t|] eqn:Hlast.
      * destruct Hev as (it & Hit & Hev & Hrl).
        destruct (removeElement_stored c t it HI Hit) as (_ & HI1 & Hl1).
        assert (t ≠ k) as Hne by (intros ->; congruence).
        rewrite (lru_set_new c k v (removed c t it)); [| done | by rewrite Hfull |].
        2:{ unfold removed. simpl. apply callEvicted_fields. }
        eexists. split; [done|]. simpl. rewrite Hit. simpl. split_and!; try done.
        -- apply (lru_inv_pushed (removed c t it)); try done.
           ++ unfold removed. simpl. by rewrite lookup_delete_ne.
           ++ rewrite Hl1. unfold removed. simpl.
              destruct (callEvicted_fields t (value it) (base c)) as (-> & _). lia.
           ++ apply callAdded_fields.
        -- by rewrite <- Hrl.
        -- destruct (callAdded_fields k v (Base.callEvicted t (value it) (base c)))
             as (_ & ->).
           destruct (callEvicted_fields t (value it) (base c)) as (_ & _ & -> & ->).
           rewrite (Hkey t it Hit). by rewrite <- app_assoc.
      * rewrite (lru_set_new c k v c); [| done | by rewrite Hfull | done].
        apply last_None in Hlast.
        eexists. split; [done|]. split.
        -- apply (lru_inv_pushed c); try done.
           ++ rewrite Hlast. simpl. lia.
           ++ apply callAdded_fields.
        -- simpl. rewrite Hlast. simpl. split_and!; try done.
           apply callAdded_fields.
    + rewrite (lru_set_new c k v c); [| done | by rewrite Hfull | done].
      eexists. split; [done|]. simpl. split_and!; try done.
      * apply (lru_inv_pushed c); try done.
        -- unfold atCapacity in Hfull. apply bool_decide_eq_false in Hfull. lia.
        -- apply callAdded_fields.
      * apply callAdded_fields.
Qed.

(** What [get] does to the list and the entries. *)
Definition getOutcome c k (r : option V) (c' : LRUCache K V E) : Prop :=
  match items c !! k with
  | Some it =>
      if IsExpired it (Base.clock (base c)) None
      then r = None ∧ items c' = delete k (items c)
           ∧ evictList c' = filter (λ x, x ≠ k) (evictList c)
           ∧ Base.events (base c')
             = Base.events (base c)
               ++ (if Base.evictedFunc (base c) then [Evicted k (value it)] else [])
      else r = Some (value it) ∧ items c' = items c
           ∧ evictList c' = k :: filter (λ x, x ≠ k) (evictList c)
           ∧ Base.events (base c') = Base.events (base c)
  | None => r = None ∧ items c' = items c ∧ evictList c' = evictList c
            ∧ Base.events (base c') = Base.events (base c)
  end.

Lemma lru_get_outcome c k onLoad :
  lru_inv c →
  ∃ r c', get k onLoad c = Ok r c' ∧ lru_inv c' ∧ getOutcome c k r c'.
Proof.
  intros HI. pose proof HI as (Hnd & Hdom & Hkey & Hlen).
  unfold get, getValue, getOutcome, incrHit, incrMiss.
  unfold mbind, M_bind at 1. unfold getS at 1.
  destruct (items c !! k) as [it|] eqn:Hk.
  - destruct (IsExpired it _ _) eqn:Hex; simpl.
    + destruct (removeElement_stored c k it HI Hk) as (Hrm & HI1 & _).
      munfold. rewrite Hrm.
      destruct (callEvicted_fields k (value it) (base c)) as (Hs & _ & _ & Hev).
      destruct onLoad; simpl; do 2 eexists;
        (split; [reflexivity|]); (split; [|by rewrite ?Hev]).
      * done.
      * eapply lru_inv_frame; [..|exact HI1]; try done.
        intros ??. simpl. destruct HI1 as (_ & _ & HI1 & _). apply HI1.
    + assert (k ∈ evictList c) as Hin.
      { apply (elem_of_list_to_set (C:=gset K)). rewrite <- Hdom.
        by apply elem_of_dom. }
      unfold listMoveToFront. rewrite (bool_decide_eq_true_2 _ Hin).
      destruct onLoad; munfold; simpl; do 2 eexists;
        (split; [reflexivity|]); (split; [|done]);
        by apply lru_inv_moved.
  - destruct onLoad; munfold; simpl; do 2 eexists;
      (split; [reflexivity|]); (split; [|done]); [done|].
    eapply lru_inv_frame; [..|exact HI]; done.
Qed.

Lemma lru_store :
  Store (C:=LRUCache K V E) lru_inv lru_inv view (λ _ _, True).
Proof.
  apply Store_same.
  - intros b c HI Hs. eapply lru_inv_frame; [..|exact HI]; try done.
    destruct HI as (_ & _ & HI & _). apply HI.
  - done.
  - done.
  - intros k onLoad. apply LruFrame.lru_get_settings.
  - intros k v. apply LruFrame.lru_set_settings.
  - intros k t. apply LruFrame.lru_setItemExpiration_settings.
  - intros k onLoad c HI.
    destruct (lru_get_outcome c k onLoad HI) as (r & c' & Hg & HI' & Ho).
    exists r, c'. split_and!; try done. unfold getOutcome in Ho.
    unfold view. rewrite lookup_fmap. simpl.
    destruct (items c !! k) as [it|]; simpl.
    + unfold IsExpired in Ho. destruct (isExpired _ _ _).
      * destruct Ho as (-> & -> & _). by rewrite fmap_delete.
      * by destruct Ho as (-> & -> & _).
    + by destruct Ho as (-> & -> & _).
  - intros k v c HI _.
    destruct (lru_set_outcome c k v HI) as (c' & Hset & HI' & Ho).
    exists c'. split_and!; try done. unfold setOutcome in Ho.
    unfold view. rewrite !lookup_fmap.
    destruct (items c !! k) as [it|] eqn:Hk; destruct Ho as (_ & -> & _);
      rewrite lookup_insert_eq; simpl; unfold written; by rewrite Hk.
  - intros k t c HI. eexists. split; [reflexivity|]. split.
    + eapply lru_inv_frame; [..|exact HI]; try done.
      * simpl. by rewrite dom_alter_L.
      * simpl. intros k' it'. rewrite lookup_alter_Some.
        destruct HI as (_ & _ & HI & _).
        intros [(-> & it0 & Hit0 & ->)|[_ ?]]; simpl; eauto.
    + unfold view. simpl. apply map_eq. intros j.
      rewrite lookup_fmap. destruct (decide (j = k)) as [->|].
      * rewrite !lookup_alter_eq, lookup_fmap. by destruct (items c !! k).
      * rewrite !lookup_alter_ne, lookup_fmap by done. done.
Qed.

(** LRU: [Set] of a new key on a cache at capacity evicts the key at the
    back of the recency list, and no other: every other entry is kept;
    [Set] of a stored key evicts nothing and moves the key to the front.
    The invariant is kept. *)
Theorem lru_set_evicts_least_recent c k v :
  lru_inv c →
  ∃ c', Set_ k v c = Ok tt c' ∧ lru_inv c' ∧ setOutcome c k v c'
    ∧ ∀ k' it', k' ≠ k → items c !! k' = Some it' →
        last (evictList c) ≠ Some k' → items c' !! k' = Some it'.
Proof.
  intros HI. destruct (lru_set_outcome c k v HI) as (c' & Hset & HI' & Ho).
  exists c'. split_and!; try done.
  intros k' it' Hne Hk' Hlast. unfold setOutcome in Ho.
  destruct (items c !! k) as [it|] eqn:Hk.
  - destruct Ho as (_ & -> & _). by rewrite lookup_insert_ne.
  - destruct Ho as (_ & -> & _). rewrite lookup_insert_ne by done.
    unfold victim. destruct (atCapacity c); [|done].
    destruct (last (evictList c)) as [t|] eqn:Ht; [|done].
    rewrite lookup_delete_ne; [done|]. by intros ->.
Qed.

(** LRU: a read that hits moves its key to the front of the recency list
    and changes nothing else in the list or the entries; so with a
    capacity of 2 or more the [Set] of a new key that follows does not evict
    the key just read. *)
Theorem lru_get_protects_entry c k k' v v' :
  lru_inv c → hits view c k v → 2 ≤ Base.size (base c) →
  items c !! k' = None →
  ∃ c1 c2,
    Common.Get k c = Ok (Common.GetReturn (Some v) None) c1
    ∧ evictList c1 = k :: filter (λ x, x ≠ k) (evictList c)
    ∧ items c1 = items c
    ∧ Set_ k' v' c1 = Ok tt c2
    ∧ items c2 !! k = items c !! k
    ∧ ∃ rest, evictList c2 = k' :: k :: rest.
Proof.
  intros HI (e & Hv & He) Hsz Hk'.
  unfold view in Hv. rewrite lookup_fmap in Hv.
  destruct (items c !! k) as [it|] eqn:Hk; [|done]. simpl in Hv.
  injection Hv as <- <-.
  destruct (lru_get_outcome c k false HI) as (r & c1 & Hg & HI1 & Ho).
  unfold getOutcome in Ho. rewrite Hk in Ho. unfold IsExpired in Ho.
  simpl in He. rewrite He in Ho. destruct Ho as (-> & Hi1 & Hl1 & _).
  assert (Base.size (base c1) = Base.size (base c)) as Hsz1.
  { pose proof (keeps_Ok settingsOf _ _ _ _ (LruFrame.lru_get_settings k false) Hg) as Hs.
    by destruct (settings_fields _ _ Hs) as (_ & ? & _). }
  destruct (lru_set_outcome c1 k' v' HI1) as (c2 & Hset & HI2 & Ho2).
  unfold setOutcome in Ho2. rewrite Hi1, Hk' in Ho2.
  destruct Ho2 as (Hl2 & Hi2 & _).
  exists c1, c2. split_and!; try done.
  - unfold Common.Get. change (c_get k false c) with (get k false c).
    by rewrite (bind_Ok _ _ _ _ _ Hg).
  - assert (k ≠ k') as Hne by (intros ->; congruence).
    rewrite Hi2, lookup_insert_ne by done.
    unfold victim, atCapacity. rewrite Hl1, Hsz1.
    case_bool_decide as Hfull; [|by rewrite Hk].
    destruct (filter (λ x, x ≠ k) (evictList c)) as [|y ys] eqn:Hf.
    { simpl in Hfull. lia. }
    destruct (last (k :: y :: ys)) as [t|] eqn:Hlast; [|by rewrite Hk].
    rewrite lookup_delete_ne; [by rewrite Hk|]. intros ->.
    destruct HI1 as (Hnd1 & _). rewrite Hl1 in Hnd1.
    apply NoDup_cons in Hnd1 as [Hnin _].
    apply Hnin. rewrite last_cons_cons in Hlast.
    apply last_Some in Hlast as [xs Hxs]. rewrite Hxs. set_solver.
  - rewrite Hl2, Hl1. unfold atCapacity. rewrite Hl1, Hsz1.
    case_bool_decide as Hfull; [|eauto].
    destruct (filter (λ x, x ≠ k) (evictList c)) as [|y ys] eqn:Hf.
    { simpl in Hfull. lia. }
    simpl. eauto.
Qed.

(** What [Remove] does, in terms of the entries. *)
Lemma lru_Remove c k :
  lru_inv c →
  match view c !! k with
  | Some (v, _) =>
      ∃ c', Remove k c = Ok true c' ∧ lru_inv c' ∧ view c' = delete k (view c)
        ∧ Base.events (base c')
          = Base.events (base c)
            ++ (if Base.evictedFunc (base c) then [Evicted k v] else [])
        ∧ Remove k c' = Ok false c'
  | None => Remove k c = Ok false c
  end.
Proof.
  intros HI. unfold view. rewrite lookup_fmap. unfold Remove, remove. munfold.
  destruct (items c !! k) as [it|] eqn:Hk; simpl; [|done].
  destruct (removeElement_stored c k it HI Hk) as (-> & HI1 & _).
  eexists. split; [done|]. split_and!; try done.
  - unfold removed. simpl. by rewrite fmap_delete.
  - unfold removed. simpl. apply callEvicted_fields.
  - unfold removed. simpl. by rewrite lookup_delete_eq.
Qed.
End facts.
End LruFacts.

(** ** ARC: the entries *)

Module ArcStore.
Import Arc ArcFacts StoreFacts.
Section facts.
Context {K V E : Type} `{HeqK : EqDecision K, HcntK : !Countable K}.
Implicit Types (c : ARCCache K V E) (k : K) (v : V).

Definition view c : gmap K (V * option Z) :=
  (λ it, (value it, expiration it)) <$> items c.

(** The invariant of C1 without (iii), on a capacity that fits an [int]
    twice. *)
Definition arc_store_inv c : Prop :=
  arc_inv c ∧ 0 < Base.size (base c) < 2 ^ 62.

(** [older k m]: an entry that [m] leaves for [k] is the one that [k] had
    before [m]; [m] writes no entry of its own. *)
Definition older {A} k (m : M (ARCCache K V E) A) : Prop :=
  ∀ s it, items (stateOf (m s)) !! k = Some it → items s !! k = Some it.

Lemma older_ret {A} k (a : A) : older k (mret a).
Proof. by intros s it. Qed.

Lemma older_bind {A B} k (m : M (ARCCache K V E) A) (f : A → M (ARCCache K V E) B) :
  older k m → (∀ a, older k (f a)) → older k (m ≫= f).
Proof.
  intros Hm Hf s it. unfold mbind, M_bind. specialize (Hm s).
  destruct (m s) as [a s'|s']; simpl in *; [|apply Hm].
  intros H. apply Hm. by apply (Hf a).
Qed.

Lemma older_getS k : older k getS.
Proof. by intros s it. Qed.

Lemma older_panic {A} k : older k (panic (A:=A)).
Proof. by intros s it. Qed.

Lemma older_when k b (m : M (ARCCache K V E) unit) : older k m → older k (when b m).
Proof. intros Hm. destruct b; [done|apply older_ret]. Qed.

Lemma older_modify k (g : ARCCache K V E → ARCCache K V E) :
  (∀ s it, items (g s) !! k = Some it → items s !! k = Some it) →
  older k (modify g).
Proof. intros Hg s it. apply Hg. Qed.

Lemma older_removeTail k n : older k (removeTail (K:=K) (V:=V) (E:=E) n).
Proof.
  intros c it. unfold removeTail. destruct (RemoveTail _) as [[? ?]|]; [|done].
  by destruct n.
Qed.

Local Ltac older_step :=
  lazymatch goal with
  | |- older _ (mret _) => apply older_ret
  | |- older _ (_ ≫= _) => apply older_bind; [|intros ?]
  | |- older _ (M_bind _ _ _ _) => apply older_bind; [|intros ?]
  | |- older _ getS => apply older_getS
  | |- older _ (removeTail _) => apply older_removeTail
  | |- older _ (modify _) =>
      apply older_modify; intros ? ?; simpl;
      try (rewrite lookup_delete_Some; intros [_ ?]); try done
  | |- older _ panic => apply older_panic
  | |- older _ (when _ _) => apply older_when
  | |- older _ (match ?x with _ => _ end) => destruct x
  end.

Lemma older_pushFront k n k' : older k (pushFront (V:=V) (E:=E) n k').
Proof. unfold pushFront. apply older_modify. by destruct n. Qed.

Lemma older_removeFrom k n k' e : older k (removeFrom (V:=V) (E:=E) n k' e).
Proof. unfold removeFrom. apply older_modify. by destruct n. Qed.

Lemma older_dropItem k k' : older k (dropItem (V:=V) (E:=E) k').
Proof.
  intros s it. unfold dropItem. munfold. destruct (items s !! k'); simpl; [|done].
  rewrite lookup_delete_Some. by intros [_ ?].
Qed.

Lemma older_replace k k' : older k (replace (V:=V) (E:=E) k').
Proof.
  unfold replace.
  repeat first [apply older_pushFront | apply older_dropItem | older_step].
Qed.

(** The part of [set] that follows the write of the item. *)
Lemma set_unfold c k v :
  ∃ rest, older k rest
    ∧ set k v c = rest (upserted c k v).
Proof.
  unfold set. eexists. split; [|unfold mbind, M_bind at 1; unfold getS at 1;
    unfold mbind, M_bind at 1; unfold modify at 1; reflexivity].
  unfold setPart, idiv.
  repeat first [apply older_pushFront | apply older_dropItem | apply older_replace
               | apply older_removeFrom | older_step].
Qed.

Lemma set_entry c k v c' :
  set k v c = Ok tt c' → ∀ it, items c' !! k = Some it → it = stored c k v.
Proof.
  intros Hset it Hit. destruct (set_unfold c k v) as (rest & Hold & Heq).
  rewrite Heq in Hset. specialize (Hold (upserted c k v) it).
  rewrite Hset in Hold. simpl in Hold. specialize (Hold Hit).
  rewrite lookup_insert_eq in Hold. congruence.
Qed.

Lemma resident_stored X c k :
  sinv X c → k ∈ keys (t1 c) ∪ keys (t2 c) → is_Some (items c !! k).
Proof.
  intros [_ _ Hdom _] Hk. apply elem_of_dom. rewrite Hdom. set_solver.
Qed.

Lemma absent_not_resident c k :
  sinv ∅ c → items c !! k = None → (k ∉ keys (t1 c)) ∧ (k ∉ keys (t2 c)).
Proof.
  intros [_ _ Hdom _] Hk. apply not_elem_of_dom in Hk. rewrite Hdom in Hk.
  set_solver.
Qed.

(** What [getValue] returns and does to the entries. *)
Lemma getValue_view c k onLoad r c' :
  sinv ∅ c → getValue k onLoad c = Ok r c' →
  match view c !! k with
  | Some (v, e) =>
      if isExpired e (Base.clock (base c)) None
      then r = None ∧ view c' = delete k (view c)
      else r = Some v ∧ view c' = view c
  | None => r = None ∧ view c' = view c
  end.
Proof.
  intros Hinv. pose proof Hinv as [_ (D12 & _) Hdom _].
  unfold view. rewrite lookup_fmap.
  unfold getValue, Get, incrHit, incrMiss, removeFrom, pushFront, moveToFront,
    IsExpired.
  munfold. simpl.
  destruct (decide (k ∈ keys (t1 c))) as [H1|H1].
  - rewrite (bool_decide_eq_true_2 _ H1).
    destruct (resident_stored _ c k Hinv) as [it Hit]; [set_solver|].
    rewrite Hit. simpl. destruct (isExpired _ _ _); simpl.
    + assert (k ∉ keys (t2 c)) as H2 by set_solver.
      rewrite (bool_decide_eq_false_2 _ H2).
      destruct onLoad; simpl; intros [= <- <-]; simpl; by rewrite fmap_delete.
    + destruct onLoad; simpl; intros [= <- <-]; done.
  - rewrite (bool_decide_eq_false_2 _ H1).
    destruct (decide (k ∈ keys (t2 c))) as [H2|H2].
    + rewrite (bool_decide_eq_true_2 _ H2).
      destruct (resident_stored _ c k Hinv) as [it Hit]; [set_solver|].
      rewrite Hit. simpl. destruct (isExpired _ _ _); simpl.
      * destruct onLoad; simpl; intros [= <- <-]; simpl; by rewrite fmap_delete.
      * destruct onLoad; simpl; intros [= <- <-]; done.
    + rewrite (bool_decide_eq_false_2 _ H2).
      assert (items c !! k = None) as ->.
      { apply not_elem_of_dom. rewrite Hdom. set_solver. }
      destruct onLoad; simpl; intros [= <- <-]; done.
Qed.

Lemma arc_store :
  Store (C:=ARCCache K V E) arc_store_inv arc_store_inv view
    (λ c k, view c !! k = None).
Proof.
  apply Store_same.
  - intros b c [HI Hsz] Hs. simpl in *. split; [|simpl; lia].
    apply arc_inv_sinv in HI as (HI & HR & HT). apply arc_inv_sinv.
    split_and!.
    + by eapply sinv_frame; [..|exact HI].
    + change (Resident c ≤ Base.size b). lia.
    + change (Total c ≤ 2 * Base.size b). lia.
  - done.
  - done.
  - intros k onLoad. apply ArcFrame.arc_get_settings.
  - intros k v. apply ArcFrame.arc_set_settings.
  - intros k t. apply ArcFrame.arc_setItemExpiration_settings.
  - intros k onLoad c [HI Hsz]. apply arc_inv_sinv in HI as (HI & HR & HT).
    destruct (getValue_spec c k onLoad HI)
      as (r & c' & Hg & HI' & HR' & HT' & _ & Hs' & _).
    exists r, c'. split_and!; [done| |by apply (getValue_view c k onLoad)].
    split; [|by rewrite Hs']. apply arc_inv_sinv. rewrite Hs'. split_and!; [done|lia..].
  - intros k v c [HI Hsz] Hk. apply arc_inv_sinv in HI as (HI & HR & HT).
    unfold view in Hk. rewrite lookup_fmap in Hk.
    destruct (items c !! k) as [it|] eqn:Hit; [done|].
    destruct (absent_not_resident c k HI Hit) as [H1 H2].
    destruct (set_spec c k v HI Hsz HR HT H1 H2)
      as (c' & Hset & HI' & HR' & HT' & _ & _ & Hin & Hs').
    exists c'. split_and!; [done| |].
    + split; [|by rewrite Hs']. apply arc_inv_sinv. by rewrite Hs'.
    + destruct (resident_stored _ c' k HI' Hin) as [it' Hit'].
      rewrite (set_entry c k v c' Hset it' Hit') in Hit'.
      unfold view. rewrite !lookup_fmap, Hit', Hit. simpl.
      unfold stored, expiryAfterSet. rewrite Hit.
      by destruct (Base.expiration (base c)).
  - intros k t c [HI Hsz]. eexists. split; [reflexivity|]. split.
    + split; [|done]. apply arc_inv_sinv in HI as (HI & HR & HT).
      apply arc_inv_sinv. split_and!; [|done..].
      eapply sinv_frame; [..|exact HI]; try done. simpl. by rewrite dom_alter_L.
    + unfold view. simpl. apply map_eq. intros j.
      rewrite lookup_fmap. destruct (decide (j = k)) as [->|].
      * rewrite !lookup_alter_eq, lookup_fmap. by destruct (items c !! k).
      * rewrite !lookup_alter_ne, lookup_fmap by done. done.
Qed.

(** What [Remove] does, in terms of the entries: a resident key moves to
    the ghost list of its side. *)
Lemma arc_Remove c k :
  arc_store_inv c →
  match view c !! k with
  | Some (v, _) =>
      ∃ c', Remove_ k c = Ok true c' ∧ arc_store_inv c'
        ∧ view c' = delete k (view c)
        ∧ Base.events (base c')
          = Base.events (base c)
            ++ (if Base.evictedFunc (base c) then [Evicted k v] else [])
        ∧ k ∈ keys (b1 c') ∪ keys (b2 c')
        ∧ Remove_ k c' = Ok false c'
  | None => Remove_ k c = Ok false c
  end.
Proof.
  intros [HI Hsz]. apply arc_inv_sinv in HI as (HI & HR & HT).
  pose proof HI as [(W1 & W2 & W3 & W4) (D12 & D1b1 & D1b2 & D2b1 & D2b2 & Db) Hdom _].
  assert (∀ c0 : ARCCache K V E, k ∉ keys (t1 c0) → k ∉ keys (t2 c0) →
            Remove_ k c0 = Ok false c0) as Habs.
  { intros c0 H1 H2. unfold Remove_, remove, Get. munfold.
    by rewrite (bool_decide_eq_false_2 _ H1), (bool_decide_eq_false_2 _ H2). }
  unfold view. rewrite lookup_fmap.
  destruct (items c !! k) as [it|] eqn:Hit; simpl.
  2:{ destruct (absent_not_resident c k HI Hit). by apply Habs. }
  destruct (remove_spec c k HI) as (r & c' & Hrm & HI' & HR' & HT' & _ & Hs').
  assert (k ∈ keys (t1 c) ∪ keys (t2 c)) as Hres.
  { rewrite <- (right_id_L ∅ (∪) (_ ∪ _)), <- Hdom. by apply elem_of_dom. }
  assert (r = true ∧ items c' = delete k (items c)
          ∧ Base.events (base c')
            = Base.events (base c)
              ++ (if Base.evictedFunc (base c) then [Evicted k (value it)] else [])
          ∧ k ∈ keys (b1 c') ∪ keys (b2 c')) as (-> & Hi' & Hev & Hgh).
  { revert Hrm. unfold remove, removeVia, Get, removeFrom, pushFront. munfold. simpl.
    destruct (decide (k ∈ keys (t1 c))) as [H1|H1].
    - rewrite (bool_decide_eq_true_2 _ H1), Hit. unfold Base.callEvicted.
      destruct (Base.evictedFunc (base c)) eqn:He; simpl; rewrite ?He;
        intros [= <- <-]; simpl; rewrite ?app_nil_r; split_and!; try done.
      all: unfold PushFront; case_bool_decide; simpl; set_solver.
    - rewrite (bool_decide_eq_false_2 _ H1).
      assert (k ∈ keys (t2 c)) as H2 by set_solver.
      rewrite (bool_decide_eq_true_2 _ H2), Hit. unfold Base.callEvicted.
      destruct (Base.evictedFunc (base c)) eqn:He; simpl; rewrite ?He;
        intros [= <- <-]; simpl; rewrite ?app_nil_r; split_and!; try done.
      all: unfold PushFront; case_bool_decide; simpl; set_solver. }
  exists c'. split_and!; try done.
  - split; [|by rewrite Hs']. apply arc_inv_sinv. rewrite Hs'. split_and!; [done|lia..].
  - by rewrite Hi', fmap_delete.
  - assert (items c' !! k = None) as Hk' by (rewrite Hi'; apply lookup_delete_eq).
    destruct (absent_not_resident c' k HI' Hk'). by apply Habs.
Qed.

(** *** The target size [p] *)

Local Ltac part_step :=
  lazymatch goal with
  | |- keeps _ (mret _) => apply keeps_ret
  | |- keeps _ (_ ≫= _) => apply keeps_bind; [|intros ?]
  | |- keeps _ getS => apply keeps_getS
  | |- keeps _ (modify _) => apply keeps_modify; intros ?; reflexivity
  | |- keeps _ panic => apply keeps_panic
  | |- keeps _ (when _ _) => apply keeps_when
  | |- keeps _ (match ?x with _ => _ end) => destruct x
  end.

Lemma part_pushFront n k : keeps part (pushFront (V:=V) (E:=E) n k).
Proof. unfold pushFront. apply keeps_modify. by destruct n. Qed.

Lemma part_removeFrom n k e : keeps part (removeFrom (V:=V) (E:=E) n k e).
Proof. unfold removeFrom. apply keeps_modify. by destruct n. Qed.

Lemma part_moveToFront n k : keeps part (moveToFront (V:=V) (E:=E) n k).
Proof. unfold moveToFront. apply keeps_modify. by destruct n. Qed.

Lemma part_removeTail n : keeps part (removeTail (K:=K) (V:=V) (E:=E) n).
Proof.
  intros c. unfold removeTail. destruct (RemoveTail _) as [[? ?]|]; [|done].
  by destruct n.
Qed.

Local Ltac part_auto :=
  repeat first [apply part_pushFront | apply part_removeFrom | apply part_moveToFront
               | apply part_removeTail | part_step].

Lemma part_dropItem k : keeps part (dropItem (V:=V) (E:=E) k).
Proof. unfold dropItem. part_auto. Qed.

Lemma part_replace k : keeps part (replace (V:=V) (E:=E) k).
Proof. unfold replace. repeat first [apply part_dropItem | part_auto]. Qed.

Lemma part_get k onLoad : keeps part (get (V:=V) (E:=E) k onLoad).
Proof. unfold get, getValue, Get, incrHit, incrMiss. part_auto. Qed.

Lemma part_remove k : keeps part (remove (V:=V) (E:=E) k).
Proof. unfold remove, removeVia, Get. part_auto. Qed.

Lemma part_setItemExpiration k t : keeps part (setItemExpiration (V:=V) (E:=E) k t).
Proof. unfold setItemExpiration. part_auto. Qed.

(** The target size after [set]: moved on a ghost hit, and only when the
    resident lists are full. *)
Definition partAfterSet c k : Z :=
  if Has (t1 c) k && Has (t2 c) k then part c else
  if Has (b1 c) k
  then if isCacheFull c
       then Z.min (Base.size (base c))
                  (part c + Z.max (Len (b2 c) ÷ Len (b1 c)) 1)
       else part c
  else if Has (b2 c) k
       then if isCacheFull c
            then Z.max 0 (part c - Z.max (Len (b1 c) ÷ Len (b2 c)) 1)
            else part c
       else part c.

Lemma keeps_tail {S A B X} (f : S → X) (m : M S A) (g : A → M S B) s :
  (∀ a, keeps f (g a)) → f (stateOf ((m ≫= g) s)) = f (stateOf (m s)).
Proof.
  intros Hg. unfold mbind, M_bind. destruct (m s) as [a s'|s']; [|done].
  apply Hg.
Qed.

Lemma part_setPart p c :
  part (stateOf (setPart p c)) = if isCacheFull c then p else part c.
Proof. unfold setPart. munfold. by destruct (isCacheFull c). Qed.

Lemma quot_bounds a b : 0 ≤ a → 0 < b → 0 ≤ a ÷ b ≤ a.
Proof.
  intros Ha Hb. rewrite Z.quot_div_nonneg by lia. split.
  - apply Z.div_pos; lia.
  - apply Z.div_le_upper_bound; nia.
Qed.

(** ARC: the target size [p] moves only in a [Set] that hits a ghost list
    while the resident lists are full: up by [max(1, |B2|/|B1|)], capped at
    the capacity, for a key of B1; down by [max(1, |B1|/|B2|)], floored at
    0, for a key of B2.  It stays within [[0, capacity]], and [get],
    [Remove] and the expiration write never change it. *)
Theorem arc_target_size_adapts c k v :
  wf (b1 c) → wf (b2 c) →
  0 ≤ part c ≤ Base.size (base c) → Base.size (base c) < 2 ^ 62 →
  Len (b1 c) < 2 ^ 62 → Len (b2 c) < 2 ^ 62 →
  part (stateOf (Set_ k v c)) = partAfterSet c k
  ∧ 0 ≤ partAfterSet c k ≤ Base.size (base c)
  ∧ (∀ onLoad, keeps part (get (V:=V) (E:=E) k onLoad))
  ∧ keeps part (Remove_ (V:=V) (E:=E) k)
  ∧ (∀ t, keeps part (setItemExpiration (V:=V) (E:=E) k t)).
Proof.
  intros W1 W2 Hp Hsz Hl1 Hl2.
  pose proof (Len_nonneg (b1 c)) as Hn1. pose proof (Len_nonneg (b2 c)) as Hn2.
  split; [|split; [|split_and!]].
  - unfold Set_, set, partAfterSet.
    unfold mbind, M_bind at 1. unfold getS at 1.
    unfold mbind, M_bind at 1. unfold modify at 1.
    set (c1 := setItems _ c).
    destruct (Has (t1 c) k && Has (t2 c) k) eqn:Hboth; [done|].
    unfold Get, Has. destruct (bool_decide (k ∈ keys (b1 c))) eqn:H1.
    + apply bool_decide_eq_true in H1.
      pose proof (wf_keys_pos _ _ W1 H1).
      pose proof (quot_bounds (Len (b2 c)) (Len (b1 c))).
      unfold idiv. rewrite bool_decide_eq_false_2 by lia.
      match goal with |- _ = ?rhs =>
        change (part (stateOf ((setPart
                  (Z.min (Base.size (base c))
                     (wrap_int (part c + Z.max (Len (b2 c) ÷ Len (b1 c)) 1)))
                  ≫= λ _, replace k;; removeFrom B1 k k;; pushFront T2 k) c1)) = rhs)
      end.
      rewrite keeps_tail.
      2:{ intros _. repeat first [apply part_replace | part_auto]. }
      rewrite part_setPart, wrap_int_small by lia. done.
    + destruct (bool_decide (k ∈ keys (b2 c))) eqn:H2.
      * apply bool_decide_eq_true in H2.
        pose proof (wf_keys_pos _ _ W2 H2).
        pose proof (quot_bounds (Len (b1 c)) (Len (b2 c))).
        unfold idiv. rewrite bool_decide_eq_false_2 by lia.
        match goal with |- _ = ?rhs =>
          change (part (stateOf ((setPart
                    (Z.max 0 (wrap_int (part c - Z.max (Len (b1 c) ÷ Len (b2 c)) 1)))
                    ≫= λ _, replace k;; removeFrom B2 k k;; pushFront T2 k) c1)) = rhs)
        end.
        rewrite keeps_tail.
        2:{ intros _. repeat first [apply part_replace | part_auto]. }
        rewrite part_setPart, wrap_int_small by lia. done.
      * match goal with |- part (stateOf (?m c1)) = _ =>
          assert (keeps part m) as Hk end.
        { repeat first [apply part_replace | apply part_dropItem
                       | apply part_pushFront | apply part_removeTail
                       | part_step | (apply keeps_bind; [|intros ?])]. }
        exact (Hk c1).
  - unfold partAfterSet. destruct (Has (t1 c) k && Has (t2 c) k); [lia|].
    destruct (Has (b1 c) k) eqn:H1.
    + destruct (isCacheFull c); [|lia].
      apply bool_decide_eq_true in H1.
      pose proof (wf_keys_pos _ _ W1 H1).
      pose proof (quot_bounds (Len (b2 c)) (Len (b1 c))). lia.
    + destruct (Has (b2 c) k) eqn:H2; [|lia].
      destruct (isCacheFull c); lia.
  - intros onLoad. apply part_get.
  - apply part_remove.
  - intros t. apply part_setItemExpiration.
Qed.
End facts.
End ArcStore.

(** ** LFU: the buckets and the entries *)

Module LfuStore.
Import Lfu LfuFacts StoreFacts.
Section facts.
Context {K V E : Type} `{HeqK : EqDecision K, HcntK : !Countable K}.
Implicit Types (L : LFUCache K V E) (k : K) (v : V) (e : nat).

(** The keys filed in the bucket of element [e]. *)
Definition bucket L e : gset K := from_option items_ ∅ (elems L !! e).

(** The invariant of the LFU structure:
    - the bucket frequencies ascend strictly along the list, every linked
      element has a bucket, and the first bucket has frequency 0;
    - an entry is filed under its own key, its handle points to a linked
      bucket, and that bucket holds it;
    - a linked bucket holds only entries whose handle points to it;
    - no linked bucket of a frequency other than 0 is empty;
    - frequencies are [uint] values;
    - at most [max(1, size)] entries are stored. *)
Record lfu_inv L : Prop := {
  inv_ascending : ascending L;
  inv_linked : linked L;
  inv_head : ∃ h rest, freqList L = h :: rest ∧ freqOf L h = 0;
  inv_handle : ∀ k it, items L !! k = Some it →
    key it = k ∧ freqElement it ∈ freqList L ∧ k ∈ bucket L (freqElement it);
  inv_bucket : ∀ e k, e ∈ freqList L → k ∈ bucket L e →
    ∃ it, items L !! k = Some it ∧ freqElement it = e;
  inv_nonempty : ∀ e, e ∈ freqList L → freqOf L e ≠ 0 → bucket L e ≠ ∅;
  inv_range : ∀ e, e ∈ freqList L → 0 ≤ freqOf L e < 2 ^ 64;
  inv_capacity : Z.of_nat (size (items L)) ≤ Z.max 1 (Base.size (base L))
}.

(** The invariant, with no frequency above [n]. *)
Definition lfu_bound (n : Z) L : Prop :=
  lfu_inv L ∧ ∀ e, e ∈ freqList L → freqOf L e ≤ n.

(** No frequency counter is at its last value: a hit can count. *)
Definition lfu_safe L : Prop := lfu_bound (2 ^ 64 - 2) L.

Lemma lfu_inv_init (b : Base.baseCache K V E) : lfu_safe (init b).
Proof.
  split; [split|]; unfold init; simpl.
  - unfold ascending. simpl. repeat constructor.
  - intros e ->%list_elem_of_singleton. simpl. rewrite lookup_singleton_eq.
    split; [eauto|lia].
  - exists 0%nat, []. split; [done|]. unfold freqOf. simpl.
    by rewrite lookup_singleton_eq.
  - intros k it. by rewrite lookup_empty.
  - intros e k ->%list_elem_of_singleton. unfold bucket. simpl.
    rewrite lookup_singleton_eq. simpl. set_solver.
  - intros e ->%list_elem_of_singleton. unfold freqOf. simpl.
    by rewrite lookup_singleton_eq.
  - intros e ->%list_elem_of_singleton. unfold freqOf. simpl.
    rewrite lookup_singleton_eq. simpl. lia.
  - rewrite map_size_empty. lia.
  - intros e ->%list_elem_of_singleton. unfold freqOf. simpl.
    rewrite lookup_singleton_eq. simpl. lia.
Qed.

(** An entry moves: [k] leaves the bucket it is in and, with a [target],
    enters the bucket of that element.  The two filing invariants and the
    no-empty-bucket invariant follow from how the buckets, the list and the
    entries of the new state relate to the old ones. *)
Lemma filed_move L L' k (target : option nat) :
  lfu_inv L →
  (∀ k', k' ≠ k → items L' !! k' = items L !! k') →
  match target with
  | Some t => ∃ it', items L' !! k = Some it' ∧ key it' = k
                     ∧ freqElement it' = t ∧ t ∈ freqList L'
  | None => items L' !! k = None
  end →
  (∀ e k', e ∈ freqList L' →
     k' ∈ bucket L' e ↔
       (k' = k ∧ target = Some e)
       ∨ (k' ≠ k ∧ e ∈ freqList L ∧ k' ∈ bucket L e)) →
  (∀ e, e ∈ freqList L → e ∉ freqList L' → bucket L e ⊆ {[k]}) →
  (∀ e, e ∈ freqList L' → target ≠ Some e →
     e ∈ freqList L ∧ freqOf L' e = freqOf L e
     ∧ (freqOf L e ≠ 0 → bucket L e ≠ {[k]})) →
  (∀ k it, items L' !! k = Some it →
     key it = k ∧ freqElement it ∈ freqList L' ∧ k ∈ bucket L' (freqElement it))
  ∧ (∀ e k, e ∈ freqList L' → k ∈ bucket L' e →
       ∃ it, items L' !! k = Some it ∧ freqElement it = e)
  ∧ (∀ e, e ∈ freqList L' → freqOf L' e ≠ 0 → bucket L' e ≠ ∅).
Proof.
  intros HI Hitems Htarget Hbucket Hdrop Hkeep. split_and!.
  - intros k' it' Hit'. destruct (decide (k' = k)) as [->|Hne].
    + destruct target as [t|]; [|congruence].
      destruct Htarget as (it0 & Hit0 & Hkey & Hfe & Hin).
      assert (it' = it0) as -> by congruence.
      split_and!; [done|by rewrite Hfe|]. rewrite Hfe.
      apply Hbucket; [done|]. by left.
    + rewrite (Hitems k' Hne) in Hit'.
      destruct (inv_handle L HI k' it' Hit') as (Hkey & Hin & Hb).
      assert (freqElement it' ∈ freqList L') as Hin'.
      { destruct (decide (freqElement it' ∈ freqList L')) as [|Hn]; [done|].
        pose proof (Hdrop _ Hin Hn). set_solver. }
      split_and!; [done|done|]. apply Hbucket; [done|]. by right.
  - intros e k' He Hk'. apply (Hbucket e k' He) in Hk' as [[-> ->]|(Hne & Hin & Hb)].
    + destruct Htarget as (it0 & Hit0 & Hkey & Hfe & _). eauto.
    + destruct (inv_bucket L HI e k' Hin Hb) as (it & Hit & Hfe).
      exists it. by rewrite Hitems.
  - intros e He Hf. destruct (decide (target = Some e)) as [Ht|Ht].
    + assert (k ∈ bucket L' e); [|set_solver]. apply Hbucket; [done|]. by left.
    + destruct (Hkeep e He Ht) as (Hin & Hfe & Hnk).
      rewrite Hfe in Hf. pose proof (inv_nonempty L HI e Hin Hf) as Hne.
      specialize (Hnk Hf).
      assert (∃ k', k' ∈ bucket L e ∧ k' ≠ k) as (k' & Hk' & Hkk).
      { destruct (decide (k ∈ bucket L e)) as [Hk|Hk].
        - apply dec_stable. intros Hno. apply Hnk. apply set_eq. intros x.
          rewrite elem_of_singleton. split; [|by intros ->].
          intros Hx. destruct (decide (x = k)); [done|]. exfalso. eauto.
        - apply set_choose_L in Hne as [x Hx]. exists x. split; [done|].
          by intros ->. }
      assert (k' ∈ bucket L' e); [|set_solver]. apply Hbucket; [done|]. by right.
Qed.

Lemma asc_filter (g : nat → Z) (P : nat → Prop) `{∀ x, Decision (P x)} l :
  asc g l → asc g (filter P l).
Proof.
  unfold asc. induction l as [|x l IH]; [done|].
  intros [Hx Hs]%StronglySorted_cons.
  destruct (decide (P x)).
  - rewrite filter_cons_True by done. apply StronglySorted_cons. split; [|auto].
    rewrite Forall_forall in *. intros y [_ Hy]%list_elem_of_filter. auto.
  - rewrite filter_cons_False by done. auto.
Qed.

Lemma asc_NoDup (g : nat → Z) l : asc g l → NoDup l.
Proof.
  unfold asc. induction l as [|x l IH]; [constructor|].
  intros [Hx Hs]%StronglySorted_cons. constructor; [|auto].
  rewrite Forall_forall in Hx. intros Hin. specialize (Hx x Hin). lia.
Qed.

(** The bucket and the frequency of an element after a write to [elems]. *)
Lemma bucket_insert L (m : gmap nat (freqEntry K)) e e' fe :
  from_option items_ ∅ (<[e := fe]> m !! e')
  = if decide (e = e') then items_ fe else from_option items_ ∅ (m !! e').
Proof. rewrite lookup_insert. by case_decide. Qed.

Lemma freq_insert (m : gmap nat (freqEntry K)) e e' fe :
  from_option freq 0 (<[e := fe]> m !! e')
  = if decide (e = e') then freq fe else from_option freq 0 (m !! e').
Proof. rewrite lookup_insert. by case_decide. Qed.

(** The state after the entry of [k], filed in bucket [fe], is removed. *)
Definition without L k (it : lfuItem K V) (fe : freqEntry K) : LFUCache K V E :=
  setBase (Base.callEvicted (key it) (value it) (base L))
    (setFreqList (if isRemovableFreqEntry (leftBucket k fe)
                  then listRemove (freqElement it) (freqList L) else freqList L)
       (setElems (<[freqElement it := leftBucket k fe]> (elems L))
          (setItems (delete (key it) (items L)) L))).

Lemma removeItem_unfold L k it fe :
  items L !! k = Some it → elems L !! freqElement it = Some fe →
  removeItem k L = Ok tt (without L k it fe).
Proof.
  intros Hit Hfe. unfold removeItem, entryOf, without. munfold.
  rewrite Hit, Hfe. simpl. fold (leftBucket k fe).
  by destruct (isRemovableFreqEntry (leftBucket k fe)).
Qed.

Lemma handle_bucket L k it :
  lfu_inv L → items L !! k = Some it →
  ∃ fe, elems L !! freqElement it = Some fe ∧ k ∈ items_ fe ∧ key it = k
        ∧ freqElement it ∈ freqList L.
Proof.
  intros HI Hit. destruct (inv_handle L HI k it Hit) as (Hkey & Hin & Hb).
  destruct (inv_linked L HI _ Hin) as [[fe Hfe] _].
  exists fe. unfold bucket in Hb. rewrite Hfe in Hb. done.
Qed.

Lemma only_in_handle L k it e :
  lfu_inv L → items L !! k = Some it → e ∈ freqList L → k ∈ bucket L e →
  e = freqElement it.
Proof.
  intros HI Hit He Hk. destruct (inv_bucket L HI e k He Hk) as (it' & Hit' & <-).
  congruence.
Qed.

Lemma removable_iff (fe : freqEntry K) :
  isRemovableFreqEntry fe = true ↔ freq fe ≠ 0 ∧ items_ fe = ∅.
Proof.
  unfold isRemovableFreqEntry. rewrite andb_true_iff, negb_true_iff,
    bool_decide_eq_false, bool_decide_eq_true, size_empty_iff. by unfold_leibniz.
Qed.

Lemma removeItem_stored L k it :
  lfu_inv L → items L !! k = Some it →
  ∃ L', removeItem k L = Ok tt L' ∧ lfu_inv L'
    ∧ items L' = delete k (items L)
    ∧ (∀ e, freqOf L' e = freqOf L e)
    ∧ (∀ e, e ∈ freqList L' → e ∈ freqList L)
    ∧ base L' = Base.callEvicted k (value it) (base L).
Proof.
  intros HI Hit.
  destruct (handle_bucket L k it HI Hit) as (fe & Hfe & Hkfe & Hkey & Hcur).
  exists (without L k it fe). split; [by apply removeItem_unfold|].
  set (L' := without L k it fe).
  assert (∀ e, freqOf L' e = freqOf L e) as Hfreq.
  { intros e. unfold freqOf, L', without. simpl. rewrite freq_insert.
    case_decide as Hc; [by rewrite <- Hc, Hfe|done]. }
  assert (∀ e, bucket L' e = if decide ((freqElement it) = e) then items_ fe ∖ {[k]} else bucket L e)
    as Hbuck.
  { intros e. unfold bucket, L', without. simpl. by rewrite (bucket_insert L). }
  assert (freqList L' = if isRemovableFreqEntry (leftBucket k fe)
                        then listRemove (freqElement it) (freqList L) else freqList L) as Hlist
    by done.
  assert (∀ e, e ∈ freqList L' → e ∈ freqList L) as Hsub.
  { intros e. rewrite Hlist. destruct (isRemovableFreqEntry _); [|done].
    unfold listRemove. rewrite list_elem_of_filter. tauto. }
  assert (∀ e, e ∈ freqList L → e ≠ (freqElement it) → e ∈ freqList L') as Hsup.
  { intros e He Hne. rewrite Hlist. destruct (isRemovableFreqEntry _); [|done].
    unfold listRemove. rewrite list_elem_of_filter. done. }
  assert (bucket L (freqElement it) = items_ fe) as Hbc by (unfold bucket; by rewrite Hfe).
  assert (items L' = delete k (items L)) as Hitems.
  { unfold L', without. simpl. by rewrite Hkey. }
  split_and!; try done; [|unfold L', without; simpl; by rewrite Hkey].
  destruct (filed_move L L' k None HI) as (Fd & Fe & Fn).
  { intros k' Hne. rewrite Hitems. by rewrite lookup_delete_ne. }
  { rewrite Hitems. apply lookup_delete_eq. }
  { intros e k' He. rewrite Hbuck. case_decide as Hc.
    - rewrite <- Hc. rewrite elem_of_difference, elem_of_singleton, Hbc.
      split; [intros [? ?]; right; eauto|]. intros [[_ [=]]|(? & ? & ?)]. done.
    - split.
      + intros Hk'. right. split_and!; [|by apply Hsub|done].
        intros ->. apply Hc. symmetry.
        by apply (only_in_handle L k it e HI Hit (Hsub e He)).
      + intros [[_ [=]]|(? & ? & ?)]. done. }
  { intros e He Hne. assert (e = (freqElement it)) as ->.
    { destruct (decide (e = (freqElement it))); [done|]. exfalso. by apply Hne, Hsup. }
    rewrite Hlist in Hne. destruct (isRemovableFreqEntry _) eqn:Hrm; [|done].
    apply removable_iff in Hrm as [_ Hrm]. simpl in Hrm. rewrite Hbc.
    intros x Hx. apply elem_of_singleton. destruct (decide (x = k)); [done|].
    assert (x ∈ items_ fe ∖ {[k]}) as Hin by (clear -Hx n; set_solver).
    rewrite Hrm in Hin. by apply not_elem_of_empty in Hin. }
  { intros e He _. split_and!; [by apply Hsub|by apply Hfreq|].
    intros Hf Heq. assert (e = (freqElement it)) as ->.
    { apply (only_in_handle L k it e HI Hit (Hsub e He)). rewrite Heq. set_solver. }
    rewrite Hlist in He. destruct (isRemovableFreqEntry _) eqn:Hrm.
    - unfold listRemove in He. apply list_elem_of_filter in He as [? _]. done.
    - apply not_true_iff_false in Hrm. apply Hrm. apply removable_iff. simpl.
      split; [|rewrite <- Hbc, Heq; set_solver].
      unfold freqOf in Hf. by rewrite Hfe in Hf. }
  split; try done.
  - unfold ascending. apply (asc_ext_in (freqOf L)); [done|]. rewrite Hlist.
    destruct (isRemovableFreqEntry _); [|apply HI]. apply asc_filter, HI.
  - intros e He. destruct (inv_linked L HI e (Hsub e He)) as [Hs Hlt].
    split; [|done]. unfold L', without. simpl. rewrite lookup_insert.
    case_decide; eauto.
  - destruct (inv_head L HI) as (h & rest & Hl & Hh).
    assert (h ∈ freqList L') as Hin.
    { rewrite Hlist. destruct (isRemovableFreqEntry _) eqn:Hrm; [|rewrite Hl; set_solver].
      unfold listRemove. apply list_elem_of_filter. split; [|rewrite Hl; set_solver].
      intros ->. apply removable_iff in Hrm as [Hrm _]. simpl in Hrm.
      unfold freqOf in Hh. fold (freqElement it) in Hh. rewrite Hfe in Hh. done. }
    rewrite Hlist in *. destruct (isRemovableFreqEntry _) eqn:Hrm.
    + unfold listRemove in *. rewrite Hl in *.
      rewrite filter_cons_True.
      * eexists _, _. split; [done|]. by rewrite Hfreq.
      * apply list_elem_of_filter in Hin as [? _]. done.
    + exists h, rest. by rewrite Hfreq.
  - intros e He. rewrite Hfreq. apply (inv_range L HI). by apply Hsub.
  - rewrite Hitems. pose proof (inv_capacity L HI) as Hc.
    rewrite map_size_delete, Hit. unfold L', without. simpl.
    unfold Base.callEvicted. destruct (Base.evictedFunc _); simpl; lia.
Qed.

(** *** Eviction *)

Lemma evictLoop_done fuel entry L :
  evictLoop fuel entry 1 1 L = Ok tt L.
Proof.
  destruct fuel; cbn [evictLoop]; [done|]. by rewrite bool_decide_eq_false_2 by lia.
Qed.

Lemma evictItems_first k1 ks L L' :
  removeItem k1 L = Ok tt L' →
  ∃ b, evictItems (k1 :: ks) 1 0 L = Ok (1, b) L'.
Proof.
  intros Hrm. cbn [evictItems]. rewrite bool_decide_eq_false_2 by lia.
  rewrite (bind_Ok _ _ _ _ _ Hrm). replace (0 + 1) with 1 by lia.
  destruct ks as [|k2 ks]; cbn [evictItems]; [by eexists|].
  rewrite bool_decide_eq_true_2 by lia. by eexists.
Qed.

Lemma evictLoop_bucket fuel e fe k1 ks L L' :
  elems L !! e = Some fe → elements (items_ fe) = k1 :: ks →
  removeItem k1 L = Ok tt L' →
  evictLoop (S fuel) (Some e) 1 0 L = Ok tt L'.
Proof.
  intros Hfe Hel Hrm. cbn [evictLoop]. rewrite bool_decide_eq_true_2 by lia.
  cbn [negb]. unfold entryOf. munfold. rewrite Hfe, Hel.
  destruct (evictItems_first k1 ks L L' Hrm) as [b ->].
  destruct b; [done|]. apply evictLoop_done.
Qed.

Lemma evictLoop_empty fuel e fe L :
  elems L !! e = Some fe → items_ fe = ∅ →
  evictLoop (S fuel) (Some e) 1 0 L
  = evictLoop fuel (Next e (freqList L)) 1 0 L.
Proof.
  intros Hfe Hel. cbn [evictLoop]. rewrite bool_decide_eq_true_2 by lia.
  cbn [negb]. unfold entryOf. munfold. rewrite Hfe, Hel, elements_empty. done.
Qed.

(** [evict(1)] removes an entry of the least frequency, if there is an
    entry at all. *)
Lemma lfu_evict_one L :
  lfu_inv L →
  (items L = ∅ ∧ evict 1 L = Ok tt L)
  ∨ ∃ k it, items L !! k = Some it ∧ evict 1 L = removeItem k L
            ∧ ∀ k' it', items L !! k' = Some it' →
                freqOf L (freqElement it) ≤ freqOf L (freqElement it').
Proof.
  intros HI. destruct (inv_head L HI) as (h & rest & Hl & Hh).
  assert (h ∈ freqList L) as Hhin by (rewrite Hl; set_solver).
  destruct (inv_linked L HI h Hhin) as [[fh Hfh] _].
  unfold evict. munfold. rewrite Hl. cbn [head length].
  assert (∀ e fe k1 ks fuel,
            e ∈ freqList L → elems L !! e = Some fe →
            elements (items_ fe) = k1 :: ks →
            (∀ k' it', items L !! k' = Some it' →
               freqOf L e ≤ freqOf L (freqElement it')) →
            ∃ k it, items L !! k = Some it
              ∧ evictLoop (S fuel) (Some e) 1 0 L = removeItem k L
              ∧ ∀ k' it', items L !! k' = Some it' →
                  freqOf L (freqElement it) ≤ freqOf L (freqElement it')) as Hpick.
  { intros e fe k1 ks fuel He Hfe Hel Hmin.
    assert (k1 ∈ bucket L e) as Hk1.
    { unfold bucket. rewrite Hfe. simpl. apply elem_of_elements. rewrite Hel. left. }
    destruct (inv_bucket L HI e k1 He Hk1) as (it & Hit & Hite).
    destruct (removeItem_stored L k1 it HI Hit) as (L' & Hrm & _).
    exists k1, it. split_and!; [done| |by rewrite Hite].
    rewrite Hrm. by apply (evictLoop_bucket fuel e fe k1 ks). }
  destruct (elements (items_ fh)) as [|k1 ks] eqn:Hel.
  - apply elements_empty_inv in Hel. apply leibniz_equiv in Hel.
    rewrite (evictLoop_empty _ h fh L Hfh Hel), Hl. cbn [Next].
    rewrite bool_decide_eq_true_2 by done.
    destruct rest as [|e2 rest'].
    + left. split; [|done]. apply map_empty. intros k.
      destruct (items L !! k) as [it|] eqn:Hit; [|done]. exfalso.
      destruct (inv_handle L HI k it Hit) as (_ & Hin & Hb).
      rewrite Hl in Hin. apply list_elem_of_singleton in Hin. rewrite Hin in Hb.
      unfold bucket in Hb. rewrite Hfh in Hb. simpl in Hb. rewrite Hel in Hb.
      by apply not_elem_of_empty in Hb.
    + right. cbn [head length].
      assert (e2 ∈ freqList L) as He2 by (rewrite Hl; set_solver).
      destruct (inv_linked L HI e2 He2) as [[f2 Hf2] _].
      pose proof (inv_ascending L HI) as Hasc. unfold ascending in Hasc.
      rewrite Hl in Hasc. apply StronglySorted_cons in Hasc as [Hh2 Hasc].
      rewrite Forall_forall in Hh2.
      assert (freqOf L e2 ≠ 0) as Hnz.
      { specialize (Hh2 e2). rewrite Hh in Hh2. 
        assert (0 < freqOf L e2) by (apply Hh2; left). lia. }
      pose proof (inv_nonempty L HI e2 He2 Hnz) as Hne.
      unfold bucket in Hne. rewrite Hf2 in Hne. simpl in Hne.
      destruct (elements (items_ f2)) as [|k1 ks] eqn:Hel2.
      { apply elements_empty_inv in Hel2. apply leibniz_equiv in Hel2. done. }
      apply (Hpick e2 f2 k1 ks); try done.
      intros k' it' Hit'. destruct (inv_handle L HI k' it' Hit') as (_ & Hin & Hb).
      rewrite Hl in Hin. apply elem_of_cons in Hin as [Hin|Hin].
      * rewrite Hin in Hb. unfold bucket in Hb. rewrite Hfh in Hb. simpl in Hb.
        rewrite Hel in Hb. by apply not_elem_of_empty in Hb.
      * apply elem_of_cons in Hin as [->|Hin]; [done|].
        apply StronglySorted_cons in Hasc as [H2 _]. rewrite Forall_forall in H2.
        specialize (H2 _ Hin). lia.
  - right. apply (Hpick h fh k1 ks); try done.
    intros k' it' Hit'. destruct (inv_handle L HI k' it' Hit') as (_ & Hin & _).
    rewrite Hh. apply (inv_range L HI). done.
Qed.

(** *** Set *)

(** States that differ only in values, expirations and callbacks. *)
Lemma lfu_inv_frame L L' :
  freqList L' = freqList L → elems L' = elems L → nextElem L' = nextElem L →
  (∀ k, (λ it, (key it, freqElement it)) <$> items L' !! k
        = (λ it, (key it, freqElement it)) <$> items L !! k) →
  Base.size (base L') = Base.size (base L) →
  lfu_inv L → lfu_inv L'.
Proof.
  intros Hl He Hn Hi Hs HI.
  assert (∀ e, freqOf L' e = freqOf L e) as Hf by (intros e; unfold freqOf; by rewrite He).
  assert (∀ e, bucket L' e = bucket L e) as Hb by (intros e; unfold bucket; by rewrite He).
  assert (∀ k it', items L' !! k = Some it' →
            ∃ it, items L !! k = Some it ∧ key it' = key it
                  ∧ freqElement it' = freqElement it) as Hfw.
  { intros k it' Hit'. specialize (Hi k). rewrite Hit' in Hi.
    destruct (items L !! k) as [it|]; [|done]. injection Hi as ? ?. eauto. }
  assert (∀ k it, items L !! k = Some it →
            ∃ it', items L' !! k = Some it' ∧ key it' = key it
                   ∧ freqElement it' = freqElement it) as Hbw.
  { intros k it Hit. specialize (Hi k). rewrite Hit in Hi.
    destruct (items L' !! k) as [it'|]; [|done]. injection Hi as ? ?. eauto. }
  split.
  - unfold ascending. rewrite Hl. apply (asc_ext_in (freqOf L)); [done|apply HI].
  - intros e. rewrite Hl, He, Hn. apply HI.
  - destruct (inv_head L HI) as (h & rest & ? & ?). exists h, rest.
    by rewrite Hl, Hf.
  - intros k it' Hit'. destruct (Hfw k it' Hit') as (it & Hit & -> & ->).
    rewrite Hl, Hb. by apply HI.
  - intros e k. rewrite Hl, Hb. intros Hin Hk.
    destruct (inv_bucket L HI e k Hin Hk) as (it & Hit & Hfe).
    destruct (Hbw k it Hit) as (it' & Hit' & _ & Hfe'). exists it'. split; congruence.
  - intros e. rewrite Hl, Hf, Hb. apply HI.
  - intros e. rewrite Hl, Hf. apply HI.
  - rewrite Hs. replace (size (items L')) with (size (items L)); [apply HI|].
    rewrite <- !size_dom. f_equal. apply set_eq. intros k.
    rewrite !elem_of_dom. specialize (Hi k).
    destruct (items L !! k), (items L' !! k); try done; split; intros [? ?]; done.
Qed.

Lemma lfu_bound_frame n L L' :
  freqList L' = freqList L → elems L' = elems L → nextElem L' = nextElem L →
  (∀ k, (λ it, (key it, freqElement it)) <$> items L' !! k
        = (λ it, (key it, freqElement it)) <$> items L !! k) →
  Base.size (base L') = Base.size (base L) →
  lfu_bound n L → lfu_bound n L'.
Proof.
  intros Hl He Hn Hi Hs [HI Hsafe]. split; [by eapply lfu_inv_frame|].
  intros e. rewrite Hl. unfold freqOf. rewrite He. apply Hsafe.
Qed.

(** The entry that [set] leaves for [k], filed in bucket [e]. *)
Definition written L k v e : lfuItem K V :=
  {| key := k; value := v; freqElement := e;
     expiration := expiryAfterSet (base L) (items L !! k ≫= expiration) |}.

Lemma lfu_set_existing L k v it :
  items L !! k = Some it → key it = k →
  set k v L
  = Ok tt (setBase (Base.callAdded k v (base L))
             (setItems (<[k := written L k v (freqElement it)]> (items L)) L)).
Proof.
  intros Hk Hkey. unfold set, written, expiryAfterSet. munfold. rewrite Hk. simpl.
  destruct (Base.expiration (base L)); simpl; f_equal;
    unfold setItems, setBase; simpl; f_equal; try done.
  - apply map_eq; intros j; destruct (decide (j = k)) as [->|].
    + rewrite lookup_alter_eq, !lookup_insert_eq. destruct it; simpl in *. by subst.
    + by rewrite lookup_alter_ne, !lookup_insert_ne.
  - f_equal. destruct it; simpl in *. by subst.
Qed.

(** The state after a new key is filed in the first bucket. *)
Definition filed L L1 k v hd (fe : freqEntry K) : LFUCache K V E :=
  setBase (Base.callAdded k v (base L1))
    (setItems (<[k := written L k v hd]> (items L1))
       (setElems (<[hd := setEntryItems ({[k]} ∪ items_ fe) fe]> (elems L1)) L1)).

Lemma lfu_set_new L k v L1 hd fe :
  items L !! k = None →
  when (bool_decide (Base.size (base L) ≤ Z.of_nat (size (items L)))) (evict 1) L
  = Ok tt L1 →
  head (freqList L1) = Some hd → elems L1 !! hd = Some fe →
  Base.clock (base L1) = Base.clock (base L) →
  set k v L = Ok tt (filed L L1 k v hd fe).
Proof.
  intros Hk Hev Hhd Hfe Hclk. unfold set, filed, written, expiryAfterSet.
  unfold mbind, M_bind at 1. unfold getS at 1. rewrite Hk.
  unfold mbind, M_bind at 1. unfold mbind, M_bind at 1.
  unfold mbind, M_bind at 1. rewrite Hev.
  unfold entryOf. munfold. rewrite Hhd. simpl. rewrite Hfe. simpl.
  destruct (Base.expiration (base L)); simpl; f_equal;
    unfold setItems, setBase, setElems; simpl; f_equal; try done.
  rewrite Hclk. apply map_eq; intros j; destruct (decide (j = k)) as [->|].
  - by rewrite lookup_alter_eq, !lookup_insert_eq.
  - by rewrite lookup_alter_ne, !lookup_insert_ne.
Qed.

Lemma filed_inv L L1 k v hd fe :
  lfu_inv L1 → items L1 !! k = None →
  head (freqList L1) = Some hd → elems L1 !! hd = Some fe →
  Z.of_nat (size (items L1)) + 1 ≤ Z.max 1 (Base.size (base L1)) →
  lfu_inv (filed L L1 k v hd fe)
  ∧ (∀ e, freqOf (filed L L1 k v hd fe) e = freqOf L1 e)
  ∧ freqList (filed L L1 k v hd fe) = freqList L1.
Proof.
  intros HI Hk Hhd Hfe Hcap. set (L' := filed L L1 k v hd fe).
  assert (hd ∈ freqList L1) as Hin.
  { destruct (freqList L1); [done|]. injection Hhd as ->. left. }
  assert (∀ e, freqOf L' e = freqOf L1 e) as Hf.
  { intros e. unfold freqOf, L', filed. simpl. rewrite freq_insert.
    case_decide as Hc; [by rewrite <- Hc, Hfe|done]. }
  assert (∀ e, bucket L' e = if decide (hd = e) then {[k]} ∪ items_ fe else bucket L1 e)
    as Hb.
  { intros e. unfold bucket, L', filed. simpl. by rewrite (bucket_insert L). }
  assert (bucket L1 hd = items_ fe) as Hbh by (unfold bucket; by rewrite Hfe).
  assert (∀ e, e ∈ freqList L1 → k ∉ bucket L1 e) as Hnk.
  { intros e He Hke. destruct (inv_bucket L1 HI e k He Hke) as (it & Hit & _).
    congruence. }
  split_and!; [|done|done].
  destruct (filed_move L1 L' k (Some hd) HI) as (Fd & Fe & Fn).
  { intros k' Hne. unfold L', filed. simpl. by rewrite lookup_insert_ne. }
  { eexists. unfold L', filed. simpl. rewrite lookup_insert_eq. done. }
  { intros e k' He. change (freqList L') with (freqList L1) in He.
    rewrite Hb. case_decide as Hc.
    - rewrite <- Hc, Hbh, elem_of_union, elem_of_singleton. split.
      + intros [->|Hk']; [by left|]. right. split_and!; [|done|done].
        intros ->. apply (Hnk hd Hin). by rewrite Hbh.
      + intros [[-> _]|(_ & _ & ?)]; auto.
    - split.
      + intros Hk'. right. split_and!; [|done|done]. intros ->. by apply (Hnk e He).
      + intros [[_ [= ?]]|(_ & _ & ?)]; done. }
  { intros e He Hne. done. }
  { intros e He Hne. change (freqList L') with (freqList L1) in He.
    split_and!; [done|apply Hf|]. intros _ Heq. apply (Hnk e He). rewrite Heq.
    by apply elem_of_singleton. }
  split; try done.
  - unfold ascending. change (freqList L') with (freqList L1).
    apply (asc_ext_in (freqOf L1)); [done|apply HI].
  - intros e He. change (freqList L') with (freqList L1) in He.
    destruct (inv_linked L1 HI e He) as [Hs Hlt]. split; [|done].
    unfold L', filed. simpl. rewrite lookup_insert. case_decide; eauto.
  - destruct (inv_head L1 HI) as (h & rest & ? & ?). exists h, rest. by rewrite Hf.
  - intros e He. rewrite Hf. by apply (inv_range L1 HI).
  - unfold L', filed. simpl. rewrite map_size_insert, Hk.
    destruct (callAdded_fields k v (base L1)) as [-> _]. lia.
Qed.

(** What [set] does to the entries and the callbacks: it writes the entry
    of [k], keeping its bucket, and files a new key in the first bucket, of
    frequency 0; for a new key on a cache at capacity ([size ≤ len]) it
    first evicts one entry of the least frequency, the [victim]. *)
Definition setOutcome L k v (victim : option K) (L' : LFUCache K V E) : Prop :=
  (∃ e, items L'
        = <[k := written L k v e]>
            (match victim with Some k0 => delete k0 (items L) | None => items L end)
        ∧ e ∈ freqList L'
        ∧ freqOf L' e
          = match items L !! k with
            | Some it => freqOf L (freqElement it)
            | None => 0
            end)
  ∧ Base.events (base L')
    = Base.events (base L)
      ++ (match victim ≫= (λ k0, items L !! k0) with
          | Some it0 =>
              if Base.evictedFunc (base L) then [Evicted (key it0) (value it0)] else []
          | None => []
          end)
      ++ (if Base.addedFunc (base L) then [Added k v] else [])
  ∧ match victim with
    | Some k0 =>
        items L !! k = None
        ∧ Base.size (base L) ≤ Z.of_nat (size (items L))
        ∧ ∃ it0, items L !! k0 = Some it0
            ∧ ∀ k' it', items L !! k' = Some it' →
                freqOf L (freqElement it0) ≤ freqOf L (freqElement it')
    | None =>
        is_Some (items L !! k)
        ∨ Z.of_nat (size (items L)) < Base.size (base L)
        ∨ items L = ∅
    end.

Lemma lfu_set_outcome L k v :
  lfu_inv L →
  ∃ victim L', set k v L = Ok tt L' ∧ lfu_inv L'
    ∧ (∀ e, e ∈ freqList L' → e ∈ freqList L ∧ freqOf L' e = freqOf L e)
    ∧ Base.size (base L') = Base.size (base L)
    ∧ setOutcome L k v victim L'.
Proof.
  intros HI. unfold setOutcome.
  destruct (items L !! k) as [it|] eqn:Hk.
  - destruct (handle_bucket L k it HI Hk) as (fe & Hfe & Hkfe & Hkey & Hcur).
    exists None. eexists. split; [by apply lfu_set_existing|].
    destruct (callAdded_fields k v (base L)) as [Hs Hev].
    split; [|split; [|split; [|split; [|split]]]].
    + eapply lfu_inv_frame; [..|exact HI]; try done. simpl. intros j.
      destruct (decide (j = k)) as [->|].
      * rewrite lookup_insert_eq, Hk. simpl. by rewrite Hkey.
      * by rewrite lookup_insert_ne.
    + done.
    + done.
    + exists (freqElement it). split; [done|]. split; [|done].
      change (freqElement it ∈ freqList L).
      destruct (inv_handle L HI k it Hk) as (? & _); done.
    + simpl. by rewrite Hev.
    + left. eauto.
  - destruct (bool_decide (Base.size (base L) ≤ Z.of_nat (size (items L)))) eqn:Hfull.
    + apply bool_decide_eq_true in Hfull.
      destruct (lfu_evict_one L HI) as [[Hemp Hev]|(k0 & it0 & Hit0 & Hev & Hmin)].
      * destruct (inv_head L HI) as (h & rest & Hl & Hh).
        assert (h ∈ freqList L) as Hhin by (rewrite Hl; set_solver).
        destruct (inv_linked L HI h Hhin) as [[fh Hfh] _].
        destruct (filed_inv L L k v h fh HI Hk) as (HI' & Hf' & Hl'); try done.
        { by rewrite Hl. }
        { rewrite Hemp, map_size_empty. lia. }
        exists None. eexists. split.
        { apply (lfu_set_new L k v L h fh); try done.
          - by rewrite bool_decide_eq_true_2.
          - by rewrite Hl. }
        destruct (callAdded_fields k v (base L)) as [Hs Hev'].
        split; [|split; [|split; [|split; [|split]]]].
        -- done.
        -- intros e. rewrite Hl', Hf'. done.
        -- done.
        -- exists h. rewrite Hl', Hf'. done.
        -- simpl. by rewrite Hev'.
        -- by right; right.
      * destruct (removeItem_stored L k0 it0 HI Hit0)
          as (L1 & Hrm & HI1 & Hi1 & Hf1 & Hl1 & Hb1).
        assert (k0 ≠ k) as Hne by (intros ->; congruence).
        destruct (inv_head L1 HI1) as (h & rest & Hl & Hh).
        assert (h ∈ freqList L1) as Hhin by (rewrite Hl; set_solver).
        destruct (inv_linked L1 HI1 h Hhin) as [[fh Hfh] _].
        destruct (callEvicted_fields k0 (value it0) (base L)) as (Hs1 & Hc1 & Ha1 & He1).
        destruct (filed_inv L L1 k v h fh HI1) as (HI' & Hf' & Hl'); try done.
        { by rewrite Hi1, lookup_delete_ne. }
        { by rewrite Hl. }
        { rewrite Hi1, map_size_delete, Hit0, Hb1, Hs1.
          pose proof (inv_capacity L HI).
          assert (size (items L) ≠ 0%nat); [|lia].
          intros Hz. apply map_size_empty_inv in Hz. by rewrite Hz in Hit0. }
        exists (Some k0). eexists. split.
        { apply (lfu_set_new L k v L1 h fh); try done.
          - rewrite bool_decide_eq_true_2 by done. simpl. by rewrite Hev.
          - by rewrite Hl.
          - by rewrite Hb1. }
        destruct (callAdded_fields k v (base L1)) as [Hs Hev'].
        destruct (handle_bucket L k0 it0 HI Hit0) as (_ & _ & _ & Hkey0 & _).
        split; [|split; [|split; [|split; [|split]]]].
        -- done.
        -- intros e He. rewrite Hl' in He. rewrite Hf', Hf1. split; [by apply Hl1|done].
        -- simpl. by rewrite Hs, Hb1.
        -- exists h. split; [unfold filed; simpl; by rewrite Hi1|].
           rewrite Hl', Hf'. done.
        -- simpl. rewrite Hit0, Hev', Hb1, He1, Ha1, Hkey0. by rewrite <- app_assoc.
        -- eauto.
    + apply bool_decide_eq_false in Hfull.
      destruct (inv_head L HI) as (h & rest & Hl & Hh).
      assert (h ∈ freqList L) as Hhin by (rewrite Hl; set_solver).
      destruct (inv_linked L HI h Hhin) as [[fh Hfh] _].
      destruct (filed_inv L L k v h fh HI Hk) as (HI' & Hf' & Hl'); try done.
      { by rewrite Hl. }
      { lia. }
      exists None. eexists. split.
      { apply (lfu_set_new L k v L h fh); try done.
        - by rewrite bool_decide_eq_false_2.
        - by rewrite Hl. }
      destruct (callAdded_fields k v (base L)) as [Hs Hev'].
      split; [|split; [|split; [|split; [|split]]]].
      * done.
      * intros e. rewrite Hl', Hf'. done.
      * done.
      * exists h. rewrite Hl', Hf'. done.
      * simpl. by rewrite Hev'.
      * right; left. lia.
Qed.

(** *** A hit: [increment] *)

(** The use count of an entry: the frequency of the bucket it is filed
    in; 0 for a key that is not stored. *)
Definition uses L k : Z :=
  from_option (λ it, freqOf L (freqElement it)) 0 (items L !! k).

(** A counted hit: one more use for [k], and no change for the others. *)
Definition countedHit L k L' : Prop :=
  uses L' k = uses L k + 1 ∧ ∀ k', k' ≠ k → uses L' k' = uses L k'.

(** An entry [k] re-filed under element [t]: what the new state has to
    satisfy for the invariant to carry over. *)
Lemma moved_inv L L' k t :
  lfu_inv L → is_Some (items L !! k) →
  items L' = alter (setFreqElement t) k (items L) →
  Base.size (base L') = Base.size (base L) →
  ascending L' → linked L' → t ∈ freqList L' →
  (∀ e k', e ∈ freqList L' →
     k' ∈ bucket L' e ↔
       (k' = k ∧ t = e) ∨ (k' ≠ k ∧ e ∈ freqList L ∧ k' ∈ bucket L e)) →
  (∀ e, e ∈ freqList L → e ∉ freqList L' → bucket L e ⊆ {[k]}) →
  (∀ e, e ∈ freqList L' → e ≠ t →
     e ∈ freqList L ∧ freqOf L' e = freqOf L e
     ∧ (freqOf L e ≠ 0 → bucket L e ≠ {[k]})) →
  (∃ h rest, freqList L' = h :: rest ∧ freqOf L' h = 0) →
  0 ≤ freqOf L' t < 2 ^ 64 →
  lfu_inv L'.
Proof.
  intros HI [it Hit] Hitems Hsize Hasc Hlink Ht Hbucket Hdrop Hkeep Hhead Hrange.
  destruct (inv_handle L HI k it Hit) as (Hkey & _ & _).
  destruct (filed_move L L' k (Some t) HI) as (Fd & Fe & Fn).
  - intros k' Hne. by rewrite Hitems, lookup_alter_ne.
  - exists (setFreqElement t it). rewrite Hitems, lookup_alter_eq, Hit. done.
  - intros e k' He. rewrite (Hbucket e k' He). split.
    + intros [[-> ->]|?]; auto.
    + intros [[-> [= ->]]|?]; auto.
  - done.
  - intros e He Hne. apply Hkeep; [done|]. by intros ->.
  - split; try done.
    + intros e He. destruct (decide (e = t)) as [->|Hne]; [done|].
      destruct (Hkeep e He Hne) as (Hin & -> & _). by apply (inv_range L HI).
    + rewrite Hitems, Hsize.
      replace (size (alter (setFreqElement t) k (items L))) with (size (items L)).
      * apply (inv_capacity L HI).
      * rewrite <- !size_dom. f_equal. apply set_eq. intros x.
        rewrite !elem_of_dom, lookup_alter. case_decide; [subst|done].
        rewrite Hit. by split; eauto.
Qed.

Section hit.
Context (L : LFUCache K V E) (k : K) (it : lfuItem K V) (ce : freqEntry K).
Context (pre post : list nat).
Hypothesis HI : lfu_inv L.
Hypothesis Hit : items L !! k = Some it.
Hypothesis Hce : elems L !! freqElement it = Some ce.
Hypothesis Hfl : freqList L = pre ++ freqElement it :: post.
Hypothesis Hpre : freqElement it ∉ pre.

Local Lemma cur_in : (freqElement it) ∈ freqList L.
Proof. rewrite Hfl. set_solver. Qed.

Local Lemma cur_bucket : bucket L (freqElement it) = items_ ce.
Proof. unfold bucket. by rewrite Hce. Qed.

Local Lemma cur_freqOf : freqOf L (freqElement it) = freq ce.
Proof. unfold freqOf. by rewrite Hce. Qed.

Local Lemma cur_range : 0 ≤ freq ce < 2 ^ 64.
Proof. rewrite <- cur_freqOf. apply (inv_range L HI), cur_in. Qed.

Local Lemma not_elsewhere e : e ∈ freqList L → e ≠ (freqElement it) → k ∉ bucket L e.
Proof. intros He Hne Hk. apply Hne. by apply (only_in_handle L k it e). Qed.

Local Lemma not_removable_bucket :
  isRemovableFreqEntry (leftBucket k ce) = false →
  freqOf L (freqElement it) ≠ 0 → bucket L (freqElement it) ≠ {[k]}.
Proof.
  intros Hrm Hf Hb. apply not_true_iff_false in Hrm. apply Hrm.
  apply removable_iff. simpl. rewrite cur_freqOf in Hf. split; [done|].
  rewrite <- cur_bucket, Hb. set_solver.
Qed.

Local Lemma uses_moved L' t :
  items L' = alter (setFreqElement t) k (items L) →
  freqOf L' t = freq ce + 1 →
  (∀ e k', e ∈ freqList L → k' ≠ k → k' ∈ bucket L e → freqOf L' e = freqOf L e) →
  countedHit L k L'.
Proof.
  intros Hitems Ht Hother. unfold countedHit, uses. rewrite Hitems. split.
  - rewrite lookup_alter_eq, Hit. simpl. by rewrite cur_freqOf.
  - intros k' Hne. rewrite lookup_alter_ne by done.
    destruct (items L !! k') as [it'|] eqn:Hit'; [|done]. simpl.
    destruct (inv_handle L HI k' it' Hit') as (_ & Hin & Hb). by apply (Hother _ k').
Qed.

Lemma relabelled_inv :
  isRemovableFreqEntry (leftBucket k ce) = true →
  freq ce + 1 < 2 ^ 64 →
  (∀ b, b ∈ post → freq ce + 1 < freqOf L b) →
  lfu_inv (relabelled L k (freqElement it) ce) ∧ countedHit L k (relabelled L k (freqElement it) ce).
Proof.
  intros Hrm Hmax Hpost. apply removable_iff in Hrm as [Hnz Hempty]. simpl in *.
  destruct (relabelled_ok L k it ce pre post Hit Hce Hfl (inv_ascending L HI)
              (inv_linked L HI) Hpost) as (Hasc & Hlink & _).
  set (L' := relabelled L k (freqElement it) ce) in *.
  assert (∀ e, bucket L' e
               = if decide ((freqElement it) = e) then {[k]} ∪ (items_ ce ∖ {[k]}) else bucket L e)
    as Hb.
  { intros e. unfold bucket, L', relabelled. simpl. by rewrite (bucket_insert L). }
  assert (∀ e, freqOf L' e = if decide ((freqElement it) = e) then freq ce + 1 else freqOf L e)
    as Hf.
  { intros e. unfold freqOf, L', relabelled. simpl. by rewrite freq_insert. }
  pose proof cur_in as Hcin. pose proof cur_bucket as Hbc.
  pose proof cur_range as Hcr.
  split; [|apply (uses_moved L' (freqElement it)); [done|by rewrite Hf, decide_True|]].
  2:{ intros e k' He Hne Hk'. rewrite Hf, decide_False; [done|]. intros <-.
      rewrite Hbc in Hk'. assert (k' ∈ items_ ce ∖ {[k]}) as Hin.
      { apply elem_of_difference. split; [done|]. by rewrite elem_of_singleton. }
      rewrite Hempty in Hin. by apply not_elem_of_empty in Hin. }
  apply (moved_inv L L' k (freqElement it)); try done.
  - intros e k' He. change (freqList L') with (freqList L) in He.
    rewrite Hb. case_decide as Hc.
    + rewrite <- Hc, Hbc, elem_of_union, elem_of_difference, elem_of_singleton.
      split.
      * intros [->|[? ?]]; [by left|]. by right.
      * intros [[-> _]|(? & _ & ?)]; auto.
    + split.
      * intros Hk'. right. split_and!; [|done|done].
        intros ->. by apply (not_elsewhere e He).
      * intros [[_ ?]|(_ & _ & ?)]; done.
  - intros e He Hne. change (freqList L') with (freqList L) in He.
    rewrite Hf, decide_False by done. split_and!; [done|done|].
    intros _ Heq. apply (not_elsewhere e He); [done|]. rewrite Heq. set_solver.
  - destruct (inv_head L HI) as (h & rest & Hl & Hh). exists h, rest.
    split; [done|]. rewrite Hf, decide_False; [done|]. intros <-.
    rewrite cur_freqOf in Hh. done.
  - rewrite Hf, decide_True by done. lia.
Qed.

Lemma spliced_inv :
  isRemovableFreqEntry (leftBucket k ce) = false →
  freq ce + 1 < 2 ^ 64 →
  (∀ b, b ∈ post → freq ce + 1 < freqOf L b) →
  lfu_inv (spliced L k (freqElement it) ce) ∧ countedHit L k (spliced L k (freqElement it) ce).
Proof.
  intros Hrm Hmax Hpost.
  destruct (spliced_ok L k it ce pre post Hit Hce Hfl (inv_ascending L HI)
              (inv_linked L HI) Hpost) as (Hasc & Hlink & _).
  set (L' := spliced L k (freqElement it) ce) in *.
  pose proof cur_in as Hcin. pose proof cur_bucket as Hbc.
  pose proof cur_range as Hcr. pose proof cur_freqOf as Hfc.
  assert (∀ e, e ∈ freqList L → e ≠ nextElem L) as Hfresh.
  { intros e He ->. destruct (inv_linked L HI _ He) as [_ ?]. lia. }
  assert (∀ e, bucket L' e
               = if decide (nextElem L = e) then {[k]} ∪ ∅
                 else if decide ((freqElement it) = e) then items_ ce ∖ {[k]} else bucket L e)
    as Hb.
  { intros e. unfold bucket, L', spliced. simpl. by rewrite !(bucket_insert L). }
  assert (∀ e, freqOf L' e
               = if decide (nextElem L = e) then freq ce + 1 else freqOf L e)
    as Hf.
  { intros e. unfold freqOf, L', spliced. simpl. rewrite !freq_insert.
    repeat case_decide; subst; rewrite ?Hce; done. }
  assert (freqList L' = pre ++ (freqElement it) :: nextElem L :: post) as Hfl'.
  { unfold L', spliced. simpl. rewrite Hfl. by apply InsertAfter_split. }
  assert (∀ e, e ∈ freqList L' ↔ e = nextElem L ∨ e ∈ freqList L) as Hin.
  { intros e. rewrite Hfl', Hfl. clear. set_solver. }
  split; [|apply (uses_moved L' (nextElem L)); [done|by rewrite Hf, decide_True|]].
  2:{ intros e k' He Hne Hk'. rewrite Hf, decide_False; [done|].
      apply not_eq_sym. by apply Hfresh. }
  apply (moved_inv L L' k (nextElem L)); try done.
  - apply Hin. by left.
  - intros e k' He. rewrite Hb. case_decide as Hn.
    + rewrite elem_of_union, elem_of_singleton. split.
      * intros [->|?%elem_of_empty]; [by left|done].
      * intros [[-> _]|(_ & Hl & _)]; [by left|]. subst e. by destruct (Hfresh _ Hl).
    + apply Hin in He as [->|He]; [done|]. case_decide as Hc.
      * rewrite <- Hc, Hbc, elem_of_difference, elem_of_singleton. split.
        -- intros [? ?]. by right.
        -- intros [[_ ?]|(? & _ & ?)]; first [done|congruence].
      * split.
        -- intros Hk'. right. split_and!; [|done|done].
           intros ->. by apply (not_elsewhere e He).
        -- intros [[_ ?]|(_ & _ & ?)]; first [done|congruence].
  - intros e He Hne. destruct Hne. apply Hin. by right.
  - intros e He Hne. apply Hin in He as [->|He]; [done|].
    rewrite Hf, decide_False by done. split_and!; [done|done|].
    intros Hnz. destruct (decide (e = (freqElement it))) as [->|Hec].
    + by apply not_removable_bucket.
    + intros Heq. apply (not_elsewhere e He Hec). rewrite Heq. set_solver.
  - destruct (inv_head L HI) as (h & rest & Hl & Hh).
    assert (h ≠ nextElem L) as Hhn by (apply Hfresh; rewrite Hl; set_solver).
    exists h. rewrite Hfl'. rewrite Hl in Hfl. destruct pre as [|p pre'].
    + injection Hfl as Hh' _. eexists. split; [by rewrite <- Hh'|].
      by rewrite Hf, decide_False.
    + injection Hfl as Hh' _. eexists. split; [by rewrite <- Hh'|].
      by rewrite Hf, decide_False.
  - rewrite Hf, decide_True by done. lia.
Qed.

Lemma joined_inv n ne post' :
  post = n :: post' → elems L !! n = Some ne → freq ne = freq ce + 1 →
  lfu_inv (joined L k (freqElement it) ce n ne) ∧ countedHit L k (joined L k (freqElement it) ce n ne).
Proof.
  intros Hpost Hne Hfreq.
  destruct (joined_ok L k it ce pre post Hit Hce Hfl (inv_ascending L HI)
              (inv_linked L HI) n ne post' Hpost Hne Hfreq) as (Hasc & Hlink & Hpl).
  set (L' := joined L k (freqElement it) ce n ne) in *.
  pose proof cur_in as Hcin. pose proof cur_bucket as Hbc.
  pose proof cur_range as Hcr. pose proof cur_freqOf as Hfc.
  assert (n ∈ freqList L) as Hnin by (rewrite Hfl, Hpost; clear; set_solver).
  assert (n ≠ (freqElement it)) as Hnc.
  { intros Heq. rewrite Heq, Hce in Hne. injection Hne as <-. lia. }
  assert (bucket L n = items_ ne) as Hbn by (unfold bucket; by rewrite Hne).
  assert ((freqElement it) ∉ post) as Hcp.
  { intros Hin. pose proof (asc_NoDup _ _ (inv_ascending L HI)) as Hnd.
    rewrite Hfl in Hnd. apply NoDup_app in Hnd as (_ & _ & Hnd).
    apply NoDup_cons in Hnd as [? _]. done. }
  assert (∀ e, bucket L' e
               = if decide (n = e) then {[k]} ∪ items_ ne
                 else if decide ((freqElement it) = e) then items_ ce ∖ {[k]} else bucket L e)
    as Hb.
  { intros e. unfold bucket, L', joined. simpl. by rewrite !(bucket_insert L). }
  assert (∀ e, freqOf L' e = freqOf L e) as Hf.
  { intros e. unfold freqOf, L', joined. simpl. rewrite !freq_insert.
    repeat case_decide; subst; rewrite ?Hne, ?Hce; done. }
  assert (freqList L' = if isRemovableFreqEntry (leftBucket k ce)
                        then pre ++ post else freqList L) as Hfl'.
  { unfold L', joined. simpl. destruct (isRemovableFreqEntry _); [|done].
    rewrite Hfl. by apply listRemove_split. }
  assert (∀ e, e ∈ freqList L' → e ∈ freqList L) as Hsub.
  { intros e. rewrite Hfl', Hfl. destruct (isRemovableFreqEntry _); [|done].
    clear. set_solver. }
  assert (n ∈ freqList L') as Hnin'.
  { rewrite Hfl', Hfl, Hpost. destruct (isRemovableFreqEntry _); clear; set_solver. }
  assert ((freqElement it) ∈ freqList L' → isRemovableFreqEntry (leftBucket k ce) = false) as Hkept.
  { rewrite Hfl'. destruct (isRemovableFreqEntry _); [|done].
    intros [?|?]%elem_of_app; done. }
  split; [|apply (uses_moved L' n); [done| |done]].
  2:{ rewrite Hf. unfold freqOf. by rewrite Hne. }
  apply (moved_inv L L' k n); try done.
  - intros e k' He. rewrite Hb. case_decide as Hn.
    + rewrite <- Hn, elem_of_union, elem_of_singleton, Hbn. split.
      * intros [->|Hk']; [by left|]. right. split_and!; [|done|done].
        intros ->. apply (not_elsewhere n Hnin Hnc). by rewrite Hbn.
      * intros [[-> _]|(_ & _ & ?)]; auto.
    + case_decide as Hc.
      * rewrite <- Hc, Hbc, elem_of_difference, elem_of_singleton. split.
        -- intros [? ?]. by right.
        -- intros [[_ ?]|(? & _ & ?)]; first [done|congruence].
      * split.
        -- intros Hk'. right. split_and!; [|by apply Hsub|done].
           intros ->. by apply (not_elsewhere e (Hsub e He)).
        -- intros [[_ ?]|(_ & _ & ?)]; first [done|congruence].
  - intros e He Hne'. rewrite Hfl' in Hne'.
    destruct (isRemovableFreqEntry _) eqn:Hrm; [|done].
    assert (e = (freqElement it)) as ->.
    { rewrite Hfl in He. apply elem_of_app in He as [He|He].
      - destruct Hne'. apply elem_of_app. by left.
      - apply elem_of_cons in He as [->|He]; [done|].
        destruct Hne'. apply elem_of_app. by right. }
    apply removable_iff in Hrm as [_ Hrm]. simpl in Hrm. rewrite Hbc.
    intros x Hx. apply elem_of_singleton. destruct (decide (x = k)) as [|Hxk]; [done|].
    assert (x ∈ items_ ce ∖ {[k]}) as Hin' by (clear -Hx Hxk; set_solver).
    rewrite Hrm in Hin'. by apply not_elem_of_empty in Hin'.
  - intros e He Hne'. split_and!; [by apply Hsub|done|].
    intros Hnz. destruct (decide (e = (freqElement it))) as [->|Hec].
    + apply not_removable_bucket; auto.
    + intros Heq. apply (not_elsewhere e (Hsub e He) Hec). rewrite Heq.
      by apply elem_of_singleton.
  - destruct (inv_head L HI) as (h & rest & Hl & Hh). exists h.
    rewrite Hfl'. destruct (isRemovableFreqEntry _) eqn:Hrm.
    + apply removable_iff in Hrm as [Hnz _]. simpl in Hnz.
      rewrite Hl in Hfl. destruct pre as [|p pre'].
      * injection Hfl as Hh' _. rewrite Hh', Hfc in Hh. done.
      * injection Hfl as Hh' _. eexists. split; [by rewrite <- Hh'|]. by rewrite Hf.
    + exists rest. by rewrite Hf.
  - rewrite Hf. by apply (inv_range L HI).
Qed.
End hit.

Lemma increment_stored L k it :
  lfu_inv L → items L !! k = Some it →
  freqOf L (freqElement it) + 1 < 2 ^ 64 →
  ∃ L' t, increment k L = Ok tt L' ∧ lfu_inv L' ∧ countedHit L k L'
    ∧ items L' = alter (setFreqElement t) k (items L)
    ∧ base L' = base L.
Proof.
  intros HI Hit Hmax.
  destruct (handle_bucket L k it HI Hit) as (ce & Hce & Hkce & Hkey & Hcur).
  assert (freqOf L (freqElement it) = freq ce) as Hfc by (unfold freqOf; by rewrite Hce).
  rewrite Hfc in Hmax.
  assert (0 ≤ freq ce) as Hf0.
  { rewrite <- Hfc. by apply (inv_range L HI). }
  destruct (Next_split _ _ Hcur) as (pre & post & Hfl & Hpre & Hnext).
  pose proof (increment_unfold L k it ce Hit Hce (conj Hf0 Hmax)) as Hu.
  cbv zeta in Hu. rewrite Hnext in Hu.
  rewrite ?(bool_decide_eq_true_2 _ Hcur) in Hu.
  pose proof (inv_ascending L HI) as Hasc. unfold ascending in Hasc.
  rewrite Hfl in Hasc. apply asc_split in Hasc as (S1 & S2 & H1 & H2 & H3).
  rewrite Hfc in H2.
  destruct post as [|n post']; simpl in Hu.
  - assert (∀ b, b ∈ @nil nat → freq ce + 1 < freqOf L b) as Hpost
      by (by intros b ?%elem_of_nil).
    destruct (isRemovableFreqEntry (leftBucket k ce)) eqn:Hrm.
    + destruct (relabelled_inv L k it ce pre [] HI Hit Hce Hfl Hpre Hrm Hmax Hpost).
      eexists _, _. split_and!; [exact Hu|done|done|reflexivity|done].
    + destruct (spliced_inv L k it ce pre [] HI Hit Hce Hfl Hpre Hrm Hmax Hpost).
      eexists _, _. split_and!; [exact Hu|done|done|reflexivity|done].
  - assert (n ∈ freqList L) as Hn by (rewrite Hfl; clear; set_solver).
    destruct (inv_linked L HI n Hn) as [[ne Hne] _].
    assert (freq ce < freq ne) as Hlt.
    { specialize (H2 n). unfold freqOf in H2. rewrite Hne in H2. apply H2. left. }
    rewrite lookup_insert_ne in Hu.
    2:{ intros Heq. rewrite Heq, Hne in Hce. injection Hce as <-. lia. }
    rewrite Hne in Hu.
    destruct (bool_decide (freq ce + 1 < freq ne)) eqn:Hgt.
    + apply bool_decide_eq_true in Hgt.
      assert (∀ b, b ∈ n :: post' → freq ce + 1 < freqOf L b) as Hpost.
      { eapply asc_head; [exact S2|done|]. unfold freqOf. by rewrite Hne. }
      destruct (isRemovableFreqEntry (leftBucket k ce)) eqn:Hrm.
      * destruct (relabelled_inv L k it ce pre _ HI Hit Hce Hfl Hpre Hrm Hmax Hpost).
        eexists _, _. split_and!; [exact Hu|done|done|reflexivity|done].
      * destruct (spliced_inv L k it ce pre _ HI Hit Hce Hfl Hpre Hrm Hmax Hpost).
        eexists _, _. split_and!; [exact Hu|done|done|reflexivity|done].
    + apply bool_decide_eq_false in Hgt.
      rewrite bool_decide_eq_true_2 in Hu by lia.
      destruct (joined_inv L k it ce pre _ HI Hit Hce Hfl Hpre n ne post' eq_refl Hne)
        as [? ?]; [lia|].
      eexists _, _. split_and!; [exact Hu|done|done|reflexivity|done].
Qed.

(** *** Reading, and the store *)

Definition view L : gmap K (V * option Z) :=
  (λ it, (value it, expiration it)) <$> items L.

Lemma lfu_bound_sub n L L' :
  lfu_bound n L → lfu_inv L' →
  (∀ e, e ∈ freqList L' → e ∈ freqList L ∧ freqOf L' e = freqOf L e) →
  lfu_bound n L'.
Proof.
  intros [_ Hsafe] HI' Hsub. split; [done|]. intros e He.
  destruct (Hsub e He) as [Hin ->]. by apply Hsafe.
Qed.

Lemma lfu_bound_mono n m L : n ≤ m → lfu_bound n L → lfu_bound m L.
Proof.
  intros Hnm [HI Hb]. split; [done|]. intros e He. specialize (Hb e He). lia.
Qed.

Lemma lfu_inv_stats L (st : stats) :
  lfu_inv L → lfu_inv (setBase (Base.setStats st (base L)) L).
Proof. intros HI. by eapply lfu_inv_frame; [..|exact HI]. Qed.

(** After a counted hit no frequency is more than one above the
    frequencies before: a bucket of a frequency other than 0 holds an
    entry, whose use count has grown by one at most. *)
Lemma hit_bound n L L' k t :
  lfu_bound n L → lfu_inv L' → 0 ≤ n →
  countedHit L k L' → items L' = alter (setFreqElement t) k (items L) →
  lfu_bound (n + 1) L'.
Proof.
  intros [HI Hb] HI' Hn [Hk Hothers] Hitems. split; [done|]. intros e He.
  destruct (decide (freqOf L' e = 0)) as [->|Hnz]; [lia|].
  pose proof (inv_nonempty L' HI' e He Hnz) as Hne.
  apply set_choose_L in Hne as [k' Hk'].
  destruct (inv_bucket L' HI' e k' He Hk') as (it' & Hit' & <-).
  assert (uses L' k' = freqOf L' (freqElement it')) as <-
    by (unfold uses; by rewrite Hit').
  assert (∃ it0, items L !! k' = Some it0) as [it0 Hit0].
  { destruct (decide (k' = k)) as [->|Hne'].
    - rewrite Hitems, lookup_alter_eq in Hit'. destruct (items L !! k); [by eauto|done].
    - rewrite Hitems, lookup_alter_ne in Hit' by done. eauto. }
  assert (uses L k' ≤ n) as Hu.
  { unfold uses. rewrite Hit0. simpl. apply Hb.
    by destruct (inv_handle L HI k' it0 Hit0) as (_ & ? & _). }
  destruct (decide (k' = k)) as [->|Hne]; [lia|]. rewrite (Hothers k' Hne). lia.
Qed.

(** What [get] does: a miss counts a miss; an expired entry is removed
    like an evicted one; a live entry is returned, and counted as one more
    use. *)
Definition getOutcome L k (r : option V) (L' : LFUCache K V E) : Prop :=
  match items L !! k with
  | Some it =>
      if IsExpired it (Base.clock (base L)) None
      then r = None ∧ items L' = delete k (items L)
           ∧ (∀ k', k' ≠ k → uses L' k' = uses L k')
      else r = Some (value it) ∧ countedHit L k L'
           ∧ ∃ t, items L' = alter (setFreqElement t) k (items L)
  | None => r = None ∧ items L' = items L ∧ ∀ k', uses L' k' = uses L k'
  end.

Lemma lfu_get_outcome n L k onLoad :
  lfu_bound n L → 0 ≤ n → n + 1 < 2 ^ 64 →
  ∃ r L', get k onLoad L = Ok r L' ∧ lfu_bound (n + 1) L'
    ∧ (r = None → lfu_bound n L') ∧ getOutcome L k r L'.
Proof.
  intros HB Hn0 Hn. pose proof HB as [HI Hsafe]. unfold getOutcome, get, getValue.
  unfold mbind, M_bind at 1. unfold getS at 1.
  destruct (items L !! k) as [it|] eqn:Hit.
  - destruct (IsExpired it (Base.clock (base L)) None); cbn [negb].
    + destruct (removeItem_stored L k it HI Hit)
        as (L1 & Hrm & HI1 & Hi1 & Hf1 & Hl1 & Hb1).
      unfold M_bind at 1. rewrite Hrm.
      assert (∀ k', k' ≠ k → uses L1 k' = uses L k') as Hu.
      { intros k' Hne. unfold uses. rewrite Hi1, lookup_delete_ne by done.
        destruct (items L !! k'); simpl; [apply Hf1|done]. }
      assert (lfu_bound n L1) as Hs1.
      { apply (lfu_bound_sub n L); [done|done|]. intros e He. split; [auto|apply Hf1]. }
      destruct onLoad; unfold incrMiss, when; munfold; simpl.
      * exists None, L1. split_and!; try done. apply (lfu_bound_mono n); [lia|done].
      * eexists None, _. split; [reflexivity|].
        assert (lfu_bound n (setBase (Base.setStats (IncrMissCount
                   (Base.stats_ (base L1))) (base L1)) L1)) as Hs2
          by (apply (lfu_bound_frame n L1); try done).
        split_and!; try done. apply (lfu_bound_mono n); [lia|done].
    + destruct (handle_bucket L k it HI Hit) as (ce & Hce & _ & _ & Hcur).
      destruct (increment_stored L k it HI Hit)
        as (L1 & t & Hinc & HI1 & Hcount & Hi1 & Hb1).
      { specialize (Hsafe _ Hcur). lia. }
      unfold M_bind at 1. rewrite Hinc.
      pose proof (hit_bound n L L1 k t HB HI1 Hn0 Hcount Hi1) as HB1.
      destruct onLoad; unfold incrHit, when; munfold; simpl.
      * exists (Some (value it)), L1. split_and!; try done; eauto.
      * eexists (Some (value it)), _. split; [reflexivity|].
        split_and!; try done; eauto. apply (lfu_bound_frame (n + 1) L1); try done.
  - destruct onLoad; unfold incrMiss, when; munfold; simpl.
    + exists None, L. split_and!; try done. apply (lfu_bound_mono n); [lia|done].
    + eexists None, _. split; [reflexivity|].
      assert (lfu_bound n (setBase (Base.setStats (IncrMissCount
                 (Base.stats_ (base L))) (base L)) L)) as Hs2
        by (apply (lfu_bound_frame n L); try done).
      split_and!; try done. apply (lfu_bound_mono n); [lia|done].
Qed.

Lemma setItemExpiration_bound n L k t :
  lfu_bound n L → lfu_bound n (setItems (alter (setExpiration (Some t)) k (items L)) L).
Proof.
  intros HS. eapply lfu_bound_frame; [..|exact HS]; try done. simpl. intros j.
  rewrite lookup_alter. case_decide; [subst|done]. by destruct (items L !! _).
Qed.

(** LFU as a store, from a state with no frequency above [n]: a hit
    leaves no frequency above [n + 1]. *)
Lemma lfu_store_bound n :
  0 ≤ n → n + 1 < 2 ^ 64 →
  Store (C:=LFUCache K V E) (lfu_bound n) (lfu_bound (n + 1)) view (λ _ _, True).
Proof.
  intros Hn0 Hn. split.
  - intros c. apply lfu_bound_mono. lia.
  - intros b c HS Hs. by eapply lfu_bound_frame; [..|exact HS].
  - done.
  - done.
  - intros k onLoad. apply LfuFrame.lfu_get_settings.
  - intros k v. apply LfuFrame.lfu_set_settings.
  - intros k t. apply LfuFrame.lfu_setItemExpiration_settings.
  - intros k onLoad c HS.
    destruct (lfu_get_outcome n c k onLoad HS Hn0 Hn) as (r & c' & Hg & HI' & Hs' & Ho).
    exists r, c'. split_and!; try done. unfold getOutcome in Ho. unfold view.
    rewrite lookup_fmap. simpl.
    destruct (items c !! k) as [it|] eqn:Hit; simpl.
    + unfold IsExpired in Ho. destruct (isExpired _ _ _).
      * destruct Ho as (-> & -> & _). by rewrite fmap_delete.
      * destruct Ho as (-> & _ & t & ->). split; [done|].
        apply map_eq. intros j. rewrite !lookup_fmap, lookup_alter.
        case_decide; [subst|done]. by rewrite Hit.
    + destruct Ho as (-> & -> & _). done.
  - intros k v c HS _. pose proof HS as [HI Hsafe].
    destruct (lfu_set_outcome c k v HI) as (victim & c' & Hset & HI' & Hsub & Hsz & Ho).
    exists c'. split_and!; [done| |].
    + by apply (lfu_bound_sub n c).
    + destruct Ho as ((e & Hi & _) & _). unfold view.
      rewrite Hi, !lookup_fmap, lookup_insert_eq. simpl. unfold written.
      by destruct (items c !! k).
  - intros k t c HS. eexists. split; [reflexivity|]. split.
    + by apply setItemExpiration_bound.
    + unfold view. simpl. apply map_eq. intros j.
      rewrite lookup_fmap. destruct (decide (j = k)) as [->|].
      * rewrite !lookup_alter_eq, lookup_fmap. by destruct (items c !! k).
      * rewrite !lookup_alter_ne, lookup_fmap by done. done.
Qed.

Lemma lfu_store :
  Store (C:=LFUCache K V E) lfu_safe lfu_inv view (λ _ _, True).
Proof.
  apply (Store_weaken _ (lfu_bound (2 ^ 64 - 2 + 1))); [|by intros c [? _]].
  apply lfu_store_bound; lia.
Qed.

(** LFU: [Set] of a stored key writes the value and evicts nothing; [Set]
    of a new key files it with a use count of 0 and, on a cache at capacity
    ([size ≤ len], with at least one entry), first evicts one entry, whose
    use count is the least of all.  The use counts of the other entries
    are as before, and the invariant is kept. *)
Theorem lfu_set_evicts_least_used L k v :
  lfu_inv L →
  ∃ (victim : option K) L',
    Set_ k v L = Ok tt L' ∧ lfu_inv L'
    ∧ view L'
      = <[k := (v, expiryAfterSet (base L) (view L !! k ≫= snd))]>
          (match victim with Some k0 => delete k0 (view L) | None => view L end)
    ∧ uses L' k = uses L k
    ∧ (∀ k', k' ≠ k → victim ≠ Some k' → uses L' k' = uses L k')
    ∧ match victim with
      | Some k0 =>
          view L !! k = None
          ∧ Base.size (base L) ≤ Z.of_nat (size (view L))
          ∧ is_Some (view L !! k0)
          ∧ ∀ k', is_Some (view L !! k') → uses L k0 ≤ uses L k'
      | None =>
          is_Some (view L !! k)
          ∨ Z.of_nat (size (view L)) < Base.size (base L)
          ∨ view L = ∅
      end.
Proof.
  intros HI.
  destruct (lfu_set_outcome L k v HI) as (victim & L' & Hset & HI' & Hsub & Hsz & Ho).
  destruct Ho as ((e & Hi & He & Hfe) & Hev & Hvic).
  exists victim, L'. split_and!; try done.
  - unfold view. rewrite Hi, fmap_insert. simpl. rewrite lookup_fmap. f_equal.
    + unfold written. simpl. by destruct (items L !! k).
    + destruct victim; [by rewrite fmap_delete|done].
  - unfold uses. rewrite Hi, lookup_insert_eq. simpl. rewrite Hfe.
    by destruct (items L !! k).
  - intros k' Hne Hv. unfold uses. rewrite Hi, lookup_insert_ne by done.
    assert (items L' !! k' = items L !! k'
            ∨ (items L' !! k' = None ∧ victim = Some k')) as [Heq|[_ ?]]; [| |done].
    { rewrite Hi, lookup_insert_ne by done. destruct victim as [k0|]; [|by left].
      destruct (decide (k0 = k')) as [->|]; [done|].
      left. by rewrite lookup_delete_ne. }
    rewrite Hi, lookup_insert_ne in Heq by done. rewrite Heq.
    destruct (items L !! k') as [it'|] eqn:Hit'; [|done]. simpl.
    assert (items L' !! k' = Some it') as Hit''.
    { rewrite Hi, lookup_insert_ne by done. by rewrite Heq. }
    destruct (inv_handle L' HI' k' it' Hit'') as (_ & Hin & _).
    by destruct (Hsub _ Hin) as [_ ->].
  - unfold view. rewrite map_size_fmap.
    destruct victim as [k0|].
    + destruct Hvic as (Hk & Hfull & it0 & Hit0 & Hmin).
      rewrite !lookup_fmap, Hk, Hit0. simpl.
      split; [done|]. split; [done|]. split; [by eauto|].
      intros k' [p Hk']. rewrite lookup_fmap in Hk'.
      destruct (items L !! k') as [it'|] eqn:Hit'; [|done].
      unfold uses. rewrite Hit0, Hit'. simpl. by apply (Hmin k').
    + rewrite lookup_fmap, fmap_is_Some, fmap_empty_iff. done.
Qed.

(** LFU: a [Get] that hits returns the value, leaves the entries as they
    are, adds one to the use count of the entry read and leaves the use
    counts of the others; the invariant is kept.  The precondition asks
    that no use count is at the last [uint] value. *)
Theorem lfu_hit_counts_use L k v :
  lfu_safe L → hits view L k v →
  ∃ L', Common.Get k L = Ok (Common.GetReturn (Some v) None) L'
    ∧ lfu_inv L' ∧ view L' = view L
    ∧ uses L' k = uses L k + 1
    ∧ ∀ k', k' ≠ k → uses L' k' = uses L k'.
Proof.
  intros HS (ex & Hv & Hex).
  unfold view in Hv. rewrite lookup_fmap in Hv.
  destruct (items L !! k) as [it|] eqn:Hit; [|done]. simpl in Hv.
  injection Hv as <- <-.
  destruct (lfu_get_outcome _ L k false HS) as (r & L' & Hg & [HI' _] & _ & Ho);
    [lia..|].
  unfold getOutcome in Ho. rewrite Hit in Ho. unfold IsExpired in Ho.
  simpl in Hex. rewrite Hex in Ho. destruct Ho as (-> & [Hk Hothers] & t & Hi).
  exists L'. split_and!; try done.
  - unfold Common.Get. change (c_get k false L) with (get k false L).
    by rewrite (bind_Ok _ _ _ _ _ Hg).
  - unfold view. rewrite Hi. apply map_eq. intros j.
    rewrite !lookup_fmap, lookup_alter. case_decide; [subst|done]. by rewrite Hit.
Qed.

(** What [Remove] does, in terms of the entries. *)
Lemma lfu_Remove L k :
  lfu_inv L →
  match view L !! k with
  | Some (v, _) =>
      ∃ L', Remove k L = Ok true L' ∧ lfu_inv L' ∧ view L' = delete k (view L)
        ∧ Base.events (base L')
          = Base.events (base L)
            ++ (if Base.evictedFunc (base L) then [Evicted k v] else [])
        ∧ Remove k L' = Ok false L'
  | None => Remove k L = Ok false L
  end.
Proof.
  intros HI. unfold view. rewrite lookup_fmap.
  assert (∀ L0 : LFUCache K V E,
            Remove k L0 = match items L0 !! k with
                          | Some _ => (removeItem k;; mret true) L0
                          | None => Ok false L0
                          end) as Hunf.
  { intros L0. unfold Remove, remove, mbind, M_bind at 1. unfold getS.
    by destruct (items L0 !! k). }
  destruct (items L !! k) as [it|] eqn:Hk; simpl; [|by rewrite Hunf, Hk].
  destruct (removeItem_stored L k it HI Hk) as (L1 & Hrm & HI1 & Hi1 & _ & _ & Hb1).
  exists L1. rewrite !Hunf, Hk, (bind_Ok _ _ _ _ _ Hrm), Hi1, lookup_delete_eq.
  split_and!; try done.
  - by rewrite fmap_delete.
  - rewrite Hb1. apply callEvicted_fields.
Qed.

Lemma lfu_Remove_bound n L k :
  lfu_bound n L →
  ∃ r L', Remove k L = Ok r L' ∧ lfu_bound n L'
          ∧ Base.size (base L') = Base.size (base L).
Proof.
  intros HB. pose proof HB as [HI _]. unfold Remove, remove.
  unfold mbind, M_bind at 1. unfold getS.
  destruct (items L !! k) as [it|] eqn:Hk; [|by eauto].
  destruct (removeItem_stored L k it HI Hk) as (L1 & Hrm & HI1 & _ & Hf1 & Hl1 & Hb1).
  unfold M_bind. rewrite Hrm. exists true, L1. split_and!; [done| |].
  - apply (lfu_bound_sub n L); [done|done|]. intros e He. split; [auto|apply Hf1].
  - rewrite Hb1. apply callEvicted_fields.
Qed.

End facts.
End LfuStore.

(** ** Sequences of operations *)

Module Sequences.
Import Common StoreFacts.
Section seq.
Context {K V E : Type} `{HeqK : EqDecision K, HcntK : !Countable K}.
Context {C : Type} `{!Cache K V E C}.
Implicit Types (c : C) (k : K) (v : V).

(** What a client, its clock and the scheduler can do to a cache, one
    operation at a time: the writes, the reads, an advance of the fake
    clock, and the run of the oldest goroutine that a [GetIfPresent] has
    dispatched. *)
Inductive op : Type :=
  | DoSet (k : K) (v : V)
  | DoSetWithExpire (k : K) (v : V) (d : Z)
  | DoGet (k : K)
  | DoGetIfPresent (k : K)
  | DoRemove (k : K)
  | DoAdvance (d : Z)
  | DoGoroutine.

Section run.
Context (Set_ : K → V → M C unit) (SetWithExpire : K → V → Z → M C unit)
        (Remove : K → M C bool).

Definition step (o : op) : M C unit :=
  match o with
  | DoSet k v => Set_ k v
  | DoSetWithExpire k v d => SetWithExpire k v d
  | DoGet k => Get k;; mret tt
  | DoGetIfPresent k => GetIfPresent k;; mret tt
  | DoRemove k => Remove k;; mret tt
  | DoAdvance d => Clock.Advance d
  | DoGoroutine => runGoroutine
  end.

Fixpoint steps (l : list op) : M C unit :=
  match l with
  | [] => mret tt
  | o :: l => step o;; steps l
  end.
End run.

Section store.
Context (Safe Inv : C → Prop) (view : C → gmap K (V * option Z))
        (settable : C → K → Prop) (HS : Store Safe Inv view settable).
Context (Remove : K → M C bool).
Hypothesis Hall : ∀ c k, settable c k.
Hypothesis HR : ∀ c k, Safe c →
  ∃ r c', Remove k c = Ok r c' ∧ Safe c'
          ∧ Base.size (c_base c') = Base.size (c_base c).

Lemma loaderCallback_safe k v ex e c :
  Safe c →
  ∃ r c', loaderCallback k v ex e c = Ok r c' ∧ Safe c'
          ∧ settingsOf c' = settingsOf c.
Proof.
  intros HI. unfold loaderCallback. destruct e as [e|]; [by eauto 10|].
  destruct (set_step _ _ _ _ HS k v c HI (Hall c k)) as (c1 & Hset & HI1 & Hs1 & _).
  rewrite (bind_Ok _ _ _ _ _ Hset).
  destruct ex as [d|]; simpl.
  - destruct (sie_step _ _ _ _ HS k (Base.clock (c_base c1) + d) c1 HI1)
      as (c2 & Hsie & HI2 & Hs2 & _).
    exists (Some v, None), c2. munfold. rewrite Hsie. split_and!; try done. congruence.
  - exists (Some v, None), c1. munfold. done.
Qed.

Lemma loadFn_safe ld k c :
  Safe c →
  ∃ r c', loadFn ld k (loaderCallback k) c = Ok r c' ∧ Safe c'
          ∧ settingsOf c' = settingsOf c.
Proof.
  intros HI. unfold loadFn, recover. destruct (ld k) as [v ex e|].
  - destruct (loaderCallback_safe k v ex e c HI) as (r & c' & -> & ?). eauto.
  - eexists _, c. done.
Qed.

Lemma runGoroutine_safe c :
  Safe c →
  ∃ c', runGoroutine c = Ok tt c' ∧ Safe c'
        ∧ optionsOf (c_base c') = optionsOf (c_base c).
Proof.
  intros HI. unfold runGoroutine. unfold mbind, M_bind at 1. unfold getS at 1.
  destruct (Flight.goroutines (Base.group (c_base c))) as [|k rest]; [by eauto|].
  destruct (modifyGroup_step _ _ _ _ HS (Flight.setGoroutines rest) c HI)
    as (c1 & Hm1 & HI1 & _ & Hb1).
  unfold M_bind at 1. rewrite Hm1.
  assert (∃ r c2,
            match Base.loaderExpireFunc (c_base c) with
            | Some ld => loadFn ld k (loaderCallback k)
            | None => mret (None, Some LoaderPanic)
            end c1 = Ok r c2 ∧ Safe c2 ∧ settingsOf c2 = settingsOf c1)
    as (r & c2 & Hfn & HI2 & Hs2).
  { destruct (Base.loaderExpireFunc (c_base c)) as [ld|]; [|by eauto 10].
    by apply loadFn_safe. }
  cbv zeta. unfold call. unfold M_bind at 1. rewrite (bind_Ok _ _ _ _ _ Hfn).
  match goal with |- context [modifyGroup ?f ≫= _] =>
    destruct (modifyGroup_step _ _ _ _ HS f c2 HI2) as (c3 & Hm3 & HI3 & _ & Hb3) end.
  rewrite (bind_Ok _ _ _ _ _ Hm3).
  match goal with |- context [modifyGroup ?f ≫= _] =>
    destruct (modifyGroup_step _ _ _ _ HS f c3 HI3) as (c4 & Hm4 & HI4 & _ & Hb4) end.
  rewrite (bind_Ok _ _ _ _ _ Hm4). simpl.
  exists c4. split_and!; try done.
  destruct (settings_split _ _ Hs2) as [Ho2 _].
  rewrite Hb4, Hb3. simpl. change (optionsOf (c_base c2) = optionsOf (c_base c)).
  rewrite Ho2, Hb1. done.
Qed.

Lemma options_size (b b' : Base.baseCache K V E) :
  optionsOf b' = optionsOf b → Base.size b' = Base.size b.
Proof. unfold optionsOf. by intros [= _ -> _]. Qed.

(** One operation from a safe state returns, keeps the capacity and
    leaves a state that satisfies the invariant. *)
Lemma step_keeps o c :
  Safe c →
  ∃ c', step c_set (setWithExpire (C:=C)) Remove o c = Ok tt c' ∧ Inv c'
        ∧ Base.size (c_base c') = Base.size (c_base c).
Proof.
  intros HI. pose proof (store_safe_inv _ _ _ _ HS) as Hsi.
  destruct o as [k v|k v d|k|k|k|d|]; simpl.
  - destruct (set_step _ _ _ _ HS k v c HI (Hall c k)) as (c' & Hset & HI' & Hs & _).
    exists c'. split_and!; [done|by apply Hsi|].
    by destruct (settings_fields _ _ Hs) as (_ & ? & _).
  - destruct (setWithExpire_step _ _ _ _ HS k v d c HI (Hall c k))
      as (c' & Hset & HI' & Hs & _).
    exists c'. split_and!; [done|by apply Hsi|].
    by destruct (settings_fields _ _ Hs) as (_ & ? & _).
  - destruct (read_inv _ _ _ _ HS k true c HI) as (r & c' & Hg & HI' & Ho).
    exists c'. unfold Get. rewrite (bind_Ok _ _ _ _ _ Hg).
    split_and!; [done|done|by apply options_size].
  - destruct (read_inv _ _ _ _ HS k false c HI) as (r & c' & Hg & HI' & Ho).
    exists c'. unfold GetIfPresent. rewrite (bind_Ok _ _ _ _ _ Hg).
    split_and!; [done|done|by apply options_size].
  - destruct (HR c k HI) as (r & c' & Hrm & HI' & Hsz).
    exists c'. rewrite (bind_Ok _ _ _ _ _ Hrm). split_and!; [done|by apply Hsi|done].
  - destruct (Advance_step _ _ _ _ HS d c HI) as (c' & Hadv & HI' & _ & Hb).
    exists c'. split_and!; [done|by apply Hsi|by rewrite Hb].
  - destruct (runGoroutine_safe c HI) as (c' & Hrun & HI' & Ho).
    exists c'. split_and!; [done|by apply Hsi|by apply options_size].
Qed.
End store.

(** A sequence of operations, for a family [P n] of invariants where each
    operation takes [P n] to [P (n + 1)], as long as [n] is below [bound]. *)
Lemma steps_keep (Set_ : K → V → M C unit) (SetWithExpire : K → V → Z → M C unit)
    (Remove : K → M C bool) (P : nat → C → Prop) (bound : nat) :
  (∀ n o c, (n < bound)%nat → P n c →
     ∃ c', step Set_ SetWithExpire Remove o c = Ok tt c' ∧ P (S n) c') →
  ∀ l n c, (n + length l ≤ bound)%nat → P n c →
    ∃ c', steps Set_ SetWithExpire Remove l c = Ok tt c' ∧ P (n + length l)%nat c'.
Proof.
  intros Hstep l. induction l as [|o l IH]; intros n c Hn HP; simpl in *.
  - exists c. by rewrite Nat.add_0_r.
  - destruct (Hstep n o c) as (c1 & H1 & HP1); [lia|done|].
    destruct (IH (S n) c1) as (c2 & H2 & HP2); [lia|done|].
    exists c2. rewrite (bind_Ok _ _ _ _ _ H1).
    replace (n + S (length l))%nat with (S n + length l)%nat by lia. done.
Qed.
End seq.
Arguments op : clear implicits.
End Sequences.

(** ** No sequence of operations fails or overfills an LRU or LFU cache *)

Module CapacityFacts.
Import Common StoreFacts Sequences.
Section facts.
Context {K V E : Type} `{HeqK : EqDecision K, HcntK : !Countable K}.

Lemma lru_size_list (c : Lru.LRUCache K V E) :
  LruFacts.lru_inv c → size (Lru.items c) = length (Lru.evictList c).
Proof.
  intros (Hnd & Hdom & _). rewrite <- size_dom, Hdom. by apply size_list_to_set.
Qed.

Lemma lru_Remove_inv (c : Lru.LRUCache K V E) k :
  LruFacts.lru_inv c →
  ∃ r c', Lru.Remove k c = Ok r c' ∧ LruFacts.lru_inv c'
          ∧ Base.size (c_base c') = Base.size (c_base c).
Proof.
  intros HI. pose proof (LruFacts.lru_Remove c k HI) as HR.
  assert (∀ r c', Lru.Remove k c = Ok r c' →
            Base.size (c_base c') = Base.size (c_base c)) as Hsz.
  { intros r c' Hrm.
    pose proof (keeps_Ok settingsOf _ _ _ _ (LruFrame.lru_remove_settings k) Hrm) as Hs.
    by destruct (settings_fields _ _ Hs) as (_ & ? & _). }
  destruct (LruFacts.view c !! k) as [[v e]|].
  - destruct HR as (c' & Hrm & HI' & _). eauto 10.
  - eauto 10.
Qed.

(** LRU: every sequence of [Set], [SetWithExpire], [Get], [GetIfPresent],
    [Remove], advances of the clock and runs of dispatched goroutines, on a
    new cache with any options and any loader, runs to its end: no
    operation panics, the invariant holds, and the cache then holds at most
    [max(1, size)] entries, which is what [Len(false)] returns. *)
Theorem lru_never_exceeds_capacity (b : Base.baseCache K V E)
    (ops : list (op K V)) (now : Z) :
  ∃ c, steps Lru.Set_ Lru.SetWithExpire Lru.Remove ops (Lru.init b) = Ok tt c
       ∧ LruFacts.lru_inv c
       ∧ Lru.Len now false c = Ok (Z.of_nat (size (Lru.items c))) c
       ∧ Z.of_nat (size (Lru.items c)) ≤ Z.max 1 (Base.size b).
Proof.
  destruct (steps_keep (K:=K) (V:=V) (E:=E) Lru.Set_ Lru.SetWithExpire Lru.Remove
              (λ _ c, LruFacts.lru_inv c ∧ Base.size (Lru.base c) = Base.size b)
              (length ops)) with (l := ops) (n := 0%nat) (c := Lru.init b)
    as (c & Hrun & HI & Hsz).
  - intros n o c _ [HI Hsz].
    destruct (step_keeps _ _ _ _ LruFacts.lru_store Lru.Remove (λ _ _, I)
                lru_Remove_inv o c HI) as (c' & Hstep & HI' & Hsz').
    exists c'. split_and!; [done|done|]. simpl in Hsz'. congruence.
  - done.
  - split; [apply LruFacts.lru_inv_init|done].
  - exists c. split_and!; try done.
    rewrite (lru_size_list c HI). destruct HI as (_ & _ & _ & Hcap).
    by rewrite <- Hsz.
Qed.

(** LFU: the same, for sequences of fewer than [2^64 - 1] operations, so
    that no use count can reach the last [uint] value: no operation
    panics, the invariant holds, and the cache holds at most [max(1, size)]
    entries. *)
Theorem lfu_never_exceeds_capacity (b : Base.baseCache K V E)
    (ops : list (op K V)) (now : Z) :
  Z.of_nat (length ops) < 2 ^ 64 - 1 →
  ∃ L, steps Lfu.Set_ Lfu.SetWithExpire Lfu.Remove ops (Lfu.init b) = Ok tt L
       ∧ LfuStore.lfu_inv L
       ∧ Lfu.Len now false L = Ok (Z.of_nat (size (Lfu.items L))) L
       ∧ Z.of_nat (size (Lfu.items L)) ≤ Z.max 1 (Base.size b).
Proof.
  intros Hlen.
  destruct (steps_keep (K:=K) (V:=V) (E:=E) Lfu.Set_ Lfu.SetWithExpire Lfu.Remove
              (λ n L, LfuStore.lfu_bound (Z.of_nat n) L
                      ∧ Base.size (Lfu.base L) = Base.size b)
              (length ops)) with (l := ops) (n := 0%nat) (c := Lfu.init b)
    as (L & Hrun & [HI _] & Hsz).
  - intros n o L Hn [HB Hsz].
    destruct (step_keeps _ _ _ _ (LfuStore.lfu_store_bound (Z.of_nat n)
                                    ltac:(lia) ltac:(lia))
                Lfu.Remove (λ _ _, I) (LfuStore.lfu_Remove_bound (Z.of_nat n))
                o L HB) as (L' & Hstep & HB' & Hsz').
    exists L'. split_and!; [done| |simpl in Hsz'; congruence].
    by rewrite Nat2Z.inj_succ.
  - done.
  - split; [|done]. destruct (LfuStore.lfu_inv_init b) as [HI Hb].
    split; [done|]. intros e He. specialize (Hb e He).
    unfold Lfu.init in He. simpl in He. apply list_elem_of_singleton in He as ->.
    unfold LfuFacts.freqOf. simpl. by rewrite lookup_singleton_eq.
  - exists L. split_and!; try done.
    rewrite <- Hsz. apply (LfuStore.inv_capacity L HI).
Qed.
End facts.
End CapacityFacts.

(** ** Laws that hold for the four policies *)

Module PolicyLaws.
Import Common StoreFacts.
Section laws.
Context {K V E : Type} `{HeqK : EqDecision K, HcntK : !Countable K}.

(** Round trip: [Set(k, v)] returns and leaves an entry for [k]; the
    [Get(k)] that follows returns [v], unless the entry is expired at
    once (a negative default expiration, or no default expiration and an
    overwritten entry that had already expired): then a cache without a
    loader reports [KeyNotFoundError] and drops the entry.  For SIMPLE, LRU
    and LFU with any key, and for ARC with a key that has no entry yet.
    See [roundTrip]. *)
Theorem set_get_round_trip :
  roundTrip (C:=Simple.SimpleCache K V E) (λ _, True) SimpleFacts.view (λ _ _, True) Simple.Set_
  ∧ roundTrip (C:=Lru.LRUCache K V E) LruFacts.lru_inv LruFacts.view (λ _ _, True) Lru.Set_
  ∧ roundTrip (C:=Lfu.LFUCache K V E) LfuStore.lfu_safe LfuStore.view (λ _ _, True) Lfu.Set_
  ∧ roundTrip (C:=Arc.ARCCache K V E) ArcStore.arc_store_inv ArcStore.view
      (λ c k, ArcStore.view c !! k = None) Arc.Set_.
Proof.
  split_and!.
  - exact (roundTrip_holds _ _ _ _ SimpleFacts.simple_store).
  - exact (roundTrip_holds _ _ _ _ LruFacts.lru_store).
  - exact (roundTrip_holds _ _ _ _ LfuStore.lfu_store).
  - exact (roundTrip_holds _ _ _ _ ArcStore.arc_store).
Qed.

(** Expiration: after [SetWithExpire(k, v, d)] and an advance of the
    clock by [t], [Get(k)] returns [v] when [t ≤ d], the instant of
    expiration included; when [d < t] a cache without a loader reports
    [KeyNotFoundError] and drops the entry.  For the four policies (ARC:
    a key that has no entry yet).  See [expiresAfter]. *)
Theorem entry_expires_after_its_duration :
  expiresAfter (C:=Simple.SimpleCache K V E) (λ _, True) SimpleFacts.view (λ _ _, True)
    Simple.SetWithExpire
  ∧ expiresAfter (C:=Lru.LRUCache K V E) LruFacts.lru_inv LruFacts.view (λ _ _, True)
      Lru.SetWithExpire
  ∧ expiresAfter (C:=Lfu.LFUCache K V E) LfuStore.lfu_safe LfuStore.view (λ _ _, True)
      Lfu.SetWithExpire
  ∧ expiresAfter (C:=Arc.ARCCache K V E) ArcStore.arc_store_inv ArcStore.view
      (λ c k, ArcStore.view c !! k = None) Arc.SetWithExpire.
Proof.
  split_and!.
  - exact (expiresAfter_holds _ _ _ _ SimpleFacts.simple_store).
  - exact (expiresAfter_holds _ _ _ _ LruFacts.lru_store).
  - exact (expiresAfter_holds _ _ _ _ LfuStore.lfu_store).
  - exact (expiresAfter_holds _ _ _ _ ArcStore.arc_store).
Qed.

(** Loading: a [Get] that misses, with a loader and no load of the key in
    flight, calls the loader; its value is returned and stored with the
    loader's expiration or the default one, no descriptor stays in the
    registry, and while the entry is live the next [Get] is a hit.  For
    the four policies.  See [loadsOnMiss]. *)
Theorem get_loads_on_miss :
  loadsOnMiss (C:=Simple.SimpleCache K V E) (λ _, True) SimpleFacts.view
  ∧ loadsOnMiss (C:=Lru.LRUCache K V E) LruFacts.lru_inv LruFacts.view
  ∧ loadsOnMiss (C:=Lfu.LFUCache K V E) LfuStore.lfu_safe LfuStore.view
  ∧ loadsOnMiss (C:=Arc.ARCCache K V E) ArcStore.arc_store_inv ArcStore.view.
Proof.
  split_and!.
  - exact (loadsOnMiss_holds _ _ _ _ SimpleFacts.simple_store).
  - exact (loadsOnMiss_holds _ _ _ _ LruFacts.lru_store).
  - exact (loadsOnMiss_holds _ _ _ _ LfuStore.lfu_store).
  - exact (loadsOnMiss_holds _ _ _ _ ArcStore.arc_store).
Qed.

(** A failing loader: when the loader returns an error, or panics, the
    [Get] returns that error, or [LoaderPanic]; nothing is stored and no
    descriptor stays in the registry.  For the four policies.  See
    [loaderFailure]. *)
Theorem loader_failure_stores_nothing :
  loaderFailure (C:=Simple.SimpleCache K V E) (λ _, True) SimpleFacts.view
  ∧ loaderFailure (C:=Lru.LRUCache K V E) LruFacts.lru_inv LruFacts.view
  ∧ loaderFailure (C:=Lfu.LFUCache K V E) LfuStore.lfu_safe LfuStore.view
  ∧ loaderFailure (C:=Arc.ARCCache K V E) ArcStore.arc_store_inv ArcStore.view.
Proof.
  split_and!.
  - exact (loaderFailure_holds _ _ _ _ SimpleFacts.simple_store).
  - exact (loaderFailure_holds _ _ _ _ LruFacts.lru_store).
  - exact (loaderFailure_holds _ _ _ _ LfuStore.lfu_store).
  - exact (loaderFailure_holds _ _ _ _ ArcStore.arc_store).
Qed.

(** Deferred loading: a [GetIfPresent] that misses, with a loader,
    reports [KeyNotFoundError] at once and dispatches one goroutine; asking
    again while the load is pending dispatches no second one; once the
    goroutine has run the value is stored and [Get] returns it.  For the
    four policies.  See [deferredLoad]. *)
Theorem get_if_present_loads_in_background :
  deferredLoad (C:=Simple.SimpleCache K V E) (λ _, True) SimpleFacts.view
  ∧ deferredLoad (C:=Lru.LRUCache K V E) LruFacts.lru_inv LruFacts.view
  ∧ deferredLoad (C:=Lfu.LFUCache K V E) LfuStore.lfu_safe LfuStore.view
  ∧ deferredLoad (C:=Arc.ARCCache K V E) ArcStore.arc_store_inv ArcStore.view.
Proof.
  split_and!.
  - exact (deferredLoad_holds _ _ _ _ SimpleFacts.simple_store).
  - exact (deferredLoad_holds _ _ _ _ LruFacts.lru_store).
  - exact (deferredLoad_holds _ _ _ _ LfuStore.lfu_store).
  - exact (deferredLoad_holds _ _ _ _ ArcStore.arc_store).
Qed.

(** Waiting: a [Get] that misses while a load of its key is in flight
    waits for that load and does not call the loader, for the four
    policies.  See [waitsInFlight]. *)
Theorem get_waits_for_load_in_flight :
  waitsInFlight (C:=Simple.SimpleCache K V E) (λ _, True) SimpleFacts.view
  ∧ waitsInFlight (C:=Lru.LRUCache K V E) LruFacts.lru_inv LruFacts.view
  ∧ waitsInFlight (C:=Lfu.LFUCache K V E) LfuStore.lfu_safe LfuStore.view
  ∧ waitsInFlight (C:=Arc.ARCCache K V E) ArcStore.arc_store_inv ArcStore.view.
Proof.
  split_and!.
  - exact (waitsInFlight_holds _ _ _ _ SimpleFacts.simple_store).
  - exact (waitsInFlight_holds _ _ _ _ LruFacts.lru_store).
  - exact (waitsInFlight_holds _ _ _ _ LfuStore.lfu_store).
  - exact (waitsInFlight_holds _ _ _ _ ArcStore.arc_store).
Qed.

(** Removal: [Remove] of a stored key deletes its entry, expired or not,
    reports it to the eviction callback and returns [true]; a [Remove] of
    a key that is not stored returns [false] and changes nothing; for the
    four policies.  See [removes]. *)
Theorem remove_deletes_entry :
  removes (C:=Simple.SimpleCache K V E) (λ _, True) SimpleFacts.view Simple.Remove
  ∧ removes (C:=Lru.LRUCache K V E) LruFacts.lru_inv LruFacts.view Lru.Remove
  ∧ removes (C:=Lfu.LFUCache K V E) LfuStore.lfu_inv LfuStore.view Lfu.Remove
  ∧ removes (C:=Arc.ARCCache K V E) ArcStore.arc_store_inv ArcStore.view Arc.Remove_.
Proof.
  split_and!.
  - intros c k _. pose proof (SimpleFacts.simple_Remove c k) as HR.
    destruct (SimpleFacts.view c !! k) as [[v e]|]; [|done].
    destruct HR as (c' & ? & ? & ? & ?). eauto 10.
  - intros c k HI. apply LruFacts.lru_Remove, HI.
  - intros c k HI. apply LfuStore.lfu_Remove, HI.
  - intros c k HI. pose proof (ArcStore.arc_Remove c k HI) as HR.
    destruct (ArcStore.view c !! k) as [[v e]|]; [|done].
    destruct HR as (c' & ? & ? & ? & ? & _ & ?). eauto 10.
Qed.
End laws.
End PolicyLaws.

(** ** The builder *)

Module BuilderFacts.
Import Builder.
Section facts.
Context {K V E : Type} `{HeqK : EqDecision K, HcntK : !Countable K}.

(** A base as [buildCache] leaves it: the options of the builder, counters
    at 0, no load in flight and no callback fired yet. *)
Definition fresh (cb : CacheBuilder K V E) (b : Base.baseCache K V E) : Prop :=
  optionsOf b
  = (clock cb, size cb, loaderExpireFunc cb, evictedFunc cb, addedFunc cb,
     expiration cb)
  ∧ Base.stats_ b = {| hitCount := 0; missCount := 0 |}
  ∧ Base.group b = {| Flight.m := ∅; Flight.goroutines := [] |}
  ∧ Base.events b = [].

(** [Build] panics with "cache size <= 0" when the size is 0 or less and
    the type is not "simple", and with "Unknown type" when the size is
    positive and the type is none of the four names; a "simple" cache is
    built with any size.  Otherwise [Build] returns a cache of the policy
    that the type names; the cache is empty, carries the options of the
    builder, and satisfies the invariant of its policy, with all
    frequencies at 0 for LFU. *)
Theorem Build_panics_or_returns_new_cache (cb : CacheBuilder K V E) :
  match Build cb with
  | Panics msg =>
      (size cb ≤ 0 ∧ tp cb ≠ "simple" ∧ msg = "cache size <= 0")
      ∨ (0 < size cb ∧ (tp cb ∉ ["simple"; "lru"; "lfu"; "arc"])
         ∧ msg = "Unknown type")
  | Built c =>
      (tp cb = "simple" ∨ 0 < size cb)
      ∧ match c with
        | OfSimple c =>
            tp cb = "simple" ∧ fresh cb (Simple.base c) ∧ SimpleFacts.view c = ∅
        | OfLRU c =>
            tp cb = "lru" ∧ fresh cb (Lru.base c) ∧ LruFacts.view c = ∅
            ∧ LruFacts.lru_inv c
        | OfLFU c =>
            tp cb = "lfu" ∧ fresh cb (Lfu.base c) ∧ LfuStore.view c = ∅
            ∧ LfuStore.lfu_bound 0 c
        | OfARC c =>
            tp cb = "arc" ∧ fresh cb (Arc.base c) ∧ ArcStore.view c = ∅
            ∧ ArcFacts.arc_inv c
        end
  end.
Proof.
  unfold Build, build, TypeSimple, TypeLfu, TypeLru, TypeArc.
  destruct (bool_decide (tp cb = "simple")) eqn:Hs; simpl.
  { apply bool_decide_eq_true in Hs. rewrite andb_false_r. split; [by left|].
    split_and!; done. }
  apply bool_decide_eq_false in Hs. rewrite andb_true_r.
  case_bool_decide as Hsz; [left; done|].
  assert (0 < size cb) as Hpos by lia.
  case_bool_decide as Hlfu.
  { split; [by right|]. split; [done|]. split; [done|]. split; [done|].
    destruct (LfuStore.lfu_inv_init (buildCache cb)) as [HI _]. split; [done|].
    intros e ->%list_elem_of_singleton. unfold LfuFacts.freqOf. simpl.
    by rewrite lookup_singleton_eq. }
  case_bool_decide as Hlru.
  { split; [by right|]. split; [done|]. split; [done|]. split; [done|].
    apply LruFacts.lru_inv_init. }
  case_bool_decide as Harc.
  { split; [by right|]. split; [done|]. split; [done|]. split; [done|].
    apply ArcFacts.arc_inv_init. simpl. lia. }
  right. split_and!; [done| |done].
  rewrite !elem_of_cons, elem_of_nil. tauto.
Qed.
End facts.
End BuilderFacts.

(** ** The options of a cache are fixed *)

Module OptionFacts.
Import Common StoreFacts.
Section generic.
Context {K V E : Type} `{HeqK : EqDecision K, HcntK : !Countable K}.
Context {C : Type} `{!Cache K V E C}.

(** The options that the builder has fixed, and the reading of the clock. *)
Definition options (c : C) := optionsOf (c_base c).

Lemma settings_options {A} (m : M C A) : keeps settingsOf m → keeps options m.
Proof. intros Hk s. apply (f_equal fst (Hk s)). Qed.

Lemma modifyGroup_options f : keeps options (modifyGroup f).
Proof.
  unfold modifyGroup. apply keeps_modify. intros c. unfold options.
  by rewrite c_base_setBase.
Qed.

Hypothesis Hget : ∀ k onLoad, keeps settingsOf (c_get k onLoad).
Hypothesis Hset : ∀ k v, keeps settingsOf (c_set k v).
Hypothesis Hsie : ∀ k t, keeps settingsOf (c_setItemExpiration k t).

Local Ltac options_step :=
  lazymatch goal with
  | |- keeps _ (mret _) => apply keeps_ret
  | |- keeps _ (_ ≫= _) => apply keeps_bind; [|intros ?]
  | |- keeps _ getS => apply keeps_getS
  | |- keeps _ (modifyGroup _) => apply modifyGroup_options
  | |- keeps _ panic => apply keeps_panic
  | |- keeps _ (when _ _) => apply keeps_when
  | |- keeps _ (recover _ _) => apply keeps_recover
  | |- keeps _ (c_get _ _) => apply settings_options, Hget
  | |- keeps _ (c_set _ _) => apply settings_options, Hset
  | |- keeps _ (c_setItemExpiration _ _) => apply settings_options, Hsie
  | |- keeps _ (match ?x with _ => _ end) => destruct x
  | |- keeps _ (if ?x then _ else _) => destruct x
  end.

Lemma loaderCallback_options k v ex e : keeps options (loaderCallback k v ex e).
Proof. unfold loaderCallback. repeat options_step. Qed.

Lemma loadFn_options ld k : keeps options (loadFn ld k (loaderCallback k)).
Proof.
  unfold loadFn. repeat first [apply loaderCallback_options | options_step].
Qed.

Lemma call_options k fn : keeps options fn → keeps options (call k fn).
Proof. intros Hfn. unfold call. repeat first [exact Hfn | options_step]. Qed.

Lemma Do_options k fn w : keeps options fn → keeps options (Do k fn w).
Proof.
  intros Hfn. unfold Do.
  repeat first [apply call_options, Hfn | options_step].
Qed.

Lemma getWithLoader_options k w : keeps options (getWithLoader k w).
Proof.
  unfold getWithLoader, load.
  repeat first [apply Do_options | apply loadFn_options | options_step].
Qed.

Lemma Get_options k : keeps options (Get k).
Proof. unfold Get. repeat first [apply getWithLoader_options | options_step]. Qed.

Lemma GetIfPresent_options k : keeps options (GetIfPresent k).
Proof.
  unfold GetIfPresent. repeat first [apply getWithLoader_options | options_step].
Qed.

Lemma runGoroutine_options : keeps options (runGoroutine (C:=C)).
Proof.
  unfold runGoroutine. cbv zeta.
  repeat first [apply call_options | apply loadFn_options | options_step].
Qed.

(** No operation of the cache changes an option or the reading of the
    clock, whether it returns or panics. *)
Definition optionsFixed (Set_ : K → V → M C unit)
    (SetWithExpire : K → V → Z → M C unit) (Remove : K → M C bool) : Prop :=
  (∀ k v, keeps options (Set_ k v))
  ∧ (∀ k v d, keeps options (SetWithExpire k v d))
  ∧ (∀ k, keeps options (Get k))
  ∧ (∀ k, keeps options (GetIfPresent k))
  ∧ (∀ k, keeps options (Remove k))
  ∧ keeps options (runGoroutine (C:=C)).

Lemma optionsFixed_holds (Remove : K → M C bool) :
  (∀ k, keeps settingsOf (Remove k)) →
  optionsFixed c_set setWithExpire Remove.
Proof.
  intros Hrm. split_and!.
  - intros k v. apply settings_options, Hset.
  - intros k v d. unfold setWithExpire. repeat options_step.
  - apply Get_options.
  - apply GetIfPresent_options.
  - intros k. apply settings_options, Hrm.
  - apply runGoroutine_options.
Qed.
End generic.

Section policies.
Context {K V E : Type} `{HeqK : EqDecision K, HcntK : !Countable K}.

(** For the four policies, no operation ([Set], [SetWithExpire], [Get],
    [GetIfPresent], [Remove], the goroutine of a deferred load) changes an
    option fixed at build time (size, loader, callbacks, default
    expiration) or the reading of the clock, whether it returns or panics.
    See [optionsFixed]. *)
Theorem operations_keep_options :
  optionsFixed (C:=Simple.SimpleCache K V E)
    Simple.Set_ Simple.SetWithExpire Simple.Remove
  ∧ optionsFixed (C:=Lru.LRUCache K V E) Lru.Set_ Lru.SetWithExpire Lru.Remove
  ∧ optionsFixed (C:=Lfu.LFUCache K V E) Lfu.Set_ Lfu.SetWithExpire Lfu.Remove
  ∧ optionsFixed (C:=Arc.ARCCache K V E) Arc.Set_ Arc.SetWithExpire Arc.Remove_.
Proof.
  split_and!.
  - exact (optionsFixed_holds SimpleFrame.simple_get_settings
             SimpleFrame.simple_set_settings
             SimpleFrame.simple_setItemExpiration_settings
             Simple.Remove SimpleFrame.simple_remove_settings).
  - exact (optionsFixed_holds LruFrame.lru_get_settings LruFrame.lru_set_settings
             LruFrame.lru_setItemExpiration_settings
             Lru.Remove LruFrame.lru_remove_settings).
  - exact (optionsFixed_holds LfuFrame.lfu_get_settings LfuFrame.lfu_set_settings
             LfuFrame.lfu_setItemExpiration_settings
             Lfu.Remove LfuFrame.lfu_remove_settings).
  - exact (optionsFixed_holds ArcFrame.arc_get_settings ArcFrame.arc_set_settings
             ArcFrame.arc_setItemExpiration_settings
             Arc.Remove_ ArcFrame.arc_remove_settings).
Qed.
End policies.
End OptionFacts.

(** ** The lookup count over a sequence of operations *)

Module LookupFacts.
Import Common StoreFacts Sequences.
Section generic.
Context {K V E : Type} `{HeqK : EqDecision K, HcntK : !Countable K}.
Context {C : Type} `{!Cache K V E C}.

(** The top-level reads of a sequence. *)
Definition isRead (o : op K V) : bool :=
  match o with
  | DoGet _ | DoGetIfPresent _ => true
  | _ => false
  end.

Definition reads (ops : list (op K V)) : Z :=
  Z.of_nat (length (filter (λ o, isRead o = true) ops)).

(** [LookupCount] after a sequence that returns: the count before plus
    the number of top-level reads, modulo [2^64]. *)
Definition countsLookups (Set_ : K → V → M C unit)
    (SetWithExpire : K → V → Z → M C unit) (Remove : K → M C bool) : Prop :=
  ∀ (ops : list (op K V)) (c c' : C),
    steps Set_ SetWithExpire Remove ops c = Ok tt c' →
    LookupCount (statsOf c')
    = wrap_uint (LookupCount (statsOf c) + reads ops).

Lemma LookupCount_incr (s s' : stats) :
  oneIncrement s s' → LookupCount s' = wrap_uint (LookupCount s + 1).
Proof.
  unfold LookupCount, wrap_uint. intros [[-> ->]|[-> ->]]; unfold wrap_uint.
  - rewrite Zplus_mod_idemp_l, (Zplus_mod_idemp_l (hitCount s + missCount s)).
    f_equal. lia.
  - rewrite Zplus_mod_idemp_r, (Zplus_mod_idemp_l (hitCount s + missCount s)).
    f_equal. lia.
Qed.

Lemma LookupCount_same (s : stats) : LookupCount s = wrap_uint (LookupCount s + 0).
Proof.
  unfold LookupCount, wrap_uint. by rewrite Z.add_0_r, Z.mod_mod.
Qed.

Hypothesis get_onLoad_keeps : ∀ k : K, keeps statsOf (c_get k true).
Hypothesis set_keeps : ∀ (k : K) v, keeps statsOf (c_set k v).
Hypothesis setItemExpiration_keeps :
  ∀ (k : K) t, keeps statsOf (c_setItemExpiration k t).
Hypothesis get_counts :
  ∀ (k : K) (c : C) r c',
    c_get k false c = Ok r c' → counted r (statsOf c) (statsOf c').
Context (Remove : K → M C bool).
Hypothesis remove_keeps : ∀ k, keeps statsOf (Remove k).

Lemma runGoroutine_stats : keeps statsOf (runGoroutine (C:=C)).
Proof.
  pose proof (StatsFacts.modifyGroup_keeps (C:=C)).
  unfold runGoroutine, call, loadFn, loaderCallback. cbv zeta. keeps_auto.
Qed.

Lemma step_lookup (o : op K V) (c c' : C) :
  step c_set (setWithExpire (C:=C)) Remove o c = Ok tt c' →
  LookupCount (statsOf c')
  = wrap_uint (LookupCount (statsOf c) + (if isRead o then 1 else 0)).
Proof.
  destruct o as [k v|k v d|k|k|k|d|]; simpl; intros Hstep.
  - rewrite (keeps_Ok statsOf _ _ _ _ (set_keeps k v) Hstep).
    apply LookupCount_same.
  - assert (keeps statsOf (setWithExpire (C:=C) k v d)) as Hk
      by (unfold setWithExpire; keeps_auto).
    rewrite (keeps_Ok statsOf _ _ _ _ Hk Hstep). apply LookupCount_same.
  - pose proof (StatsFacts.top_level_counts get_onLoad_keeps set_keeps
                  setItemExpiration_keeps get_counts k true c) as Hc.
    unfold Get, mbind, M_bind in Hstep. unfold mbind, M_bind in Hc.
    destruct (c_get k false c) as [r c1|c1]; [|done].
    destruct (match r with
              | Some v => mret (GetReturn (Some v) None)
              | None => getWithLoader k true
              end c1) as [g c2|c2]; [|done].
    injection Hstep as <-. by apply LookupCount_incr.
  - pose proof (StatsFacts.top_level_counts get_onLoad_keeps set_keeps
                  setItemExpiration_keeps get_counts k false c) as Hc.
    unfold GetIfPresent, mbind, M_bind in Hstep. unfold mbind, M_bind in Hc.
    destruct (c_get k false c) as [r c1|c1]; [|done].
    destruct (match r with
              | Some v => mret (GetReturn (Some v) None)
              | None => getWithLoader k false
              end c1) as [g c2|c2]; [|done].
    injection Hstep as <-. by apply LookupCount_incr.
  - unfold mbind, M_bind in Hstep.
    destruct (Remove k c) as [r c1|c1] eqn:Hrm; [|done]. injection Hstep as <-.
    rewrite (keeps_Ok statsOf _ _ _ _ (remove_keeps k) Hrm). apply LookupCount_same.
  - injection Hstep as <-. unfold statsOf. rewrite c_base_setBase. simpl.
    apply LookupCount_same.
  - rewrite (keeps_Ok statsOf _ _ _ _ runGoroutine_stats Hstep).
    apply LookupCount_same.
Qed.

Lemma countsLookups_holds : countsLookups c_set (setWithExpire (C:=C)) Remove.
Proof.
  intros ops. induction ops as [|o ops IH]; intros c c' Hrun; simpl in Hrun.
  - injection Hrun as <-. apply LookupCount_same.
  - unfold mbind, M_bind in Hrun.
    destruct (step c_set setWithExpire Remove o c) as [[] c1|c1] eqn:Hstep; [|done].
    rewrite (IH c1 c' Hrun), (step_lookup o c c1 Hstep).
    unfold reads. simpl. unfold wrap_uint.
    destruct (isRead o) eqn:Hr.
    + rewrite filter_cons_True by done. simpl length.
      rewrite Zplus_mod_idemp_l. f_equal. lia.
    + rewrite filter_cons_False by (by rewrite Hr).
      rewrite Zplus_mod_idemp_l. f_equal. lia.
Qed.
End generic.

Section policies.
Context {K V E : Type} `{HeqK : EqDecision K, HcntK : !Countable K}.

Lemma lru_remove_stats (k : K) : keeps statsOf (Lru.Remove (V:=V) (E:=E) k).
Proof.
  unfold Lru.Remove, Lru.remove.
  repeat first [apply LruStats.lru_removeElement_keeps | keeps_step].
Qed.

Lemma lfu_remove_stats (k : K) : keeps statsOf (Lfu.Remove (V:=V) (E:=E) k).
Proof.
  unfold Lfu.Remove, Lfu.remove.
  repeat first [apply LfuStats.lfu_removeItem_keeps | keeps_step].
Qed.

Lemma arc_remove_stats (k : K) : keeps statsOf (Arc.Remove_ (V:=V) (E:=E) k).
Proof.
  unfold Arc.Remove_, Arc.remove, Arc.removeVia.
  repeat first [apply ArcStats.arc_removeFrom_keeps
               | apply ArcStats.arc_pushFront_keeps
               | apply ArcStats.arc_dropItem_keeps | keeps_step].
Qed.

(** For the four policies: when a sequence of operations returns,
    [LookupCount] has grown by the number of [Get] and [GetIfPresent] calls
    of the sequence, modulo [2^64]; writes, removals, the clock and the
    goroutines of deferred loads count nothing.  See [countsLookups]. *)
Theorem lookups_are_counted :
  countsLookups (C:=Simple.SimpleCache K V E)
    Simple.Set_ Simple.SetWithExpire Simple.Remove
  ∧ countsLookups (C:=Lru.LRUCache K V E) Lru.Set_ Lru.SetWithExpire Lru.Remove
  ∧ countsLookups (C:=Lfu.LFUCache K V E) Lfu.Set_ Lfu.SetWithExpire Lfu.Remove
  ∧ countsLookups (C:=Arc.ARCCache K V E) Arc.Set_ Arc.SetWithExpire Arc.Remove_.
Proof.
  split_and!.
  - exact (countsLookups_holds SimpleStats.simple_get_onLoad_keeps
             SimpleStats.simple_set_keeps SimpleStats.simple_setItemExpiration_keeps
             SimpleStats.simple_get_counts Simple.Remove
             SimpleStats.simple_remove_keeps).
  - exact (countsLookups_holds LruStats.lru_get_onLoad_keeps
             LruStats.lru_set_keeps LruStats.lru_setItemExpiration_keeps
             LruStats.lru_get_counts Lru.Remove lru_remove_stats).
  - exact (countsLookups_holds LfuStats.lfu_get_onLoad_keeps
             LfuStats.lfu_set_keeps LfuStats.lfu_setItemExpiration_keeps
             LfuStats.lfu_get_counts Lfu.Remove lfu_remove_stats).
  - exact (countsLookups_holds ArcStats.arc_get_onLoad_keeps
             ArcStats.arc_set_keeps ArcStats.arc_setItemExpiration_keeps
             ArcStats.arc_get_counts Arc.Remove_ arc_remove_stats).
Qed.
End policies.
End LookupFacts.

(** ** Reads and the eviction callback *)

Module ExpiryFacts.
Import Common.
Section law.
Context {K V E : Type} `{HeqK : EqDecision K, HcntK : !Countable K}.
Context {C : Type} `{!Cache K V E C}.

(** What a read finds for its key: the key that the callback would be
    given, the value and the expiration. *)
Definition found := option (K * V * option Z).

(** The value that the read returns: that of an entry that has not
    expired. *)
Definition readValue (b : Base.baseCache K V E) (f : found) : option V :=
  match f with
  | Some (_, v, t) => if isExpired t (Base.clock b) None then None else Some v
  | None => None
  end.

(** The call of the eviction callback that the read makes: one for an
    expired entry, when the callback is configured. *)
Definition expiredCall (b : Base.baseCache K V E) (f : found) : list (event K V) :=
  match f with
  | Some (k0, v, t) =>
      if isExpired t (Base.clock b) None && Base.evictedFunc b
      then [Evicted k0 v] else []
  | None => []
  end.

Definition asResult (r : option V) : GetResult K V E :=
  match r with
  | Some v => GetReturn (Some v) None
  | None => GetReturn None (Some KeyNotFoundError)
  end.

(** [readsReport Inv entry]: the policy's [get] returns the value of the
    entry unless it has expired, and the calls of the callbacks that it adds
    are those of [expiredCall]; [Get] and [GetIfPresent] of a cache without
    a loader are that [get]. *)
Definition readsReport (Inv : C → Prop) (entry : C → K → found) : Prop :=
  ∀ c k onLoad, Inv c →
    ∃ c', c_get k onLoad c = Ok (readValue (c_base c) (entry c k)) c'
      ∧ Base.events (c_base c')
        = Base.events (c_base c) ++ expiredCall (c_base c) (entry c k)
      ∧ (onLoad = false → Base.loaderExpireFunc (c_base c) = None →
         Get k c = Ok (asResult (readValue (c_base c) (entry c k))) c'
         ∧ GetIfPresent k c = Ok (asResult (readValue (c_base c) (entry c k))) c').

Lemma readsReport_intro (Inv : C → Prop) (entry : C → K → found) :
  (∀ k onLoad, keeps settingsOf (c_get k onLoad)) →
  (∀ c k onLoad, Inv c →
     ∃ c', c_get k onLoad c = Ok (readValue (c_base c) (entry c k)) c'
       ∧ Base.events (c_base c')
         = Base.events (c_base c) ++ expiredCall (c_base c) (entry c k)) →
  readsReport Inv entry.
Proof.
  intros Hkeep Hget c k onLoad HI.
  destruct (Hget c k onLoad HI) as (c' & Hg & Hev).
  exists c'. split_and!; [done..|]. intros -> Hld.
  pose proof (keeps_Ok _ _ _ _ _ (Hkeep k false) Hg) as Hs.
  assert (Base.loaderExpireFunc (c_base c') = None) as Hld'.
  { unfold settingsOf, optionsOf in Hs. injection Hs as _ _ -> _ _ _ _. done. }
  unfold Get, GetIfPresent. rewrite !(bind_Ok _ _ _ _ _ Hg).
  destruct (readValue _ _); [done|]. unfold getWithLoader. munfold. by rewrite Hld'.
Qed.
End law.

Section facts.
Context {K V E : Type} `{HeqK : EqDecision K, HcntK : !Countable K}.

Definition simple_entry (c : Simple.SimpleCache K V E) (k : K) : found (K:=K) (V:=V) :=
  (λ it, (k, Simple.value it, Simple.expiration it)) <$> Simple.items c !! k.
Definition lru_entry (c : Lru.LRUCache K V E) (k : K) : found (K:=K) (V:=V) :=
  (λ it, (Lru.key it, Lru.value it, Lru.expiration it)) <$> Lru.items c !! k.
Definition lfu_entry (c : Lfu.LFUCache K V E) (k : K) : found (K:=K) (V:=V) :=
  (λ it, (Lfu.key it, Lfu.value it, Lfu.expiration it)) <$> Lfu.items c !! k.
Definition arc_entry (c : Arc.ARCCache K V E) (k : K) : found (K:=K) (V:=V) :=
  (λ it, (Arc.key it, Arc.value it, Arc.expiration it)) <$> Arc.items c !! k.

Lemma simple_readsReport :
  readsReport (C:=Simple.SimpleCache K V E) (λ _, True) simple_entry.
Proof.
  apply readsReport_intro; [apply SimpleFrame.simple_get_settings|].
  intros c k onLoad _. simpl. unfold simple_entry.
  unfold Simple.get, Simple.getValue, Simple.remove, Simple.incrHit, Simple.incrMiss,
    Simple.IsExpired.
  munfold. destruct (Simple.items c !! k) as [it|] eqn:Hk; simpl.
  - rewrite ?Hk. destruct (isExpired _ _ _); simpl; rewrite ?Hk.
    + destruct onLoad; simpl; (eexists; split; [reflexivity|]); simpl;
        apply callEvicted_fields.
    + destruct onLoad; simpl; (eexists; split; [reflexivity|]); simpl;
        by rewrite app_nil_r.
  - destruct onLoad; simpl; (eexists; split; [reflexivity|]); simpl;
      by rewrite app_nil_r.
Qed.

Lemma lru_readsReport :
  readsReport (C:=Lru.LRUCache K V E) LruFacts.lru_inv lru_entry.
Proof.
  apply readsReport_intro; [apply LruFrame.lru_get_settings|].
  intros c k onLoad HI. simpl. unfold lru_entry.
  destruct (LruFacts.lru_get_outcome c k onLoad HI) as (r & c' & Hg & _ & Ho).
  exists c'. unfold LruFacts.getOutcome in Ho.
  destruct (Lru.items c !! k) as [it|] eqn:Hk; simpl.
  - destruct HI as (_ & _ & Hkey & _). rewrite (Hkey k it Hk).
    unfold Lru.IsExpired in Ho. destruct (isExpired _ _ _); simpl.
    + destruct Ho as (-> & _ & _ & ->). done.
    + destruct Ho as (-> & _ & _ & ->). by rewrite app_nil_r.
  - destruct Ho as (-> & _ & _ & ->). by rewrite app_nil_r.
Qed.

(** *** LFU: a hit calls nothing *)

Definition lfuCalls (L : Lfu.LFUCache K V E) := Base.events (Lfu.base L).

Local Ltac calls_step :=
  lazymatch goal with
  | |- keeps _ (mret _) => apply keeps_ret
  | |- keeps _ (_ ≫= _) => apply keeps_bind; [|intros ?]
  | |- keeps _ getS => apply keeps_getS
  | |- keeps _ (modify _) => apply keeps_modify; intros ?; reflexivity
  | |- keeps _ panic => apply keeps_panic
  | |- keeps _ (when _ _) => apply keeps_when
  | |- keeps _ (match ?x with _ => _ end) => destruct x
  | |- keeps _ (if ?x then _ else _) => destruct x
  end.

Lemma calls_entryOf e : keeps lfuCalls (Lfu.entryOf (K:=K) (V:=V) (E:=E) e).
Proof. unfold Lfu.entryOf. repeat calls_step. Qed.

Lemma calls_attach k e : keeps lfuCalls (Lfu.attach (V:=V) (E:=E) k e).
Proof. unfold Lfu.attach. repeat first [calls_step | apply calls_entryOf]. Qed.

Lemma calls_increment k : keeps lfuCalls (Lfu.increment (V:=V) (E:=E) k).
Proof.
  unfold Lfu.increment.
  repeat first [calls_step | apply calls_entryOf | apply calls_attach].
Qed.

Lemma lfu_readsReport :
  readsReport (C:=Lfu.LFUCache K V E) LfuStore.lfu_safe lfu_entry.
Proof.
  apply readsReport_intro; [apply LfuFrame.lfu_get_settings|].
  intros L k onLoad HB. simpl. unfold lfu_entry.
  destruct (LfuStore.lfu_get_outcome (2 ^ 64 - 2) L k onLoad HB)
    as (r & L' & Hg & _ & _ & Ho); [lia..|].
  exists L'. pose proof HB as [HI _]. unfold LfuStore.getOutcome in Ho.
  pose proof Hg as Hg'. unfold Lfu.get, Lfu.getValue in Hg'.
  unfold mbind, M_bind at 1 in Hg'. unfold getS at 1 in Hg'.
  destruct (Lfu.items L !! k) as [it|] eqn:Hk; simpl.
  - destruct (LfuStore.handle_bucket L k it HI Hk) as (_ & _ & _ & Hkey & _).
    unfold Lfu.IsExpired in *. destruct (isExpired _ _ _); simpl in *.
    + destruct Ho as (-> & _). split; [done|].
      destruct (LfuStore.removeItem_stored L k it HI Hk)
        as (L1 & Hrm & _ & _ & _ & _ & Hb1).
      unfold M_bind at 1 in Hg'. rewrite Hrm in Hg'.
      assert (Base.events (Lfu.base L') = Base.events (Lfu.base L1)) as ->.
      { revert Hg'. unfold Lfu.incrMiss, when. munfold.
        destruct onLoad; simpl; by intros [= <-]. }
      rewrite Hb1, Hkey. apply callEvicted_fields.
    + destruct Ho as (-> & _). split; [done|]. rewrite app_nil_r.
      assert (keeps lfuCalls (Lfu.increment k;; Lfu.incrHit onLoad;;
                              mret (Some (Lfu.value it)))) as Hkp.
      { apply keeps_bind; [apply calls_increment|intros ?].
        unfold Lfu.incrHit. repeat calls_step. }
      exact (keeps_Ok _ _ _ _ _ Hkp Hg').
  - destruct Ho as (-> & _). split; [done|]. rewrite app_nil_r.
    revert Hg'. unfold Lfu.incrMiss, when. munfold.
    destruct onLoad; simpl; by intros [= <-].
Qed.

Lemma arc_readsReport :
  readsReport (C:=Arc.ARCCache K V E) ArcStore.arc_store_inv arc_entry.
Proof.
  apply readsReport_intro; [apply ArcFrame.arc_get_settings|].
  intros c k onLoad [HI _]. simpl. unfold arc_entry.
  apply ArcFacts.arc_inv_sinv in HI as (Hinv & _ & _).
  destruct Hinv as [(W1 & W2 & W3 & W4) (D12 & D1b1 & D1b2 & D2b1 & D2b2 & Db) Hdom HX].
  destruct (decide (k ∈ Arc.keys (Arc.t1 c))) as [Hk1|Hk1].
  { assert (is_Some (Arc.items c !! k)) as [it Hit].
    { apply elem_of_dom. rewrite Hdom. set_solver. }
    assert (k ∉ Arc.keys (Arc.t2 c)) as Hk2 by set_solver.
    unfold Arc.get, Arc.getValue, Arc.Get. munfold. rewrite (bool_decide_eq_true_2 _ Hk1).
    unfold Arc.removeFrom, Arc.pushFront. munfold. simpl. rewrite Hit. simpl.
    unfold Arc.IsExpired.
    destruct (isExpired (Arc.expiration it) (Base.clock (Arc.base c)) None) eqn:Hexp;
      simpl.
    - rewrite (bool_decide_eq_false_2 _ Hk2). unfold Arc.incrMiss. munfold.
      destruct onLoad; simpl; (eexists; split; [reflexivity|]); simpl;
        apply callEvicted_fields.
    - unfold Arc.incrHit. munfold.
      destruct onLoad; simpl; (eexists; split; [reflexivity|]); simpl;
        by rewrite app_nil_r. }
  destruct (decide (k ∈ Arc.keys (Arc.t2 c))) as [Hk2|Hk2].
  { assert (is_Some (Arc.items c !! k)) as [it Hit].
    { apply elem_of_dom. rewrite Hdom. set_solver. }
    unfold Arc.get, Arc.getValue, Arc.Get. munfold. rewrite (bool_decide_eq_false_2 _ Hk1).
    simpl. rewrite (bool_decide_eq_true_2 _ Hk2). rewrite Hit.
    unfold Arc.removeFrom, Arc.pushFront, Arc.moveToFront. munfold. simpl.
    unfold Arc.IsExpired.
    destruct (isExpired (Arc.expiration it) (Base.clock (Arc.base c)) None) eqn:Hexp;
      simpl.
    - unfold Arc.incrMiss. munfold.
      destruct onLoad; simpl; (eexists; split; [reflexivity|]); simpl;
        apply callEvicted_fields.
    - unfold Arc.incrHit. munfold.
      destruct onLoad; simpl; (eexists; split; [reflexivity|]); simpl;
        by rewrite app_nil_r. }
  assert (Arc.items c !! k = None) as ->.
  { apply not_elem_of_dom. rewrite Hdom. set_solver. }
  simpl. unfold Arc.get, Arc.getValue, Arc.Get. munfold.
  rewrite !bool_decide_eq_false_2 by done. simpl.
  rewrite ?bool_decide_eq_false_2 by done. unfold Arc.incrMiss. munfold.
  destruct onLoad; simpl; (eexists; split; [reflexivity|]); simpl;
    by rewrite app_nil_r.
Qed.

(** A read and the callbacks.  In the four policies the [get] of a key
    returns the value of its entry when the entry has not expired, and
    reports a miss otherwise.  It calls the eviction callback once, with the
    key and the value of the entry, when it finds the entry expired; it
    calls no callback on a hit or when the key has no entry, and it never
    calls the added callback.  [Get] and [GetIfPresent] of a cache without
    a loader return that result, with [KeyNotFoundError] for a miss, and
    leave that state.  See [readsReport]. *)
Theorem read_reports_expired_entry :
  readsReport (C:=Simple.SimpleCache K V E) (λ _, True) simple_entry
  ∧ readsReport (C:=Lru.LRUCache K V E) LruFacts.lru_inv lru_entry
  ∧ readsReport (C:=Lfu.LFUCache K V E) LfuStore.lfu_safe lfu_entry
  ∧ readsReport (C:=Arc.ARCCache K V E) ArcStore.arc_store_inv arc_entry.
Proof.
  split_and!.
  - exact simple_readsReport.
  - exact lru_readsReport.
  - exact lfu_readsReport.
  - exact arc_readsReport.
Qed.
End facts.
End ExpiryFacts.

(** ** The added callback *)

Module CallbackFacts.
Section facts.
Context {K V E : Type} `{HeqK : EqDecision K, HcntK : !Countable K}.

(** The calls of the added callback among the recorded calls, in order. *)
Definition addedOf (evs : list (event K V)) : list (K * V) :=
  omap (λ e, match e with Added k v => Some (k, v) | Evicted _ _ => None end) evs.

(** [announces Inv pre fires Set]: in a state of [Inv] and for a key of
    [pre], [Set(k, v)] returns, and it has called the added callback once more,
    with [k] and [v], when the callback is configured and [fires] holds; it
    has not called it otherwise. *)
Definition announces {C} `{!Cache K V E C} (Inv : C → Prop) (pre : C → K → Prop)
    (fires : C → K → bool) (Set_ : K → V → M C unit) : Prop :=
  ∀ c k v, Inv c → pre c k →
    ∃ c', Set_ k v c = Ok tt c'
      ∧ addedOf (Base.events (c_base c'))
        = addedOf (Base.events (c_base c))
          ++ (if Base.addedFunc (c_base c) && fires c k then [(k, v)] else []).

Lemma addedOf_app evs1 evs2 : addedOf (evs1 ++ evs2) = addedOf evs1 ++ addedOf evs2.
Proof. apply omap_app. Qed.

Lemma addedOf_callAdded k v (b : Base.baseCache K V E) :
  addedOf (Base.events (Base.callAdded k v b))
  = addedOf (Base.events b) ++ (if Base.addedFunc b then [(k, v)] else []).
Proof.
  rewrite (proj2 (callAdded_fields k v b)), addedOf_app.
  by destruct (Base.addedFunc b).
Qed.

Lemma addedOf_callEvicted k v (b : Base.baseCache K V E) :
  addedOf (Base.events (Base.callEvicted k v b)) = addedOf (Base.events b).
Proof.
  destruct (callEvicted_fields k v b) as (_ & _ & _ & ->).
  rewrite addedOf_app. destruct (Base.evictedFunc b); simpl; by rewrite app_nil_r.
Qed.

Lemma simple_announces :
  announces (C:=Simple.SimpleCache K V E) (λ _, True) (λ _ _, True) (λ _ _, true) Simple.Set_.
Proof.
  intros c k v _ _.
  destruct (SimpleFacts.simple_set_outcome c k v) as (victim & c' & Hset & _ & Hev & _).
  exists c'. split; [done|]. simpl. rewrite Hev, !addedOf_app, andb_true_r.
  assert (∀ evs, addedOf (match victim with
                          | Some k0 =>
                              match Simple.items c !! k0 with
                              | Some it0 => if Base.evictedFunc (Simple.base c)
                                            then [Evicted k0 (Simple.value it0)] else []
                              | None => []
                              end
                          | None => []
                          end) ++ evs = evs) as ->.
  { intros evs. destruct victim as [k0|]; [|done].
    destruct (Simple.items c !! k0); [|done]. by destruct (Base.evictedFunc _). }
  by destruct (Base.addedFunc _).
Qed.

Lemma lru_announces :
  announces (C:=Lru.LRUCache K V E) LruFacts.lru_inv (λ _ _, True) (λ _ _, true) Lru.Set_.
Proof.
  intros c k v HI _.
  destruct (LruFacts.lru_set_outcome c k v HI) as (c' & Hset & _ & Ho).
  exists c'. split; [done|]. simpl. rewrite andb_true_r.
  unfold LruFacts.setOutcome in Ho.
  destruct (Lru.items c !! k); destruct Ho as (_ & _ & ->); rewrite !addedOf_app.
  - by destruct (Base.addedFunc _).
  - destruct (LruFacts.victim c ≫= _); [destruct (Base.evictedFunc _)|];
      by destruct (Base.addedFunc _).
Qed.

Lemma lfu_announces :
  announces (C:=Lfu.LFUCache K V E) LfuStore.lfu_inv (λ _ _, True) (λ _ _, true) Lfu.Set_.
Proof.
  intros c k v HI _.
  destruct (LfuStore.lfu_set_outcome c k v HI)
    as (victim & c' & Hset & _ & _ & _ & _ & Hev & _).
  exists c'. split; [done|]. simpl. rewrite Hev, !addedOf_app, andb_true_r.
  destruct (victim ≫= _); [destruct (Base.evictedFunc _)|];
    by destruct (Base.addedFunc _).
Qed.

(** *** ARC *)

Definition arcAdded (c : Arc.ARCCache K V E) :=
  (addedOf (Base.events (Arc.base c)), Base.addedFunc (Arc.base c)).

Local Ltac added_step :=
  lazymatch goal with
  | |- keeps _ (mret _) => apply keeps_ret
  | |- keeps _ (_ ≫= _) => apply keeps_bind; [|intros ?]
  | |- keeps _ getS => apply keeps_getS
  | |- keeps _ (modify _) =>
      apply keeps_modify; intros ?; unfold arcAdded; simpl;
      rewrite ?addedOf_callEvicted, ?(proj1 (proj2 (proj2 (callEvicted_fields _ _ _))));
      reflexivity
  | |- keeps _ panic => apply keeps_panic
  | |- keeps _ (when _ _) => apply keeps_when
  | |- keeps _ (match ?x with _ => _ end) => destruct x
  end.

Lemma added_pushFront n k : keeps arcAdded (Arc.pushFront (V:=V) (E:=E) n k).
Proof. unfold Arc.pushFront. apply keeps_modify. by destruct n. Qed.

Lemma added_removeFrom n k e : keeps arcAdded (Arc.removeFrom (V:=V) (E:=E) n k e).
Proof. unfold Arc.removeFrom. apply keeps_modify. by destruct n. Qed.

Lemma added_removeTail n : keeps arcAdded (Arc.removeTail (K:=K) (V:=V) (E:=E) n).
Proof.
  intros c. unfold Arc.removeTail. destruct (Arc.RemoveTail _) as [[? ?]|]; [|done].
  by destruct n.
Qed.

Local Ltac added_auto :=
  repeat first [apply added_pushFront | apply added_removeFrom
               | apply added_removeTail | added_step].

Lemma added_dropItem k : keeps arcAdded (Arc.dropItem (V:=V) (E:=E) k).
Proof. unfold Arc.dropItem. added_auto. Qed.

Lemma added_replace k : keeps arcAdded (Arc.replace (V:=V) (E:=E) k).
Proof. unfold Arc.replace. repeat first [apply added_dropItem | added_auto]. Qed.

Lemma added_setPart p : keeps arcAdded (Arc.setPart (K:=K) (V:=V) (E:=E) p).
Proof. unfold Arc.setPart. added_auto. Qed.

Lemma added_idiv a b : keeps arcAdded (Arc.idiv (K:=K) (V:=V) (E:=E) a b).
Proof. unfold Arc.idiv. added_auto. Qed.

Local Ltac added_all :=
  repeat first [apply added_replace | apply added_dropItem | apply added_setPart
               | apply added_idiv | added_auto].

(** What a [set] that returns has told the added callback: nothing on a
    ghost hit. *)
Lemma arc_set_added (c : Arc.ARCCache K V E) k v c' :
  Arc.set k v c = Ok tt c' →
  addedOf (Base.events (Arc.base c'))
  = addedOf (Base.events (Arc.base c))
    ++ (if Base.addedFunc (Arc.base c)
           && negb (Arc.Has (Arc.t1 c) k && Arc.Has (Arc.t2 c) k)
           && negb (Arc.Has (Arc.b1 c) k) && negb (Arc.Has (Arc.b2 c) k)
        then [(k, v)] else []).
Proof.
  unfold Arc.set. rewrite (bind_Ok getS _ c c c) by done. cbv zeta.
  erewrite (bind_Ok (modify _)) by reflexivity.
  match goal with |- context [Arc.setItems ?i c] => set (c1 := Arc.setItems i c) end.
  assert (arcAdded c1 = arcAdded c) as Hc1 by done.
  destruct (Arc.Has (Arc.t1 c) k && Arc.Has (Arc.t2 c) k) eqn:Hboth.
  { intros [= <-]. rewrite andb_false_r. simpl. by rewrite app_nil_r. }
  rewrite andb_true_r. unfold Arc.Get, Arc.Has.
  destruct (bool_decide (k ∈ Arc.keys (Arc.b1 c))) eqn:Hb1.
  { intros Hset. rewrite andb_false_r. simpl. rewrite app_nil_r.
    match type of Hset with ?m c1 = _ =>
      assert (keeps arcAdded m) as Hk by added_all end.
    specialize (Hk c1). rewrite Hset in Hk. simpl in Hk.
    rewrite Hc1 in Hk. by injection Hk. }
  destruct (bool_decide (k ∈ Arc.keys (Arc.b2 c))) eqn:Hb2.
  { intros Hset. rewrite andb_false_r. simpl. rewrite app_nil_r.
    match type of Hset with ?m c1 = _ =>
      assert (keeps arcAdded m) as Hk by added_all end.
    specialize (Hk c1). rewrite Hset in Hk. simpl in Hk.
    rewrite Hc1 in Hk. by injection Hk. }
  rewrite !andb_true_r.
  match goal with |- (?pre ≫= _) c1 = _ → _ =>
    assert (keeps arcAdded pre) as Hk by added_all;
    specialize (Hk c1); unfold mbind at 1, M_bind at 1;
    destruct (pre c1) as [[] c2|c2]; [|done] end.
  simpl in Hk. rewrite Hc1 in Hk. injection Hk as Hev Hfn.
  erewrite (bind_Ok (modify _)) by reflexivity.
  unfold Arc.pushFront, modify. intros [= <-]. simpl.
  fold (Arc.base c2). rewrite addedOf_callAdded, Hev, Hfn. done.
Qed.

Lemma arc_announces :
  announces (C:=Arc.ARCCache K V E) ArcStore.arc_store_inv
    (λ c k, k ∉ Arc.keys (Arc.t1 c) ∪ Arc.keys (Arc.t2 c))
    (λ c k, bool_decide (k ∉ Arc.keys (Arc.b1 c) ∪ Arc.keys (Arc.b2 c))) Arc.Set_.
Proof.
  intros c k v [HI Hcap] Hk. apply ArcFacts.arc_inv_sinv in HI as (HI & HR & HT).
  destruct (ArcFacts.set_spec c k v HI Hcap HR HT) as (c' & Hset & _); [set_solver..|].
  exists c'. split; [done|]. simpl.
  rewrite (arc_set_added c k v c' Hset). unfold Arc.Has.
  rewrite (bool_decide_eq_false_2 (k ∈ Arc.keys (Arc.t1 c))) by set_solver.
  simpl. rewrite andb_true_r, <- andb_assoc. do 2 f_equal.
  repeat case_bool_decide; simpl; try done; set_solver.
Qed.

(** The added callback.  SIMPLE, LRU and LFU call it on every [Set], also
    when the key is stored already.  ARC calls it on the [Set] of a key that
    is in none of its four lists, and not on the [Set] of a key that one of
    the ghost lists B1 and B2 remembers, although that key had no entry.
    See [announces]. *)
Theorem set_calls_added_callback :
  announces (C:=Simple.SimpleCache K V E) (λ _, True) (λ _ _, True) (λ _ _, true) Simple.Set_
  ∧ announces (C:=Lru.LRUCache K V E) LruFacts.lru_inv (λ _ _, True) (λ _ _, true) Lru.Set_
  ∧ announces (C:=Lfu.LFUCache K V E) LfuStore.lfu_inv (λ _ _, True) (λ _ _, true) Lfu.Set_
  ∧ announces (C:=Arc.ARCCache K V E) ArcStore.arc_store_inv
      (λ c k, k ∉ Arc.keys (Arc.t1 c) ∪ Arc.keys (Arc.t2 c))
      (λ c k, bool_decide (k ∉ Arc.keys (Arc.b1 c) ∪ Arc.keys (Arc.b2 c))) Arc.Set_.
Proof.
  split_and!.
  - exact simple_announces.
  - exact lru_announces.
  - exact lfu_announces.
  - exact arc_announces.
Qed.

(** What ARC remembers of a key that it dropped *)

Lemma addedOf_evicted evs k0 (v0 : V) (b : bool) :
  addedOf (evs ++ (if b then [Evicted k0 v0] else [])) = addedOf evs.
Proof. rewrite addedOf_app. destruct b; simpl; by rewrite app_nil_r. Qed.

(** The [Set] of a key that has no entry and that a ghost list
    remembers. *)
Lemma arc_set_ghost (c : Arc.ARCCache K V E) k v :
  ArcStore.arc_store_inv c → ArcStore.view c !! k = None →
  k ∈ Arc.keys (Arc.b1 c) ∪ Arc.keys (Arc.b2 c) →
  ∃ c', Arc.Set_ k v c = Ok tt c' ∧ fst <$> ArcStore.view c' !! k = Some v
    ∧ addedOf (Base.events (Arc.base c')) = addedOf (Base.events (Arc.base c)).
Proof.
  intros HI Hk Hg.
  destruct (StoreFacts.store_set _ _ _ _ ArcStore.arc_store k v c HI Hk)
    as (c' & Hset & _ & Hv).
  assert (k ∉ Arc.keys (Arc.t1 c) ∪ Arc.keys (Arc.t2 c)) as Hnr.
  { destruct HI as [HI _]. apply ArcFacts.arc_inv_sinv in HI as (HI & _ & _).
    unfold ArcStore.view in Hk. rewrite lookup_fmap in Hk.
    destruct (Arc.items c !! k) eqn:Hit; [done|].
    destruct (ArcStore.absent_not_resident c k HI Hit). set_solver. }
  destruct (arc_announces c k v HI Hnr) as (c'' & Hset' & Hev).
  simpl in Hset, Hset', Hev. unfold Arc.Set_ in Hset'. rewrite Hset in Hset'.
  injection Hset' as <-.
  exists c'. split_and!; [done|by rewrite Hv|].
  rewrite Hev. simpl. rewrite (bool_decide_eq_false_2 (k ∉ _)) by (intros ?; done).
  by rewrite andb_false_r, app_nil_r.
Qed.

(** ARC: the [Set] that follows the removal of an entry is not announced.
    When [Remove(k)] has deleted the entry of [k], or a read has found it
    expired and dropped it, the key stays in a ghost list; the next
    [Set(k, v)] stores [v] and does not call the added callback, although
    [k] had no entry when it ran. *)
Theorem arc_set_after_removal_not_announced (c : Arc.ARCCache K V E) k v v0 e :
  ArcStore.arc_store_inv c → ArcStore.view c !! k = Some (v0, e) →
  (∃ c1 c2, Arc.Remove_ k c = Ok true c1 ∧ Arc.Set_ k v c1 = Ok tt c2
     ∧ ArcStore.view c1 !! k = None
     ∧ fst <$> ArcStore.view c2 !! k = Some v
     ∧ addedOf (Base.events (Arc.base c2)) = addedOf (Base.events (Arc.base c)))
  ∧ (isExpired e (Base.clock (Arc.base c)) None = true → ∀ onLoad,
     ∃ c1 c2, Arc.get k onLoad c = Ok None c1 ∧ Arc.Set_ k v c1 = Ok tt c2
       ∧ ArcStore.view c1 !! k = None
       ∧ fst <$> ArcStore.view c2 !! k = Some v
       ∧ addedOf (Base.events (Arc.base c2)) = addedOf (Base.events (Arc.base c))).
Proof.
  intros HI Hk. split.
  - pose proof (ArcStore.arc_Remove c k HI) as Hr. rewrite Hk in Hr.
    destruct Hr as (c1 & Hrm & HI1 & Hv1 & Hev1 & Hg1 & _).
    assert (ArcStore.view c1 !! k = None) as Hk1 by (rewrite Hv1; apply lookup_delete_eq).
    destruct (arc_set_ghost c1 k v HI1 Hk1 Hg1) as (c2 & Hset & Hv2 & Hev2).
    exists c1, c2. split_and!; try done.
    by rewrite Hev2, Hev1, addedOf_evicted.
  - intros Hexp onLoad.
    destruct (StoreFacts.store_get _ _ _ _ ArcStore.arc_store k onLoad c HI)
      as (r & c1 & Hget & HI1 & _ & Hr).
    rewrite Hk in Hr. simpl in Hr, Hget. rewrite Hexp in Hr. destruct Hr as [-> Hv1].
    assert (ArcStore.view c1 !! k = None) as Hk1 by (rewrite Hv1; apply lookup_delete_eq).
    assert (k ∈ Arc.keys (Arc.b1 c1) ∪ Arc.keys (Arc.b2 c1)) as Hg1.
    { pose proof HI as [HA _]. apply ArcFacts.arc_inv_sinv in HA as (HS & _ & _).
      destruct (ArcFacts.getValue_spec c k onLoad HS)
        as (r' & c1' & Hget' & _ & _ & _ & _ & _ & Hnone).
      unfold Arc.get in Hget. rewrite Hget in Hget'. injection Hget' as <- <-.
      destruct (Hnone eq_refl) as (Hn1 & Hn2 & [?|Hsame]); [done|].
      destruct Hsame as (E1 & E2 & _). rewrite E1 in Hn1. rewrite E2 in Hn2.
      assert (k ∈ dom (Arc.items c)) as Hd.
      { unfold ArcStore.view in Hk. rewrite lookup_fmap in Hk.
        apply elem_of_dom. by destruct (Arc.items c !! k). }
      rewrite (ArcFacts.s_dom _ _ HS) in Hd. set_solver. }
    destruct (arc_set_ghost c1 k v HI1 Hk1 Hg1) as (c2 & Hset & Hv2 & Hev2).
    exists c1, c2. split_and!; try done. rewrite Hev2.
    destruct (ExpiryFacts.arc_readsReport c k onLoad HI) as (c1' & Hget' & Hev1 & _).
    simpl in Hget'. rewrite Hget in Hget'. injection Hget' as _ <-.
    simpl in Hev1. rewrite Hev1. unfold ExpiryFacts.expiredCall.
    destruct (ExpiryFacts.arc_entry c k) as [[[k0 w] t]|]; [|by rewrite app_nil_r].
    apply addedOf_evicted.
Qed.
End facts.
End CallbackFacts.

(** ** Runs of the policies on concrete caches *)

Module PolicyRuns.
Import Common StoreFacts Sequences.

Lemma stateOf_Ok {S A} (m : M S A) s a s' : m s = Ok a s' → stateOf (m s) = s'.
Proof. by intros ->. Qed.

(** An LRU cache of capacity 2 with both callbacks, and the same after
    [Set(1, 10); Set(2, 20)]. *)
Definition lru_new : Lru.LRUCache nat nat unit :=
  Lru.init (Base.buildCache 0 2 None true true None).

Definition lru_pair : Lru.LRUCache nat nat unit :=
  stateOf ((Lru.Set_ 1%nat 10%nat;; Lru.Set_ 2%nat 20%nat) lru_new).

Lemma lru_pair_inv : LruFacts.lru_inv lru_pair.
Proof.
  destruct (LruFacts.lru_set_outcome lru_new 1%nat 10%nat (LruFacts.lru_inv_init _))
    as (c1 & H1 & HI1 & _).
  destruct (LruFacts.lru_set_outcome c1 2%nat 20%nat HI1) as (c2 & H2 & HI2 & _).
  unfold lru_pair, Lru.Set_. rewrite (bind_Ok _ _ _ _ _ H1), H2. exact HI2.
Qed.

Lemma lru_set_evicts_least_recent_witness :
  ∃ c', Lru.Set_ 3%nat 30%nat lru_pair = Ok tt c' ∧ LruFacts.lru_inv c'
        ∧ LruFacts.setOutcome lru_pair 3%nat 30%nat c'
        ∧ ∀ k' it', k' ≠ 3%nat → Lru.items lru_pair !! k' = Some it' →
            last (Lru.evictList lru_pair) ≠ Some k' →
            Lru.items c' !! k' = Some it'.
Proof.
  exact (LruFacts.lru_set_evicts_least_recent lru_pair 3%nat 30%nat lru_pair_inv).
Defined.

Lemma lru_get_protects_entry_witness :
  ∃ c1 c2,
    Common.Get 1%nat lru_pair = Ok (Common.GetReturn (Some 10%nat) None) c1
    ∧ Lru.evictList c1 = 1%nat :: filter (λ x, x ≠ 1%nat) (Lru.evictList lru_pair)
    ∧ Lru.items c1 = Lru.items lru_pair
    ∧ Lru.Set_ 3%nat 30%nat c1 = Ok tt c2
    ∧ Lru.items c2 !! 1%nat = Lru.items lru_pair !! 1%nat
    ∧ ∃ rest, Lru.evictList c2 = 3%nat :: 1%nat :: rest.
Proof.
  apply (LruFacts.lru_get_protects_entry lru_pair 1%nat 3%nat 10%nat 30%nat).
  - exact lru_pair_inv.
  - exists None. split; vm_compute; reflexivity.
  - vm_compute. discriminate.
  - vm_compute. reflexivity.
Defined.

(** An LFU cache of capacity 2 with both callbacks, and the same after
    [Set(1, 10); Set(2, 20)]. *)
Definition lfu_new : Lfu.LFUCache nat nat unit :=
  Lfu.init (Base.buildCache 0 2 None true true None).

Definition lfu_pair : Lfu.LFUCache nat nat unit :=
  stateOf ((Lfu.Set_ 1%nat 10%nat;; Lfu.Set_ 2%nat 20%nat) lfu_new).

Lemma lfu_pair_safe : LfuStore.lfu_safe lfu_pair.
Proof.
  destruct (store_set _ _ _ _ LfuStore.lfu_store 1%nat 10%nat lfu_new
              (LfuStore.lfu_inv_init _) I) as (c1 & H1 & HS1 & _).
  destruct (store_set _ _ _ _ LfuStore.lfu_store 2%nat 20%nat c1 HS1 I)
    as (c2 & H2 & HS2 & _).
  unfold lfu_pair, Lfu.Set_. simpl in H1, H2.
  rewrite (bind_Ok _ _ _ _ _ H1), H2. exact HS2.
Qed.

Lemma lfu_set_evicts_least_used_witness :
  ∃ (victim : option nat) L',
    Lfu.Set_ 3%nat 30%nat lfu_pair = Ok tt L' ∧ LfuStore.lfu_inv L'
    ∧ LfuStore.view L'
      = <[3%nat := (30%nat, expiryAfterSet (Lfu.base lfu_pair)
                              (LfuStore.view lfu_pair !! 3%nat ≫= snd))]>
          (match victim with
           | Some k0 => delete k0 (LfuStore.view lfu_pair)
           | None => LfuStore.view lfu_pair
           end)
    ∧ LfuStore.uses L' 3%nat = LfuStore.uses lfu_pair 3%nat
    ∧ (∀ k', k' ≠ 3%nat → victim ≠ Some k' →
         LfuStore.uses L' k' = LfuStore.uses lfu_pair k')
    ∧ match victim with
      | Some k0 =>
          LfuStore.view lfu_pair !! 3%nat = None
          ∧ Base.size (Lfu.base lfu_pair) ≤ Z.of_nat (size (LfuStore.view lfu_pair))
          ∧ is_Some (LfuStore.view lfu_pair !! k0)
          ∧ ∀ k', is_Some (LfuStore.view lfu_pair !! k') →
                  LfuStore.uses lfu_pair k0 ≤ LfuStore.uses lfu_pair k'
      | None =>
          is_Some (LfuStore.view lfu_pair !! 3%nat)
          ∨ Z.of_nat (size (LfuStore.view lfu_pair)) < Base.size (Lfu.base lfu_pair)
          ∨ LfuStore.view lfu_pair = ∅
      end.
Proof.
  apply (LfuStore.lfu_set_evicts_least_used lfu_pair 3%nat 30%nat).
  apply lfu_pair_safe.
Defined.

Lemma lfu_hit_counts_use_witness :
  ∃ L', Common.Get 1%nat lfu_pair = Ok (Common.GetReturn (Some 10%nat) None) L'
    ∧ LfuStore.lfu_inv L' ∧ LfuStore.view L' = LfuStore.view lfu_pair
    ∧ LfuStore.uses L' 1%nat = LfuStore.uses lfu_pair 1%nat + 1
    ∧ ∀ k', k' ≠ 1%nat → LfuStore.uses L' k' = LfuStore.uses lfu_pair k'.
Proof.
  apply (LfuStore.lfu_hit_counts_use lfu_pair 1%nat 10%nat).
  - exact lfu_pair_safe.
  - exists None. split; vm_compute; reflexivity.
Defined.

(** An ARC cache of capacity 2 after [Set(1, 10); Set(2, 20); Get(1);
    Set(3, 30)]: key 3 is in T1, key 1 in T2, and key 2 is a ghost in B1. *)
Definition arc_ghost : Arc.ARCCache nat nat unit :=
  stateOf ((Arc.Set_ 1%nat 10%nat;; Arc.Set_ 2%nat 20%nat;; Common.Get 1%nat;;
            Arc.Set_ 3%nat 30%nat)
             (Arc.init (Base.buildCache 0 2 None true true None))).

Lemma arc_target_size_adapts_witness :
  Arc.part (stateOf (Arc.Set_ 2%nat 21%nat arc_ghost))
  = ArcStore.partAfterSet arc_ghost 2%nat
  ∧ 0 ≤ ArcStore.partAfterSet arc_ghost 2%nat ≤ Base.size (Arc.base arc_ghost)
  ∧ (∀ onLoad, keeps Arc.part (Arc.get (V:=nat) (E:=unit) 2%nat onLoad))
  ∧ keeps Arc.part (Arc.Remove_ (V:=nat) (E:=unit) 2%nat)
  ∧ (∀ t, keeps Arc.part (Arc.setItemExpiration (V:=nat) (E:=unit) 2%nat t)).
Proof.
  apply (ArcStore.arc_target_size_adapts arc_ghost 2%nat 21%nat).
  - split; [apply (bool_decide_unpack _); vm_compute; exact I|vm_compute; reflexivity].
  - split; [apply (bool_decide_unpack _); vm_compute; exact I|vm_compute; reflexivity].
  - vm_compute. split; discriminate.
  - vm_compute. reflexivity.
  - vm_compute. reflexivity.
  - vm_compute. reflexivity.
Defined.

Lemma set_get_round_trip_witness :
  ∃ c1, Lru.Set_ 3%nat 30%nat lru_pair = Ok tt c1 ∧ LruFacts.lru_inv c1
    ∧ if isExpired (expiryAfterSet (Lru.base lru_pair)
                      (LruFacts.view lru_pair !! 3%nat ≫= snd))
           (Base.clock (Lru.base lru_pair)) None
      then Base.loaderExpireFunc (Lru.base lru_pair) = None →
           ∃ c2, Get 3%nat c1 = Ok (GetReturn None (Some KeyNotFoundError)) c2
                 ∧ LruFacts.view c2 !! 3%nat = None
      else ∃ c2, Get 3%nat c1 = Ok (GetReturn (Some 30%nat) None) c2
                 ∧ LruFacts.view c2 = LruFacts.view c1.
Proof.
  exact (proj1 (proj2 PolicyLaws.set_get_round_trip) 3%nat 30%nat lru_pair
           lru_pair_inv I).
Defined.

Lemma entry_expires_after_its_duration_witness :
  ∃ c1, (Lfu.SetWithExpire 3%nat 30%nat 10;; Clock.Advance 10) lfu_pair = Ok tt c1
    ∧ LfuStore.lfu_safe c1
    ∧ if bool_decide (10 ≤ 10)
      then ∃ c2, Get 3%nat c1 = Ok (GetReturn (Some 30%nat) None) c2
                 ∧ LfuStore.view c2 = LfuStore.view c1
      else Base.loaderExpireFunc (Lfu.base lfu_pair) = None →
           ∃ c2, Get 3%nat c1 = Ok (GetReturn None (Some KeyNotFoundError)) c2
                 ∧ LfuStore.view c2 !! 3%nat = None.
Proof.
  exact (proj1 (proj2 (proj2 PolicyLaws.entry_expires_after_its_duration))
           3%nat 30%nat 10 10 lfu_pair lfu_pair_safe I).
Defined.

(** A new SIMPLE cache with the loader [loader100]. *)
Definition simple_loader : Simple.SimpleCache nat nat unit :=
  Simple.init (Base.buildCache 0 0 (Some Runs.loader100) false false None).

Lemma get_loads_on_miss_witness :
  ∃ c', Get 9%nat simple_loader = Ok (GetReturn (Some 109%nat) None) c' ∧ True
    ∧ SimpleFacts.view c' !! 9%nat
      = Some (109%nat, loadedExpiry (Simple.base simple_loader) None)
    ∧ Base.group (Simple.base c') = Base.group (Simple.base simple_loader)
    ∧ (isExpired (loadedExpiry (Simple.base simple_loader) None)
         (Base.clock (Simple.base simple_loader)) None = false →
       ∃ c'', Get 9%nat c' = Ok (GetReturn (Some 109%nat) None) c''
              ∧ SimpleFacts.view c'' = SimpleFacts.view c').
Proof.
  apply (proj1 PolicyLaws.get_loads_on_miss 9%nat simple_loader Runs.loader100
           109%nat None); try exact I; reflexivity.
Defined.

Lemma loader_failure_stores_nothing_witness :
  (∀ v ex e, Runs.loaderFails 9%nat = Loaded v ex (Some e) →
     ∃ c', Get 9%nat Runs.lru_failing = Ok (GetReturn None (Some e)) c'
       ∧ LruFacts.lru_inv c'
       ∧ LruFacts.view c' = delete 9%nat (LruFacts.view Runs.lru_failing)
       ∧ Base.group (Lru.base c') = Base.group (Lru.base Runs.lru_failing))
  ∧ (Runs.loaderFails 9%nat = LoaderPanics →
     ∃ c', Get 9%nat Runs.lru_failing = Ok (GetReturn None (Some LoaderPanic)) c'
       ∧ LruFacts.lru_inv c'
       ∧ LruFacts.view c' = delete 9%nat (LruFacts.view Runs.lru_failing)
       ∧ Base.group (Lru.base c') = Base.group (Lru.base Runs.lru_failing)).
Proof.
  apply (proj1 (proj2 PolicyLaws.loader_failure_stores_nothing) 9%nat
           Runs.lru_failing Runs.loaderFails).
  - apply LruFacts.lru_inv_init.
  - exact I.
  - reflexivity.
  - reflexivity.
Defined.

Lemma get_if_present_loads_in_background_witness :
  ∃ c1 c2,
    GetIfPresent 9%nat simple_loader
    = Ok (GetReturn None (Some KeyNotFoundError)) c1
    ∧ SimpleFacts.view c1 = delete 9%nat (SimpleFacts.view simple_loader)
    ∧ Flight.goroutines (Base.group (Simple.base c1)) = [9%nat]
    ∧ (∃ c1', GetIfPresent 9%nat c1
              = Ok (GetReturn None (Some KeyNotFoundError)) c1'
              ∧ SimpleFacts.view c1' = SimpleFacts.view c1
              ∧ Base.group (Simple.base c1') = Base.group (Simple.base c1))
    ∧ runGoroutine c1 = Ok tt c2 ∧ True
    ∧ SimpleFacts.view c2 !! 9%nat
      = Some (109%nat, loadedExpiry (Simple.base simple_loader) None)
    ∧ Base.group (Simple.base c2) = Base.group (Simple.base simple_loader)
    ∧ (isExpired (loadedExpiry (Simple.base simple_loader) None)
         (Base.clock (Simple.base simple_loader)) None = false →
       ∃ c3, Get 9%nat c2 = Ok (GetReturn (Some 109%nat) None) c3
             ∧ SimpleFacts.view c3 = SimpleFacts.view c2).
Proof.
  apply (proj1 PolicyLaws.get_if_present_loads_in_background 9%nat simple_loader
           Runs.loader100 109%nat None); try exact I; reflexivity.
Defined.

Lemma get_waits_for_load_in_flight_witness :
  ∃ c', Get 9%nat Runs.simple_inflight = Ok (GetWait 9%nat) c' ∧ True
    ∧ SimpleFacts.view c' = delete 9%nat (SimpleFacts.view Runs.simple_inflight)
    ∧ settingsOf c' = settingsOf Runs.simple_inflight.
Proof.
  apply (proj1 PolicyLaws.get_waits_for_load_in_flight 9%nat Runs.simple_inflight
           Runs.loader100
           {| Flight.wg := 1; Flight.val := None; Flight.err := None |}).
  - exact I.
  - exact I.
  - vm_compute. reflexivity.
  - vm_compute. reflexivity.
Defined.

Lemma remove_deletes_entry_witness :
  match LruFacts.view lru_pair !! 1%nat with
  | Some (v, _) =>
      ∃ c', Lru.Remove 1%nat lru_pair = Ok true c' ∧ LruFacts.lru_inv c'
        ∧ LruFacts.view c' = delete 1%nat (LruFacts.view lru_pair)
        ∧ Base.events (Lru.base c')
          = Base.events (Lru.base lru_pair)
            ++ (if Base.evictedFunc (Lru.base lru_pair)
                then [Evicted 1%nat v] else [])
        ∧ Lru.Remove 1%nat c' = Ok false c'
  | None => Lru.Remove 1%nat lru_pair = Ok false lru_pair
  end.
Proof.
  exact (proj1 (proj2 PolicyLaws.remove_deletes_entry) lru_pair 1%nat lru_pair_inv).
Defined.

(** A run on an LFU cache of capacity 2 with a loader. *)
Definition lfu_run : list (op nat nat) :=
  [DoSet 1%nat 10%nat; DoGet 1%nat; DoSet 2%nat 20%nat; DoSet 3%nat 30%nat;
   DoGetIfPresent 9%nat; DoGoroutine; DoAdvance 5; DoRemove 1%nat;
   DoSetWithExpire 4%nat 40%nat 7; DoGet 4%nat].

Lemma lfu_never_exceeds_capacity_witness :
  ∃ L, steps Lfu.Set_ Lfu.SetWithExpire Lfu.Remove lfu_run
         (Lfu.init (Base.buildCache 0 2 (Some Runs.loader100) true true None))
       = Ok tt L
       ∧ LfuStore.lfu_inv L
       ∧ Lfu.Len 0 false L = Ok (Z.of_nat (size (Lfu.items L))) L
       ∧ Z.of_nat (size (Lfu.items L))
         ≤ Z.max 1 (Base.size (Base.buildCache (K:=nat) (V:=nat) (E:=unit)
                                 0 2 (Some Runs.loader100) true true None)).
Proof.
  apply (CapacityFacts.lfu_never_exceeds_capacity
           (Base.buildCache 0 2 (Some Runs.loader100) true true None) lfu_run 0).
  vm_compute. reflexivity.
Defined.

(** The LFU cache on which [lfu_run] runs, and the cache after the run. *)
Definition lfu_start : Lfu.LFUCache nat nat unit :=
  Lfu.init (Base.buildCache 0 2 (Some Runs.loader100) true true None).

Definition lfu_ran : Lfu.LFUCache nat nat unit :=
  stateOf (steps Lfu.Set_ Lfu.SetWithExpire Lfu.Remove lfu_run lfu_start).

Lemma lookups_are_counted_witness :
  LookupCount (statsOf lfu_ran)
  = wrap_uint (LookupCount (statsOf lfu_start) + LookupFacts.reads lfu_run).
Proof.
  apply (proj1 (proj2 (proj2 LookupFacts.lookups_are_counted))
           lfu_run lfu_start lfu_ran).
  vm_compute. reflexivity.
Defined.

(** An ARC cache of capacity 2 with both callbacks after [Set(1, 10);
    Remove(1)]: key 1 has no entry and is a ghost in B1. *)
Definition arc_new : Arc.ARCCache nat nat unit :=
  Arc.init (Base.buildCache 0 2 None true true None).

Definition arc_forgot : Arc.ARCCache nat nat unit :=
  stateOf ((Arc.Set_ 1%nat 10%nat;; Arc.Remove_ 1%nat) arc_new).

Lemma arc_forgot_inv : ArcStore.arc_store_inv arc_forgot.
Proof.
  assert (ArcStore.arc_store_inv arc_new) as H0.
  { split; [apply ArcFacts.arc_inv_init|]; simpl; lia. }
  destruct (store_set _ _ _ _ ArcStore.arc_store 1%nat 10%nat arc_new H0 eq_refl)
    as (c1 & H1 & HI1 & Hv1).
  pose proof (ArcStore.arc_Remove c1 1%nat HI1) as Hr. rewrite Hv1 in Hr.
  destruct Hr as (c2 & H2 & HI2 & _).
  unfold arc_forgot. simpl in H1. unfold Arc.Set_ in *.
  rewrite (bind_Ok _ _ _ _ _ H1), H2. exact HI2.
Qed.

Lemma set_calls_added_callback_witness :
  ∃ c', Arc.Set_ 1%nat 11%nat arc_forgot = Ok tt c'
    ∧ CallbackFacts.addedOf (Base.events (Arc.base c'))
      = CallbackFacts.addedOf (Base.events (Arc.base arc_forgot))
        ++ (if Base.addedFunc (Arc.base arc_forgot)
               && bool_decide (1%nat ∉ Arc.keys (Arc.b1 arc_forgot)
                                       ∪ Arc.keys (Arc.b2 arc_forgot))
            then [(1%nat, 11%nat)] else []).
Proof.
  apply (proj2 (proj2 (proj2 CallbackFacts.set_calls_added_callback))
           arc_forgot 1%nat 11%nat).
  - exact arc_forgot_inv.
  - apply (bool_decide_unpack _). vm_compute. exact I.
Defined.

(** An LRU cache whose entries expire at once, after [Set(1, 10)]. *)
Definition lru_brief : Lru.LRUCache nat nat unit :=
  Lru.init (Base.buildCache 0 2 None true true (Some (-1))).

Definition lru_stale : Lru.LRUCache nat nat unit :=
  stateOf (Lru.Set_ 1%nat 10%nat lru_brief).

Lemma lru_stale_inv : LruFacts.lru_inv lru_stale.
Proof.
  destruct (LruFacts.lru_set_outcome lru_brief 1%nat 10%nat (LruFacts.lru_inv_init _))
    as (c1 & H1 & HI1 & _).
  unfold lru_stale, Lru.Set_. rewrite H1. exact HI1.
Qed.

Lemma read_reports_expired_entry_witness :
  ∃ c', Lru.get 1%nat false lru_stale
        = Ok (ExpiryFacts.readValue (Lru.base lru_stale)
                (ExpiryFacts.lru_entry lru_stale 1%nat)) c'
    ∧ Base.events (Lru.base c')
      = Base.events (Lru.base lru_stale)
        ++ ExpiryFacts.expiredCall (Lru.base lru_stale)
             (ExpiryFacts.lru_entry lru_stale 1%nat)
    ∧ (false = false → Base.loaderExpireFunc (Lru.base lru_stale) = None →
       Get 1%nat lru_stale
       = Ok (ExpiryFacts.asResult
               (ExpiryFacts.readValue (Lru.base lru_stale)
                  (ExpiryFacts.lru_entry lru_stale 1%nat))) c'
       ∧ GetIfPresent 1%nat lru_stale
         = Ok (ExpiryFacts.asResult
                 (ExpiryFacts.readValue (Lru.base lru_stale)
                    (ExpiryFacts.lru_entry lru_stale 1%nat))) c').
Proof.
  exact (proj1 (proj2 ExpiryFacts.read_reports_expired_entry)
           lru_stale 1%nat false lru_stale_inv).
Defined.

(** An ARC cache whose entries expire at once, after [Set(1, 10)]. *)
Definition arc_brief : Arc.ARCCache nat nat unit :=
  Arc.init (Base.buildCache 0 2 None true true (Some (-1))).

Definition arc_stale : Arc.ARCCache nat nat unit :=
  stateOf (Arc.Set_ 1%nat 10%nat arc_brief).

Lemma arc_stale_inv : ArcStore.arc_store_inv arc_stale.
Proof.
  assert (ArcStore.arc_store_inv arc_brief) as H0.
  { split; [apply ArcFacts.arc_inv_init|]; simpl; lia. }
  destruct (store_set _ _ _ _ ArcStore.arc_store 1%nat 10%nat arc_brief H0 eq_refl)
    as (c1 & H1 & HI1 & _).
  unfold arc_stale. simpl in H1. unfold Arc.Set_. rewrite H1. exact HI1.
Qed.

Lemma arc_stale_entry : ArcStore.view arc_stale !! 1%nat = Some (10%nat, Some (-1)).
Proof. vm_compute. reflexivity. Qed.

Lemma arc_set_after_removal_not_announced_witness :
  (∃ c1 c2, Arc.Remove_ 1%nat arc_stale = Ok true c1
     ∧ Arc.Set_ 1%nat 11%nat c1 = Ok tt c2
     ∧ ArcStore.view c1 !! 1%nat = None
     ∧ fst <$> ArcStore.view c2 !! 1%nat = Some 11%nat
     ∧ CallbackFacts.addedOf (Base.events (Arc.base c2))
       = CallbackFacts.addedOf (Base.events (Arc.base arc_stale)))
  ∧ ∀ onLoad,
      ∃ c1 c2, Arc.get 1%nat onLoad arc_stale = Ok None c1
        ∧ Arc.Set_ 1%nat 11%nat c1 = Ok tt c2
        ∧ ArcStore.view c1 !! 1%nat = None
        ∧ fst <$> ArcStore.view c2 !! 1%nat = Some 11%nat
        ∧ CallbackFacts.addedOf (Base.events (Arc.base c2))
          = CallbackFacts.addedOf (Base.events (Arc.base arc_stale)).
Proof.
  destruct (CallbackFacts.arc_set_after_removal_not_announced
              arc_stale 1%nat 11%nat 10%nat (Some (-1)) arc_stale_inv arc_stale_entry)
    as [H1 H2].
  split; [exact H1|exact (H2 eq_refl)].
Defined.
End PolicyRuns.
